(** * Coupled 2D-3D time integration: stage arithmetic and scheduling

    A shallow embedding of the scheduling logic of
    [cofs/coupledTimeIntegrator.py], of the steppers of
    [thetis/timeintegrator.py] ([ForwardEuler], [CrankNicolson],
    [PressureProjectionPicard], [LeapFrogAM3], [SSPRK22ALE],
    [TwoStageTrapezoid]) and of
    [MomentumEquation.horizontal_advection], [pressure_grad] and [rhs]
    in [cofs/momentum_eq.py].

    Conventions.
    - Python exceptions are values of [exn]; a computation that may raise
      returns an [outcome].  Methods that mutate [self] or call collaborators
      live in the state-and-exception monad [M]: the state reached when an
      exception is raised is kept, as in Python.
    - Calls to collaborators whose code is outside these files (field copies,
      projections, sub-stepper solves, the limiter, the turbulence closure)
      are recorded, in program order, as [event]s of a trace, and are taken
      to return normally.  Exceptions therefore come only from what the
      modelled files do themselves: unbound names, attributes no constructor
      assigned, explicit [raise], division by zero, [int] of a non-finite
      float.
    - Python floats are binary64: instance [binary64] of the class [Arith]
      runs the stage arithmetic on Rocq's primitive floats.  Instance
      [exact] runs the very same definitions on rationals.  Rounding errors
      are bounded from the specification of the primitive operations in
      [SpecFloat]. *)

From Stdlib Require Import ZArith QArith Qround Qabs Qpower Floats List String
  Lia Lqa.
From stdpp Require Import base gmap strings list.
Import ListNotations.

Set Warnings "-inexact-float".
Local Open Scope string_scope.
Local Open Scope list_scope.

(** ** Exceptions and computations that may raise *)

Inductive exn : Type :=
| NameError (name : string)
| AttributeError (attr : string)
| KeyError
| IndexError
| ZeroDivisionError
| OverflowError
| ValueError
| Exception (msg : string).

Inductive outcome (A : Type) : Type :=
| Ret (a : A)
| Raise (e : exn).
Arguments Ret {A} a.
Arguments Raise {A} e.

Definition bind {A B} (c : outcome A) (k : A -> outcome B) : outcome B :=
  match c with
  | Ret a => k a
  | Raise e => Raise e
  end.

Declare Scope py_scope.
Delimit Scope py_scope with py.
Notation "x <- c ;; k" := (bind c (fun x => k))
  (at level 100, c at next level, right associativity) : py_scope.

(** [l[i]] for a non-negative index. *)
Definition index {A} (l : list A) (i : nat) : outcome A :=
  match l !! i with
  | Some a => Ret a
  | None => Raise IndexError
  end.

(** [[f(x) for x in l]], stopping at the first exception. *)
Fixpoint mapM {A B} (f : A -> outcome B) (l : list A) : outcome (list B) :=
  match l with
  | [] => Ret []
  | a :: l' => (b <- f a ;; bs <- mapM f l' ;; Ret (b :: bs))%py
  end.

(** ** Arithmetic

    The operations the stage arithmetic uses, as an interface with two
    instances. [of_int] is both a float literal with an integral value
    ([1.0], [4.0]) and the conversion of a Python [int] operand in mixed
    arithmetic; [ceil_int x] is [int(np.ceil(x))]. *)

Class Arith (num : Type) : Type := {
  of_int : Z -> num;
  add : num -> num -> num;
  sub : num -> num -> num;
  mul : num -> num -> num;
  quot : num -> num -> num;
  is_zero : num -> bool;
  ceil_int : num -> outcome Z;
  eqb : num -> num -> bool;
  leb : num -> num -> bool;
  ltb : num -> num -> bool;
  absv : num -> num
}.

(** Python's [x / y] on floats: a zero divisor raises. *)
Definition div {num} `{Arith num} (x y : num) : outcome num :=
  if is_zero y then Raise ZeroDivisionError else Ret (quot x y).

(** *** binary64 *)

Definition float_of_Z (z : Z) : float :=
  SF2Prim (binary_normalize prec emax z 0 false).

(** [int(np.ceil(x))]: the least integer not below [x]; [int] raises
    [ValueError] on a NaN and [OverflowError] on an infinity. *)
Definition float_ceil (x : float) : outcome Z :=
  match Prim2SF x with
  | S754_zero _ => Ret 0%Z
  | S754_infinity _ => Raise OverflowError
  | S754_nan => Raise ValueError
  | S754_finite s m e =>
      let a := match e with
               | Z0 => Z.pos m
               | Zpos p => (Z.pos m * 2 ^ Zpos p)%Z
               | Zneg p => if s then (Z.pos m / 2 ^ Zpos p)%Z
                           else (- ((- Z.pos m) / 2 ^ Zpos p))%Z
               end in
      Ret (if s then (- a)%Z else a)
  end.

#[export] Instance binary64 : Arith float := {
  of_int := float_of_Z;
  add := PrimFloat.add;
  sub := PrimFloat.sub;
  mul := PrimFloat.mul;
  quot := PrimFloat.div;
  is_zero := fun x => PrimFloat.eqb x 0%float;
  ceil_int := float_ceil;
  eqb := PrimFloat.eqb;
  leb := PrimFloat.leb;
  ltb := PrimFloat.ltb;
  absv := PrimFloat.abs
}.

(** *** exact rationals *)

#[export] Instance exact : Arith Q := {
  of_int := inject_Z;
  add := Qplus;
  sub := Qminus;
  mul := Qmult;
  quot := Qdiv;
  is_zero := fun x => Qeq_bool x 0%Q;
  ceil_int := fun x => Ret (Qceiling x);
  eqb := Qeq_bool;
  leb := Qle_bool;
  ltb := fun x y => negb (Qle_bool y x);
  absv := Qabs
}.

(** ** The stage tables of the 3-stage SSP recipes

    [coupledSSPRKSync.__init__] (lines 203-211) and
    [coupledSSPRKSemiImplicit.__init__] (lines 448-456) hold the same text. *)

Section StageTables.
Context {num : Type} `{Arith num}.

(** [self.dt_frac = [1.0, 1.0/4.0, 2.0/3.0]] *)
Definition dt_frac : outcome (list num) :=
  (a <- div (of_int 1) (of_int 4) ;;
   b <- div (of_int 2) (of_int 3) ;;
   Ret [of_int 1; a; b])%py.

(** [self.start_frac = [0.0, 1.0/4.0, 1.0/3.0]] *)
Definition start_frac : outcome (list num) :=
  (a <- div (of_int 1) (of_int 4) ;;
   b <- div (of_int 1) (of_int 3) ;;
   Ret [of_int 0; a; b])%py.

(** The body of the loop [for i in range(1, len(self.dt_frac))]. *)
Definition stage_w_at (dtf stf : list num) (i : nat) : outcome num :=
  (s_prev <- index stf (i - 1) ;;
   d_prev <- index dtf (i - 1) ;;
   let prev_end_time := add s_prev d_prev in
   s_i <- index stf i ;;
   Ret (mul prev_end_time (sub (of_int 1) s_i)))%py.

(** [self.stage_w], built from the two tables. *)
Definition stage_w_of (dtf stf : list num) : outcome (list num) :=
  (s0 <- index stf 0 ;;
   ws <- mapM (stage_w_at dtf stf) (seq 1 (length dtf - 1)) ;;
   Ret (sub (of_int 1) s0 :: ws))%py.

Record tables : Type := {
  t_dt_frac : list num;
  t_start_frac : list num;
  t_stage_w : list num
}.

Definition ssp_tables : outcome tables :=
  (dtf <- dt_frac ;;
   stf <- start_frac ;;
   w <- stage_w_of dtf stf ;;
   Ret {| t_dt_frac := dtf; t_start_frac := stf; t_stage_w := w |})%py.

(** *** Sub-cycle counts

    The body of the loop [for i, f in enumerate(self.dt_frac)] of
    [initialize] (lines 228-233 and 473-478):
    [M = int(np.ceil(f*self.solver.dt/self.solver.dt_2d))],
    [dt = f*self.solver.dt/M], with [self.solver.dt] and
    [self.solver.dt_2d] Python floats. *)

Definition substep (solver_dt solver_dt_2d f : num) : outcome (Z * num) :=
  (r <- div (mul f solver_dt) solver_dt_2d ;;
   M <- ceil_int r ;;
   dt <- div (mul f solver_dt) (of_int M) ;;
   Ret (M, dt))%py.

End StageTables.


(** ** The coupled recipes: objects, collaborators, traces *)

(** The switches of [solver.options] that the recipes read.  The two factors
    are only tested with [is not None]. *)
Record options : Type := {
  useALEMovingMesh : bool;
  useBottomFriction : bool;
  useParabolicViscosity : bool;
  baroclinic : bool;
  useTurbulence : bool;
  useTurbulenceAdvection : bool;
  useLimiterForTracers : bool;
  solveSalt : bool;
  solveVertDiffusion : bool;
  smagorinskyFactor_given : bool;
  saltJumpDiffFactor_given : bool
}.

(** The five classes of the file. *)
Inductive recipe : Type :=
| coupledSSPRKSync
| coupledSSPIMEX
| coupledSSPRKSemiImplicit
| coupledSSPRKSingleMode
| coupledSSPRK.

(** The sub-stepper attributes a recipe may hold. *)
Inductive stepper : Type :=
| timeStepper2d
| timeStepper_mom3d
| timeStepper_salt3d
| timeStepper_vmom3d
| timeStepper_tke3d
| timeStepper_psi3d
| timeStepper_tkeAdvEq
| timeStepper_psiAdvEq.

#[export] Instance stepper_eq_dec : EqDecision stepper.
Proof. solve_decision. Defined.

Definition attr_name (s : stepper) : string :=
  match s with
  | timeStepper2d => "timeStepper2d"
  | timeStepper_mom3d => "timeStepper_mom3d"
  | timeStepper_salt3d => "timeStepper_salt3d"
  | timeStepper_vmom3d => "timeStepper_vmom3d"
  | timeStepper_tke3d => "timeStepper_tke3d"
  | timeStepper_psi3d => "timeStepper_psi3d"
  | timeStepper_tkeAdvEq => "timeStepper_tkeAdvEq"
  | timeStepper_psiAdvEq => "timeStepper_psiAdvEq"
  end.

(** Fields handed to the limiter. *)
Inductive field : Type := salt3d | tke3d | psi3d.

(** The keyword arguments of [_updateAllDependencies]. *)
Record flags : Type := {
  do2DCoupling : bool;
  doVertDiffusion : bool;
  doALEUpdate : bool;
  doStabParams : bool;
  doTurbulence : bool
}.

(** Collaborator calls, named after the source text. *)
Inductive call : Type :=
| copy2dFieldTo3d_elev2d_elev3d
| elev3d_to_CG_projector_project
| computeVertVelocity
| updateCoordinates
| computeElemHeight
| copy3dFieldTo2d_vElemSize
| uvP1_projector_project
| computeBottomFriction
| computeParabolicViscosity
| computeVerticalIntegral
| copy3dFieldTo2d_uvDav
| copy2dFieldTo3d_uvDav
| uv3d_isub_uvDav3d
| copy2dFieldTo3d_uv2d_uvDav3d
| uv3d_iadd_uvDav3d
| uv2d_assign_uvDav2d
| uv2d_start_assign_uvDav2d
| computeMeshVelocity
| computeBaroclinicHead
| glsModel_preprocess
| glsModel_postprocess
| computeVelMagnitude
| smagorinskyViscosity
| computeHorizJumpDiffusivity
| sol2d_n_assign_sol2d
| sol2d_assign_blend
| copy2dFieldTo3d_elev_n
| copy2dFieldTo3d_elev_nph.

(** What a run leaves behind, in program order.  [ready] tells whether
    [initialize] had been called on the sub-stepper when it was used;
    [Enter fl] marks an entry of [_updateAllDependencies] with its
    arguments. *)
Inductive event : Type :=
| Call (c : call)
| Initialize (s : stepper)
| Advance (s : stepper) (ready : bool)
| SolveStage (s : stepper) (k : nat) (ready : bool)
| LimiterApply (f : field)
| Enter (fl : flags).

Declare Scope m_scope.
Delimit Scope m_scope with M.

Section Recipes.
Context {num : Type} `{Arith num}.

(** The instance attributes.  [solver_dt] and [solver_dt_2d] are
    [self.solver.dt] and [self.solver.dt_2d]; [steppers] lists the
    [timeStepper_*] attributes that were assigned, [ready] the
    sub-steppers on which [initialize] was called; [M_] and [dt_2d_] are
    [self.M] and [self.dt_2d]; [nStages] is [self.nStages] and [nstages]
    is [self.timeStepper2d.nstages]. *)
Record obj : Type := {
  cls : recipe;
  opts : options;
  solver_dt : num;
  solver_dt_2d : num;
  steppers : list stepper;
  _initialized : bool;
  ready : list stepper;
  tabs : option (@tables num);
  M_ : list Z;
  dt_2d_ : list num;
  nStages : nat;
  nstages : nat
}.

Definition set_initialized (b : bool) (o : obj) : obj :=
  {| cls := cls o; opts := opts o; solver_dt := solver_dt o;
     solver_dt_2d := solver_dt_2d o; steppers := steppers o;
     _initialized := b; ready := ready o; tabs := tabs o; M_ := M_ o;
     dt_2d_ := dt_2d_ o; nStages := nStages o; nstages := nstages o |}.

Definition set_ready (r : list stepper) (o : obj) : obj :=
  {| cls := cls o; opts := opts o; solver_dt := solver_dt o;
     solver_dt_2d := solver_dt_2d o; steppers := steppers o;
     _initialized := _initialized o; ready := r; tabs := tabs o;
     M_ := M_ o; dt_2d_ := dt_2d_ o; nStages := nStages o;
     nstages := nstages o |}.

Definition set_M (m : list Z) (o : obj) : obj :=
  {| cls := cls o; opts := opts o; solver_dt := solver_dt o;
     solver_dt_2d := solver_dt_2d o; steppers := steppers o;
     _initialized := _initialized o; ready := ready o; tabs := tabs o;
     M_ := m; dt_2d_ := dt_2d_ o; nStages := nStages o;
     nstages := nstages o |}.

Definition set_dt_2d (d : list num) (o : obj) : obj :=
  {| cls := cls o; opts := opts o; solver_dt := solver_dt o;
     solver_dt_2d := solver_dt_2d o; steppers := steppers o;
     _initialized := _initialized o; ready := ready o; tabs := tabs o;
     M_ := M_ o; dt_2d_ := d; nStages := nStages o;
     nstages := nstages o |}.

Record world : Type := {
  self : obj;
  trace : list event
}.

Definition M (A : Type) : Type := world -> outcome A * world.

Definition ret {A} (a : A) : M A := fun w => (Ret a, w).
Definition raise {A} (e : exn) : M A := fun w => (Raise e, w).
Definition bindM {A B} (c : M A) (k : A -> M B) : M B :=
  fun w => match c w with
           | (Ret a, w') => k a w'
           | (Raise e, w') => (Raise e, w')
           end.
Definition lift {A} (c : outcome A) : M A := fun w => (c, w).
Definition get : M obj := fun w => (Ret (self w), w).
Definition modify (f : obj -> obj) : M unit :=
  fun w => (Ret tt, {| self := f (self w); trace := trace w |}).
Definition emit (e : event) : M unit :=
  fun w => (Ret tt, {| self := self w; trace := trace w ++ [e] |}).
Definition when (b : bool) (c : M unit) : M unit := if b then c else ret tt.

Notation "x <- c ;; k" := (bindM c (fun x => k))
  (at level 100, c at next level, right associativity) : m_scope.
Notation "c ;; k" := (bindM c (fun _ => k))
  (at level 100, k at level 200, right associativity) : m_scope.
Local Open Scope m_scope.

(** The names bound at module level when a method runs: the module's own
    definitions and what [from utility import *] brings in.  The utility
    module is not among the sources, so its names are a parameter. *)
Variable utility : gset string.

Definition module_names : gset string :=
  {[ "timeIntegrator"; "coupledTimeIntegrator"; "coupledSSPRKSync";
     "coupledSSPIMEX"; "coupledSSPRKSemiImplicit";
     "coupledSSPRKSingleMode"; "coupledSSPRK" ]}.

(** Reading a name inside a method: the method's parameters and local
    variables first, then the module level.  (The builtins come last; none
    of the names read below is one.) *)
Definition resolve (locals : list string) (x : string) : outcome unit :=
  if bool_decide (x ∈ locals) then Ret tt
  else if bool_decide (x ∈ module_names ∪ utility) then Ret tt
  else Raise (NameError x).

Definition load_name (locals : list string) (x : string) : M unit :=
  lift (resolve locals x).

(** [for x in l: body]. *)
Fixpoint for_each {A} (l : list A) (body : A -> M unit) : M unit :=
  match l with
  | [] => ret tt
  | a :: l' => body a ;; for_each l' body
  end.

(** [self.<stepper>]: the attribute must have been assigned. *)
Definition get_stepper (s : stepper) : M unit :=
  o <- get ;;
  if bool_decide (s ∈ steppers o) then ret tt
  else raise (AttributeError (attr_name s)).

Definition is_ready (s : stepper) : M bool :=
  o <- get ;; ret (bool_decide (s ∈ ready o)).

(** [self.<stepper>.initialize(...)] *)
Definition stepper_initialize (s : stepper) : M unit :=
  get_stepper s ;;
  emit (Initialize s) ;;
  modify (fun o => set_ready (s :: ready o) o).

(** [self.<stepper>.solveStage(k, t, self.solver.dt, ...)], called from
    [advance], of which [k] and [t] are local names. *)
Definition solveStage (s : stepper) (k : nat) : M unit :=
  get_stepper s ;; r <- is_ready s ;; emit (SolveStage s k r).

(** [self.<stepper>.advance(<time>, ...)], where the first argument reads
    the name [time] and [locals] are the names bound in the calling
    method.  The callee expression is evaluated before the arguments. *)
Definition stepper_advance (locals : list string) (time : string)
           (s : stepper) : M unit :=
  get_stepper s ;;
  load_name locals time ;;
  r <- is_ready s ;;
  emit (Advance s r).

Definition do_call (c : call) : M unit := emit (Call c).
Definition limiter_apply (f : field) : M unit := emit (LimiterApply f).

(** *** The base class [coupledTimeIntegrator] *)

Definition _update3dElevation : M unit :=
  do_call copy2dFieldTo3d_elev2d_elev3d ;;
  do_call elev3d_to_CG_projector_project.

Definition _updateVerticalVelocity : M unit :=
  do_call computeVertVelocity.

Definition _updateMovingMesh : M unit :=
  o <- get ;;
  when (useALEMovingMesh (opts o))
    (do_call updateCoordinates ;;
     do_call computeElemHeight ;;
     do_call copy3dFieldTo2d_vElemSize).

Definition _updateBottomFriction : M unit :=
  o <- get ;;
  when (useBottomFriction (opts o))
    (do_call uvP1_projector_project ;;
     do_call computeBottomFriction) ;;
  when (useParabolicViscosity (opts o))
    (do_call computeParabolicViscosity).

(** [_update2DCoupling] is overridden in two subclasses; the call
    [self._update2DCoupling()] dispatches on the class of [self]. *)
Definition _update2DCoupling : M unit :=
  o <- get ;;
  match cls o with
  | coupledSSPRKSingleMode =>
      do_call computeVerticalIntegral ;;
      do_call copy3dFieldTo2d_uvDav ;;
      do_call uv2d_assign_uvDav2d
  | coupledSSPRK =>
      do_call computeVerticalIntegral ;;
      do_call copy3dFieldTo2d_uvDav ;;
      do_call copy2dFieldTo3d_uvDav ;;
      do_call uv2d_start_assign_uvDav2d
  | _ =>
      do_call computeVerticalIntegral ;;
      do_call copy3dFieldTo2d_uvDav ;;
      do_call copy2dFieldTo3d_uvDav ;;
      do_call uv3d_isub_uvDav3d ;;
      do_call copy2dFieldTo3d_uv2d_uvDav3d ;;
      do_call uv3d_iadd_uvDav3d
  end.

Definition _updateMeshVelocity : M unit :=
  o <- get ;;
  when (useALEMovingMesh (opts o)) (do_call computeMeshVelocity).

Definition _updateBaroclinicity : M unit :=
  o <- get ;;
  when (baroclinic (opts o)) (do_call computeBaroclinicHead).

(** [_updateTurbulence(self)]: [self] is the only local name. *)
Definition _updateTurbulence : M unit :=
  o <- get ;;
  when (useTurbulence (opts o))
    (do_call glsModel_preprocess ;;
     stepper_advance ["self"] "t" timeStepper_psi3d ;;
     stepper_advance ["self"] "t" timeStepper_tke3d ;;
     when (useLimiterForTracers (opts o))
       (limiter_apply tke3d ;; limiter_apply psi3d) ;;
     do_call glsModel_postprocess).

Definition _updateStabilizationParams : M unit :=
  o <- get ;;
  do_call computeVelMagnitude ;;
  do_call uvP1_projector_project ;;
  when (smagorinskyFactor_given (opts o)) (do_call smagorinskyViscosity) ;;
  when (saltJumpDiffFactor_given (opts o))
    (do_call computeHorizJumpDiffusivity).

Definition _updateAllDependencies_locals : list string :=
  ["self"; "do2DCoupling"; "doVertDiffusion"; "doALEUpdate";
   "doStabParams"; "doTurbulence"].

Definition _updateAllDependencies (fl : flags) : M unit :=
  emit (Enter fl) ;;
  _update3dElevation ;;
  when (doALEUpdate fl) _updateMovingMesh ;;
  o <- get ;;
  when (doVertDiffusion fl && solveVertDiffusion (opts o))
    (stepper_advance _updateAllDependencies_locals "t"
       timeStepper_vmom3d) ;;
  when (do2DCoupling fl) _update2DCoupling ;;
  _updateVerticalVelocity ;;
  when (doTurbulence fl) _updateTurbulence ;;
  _updateMeshVelocity ;;
  _updateBottomFriction ;;
  _updateBaroclinicity ;;
  when (doStabParams fl) _updateStabilizationParams.

(** *** Constructors

    A constructor returns the attributes it assigned.  The collaborators'
    constructors ([Function], [timeIntegrator.SSPRK33], ...) are taken to
    return normally. *)

Definition new_obj (c : recipe) (o : options) (dt dt_2d : num)
           (st : list stepper) (tb : option tables) (nS ns : nat) : obj :=
  {| cls := c; opts := o; solver_dt := dt; solver_dt_2d := dt_2d;
     steppers := st; _initialized := false; ready := []; tabs := tb;
     M_ := []; dt_2d_ := []; nStages := nS; nstages := ns |}.

Definition optional (b : bool) (l : list stepper) : list stepper :=
  if b then l else [].

(** [coupledSSPRKSync.__init__] *)
Definition new_coupledSSPRKSync (o : options) (dt dt_2d : num)
  : outcome obj :=
  (tb <- ssp_tables ;;
   Ret (new_obj coupledSSPRKSync o dt dt_2d
          ([timeStepper2d; timeStepper_mom3d]
             ++ optional (solveSalt o) [timeStepper_salt3d]
             ++ optional (solveVertDiffusion o) [timeStepper_vmom3d])
          (Some tb) 0 0))%py.

(** [coupledSSPIMEX.__init__]; [nS] is [self.timeStepper_mom3d.nStages]. *)
Definition new_coupledSSPIMEX (o : options) (dt dt_2d : num) (nS : nat)
  : outcome obj :=
  if solveVertDiffusion o then
    Raise (Exception "vert mom eq should not exist for this time integrator")
  else
    Ret (new_obj coupledSSPIMEX o dt dt_2d
           ([timeStepper2d; timeStepper_mom3d]
              ++ optional (solveSalt o) [timeStepper_salt3d]
              ++ optional (useTurbulence o)
                   [timeStepper_tke3d; timeStepper_psi3d])
           None nS 0).

(** [coupledSSPRKSemiImplicit.__init__] *)
Definition new_coupledSSPRKSemiImplicit (o : options) (dt dt_2d : num)
  : outcome obj :=
  (tb <- ssp_tables ;;
   Ret (new_obj coupledSSPRKSemiImplicit o dt dt_2d
          ([timeStepper2d; timeStepper_mom3d]
             ++ optional (solveSalt o) [timeStepper_salt3d]
             ++ optional (solveVertDiffusion o) [timeStepper_vmom3d]
             ++ optional (useTurbulence o)
                  [timeStepper_tke3d; timeStepper_psi3d])
          (Some tb) 0 0))%py.

(** [coupledSSPRKSingleMode.__init__]; [ns] is the [nstages] attribute of
    the 2D sub-stepper it creates. *)
Definition new_coupledSSPRKSingleMode (o : options) (dt dt_2d : num)
           (ns : nat) : outcome obj :=
  Ret (new_obj coupledSSPRKSingleMode o dt dt_2d
         ([timeStepper2d; timeStepper_mom3d]
            ++ optional (solveSalt o) [timeStepper_salt3d]
            ++ optional (solveVertDiffusion o) [timeStepper_vmom3d])
         None 0 ns).

(** [coupledSSPRK.__init__]: its first statement after the base
    constructor reads the unqualified name [SSPRK33]. *)
Definition new_coupledSSPRK (o : options) (dt dt_2d : num) : outcome obj :=
  (_ <- resolve ["self"; "solver"] "SSPRK33" ;;
   Ret (new_obj coupledSSPRK o dt dt_2d
          ([timeStepper2d; timeStepper_mom3d]
             ++ optional (solveSalt o) [timeStepper_salt3d]
             ++ optional (solveVertDiffusion o) [timeStepper_vmom3d])
          None 0 0))%py.

(** *** [initialize] *)

(** The four sub-stepper initializations every [initialize] starts with. *)
Definition initialize_steppers : M unit :=
  o <- get ;;
  stepper_initialize timeStepper2d ;;
  stepper_initialize timeStepper_mom3d ;;
  when (solveSalt (opts o)) (stepper_initialize timeStepper_salt3d) ;;
  when (solveVertDiffusion (opts o))
    (stepper_initialize timeStepper_vmom3d).

Definition get_tables : M tables :=
  o <- get ;;
  match tabs o with
  | Some tb => ret tb
  | None => raise (AttributeError "dt_frac")
  end.

(** [coupledSSPRKSync.initialize] and
    [coupledSSPRKSemiImplicit.initialize]. *)
Definition initialize_subcycling : M unit :=
  initialize_steppers ;;
  modify (set_M []) ;;
  modify (set_dt_2d []) ;;
  tb <- get_tables ;;
  for_each (t_dt_frac tb) (fun f =>
    o <- get ;;
    p <- lift (substep (solver_dt o) (solver_dt_2d o) f) ;;
    modify (fun o => set_M (M_ o ++ [fst p]) o) ;;
    modify (fun o => set_dt_2d (dt_2d_ o ++ [snd p]) o)) ;;
  modify (set_initialized true).

(** [coupledSSPIMEX.initialize] and [coupledSSPRKSingleMode.initialize]. *)
Definition initialize_plain : M unit :=
  initialize_steppers ;;
  modify (set_initialized true).

(** [coupledSSPRK.initialize] reads [self.options.options]; the options
    object is the flat set of switches, without such an attribute. *)
Definition initialize_coupledSSPRK : M unit :=
  stepper_initialize timeStepper2d ;;
  stepper_initialize timeStepper_mom3d ;;
  raise (AttributeError "options").

Definition initialize : M unit :=
  o <- get ;;
  match cls o with
  | coupledSSPRKSync | coupledSSPRKSemiImplicit => initialize_subcycling
  | coupledSSPIMEX | coupledSSPRKSingleMode => initialize_plain
  | coupledSSPRK => initialize_coupledSSPRK
  end.

(** *** [advance] *)

Definition all_flags (b : bool) : flags :=
  {| do2DCoupling := b; doVertDiffusion := b; doALEUpdate := b;
     doStabParams := b; doTurbulence := b |}.

(** The salt stage shared by the stage loops; [lim] is the condition
    under which the limiter is applied. *)
Definition salt_stage (k : nat) (lim : bool) : M unit :=
  o <- get ;;
  when (solveSalt (opts o))
    (solveStage timeStepper_salt3d k ;;
     when lim (limiter_apply salt3d)).

(** The explicit turbulence advection block of the SSP-IMEX and
    semi-implicit recipes. *)
Definition turbulence_advection_stage (k : nat) (lim : bool) : M unit :=
  o <- get ;;
  when (useTurbulenceAdvection (opts o))
    (solveStage timeStepper_tkeAdvEq k ;;
     solveStage timeStepper_psiAdvEq k ;;
     when lim (limiter_apply tke3d ;; limiter_apply psi3d)).

Definition advance_Sync_locals : list string :=
  ["self"; "t"; "dt"; "updateForcings"; "updateForcings3d"; "sol2d_old";
   "sol2d"; "k"; "t_rhs"; "dt_2d"; "w"; "i"; "lastStep"].

(** [coupledSSPRKSync.advance] *)
Definition advance_Sync : M unit :=
  o <- get ;;
  when (negb (_initialized o)) initialize ;;
  get_stepper timeStepper2d ;;
  do_call sol2d_n_assign_sol2d ;;
  tb <- get_tables ;;
  for_each (seq 0 (length (t_dt_frac tb))) (fun k =>
    o <- get ;;
    salt_stage k (useLimiterForTracers (opts o)) ;;
    solveStage timeStepper_mom3d k ;;
    _ <- lift (index (t_start_frac tb) k) ;;
    _ <- lift (index (dt_2d_ o) k) ;;
    _ <- lift (index (t_stage_w tb) k) ;;
    do_call sol2d_assign_blend ;;
    m <- lift (index (M_ o) k) ;;
    for_each (seq 0 (Z.to_nat m)) (fun i =>
      stepper_advance advance_Sync_locals "t_rhs" timeStepper2d) ;;
    let lastStep := Nat.eqb k 2 in
    _updateAllDependencies (all_flags lastStep)).

(** [coupledSSPIMEX.advance] *)
Definition advance_IMEX : M unit :=
  o <- get ;;
  when (negb (_initialized o)) initialize ;;
  o <- get ;;
  for_each (seq 0 (nStages o)) (fun k =>
    let lastStep := Nat.eqb k (nStages o - 1) in
    salt_stage k (useLimiterForTracers (opts o) && lastStep) ;;
    turbulence_advection_stage k
      (useLimiterForTracers (opts o) && lastStep) ;;
    solveStage timeStepper_mom3d k ;;
    solveStage timeStepper2d k ;;
    when (useTurbulence (opts o))
      (solveStage timeStepper_psi3d k ;;
       solveStage timeStepper_tke3d k ;;
       when (useLimiterForTracers (opts o))
         (limiter_apply tke3d ;; limiter_apply psi3d) ;;
       do_call glsModel_postprocess ;;
       do_call glsModel_preprocess) ;;
    _updateAllDependencies
      {| do2DCoupling := lastStep; doVertDiffusion := false;
         doALEUpdate := lastStep; doStabParams := lastStep;
         doTurbulence := false |}).

(** [coupledSSPRKSemiImplicit.advance] *)
Definition advance_SemiImplicit : M unit :=
  o <- get ;;
  when (negb (_initialized o)) initialize ;;
  get_stepper timeStepper2d ;;
  tb <- get_tables ;;
  for_each (seq 0 (length (t_dt_frac tb))) (fun k =>
    o <- get ;;
    salt_stage k (useLimiterForTracers (opts o)) ;;
    turbulence_advection_stage k (useLimiterForTracers (opts o)) ;;
    solveStage timeStepper_mom3d k ;;
    solveStage timeStepper2d k ;;
    let lastStep := Nat.eqb k 2 in
    _updateAllDependencies (all_flags lastStep)).

(** [coupledSSPRKSingleMode.advance]: no test of [self._initialized]. *)
Definition advance_SingleMode : M unit :=
  get_stepper timeStepper2d ;;
  o <- get ;;
  for_each (seq 0 (nstages o)) (fun k =>
    o <- get ;;
    salt_stage k (useLimiterForTracers (opts o)) ;;
    solveStage timeStepper_mom3d k ;;
    solveStage timeStepper2d k ;;
    let lastStep := Nat.eqb k 2 in
    _updateAllDependencies
      {| do2DCoupling := true; doVertDiffusion := lastStep;
         doALEUpdate := lastStep; doStabParams := lastStep;
         doTurbulence := lastStep |}).

Definition advance_locals : list string :=
  ["self"; "t"; "dt"; "updateForcings"; "updateForcings3d"].

(** [coupledSSPRK.advance]: no test of [self._initialized]. *)
Definition advance_coupledSSPRK : M unit :=
  o <- get ;;
  stepper_advance advance_locals "t" timeStepper2d ;;
  do_call copy2dFieldTo3d_elev_n ;;
  do_call copy2dFieldTo3d_elev_nph ;;
  _updateMovingMesh ;;
  _updateBottomFriction ;;
  _updateBaroclinicity ;;
  stepper_advance advance_locals "t" timeStepper_mom3d ;;
  when (solveVertDiffusion (opts o))
    (stepper_advance advance_locals "t" timeStepper_vmom3d) ;;
  _updateVerticalVelocity ;;
  _updateMeshVelocity ;;
  when (solveSalt (opts o))
    (stepper_advance advance_locals "t" timeStepper_salt3d) ;;
  _update2DCoupling.

Definition advance : M unit :=
  o <- get ;;
  match cls o with
  | coupledSSPRKSync => advance_Sync
  | coupledSSPIMEX => advance_IMEX
  | coupledSSPRKSemiImplicit => advance_SemiImplicit
  | coupledSSPRKSingleMode => advance_SingleMode
  | coupledSSPRK => advance_coupledSSPRK
  end.

(** A run of a method on a freshly constructed object. *)
Definition run {A} (c : M A) (o : obj) : outcome A * world :=
  c {| self := o; trace := [] |}.

End Recipes.

(** ** [ForwardEuler.advance] ([thetis/timeintegrator.py], lines 86-95) *)

Module ForwardEuler.
Section Stepper.
Context {num : Type} `{Arith num}.

(** Values of discretized fields. *)
Variable V : Type.

(** What a module-level name may be bound to. *)
Inductive pyval : Type :=
| Num (x : num)
| Opaque.

(** The names that [from .utility import *] binds, with their values; the
    utility module is not among the sources. *)
Variable utility : gmap string pyval.

(** The names the module defines itself. *)
Definition module_names : gset string :=
  {[ "absolute_import"; "ABCMeta"; "abstractproperty";
     "TimeIntegratorBase"; "TimeIntegrator"; "ForwardEuler";
     "CrankNicolson"; "SteadyState"; "PressureProjectionPicard";
     "LeapFrogAM3"; "SSPRK22ALE"; "TwoStageTrapezoid" ]}.

(** Reading a name inside a method: the local names first, then the
    module's own definitions, then the star-imported ones. *)
Definition load_name (locals : list (string * pyval)) (x : string)
  : outcome pyval :=
  match (list_to_map locals : gmap string pyval) !! x with
  | Some v => Ret v
  | None =>
      if bool_decide (x ∈ module_names) then Ret Opaque
      else match utility !! x with
           | Some v => Ret v
           | None => Raise (NameError x)
           end
  end.

(** The linear solve [self.solver.solve()]: the new solution from the
    lagged solution, the lagged fields and the time-step constant. *)
Variable solve : V -> gmap string V -> pyval -> V.

(** The attributes of a stepper, and [forcings], the times at which the
    forcing callback was invoked. *)
Record state : Type := {
  dt : num;
  dt_const : pyval;
  solution : V;
  solution_old : V;
  fields : gmap string V;
  fields_old : gmap string V;
  forcings : list num
}.

(** [update_forcings]: [None], or a hook that may rewrite the fields. *)
Definition callback : Type := option (num -> gmap string V -> gmap string V).

Definition call_forcings (cb : callback) (t : num) (s : state) : state :=
  match cb with
  | None => s
  | Some f =>
      {| dt := dt s; dt_const := dt_const s; solution := solution s;
         solution_old := solution_old s;
         fields := f (add t (dt s)) (fields s);
         fields_old := fields_old s;
         forcings := forcings s ++ [add t (dt s)] |}
  end.

(** The loop [for k in self.fields_old:
    self.fields_old[k].assign(self.fields[k])] over the keys [ks] still to
    visit: at the first key that [self.fields] lacks, [self.fields[k]]
    raises [KeyError] and the lagged fields assigned before it keep their
    new values. *)
Fixpoint shift_keys (ks : list string) (flds fo : gmap string V)
  : outcome unit * gmap string V :=
  match ks with
  | [] => (Ret tt, fo)
  | k :: ks' =>
      match flds !! k with
      | Some v => shift_keys ks' flds (<[k := v]> fo)
      | None => (Raise KeyError, fo)
      end
  end.

(** [for k in self.fields_old: self.fields_old[k].assign(self.fields[k])].
    A [gmap] does not record the insertion order of a Python [dict]: the
    keys are visited in the order of [map_to_list], which matters only
    for the lagged fields left behind when the loop raises. *)
Definition shift_fields (s : state) : outcome unit * state :=
  let '(r, fo) := shift_keys (map_to_list (fields_old s)).*1 (fields s)
                             (fields_old s) in
  (r,
   {| dt := dt s; dt_const := dt_const s; solution := solution s;
      solution_old := solution_old s; fields := fields s;
      fields_old := fo; forcings := forcings s |}).

(** The local names of [advance(self, t, update_forcings=None)]. *)
Definition advance_locals (t : num) : list (string * pyval) :=
  [("self", Opaque); ("t", Num t); ("update_forcings", Opaque)].

Definition advance (t : num) (update_forcings : callback) (s : state)
  : outcome unit * state :=
  (* self.dt_const.assign(dt) *)
  match load_name (advance_locals t) "dt" with
  | Raise e => (Raise e, s)
  | Ret v =>
      let s1 := {| dt := dt s; dt_const := v; solution := solution s;
                   solution_old := solution_old s; fields := fields s;
                   fields_old := fields_old s; forcings := forcings s |} in
      (* if update_forcings is not None: update_forcings(t + self.dt) *)
      let s2 := call_forcings update_forcings t s1 in
      (* self.solution_old.assign(self.solution) *)
      let s3 := {| dt := dt s2; dt_const := dt_const s2;
                   solution := solution s2; solution_old := solution s2;
                   fields := fields s2; fields_old := fields_old s2;
                   forcings := forcings s2 |} in
      (* self.solver.solve() *)
      let s4 := {| dt := dt s3; dt_const := dt_const s3;
                   solution := solve (solution_old s3) (fields_old s3)
                                 (dt_const s3);
                   solution_old := solution_old s3;
                   fields := fields s3; fields_old := fields_old s3;
                   forcings := forcings s3 |} in
      (* for k in self.fields_old: ... *)
      shift_fields s4
  end.

End Stepper.
End ForwardEuler.

(** ** [MomentumEquation.horizontal_advection] ([cofs/momentum_eq.py],
       lines 122-190) *)

Module MomentumEquation.
Section Terms.

(** The objects passed as [lax_friedrichs_factor], [uv_mag], [uv_p1]. *)
Variable F : Type.

(** Which field the interior Lax-Friedrichs coefficient [gamma] is built
    from. *)
Inductive gamma : Type :=
| gamma_from_uv_p1
| gamma_from_uv_mag.

(** The summands of the weak form the method returns, in the order they
    are added. *)
Inductive term : Type :=
| volume_advection
| interior_upwind_flux
| interior_lax_friedrichs (g : gamma)
| closed_boundary_lax_friedrichs (bnd_marker : Z)
| flux_boundary_advection (bnd_marker : Z)
| flux_boundary_lax_friedrichs (bnd_marker : Z)
| surface_flux
| divergence_form.

(** The attributes of the equation object the method reads;
    [bnd_functions] maps a boundary marker to the names of the external
    functions given for it. *)
Record equation : Type := {
  nonlin : bool;
  horiz_advection_by_parts : bool;
  horizontal_dg : bool;
  boundary_markers : list Z;
  boundary_len : gset Z;
  bnd_functions : gmap Z (gset string)
}.

Definition given (x : option F) : bool :=
  match x with Some _ => true | None => false end.

(** Lines 142-151. *)
Definition lax_friedrichs_interior (lax_friedrichs_factor uv_mag uv_p1 : option F)
  : outcome (list term) :=
  if given lax_friedrichs_factor && given uv_mag then
    (g <- (if given uv_p1 then Ret gamma_from_uv_p1
           else if given uv_mag then Ret gamma_from_uv_mag
           else Raise (Exception "either uv_p1 or uv_mag must be given")) ;;
     Ret [interior_lax_friedrichs g])%py
  else Ret [].

(** The body of [for bnd_marker in self.boundary_markers], lines 152-181. *)
Definition boundary_terms (eq : equation) (lax_friedrichs_factor : option F)
           (bnd_marker : Z) : outcome (list term) :=
  match bnd_functions eq !! bnd_marker with
  | None =>
      Ret (if given lax_friedrichs_factor
           then [closed_boundary_lax_friedrichs bnd_marker] else [])
  | Some funcs =>
      if bool_decide ("flux" ∈ funcs) then
        if bool_decide (bnd_marker ∈ boundary_len eq) then
          Ret (if nonlin eq then
                 flux_boundary_advection bnd_marker
                   :: (if given lax_friedrichs_factor
                       then [flux_boundary_lax_friedrichs bnd_marker]
                       else [])
               else [])
        else Raise KeyError
      else Ret []
  end.

Definition horizontal_advection (eq : equation)
           (lax_friedrichs_factor uv_mag uv_p1 : option F)
  : outcome (list term) :=
  if negb (nonlin eq) then Ret []
  else if horiz_advection_by_parts eq then
    (dg <- (if horizontal_dg eq then
              (lf <- lax_friedrichs_interior lax_friedrichs_factor uv_mag uv_p1 ;;
               bs <- mapM (boundary_terms eq lax_friedrichs_factor)
                       (boundary_markers eq) ;;
               Ret (interior_upwind_flux :: lf ++ concat bs))
            else Ret []) ;;
     Ret (volume_advection :: dg ++ [surface_flux]))%py
  else Ret [divergence_form].

End Terms.
End MomentumEquation.

(** ** [TimeIntegrator.set_dt] and [CrankNicolson.advance]
       ([thetis/timeintegrator.py], lines 42-45 and 159-167)

    [CrankNicolson] keeps the attributes of [ForwardEuler]; its [advance]
    is the same text without the first statement. *)

Module CrankNicolson.
Section Stepper.
Context {num : Type} `{Arith num}.

Variable V : Type.

(** [self.dt = dt; self.dt_const.assign(dt)] *)
Definition set_dt (dt : num) (s : ForwardEuler.state V)
  : ForwardEuler.state V :=
  {| ForwardEuler.dt := dt;
     ForwardEuler.dt_const := ForwardEuler.Num dt;
     ForwardEuler.solution := ForwardEuler.solution V s;
     ForwardEuler.solution_old := ForwardEuler.solution_old V s;
     ForwardEuler.fields := ForwardEuler.fields V s;
     ForwardEuler.fields_old := ForwardEuler.fields_old V s;
     ForwardEuler.forcings := ForwardEuler.forcings V s |}.

(** The nonlinear solve [self.solver.solve()]: the new solution from what
    the form [self.F] reads, that is the solution itself (the initial
    guess), the lagged solution, the fields, the lagged fields and the
    time-step constant. *)
Variable solve : V -> V -> gmap string V -> gmap string V
                 -> @ForwardEuler.pyval num -> V.

Definition advance (t : num) (update_forcings : ForwardEuler.callback V)
           (s : ForwardEuler.state V)
  : outcome unit * ForwardEuler.state V :=
  (* if update_forcings is not None: update_forcings(t + self.dt) *)
  let s2 := ForwardEuler.call_forcings V update_forcings t s in
  (* self.solution_old.assign(self.solution) *)
  let s3 := {| ForwardEuler.dt := ForwardEuler.dt V s2;
               ForwardEuler.dt_const := ForwardEuler.dt_const V s2;
               ForwardEuler.solution := ForwardEuler.solution V s2;
               ForwardEuler.solution_old := ForwardEuler.solution V s2;
               ForwardEuler.fields := ForwardEuler.fields V s2;
               ForwardEuler.fields_old := ForwardEuler.fields_old V s2;
               ForwardEuler.forcings := ForwardEuler.forcings V s2 |} in
  (* self.solver.solve() *)
  let s4 := {| ForwardEuler.dt := ForwardEuler.dt V s3;
               ForwardEuler.dt_const := ForwardEuler.dt_const V s3;
               ForwardEuler.solution :=
                 solve (ForwardEuler.solution V s3)
                       (ForwardEuler.solution_old V s3)
                       (ForwardEuler.fields V s3)
                       (ForwardEuler.fields_old V s3)
                       (ForwardEuler.dt_const V s3);
               ForwardEuler.solution_old := ForwardEuler.solution_old V s3;
               ForwardEuler.fields := ForwardEuler.fields V s3;
               ForwardEuler.fields_old := ForwardEuler.fields_old V s3;
               ForwardEuler.forcings := ForwardEuler.forcings V s3 |} in
  (* for k in self.fields_old: ... *)
  ForwardEuler.shift_fields V s4.

End Stepper.
End CrankNicolson.

(** ** [PressureProjectionPicard] ([thetis/timeintegrator.py],
       lines 202-324)

    The constructor makes [self.solution_lagged] a [Function] of its own
    when [iterations > 1] and another name of [self.solution_old]
    otherwise; the forms read it through that name. *)

Module PressureProjectionPicard.
Section Stepper.
Context {num : Type} `{Arith num}.

(** Values of the solution and of the preliminary velocity [uv_star]. *)
Variables V U : Type.

(** [lagged] is the content of the [Function] behind
    [self.solution_lagged] when it has one of its own, and [None] when
    [self.solution_lagged is self.solution_old]. *)
Record state : Type := {
  iterations : Z;
  dt : num;
  dt_const : num;
  solution : V;
  solution_old : V;
  lagged : option V;
  uv_star : U;
  fields : gmap string V;
  fields_old : gmap string V;
  forcings : list num
}.

Definition set_solution (v : V) (s : state) : state :=
  {| iterations := iterations s; dt := dt s; dt_const := dt_const s;
     solution := v; solution_old := solution_old s; lagged := lagged s;
     uv_star := uv_star s; fields := fields s; fields_old := fields_old s;
     forcings := forcings s |}.

Definition set_solution_old (v : V) (s : state) : state :=
  {| iterations := iterations s; dt := dt s; dt_const := dt_const s;
     solution := solution s; solution_old := v; lagged := lagged s;
     uv_star := uv_star s; fields := fields s; fields_old := fields_old s;
     forcings := forcings s |}.

Definition set_lagged (l : option V) (s : state) : state :=
  {| iterations := iterations s; dt := dt s; dt_const := dt_const s;
     solution := solution s; solution_old := solution_old s; lagged := l;
     uv_star := uv_star s; fields := fields s; fields_old := fields_old s;
     forcings := forcings s |}.

Definition set_uv_star (u : U) (s : state) : state :=
  {| iterations := iterations s; dt := dt s; dt_const := dt_const s;
     solution := solution s; solution_old := solution_old s;
     lagged := lagged s; uv_star := u; fields := fields s;
     fields_old := fields_old s; forcings := forcings s |}.

Definition set_fields (f : gmap string V) (s : state) : state :=
  {| iterations := iterations s; dt := dt s; dt_const := dt_const s;
     solution := solution s; solution_old := solution_old s;
     lagged := lagged s; uv_star := uv_star s; fields := f;
     fields_old := fields_old s; forcings := forcings s |}.

Definition set_fields_old (f : gmap string V) (s : state) : state :=
  {| iterations := iterations s; dt := dt s; dt_const := dt_const s;
     solution := solution s; solution_old := solution_old s;
     lagged := lagged s; uv_star := uv_star s; fields := fields s;
     fields_old := f; forcings := forcings s |}.

Definition set_forcings (l : list num) (s : state) : state :=
  {| iterations := iterations s; dt := dt s; dt_const := dt_const s;
     solution := solution s; solution_old := solution_old s;
     lagged := lagged s; uv_star := uv_star s; fields := fields s;
     fields_old := fields_old s; forcings := l |}.

(** The part of [__init__] that creates the solution functions; [fresh]
    and [fresh_uv] are the contents of a new [Function], and the lagged
    fields are given as created. *)
Definition new (its : Z) (dt0 : num) (sol fresh : V) (fresh_uv : U)
           (flds flds_old : gmap string V) : state :=
  {| iterations := its; dt := dt0; dt_const := dt0; solution := sol;
     solution_old := fresh;
     lagged := if (1 <? its)%Z then Some fresh else None;
     uv_star := fresh_uv; fields := flds; fields_old := flds_old;
     forcings := [] |}.

(** Reading [self.solution_lagged]. *)
Definition solution_lagged (s : state) : V :=
  match lagged s with
  | Some v => v
  | None => solution_old s
  end.

(** [self.solution_lagged.assign(v)] writes to the function the name
    denotes. *)
Definition assign_lagged (v : V) (s : state) : state :=
  match lagged s with
  | Some _ => set_lagged (Some v) s
  | None => set_solution_old v s
  end.

(** [update_forcings]: [None], or a hook that may rewrite the fields. *)
Definition callback : Type := option (num -> gmap string V -> gmap string V).

Definition call_forcings (cb : callback) (t : num) (s : state) : state :=
  match cb with
  | None => s
  | Some f =>
      set_forcings (forcings s ++ [add t (dt s)])
        (set_fields (f (add t (dt s)) (fields s)) s)
  end.

(** [for k in self.fields_old: self.fields_old[k].assign(self.fields[k])],
    the loop of [ForwardEuler.advance]: when it raises [KeyError] the
    lagged fields assigned so far keep their new values. *)
Definition shift_fields (s : state) : outcome unit * state :=
  let '(r, fo) := ForwardEuler.shift_keys V
                    (map_to_list (fields_old s)).*1 (fields s)
                    (fields_old s) in
  (r, set_fields_old fo s).

(** The two nonlinear solves read, through the forms [self.F_mom] and
    [self.F]: the unknown itself (the initial guess), [uv_star] (second
    solve), the old and the lagged solution, the fields, the lagged fields
    and the time-step constant. *)
Variable solve_mom : U -> V -> V -> gmap string V -> gmap string V
                     -> num -> U.
Variable solve : V -> U -> V -> V -> gmap string V -> gmap string V
                 -> num -> V.

(** The body of [for it in range(self.iterations)]. *)
Definition iteration (s : state) : state :=
  (* if self.iterations > 1: self.solution_lagged.assign(self.solution) *)
  let s1 := if (1 <? iterations s)%Z then assign_lagged (solution s) s
            else s in
  (* self.solver_mom.solve() *)
  let s2 := set_uv_star
              (solve_mom (uv_star s1) (solution_old s1) (solution_lagged s1)
                         (fields s1) (fields_old s1) (dt_const s1)) s1 in
  (* self.solver.solve() *)
  set_solution
    (solve (solution s2) (uv_star s2) (solution_old s2)
           (solution_lagged s2) (fields s2) (fields_old s2) (dt_const s2))
    s2.

Definition advance (t : num) (updateForcings : callback) (s : state)
  : outcome unit * state :=
  let s1 := call_forcings updateForcings t s in
  let s2 := set_solution_old (solution s1) s1 in
  let s3 := Nat.iter (Z.to_nat (iterations s2)) iteration s2 in
  shift_fields s3.

End Stepper.
End PressureProjectionPicard.

(** ** The two-stage steppers ([thetis/timeintegrator.py], lines 327-666) *)

(** [l[i]] for a Python [int]: a negative index counts from the end. *)
Definition py_index {A} (l : list A) (i : Z) : outcome A :=
  if (0 <=? i)%Z then index l (Z.to_nat i)
  else if (- Z.of_nat (length l) <=? i)%Z
       then index l (Z.to_nat (Z.of_nat (length l) + i))
       else Raise IndexError.

Module TwoStage.
Section Steppers.
Context {num : Type} `{Arith num}.

(** Discretized fields ([Function]s), the forcing fields the forms read
    ([self.fields]), and the mesh geometry on which forms are assembled
    and which the caller moves between the calls. *)
Variables V E G : Type.

(** Assembled one-forms: vectors of degrees of freedom. *)
Definition dual : Type := list num.

(** [a + b] and [c*a] on such vectors; the operands of a sum belong to
    the same function space, hence have the same length. *)
Definition vadd (a b : dual) : dual := zip_with add a b.
Definition vscale (c : num) (a : dual) : dual := map (mul c) a.

(** The literal [0.5], which is the quotient [1/2] in both arithmetics. *)
Definition half : num := quot (of_int 1) (of_int 2).

(** [update_forcings]: [None], or a hook that may rewrite the fields. *)
Definition callback : Type := option (num -> E -> E).

(** [self.c = [0, 1]] and [self.n_stages = 2]. *)
Definition c : list Z := [0; 1]%Z.
Definition n_stages : nat := 2.

(** [for i in range(n)] with a body that may raise. *)
Fixpoint for_range {S : Type} (l : list Z)
         (body : Z -> S -> outcome unit * S) (s : S) : outcome unit * S :=
  match l with
  | [] => (Ret tt, s)
  | i :: l' =>
      match body i s with
      | (Ret _, s') => for_range l' body s'
      | (Raise e, s') => (Raise e, s')
      end
  end.

Definition range (n : nat) : list Z := map Z.of_nat (seq 0 n).

(** *** [SSPRK22ALE] *)

(** What the assembly and the linear solve compute:
    [assemble(self.mu_form, ...)], [assemble(self.l, ...)] with
    [self.l = self.dt_const*residual(...)], and
    [assemble(self.a, self.lin_solver.A)] followed by
    [self.lin_solver.solve(self.solution, self.mu)], each on the geometry
    of the moment. *)
Variable assemble_mu : G -> V -> dual.
Variable assemble_l : G -> num -> V -> E -> dual.
Variable lin_solve : G -> dual -> V.

(** [lin_solver] tells whether [initialize] has assigned
    [self.lin_solver]; [forcings] lists the times at which the forcing
    callback was invoked. *)
Record ssprk22 : Type := {
  dt : num;
  dt_const : num;
  solution : V;
  fields : E;
  geometry : G;
  mu : dual;
  mu_old : dual;
  tendency : dual;
  _nontrivial : bool;
  lin_solver : bool;
  forcings : list num
}.

Definition set_solution (v : V) (s : ssprk22) : ssprk22 :=
  {| dt := dt s; dt_const := dt_const s; solution := v; fields := fields s;
     geometry := geometry s; mu := mu s; mu_old := mu_old s;
     tendency := tendency s; _nontrivial := _nontrivial s;
     lin_solver := lin_solver s; forcings := forcings s |}.

Definition set_geometry (g : G) (s : ssprk22) : ssprk22 :=
  {| dt := dt s; dt_const := dt_const s; solution := solution s;
     fields := fields s; geometry := g; mu := mu s; mu_old := mu_old s;
     tendency := tendency s; _nontrivial := _nontrivial s;
     lin_solver := lin_solver s; forcings := forcings s |}.

Definition set_mu (m : dual) (s : ssprk22) : ssprk22 :=
  {| dt := dt s; dt_const := dt_const s; solution := solution s;
     fields := fields s; geometry := geometry s; mu := m;
     mu_old := mu_old s; tendency := tendency s;
     _nontrivial := _nontrivial s; lin_solver := lin_solver s;
     forcings := forcings s |}.

Definition set_mu_old (m : dual) (s : ssprk22) : ssprk22 :=
  {| dt := dt s; dt_const := dt_const s; solution := solution s;
     fields := fields s; geometry := geometry s; mu := mu s;
     mu_old := m; tendency := tendency s; _nontrivial := _nontrivial s;
     lin_solver := lin_solver s; forcings := forcings s |}.

Definition set_tendency (m : dual) (s : ssprk22) : ssprk22 :=
  {| dt := dt s; dt_const := dt_const s; solution := solution s;
     fields := fields s; geometry := geometry s; mu := mu s;
     mu_old := mu_old s; tendency := m; _nontrivial := _nontrivial s;
     lin_solver := lin_solver s; forcings := forcings s |}.

Definition set_lin_solver (b : bool) (s : ssprk22) : ssprk22 :=
  {| dt := dt s; dt_const := dt_const s; solution := solution s;
     fields := fields s; geometry := geometry s; mu := mu s;
     mu_old := mu_old s; tendency := tendency s;
     _nontrivial := _nontrivial s; lin_solver := b;
     forcings := forcings s |}.

Definition set_forcing (f : E) (ts : list num) (s : ssprk22) : ssprk22 :=
  {| dt := dt s; dt_const := dt_const s; solution := solution s;
     fields := f; geometry := geometry s; mu := mu s; mu_old := mu_old s;
     tendency := tendency s; _nontrivial := _nontrivial s;
     lin_solver := lin_solver s; forcings := ts |}.

(** [initialize(self, solution)] *)
Definition initialize (init : V) (s : ssprk22) : ssprk22 :=
  set_lin_solver true (set_solution init s).

Definition stage_one_prep (s : ssprk22) : ssprk22 :=
  if _nontrivial s then
    (* assemble(self.mu_form, self.mu_old) *)
    let s1 := set_mu_old (assemble_mu (geometry s) (solution s)) s in
    (* assemble(self.l, self.tendency) *)
    let s2 := set_tendency
                (assemble_l (geometry s1) (dt_const s1) (solution s1)
                            (fields s1)) s1 in
    (* self.mu.assign(self.mu_old + self.tendency) *)
    set_mu (vadd (mu_old s2) (tendency s2)) s2
  else s.

(** [stage_one_solve] and [stage_two_solve] hold the same statements. *)
Definition stage_solve (s : ssprk22) : outcome unit * ssprk22 :=
  if _nontrivial s then
    if lin_solver s then
      (Ret tt, set_solution (lin_solve (geometry s) (mu s)) s)
    else (Raise (AttributeError "lin_solver"), s)
  else (Ret tt, s).

Definition stage_one_solve : ssprk22 -> outcome unit * ssprk22 :=
  stage_solve.
Definition stage_two_solve : ssprk22 -> outcome unit * ssprk22 :=
  stage_solve.

Definition stage_two_prep (s : ssprk22) : ssprk22 :=
  if _nontrivial s then
    (* assemble(self.l, self.tendency) *)
    let s1 := set_tendency
                (assemble_l (geometry s) (dt_const s) (solution s)
                            (fields s)) s in
    (* self.mu.assign(0.5*self.mu + 0.5*self.mu_old + 0.5*self.tendency) *)
    set_mu (vadd (vadd (vscale half (mu s1)) (vscale half (mu_old s1)))
                 (vscale half (tendency s1))) s1
  else s.

Definition solve_stage (i_stage : Z) (s : ssprk22)
  : outcome unit * ssprk22 :=
  if (i_stage =? 0)%Z then stage_one_solve s else stage_two_solve s.

(** [update_forcings(t + self.c[i_stage]*self.dt)], when a callback is
    given. *)
Definition call_forcings (cb : callback) (i_stage : Z) (t : num)
           (s : ssprk22) : outcome unit * ssprk22 :=
  match cb with
  | None => (Ret tt, s)
  | Some f =>
      match py_index c i_stage with
      | Ret ci =>
          let time := add t (mul (of_int ci) (dt s)) in
          (Ret tt, set_forcing (f time (fields s)) (forcings s ++ [time]) s)
      | Raise e => (Raise e, s)
      end
  end.

Definition prepare_stage (i_stage : Z) (t : num) (update_forcings : callback)
           (s : ssprk22) : outcome unit * ssprk22 :=
  match call_forcings update_forcings i_stage t s with
  | (Ret _, s1) =>
      (Ret tt,
       if (i_stage =? 0)%Z then stage_one_prep s1 else stage_two_prep s1)
  | (Raise e, s1) => (Raise e, s1)
  end.

Definition advance (t : num) (update_forcings : callback) (s : ssprk22)
  : outcome unit * ssprk22 :=
  for_range (range n_stages)
    (fun i_stage s =>
       match prepare_stage i_stage t update_forcings s with
       | (Ret _, s1) => solve_stage i_stage s1
       | (Raise e, s1) => (Raise e, s1)
       end) s.

(** *** [TwoStageTrapezoid] *)

(** The solves of the two stages read, through their forms: the old
    solution, the fields and the time-step constant, and for the second
    (nonlinear) one also the solution itself. *)
Variable solver_0 : num -> V -> E -> V.
Variable solver_1 : num -> V -> V -> E -> V.

Record trapezoid : Type := {
  z_dt : num;
  z_dt_const : num;
  z_solution : V;
  z_solution_old : V;
  z_fields : E;
  z_nontrivial : bool;
  z_forcings : list num
}.

Definition z_set_solution (v : V) (s : trapezoid) : trapezoid :=
  {| z_dt := z_dt s; z_dt_const := z_dt_const s; z_solution := v;
     z_solution_old := z_solution_old s; z_fields := z_fields s;
     z_nontrivial := z_nontrivial s; z_forcings := z_forcings s |}.

Definition z_set_solution_old (v : V) (s : trapezoid) : trapezoid :=
  {| z_dt := z_dt s; z_dt_const := z_dt_const s;
     z_solution := z_solution s; z_solution_old := v;
     z_fields := z_fields s; z_nontrivial := z_nontrivial s;
     z_forcings := z_forcings s |}.

Definition z_set_forcing (f : E) (ts : list num) (s : trapezoid)
  : trapezoid :=
  {| z_dt := z_dt s; z_dt_const := z_dt_const s;
     z_solution := z_solution s; z_solution_old := z_solution_old s;
     z_fields := f; z_nontrivial := z_nontrivial s; z_forcings := ts |}.

(** [initialize(self, solution)] *)
Definition z_initialize (init : V) (s : trapezoid) : trapezoid :=
  z_set_solution_old init (z_set_solution init s).

Definition z_call_forcings (cb : callback) (i_stage : Z) (t : num)
           (s : trapezoid) : outcome unit * trapezoid :=
  match cb with
  | None => (Ret tt, s)
  | Some f =>
      match py_index c i_stage with
      | Ret ci =>
          let time := add t (mul (of_int ci) (z_dt s)) in
          (Ret tt,
           z_set_forcing (f time (z_fields s)) (z_forcings s ++ [time]) s)
      | Raise e => (Raise e, s)
      end
  end.

Definition z_solve_stage (i_stage : Z) (t : num) (update_forcings : callback)
           (s : trapezoid) : outcome unit * trapezoid :=
  if z_nontrivial s then
    match z_call_forcings update_forcings i_stage t s with
    | (Ret _, s1) =>
        if (i_stage =? 0)%Z then
          (* self.solver_0.solve() *)
          (Ret tt,
           z_set_solution
             (solver_0 (z_dt_const s1) (z_solution_old s1) (z_fields s1)) s1)
        else
          (* self.solver_1.solve() *)
          let s2 := z_set_solution
                      (solver_1 (z_dt_const s1) (z_solution s1)
                                (z_solution_old s1) (z_fields s1)) s1 in
          (* self.solution_old.assign(self.solution) *)
          (Ret tt, z_set_solution_old (z_solution s2) s2)
    | (Raise e, s1) => (Raise e, s1)
    end
  else (Ret tt, s).

Definition z_advance (t : num) (update_forcings : callback) (s : trapezoid)
  : outcome unit * trapezoid :=
  if z_nontrivial s then
    for_range (range n_stages)
      (fun i s => z_solve_stage i t update_forcings s) s
  else (Ret tt, s).

End Steppers.
End TwoStage.

(** ** [MomentumEquation.pressure_grad] and [rhs]
       ([cofs/momentum_eq.py], lines 90-120 and 198-334)

    [rhs] is the caller of [horizontal_advection].  As there, a weak form
    is the list of its summands, in the order they are added; [rhs]
    keeps two accumulators, [f] and [g], and returns [-f - g]. *)

Module MomentumRhs.
Section Terms.

Variable F : Type.

Inductive pressure_term : Type :=
| head_divergence
| head_interior_jump
| head_bottom_surface
| baroc_head_boundary (bnd_marker : Z)
| eta_boundary (bnd_marker : Z)
| head_gradient.

(** The attributes [rhs] reads besides those of
    [MomentumEquation.equation]. *)
Record equation : Type := {
  momentum : MomentumEquation.equation;
  grad_eta_by_parts : bool;
  vertical_dg : bool
}.

(** The body of [for bnd_marker in self.boundary_markers] in
    [pressure_grad]. *)
Definition pressure_boundary (eq : equation) (baroc_head : option F)
           (bnd_marker : Z) : list pressure_term :=
  let funcs := MomentumEquation.bnd_functions (momentum eq) !! bnd_marker in
  let special_eta_flux :=
    match funcs with
    | Some fs => bool_decide ("elev" ∈ fs)
    | None => false
    end in
  (if MomentumEquation.given F baroc_head
   then [baroc_head_boundary bnd_marker] else [])
    ++ (if negb special_eta_flux then [eta_boundary bnd_marker] else []).

Definition pressure_grad (eq : equation) (baroc_head : option F)
           (by_parts : bool) : list pressure_term :=
  if by_parts then
    [head_divergence; head_interior_jump; head_bottom_surface]
      ++ concat (map (pressure_boundary eq baroc_head)
                     (MomentumEquation.boundary_markers (momentum eq)))
  else [head_gradient].

(** The keyword arguments of [rhs]. *)
Record arguments : Type := {
  w : option F;
  viscosity_v : option F;
  viscosity_h : option F;
  coriolis : option F;
  baroc_head : option F;
  uv_bottom : option F;
  bottom_drag : option F;
  lin_drag : option F;
  w_mesh : option F;
  dw_mesh_dz : option F;
  lax_friedrichs_factor : option F;
  uv_mag : option F;
  uv_p1 : option F
}.

(** [relative_to_mesh] tells whether the vertical velocity of the term is
    [w[2] - w_mesh] rather than [w[2]]. *)
Inductive term : Type :=
| pressure (p : pressure_term)
| advection (a : MomentumEquation.term)
| vertical_advection (relative_to_mesh : bool)
| vertical_upwind_flux
| vertical_lax_friedrichs
| surface_vertical_flux (relative_to_mesh : bool)
| ale_source
| elev_boundary_pressure (bnd_marker : Z)
| elev_boundary_advection (bnd_marker : Z)
| un_boundary_advection (bnd_marker : Z)
| un_boundary_lax_friedrichs (bnd_marker : Z)
| symm_boundary_advection (bnd_marker : Z)
| coriolis_term
| horizontal_viscosity_interface
| horizontal_viscosity
| vertical_viscosity
| vertical_viscosity_interface
| linear_drag.

Definition when_given (x : option F) (l : list term) : list term :=
  if MomentumEquation.given F x then l else [].

(** The vertical advection block, lines 222-241: what it adds to [f] and
    to [g]. *)
Definition vertical_advection_terms (eq : equation) (a : arguments)
  : list term * list term :=
  if MomentumEquation.given F (w a) then
    let relative := MomentumEquation.given F (w_mesh a) in
    ([vertical_advection relative],
     (if vertical_dg eq
      then vertical_upwind_flux
             :: when_given (lax_friedrichs_factor a) [vertical_lax_friedrichs]
      else [])
       ++ [surface_vertical_flux relative])
  else ([], []).

(** The body of the boundary loop of [rhs], lines 250-294. *)
Definition boundary_conditions (eq : equation) (bnd_marker : Z)
  : list term :=
  let nonlin := MomentumEquation.nonlin (momentum eq) in
  match MomentumEquation.bnd_functions (momentum eq) !! bnd_marker with
  | None => []
  | Some funcs =>
      if bool_decide ("elev" ∈ funcs) then
        elev_boundary_pressure bnd_marker
          :: (if nonlin then [elev_boundary_advection bnd_marker] else [])
      else if bool_decide ("un" ∈ funcs) then
        if nonlin then [un_boundary_advection bnd_marker;
                        un_boundary_lax_friedrichs bnd_marker]
        else []
      else if bool_decide ("symm" ∈ funcs) then
        if nonlin then [symm_boundary_advection bnd_marker] else []
      else []
  end.

(** [rhs]: the summands of [f] and those of [g]. *)
Definition rhs (eq : equation) (a : arguments)
  : outcome (list term * list term) :=
  let nonlin := MomentumEquation.nonlin (momentum eq) in
  (* f += self.pressure_grad(..., by_parts=self.grad_eta_by_parts) *)
  let f1 := map pressure
                (pressure_grad eq (baroc_head a) (grad_eta_by_parts eq)) in
  (adv <- (if nonlin then
             (* f += self.horizontal_advection(...) *)
             (h <- MomentumEquation.horizontal_advection F (momentum eq)
                     (lax_friedrichs_factor a) (uv_mag a) (uv_p1 a) ;;
              let v := vertical_advection_terms eq a in
              Ret (map advection h ++ fst v, snd v))
           else Ret ([], [])) ;;
   let f2 := when_given (dw_mesh_dz a) [ale_source] in
   let g2 := concat (map (boundary_conditions eq)
                         (MomentumEquation.boundary_markers (momentum eq))) in
   let f3 := when_given (coriolis a) [coriolis_term] in
   let f4 := when_given (viscosity_h a)
               ((if MomentumEquation.horizontal_dg (momentum eq)
                 then [horizontal_viscosity_interface] else [])
                  ++ [horizontal_viscosity]) in
   let f5 := when_given (viscosity_v a) [vertical_viscosity] in
   let g5 := when_given (viscosity_v a)
               (if vertical_dg eq then [vertical_viscosity_interface]
                else []) in
   let f6 := when_given (lin_drag a) [linear_drag] in
   Ret (f1 ++ fst adv ++ f2 ++ f3 ++ f4 ++ f5 ++ f6,
        snd adv ++ g2 ++ g5))%py.

End Terms.
End MomentumRhs.

(** ** [LeapFrogAM3] ([thetis/timeintegrator.py], lines 327-448) *)

Module LeapFrogAM3.
Section Stepper.
Context {num : Type} `{Arith num}.

(** Fields, forcing fields and geometries, as for the two-stage
    steppers. *)
Variables V E G : Type.

(** [assemble(self.mass_new, ...)], [assemble(self.l_prediction, ...)]
    (which reads the solution and the old solution),
    [assemble(self.l, ...)], each on the geometry of the moment; and the
    solve with the mass matrix as it was last assembled. *)
Variable assemble_mass : G -> V -> list num.
Variable assemble_prediction : G -> num -> V -> V -> E -> list num.
Variable assemble_l : G -> num -> V -> E -> list num.
Variable mass_solve : G -> list num -> V.

(** [mass_matrix] is the geometry on which [self.mass_matrix] was last
    assembled, [None] before [initialize]; [initialize] also creates
    [self.lin_solver] from it when the space is not fully
    discontinuous. *)
Record state : Type := {
  dt : num;
  dt_const : num;
  solution : V;
  solution_old : V;
  msolution_old : list num;
  rhs_func : list num;
  mass_matrix : option G;
  fs_is_dg : bool;
  fields : E;
  geometry : G;
  _nontrivial : bool;
  forcings : list num
}.

Definition set_solution (v : V) (s : state) : state :=
  {| dt := dt s; dt_const := dt_const s; solution := v;
     solution_old := solution_old s; msolution_old := msolution_old s;
     rhs_func := rhs_func s; mass_matrix := mass_matrix s;
     fs_is_dg := fs_is_dg s; fields := fields s; geometry := geometry s;
     _nontrivial := _nontrivial s; forcings := forcings s |}.

Definition set_solution_old (v : V) (s : state) : state :=
  {| dt := dt s; dt_const := dt_const s; solution := solution s;
     solution_old := v; msolution_old := msolution_old s;
     rhs_func := rhs_func s; mass_matrix := mass_matrix s;
     fs_is_dg := fs_is_dg s; fields := fields s; geometry := geometry s;
     _nontrivial := _nontrivial s; forcings := forcings s |}.

Definition set_msolution_old (m : list num) (s : state) : state :=
  {| dt := dt s; dt_const := dt_const s; solution := solution s;
     solution_old := solution_old s; msolution_old := m;
     rhs_func := rhs_func s; mass_matrix := mass_matrix s;
     fs_is_dg := fs_is_dg s; fields := fields s; geometry := geometry s;
     _nontrivial := _nontrivial s; forcings := forcings s |}.

Definition set_rhs_func (m : list num) (s : state) : state :=
  {| dt := dt s; dt_const := dt_const s; solution := solution s;
     solution_old := solution_old s; msolution_old := msolution_old s;
     rhs_func := m; mass_matrix := mass_matrix s;
     fs_is_dg := fs_is_dg s; fields := fields s; geometry := geometry s;
     _nontrivial := _nontrivial s; forcings := forcings s |}.

Definition set_mass_matrix (g : option G) (s : state) : state :=
  {| dt := dt s; dt_const := dt_const s; solution := solution s;
     solution_old := solution_old s; msolution_old := msolution_old s;
     rhs_func := rhs_func s; mass_matrix := g;
     fs_is_dg := fs_is_dg s; fields := fields s; geometry := geometry s;
     _nontrivial := _nontrivial s; forcings := forcings s |}.

Definition set_geometry (g : G) (s : state) : state :=
  {| dt := dt s; dt_const := dt_const s; solution := solution s;
     solution_old := solution_old s; msolution_old := msolution_old s;
     rhs_func := rhs_func s; mass_matrix := mass_matrix s;
     fs_is_dg := fs_is_dg s; fields := fields s; geometry := g;
     _nontrivial := _nontrivial s; forcings := forcings s |}.

Definition set_forcing (f : E) (ts : list num) (s : state) : state :=
  {| dt := dt s; dt_const := dt_const s; solution := solution s;
     solution_old := solution_old s; msolution_old := msolution_old s;
     rhs_func := rhs_func s; mass_matrix := mass_matrix s;
     fs_is_dg := fs_is_dg s; fields := f; geometry := geometry s;
     _nontrivial := _nontrivial s; forcings := ts |}.

(** [initialize(self, solution)] *)
Definition initialize (init : V) (s : state) : state :=
  (* self.mass_matrix = assemble(self.a, inverse=self.fs_is_dg) *)
  let s1 := set_mass_matrix (Some (geometry s)) s in
  (* self.solution.assign(solution); self.solution_old.assign(solution) *)
  let s2 := set_solution_old init (set_solution init s1) in
  (* assemble(self.mass_new, self.msolution_old) *)
  set_msolution_old (assemble_mass (geometry s2) (solution s2)) s2.

(** [_solve_system]: both branches solve with the mass matrix as last
    assembled; before [initialize] the first reads the missing
    [self.mass_matrix], the second the missing [self.lin_solver]. *)
Definition _solve_system (s : state) : outcome unit * state :=
  match mass_matrix s with
  | Some gm => (Ret tt, set_solution (mass_solve gm (rhs_func s)) s)
  | None =>
      (Raise (AttributeError (if fs_is_dg s then "mass_matrix"
                              else "lin_solver")), s)
  end.

Definition predict (s : state) : outcome unit * state :=
  if _nontrivial s then
    (* assemble(self.mass_new, self.msolution_old) *)
    let s1 := set_msolution_old (assemble_mass (geometry s) (solution s)) s in
    (* assemble(self.l_prediction, self.rhs_func) *)
    let s2 := set_rhs_func
                (assemble_prediction (geometry s1) (dt_const s1)
                   (solution s1) (solution_old s1) (fields s1)) s1 in
    (* self.solution_old.assign(self.solution) *)
    let s3 := set_solution_old (solution s2) s2 in
    _solve_system s3
  else (Ret tt, s).

Definition eval_rhs (s : state) : state :=
  if _nontrivial s then
    set_rhs_func
      (assemble_l (geometry s) (dt_const s) (solution s) (fields s)) s
  else s.

Definition correct (s : state) : outcome unit * state :=
  if _nontrivial s then
    (* self.rhs_func += self.msolution_old *)
    let s1 := set_rhs_func (TwoStage.vadd (rhs_func s) (msolution_old s)) s in
    (* assemble(self.a, self.mass_matrix, inverse=self.fs_is_dg) *)
    match mass_matrix s1 with
    | Some _ => _solve_system (set_mass_matrix (Some (geometry s1)) s1)
    | None => (Raise (AttributeError "mass_matrix"), s1)
    end
  else (Ret tt, s).

Definition advance (t : num) (update_forcings : @TwoStage.callback num E)
           (s : state) : outcome unit * state :=
  if _nontrivial s then
    (* if update_forcings is not None: update_forcings(t + self.dt) *)
    let s1 := match update_forcings with
              | Some f =>
                  set_forcing (f (add t (dt s)) (fields s))
                    (forcings s ++ [add t (dt s)]) s
              | None => s
              end in
    match predict s1 with
    | (Ret _, s2) => correct (eval_rhs s2)
    | (Raise e, s2) => (Raise e, s2)
    end
  else (Ret tt, s).

End Stepper.
End LeapFrogAM3.

(** * Specification vocabulary *)

(** What the recurrence says of three tables: the first weight is
    [1 - start_frac[0]], and every later one is
    [(start_frac[k-1] + dt_frac[k-1]) * (1 - start_frac[k])]. *)
Definition recurrence {num} `{Arith num} (dtf stf w : list num) : Prop :=
  length w = length dtf /\
  (exists s0, stf !! 0%nat = Some s0 /\ w !! 0%nat = Some (sub (of_int 1) s0)) /\
  forall k, (0 < k < length dtf)%nat ->
    exists sp dp sk,
      stf !! (k - 1)%nat = Some sp /\ dtf !! (k - 1)%nat = Some dp /\
      stf !! k = Some sk /\
      w !! k = Some (mul (add sp dp) (sub (of_int 1) sk)).

(** The tables of the constructors, in binary64: the quotients are the
    doubles nearest to 1/4, 2/3 and 1/3. *)
Definition canonical_tables (tb : @tables float) : Prop :=
  t_dt_frac tb = [1; 1 / 4; 2 / 3]%float /\
  t_start_frac tb = [0; 1 / 4; 1 / 3]%float.

(** [x] is within [tol] of [y]. *)
Definition near {num} `{Arith num} (tol x y : num) : bool :=
  leb (absv (sub x y)) tol.

(** The stage weights left by the constructors are, entry by entry, within
    [tol] of [expected]. *)
Definition stage_w_is_about {num} `{Arith num} (tol : num)
           (expected : list num) : Prop :=
  exists tb, ssp_tables = Ret tb /\
             Forall2 (fun w e => near tol w e = true) (t_stage_w tb) expected.

(** [runs c o r o' evs]: started on an object [o], after any trace, the
    computation [c] ends with outcome [r], leaves the object [o'] and
    appends the events [evs]. *)
Definition runs {num : Type} {A : Type} (c : @M num A) (o : @obj num)
           (r : outcome A) (o' : @obj num) (evs : list event) : Prop :=
  forall tr, c {| self := o; trace := tr |}
             = (r, {| self := o'; trace := tr ++ evs |}).

(** ** Sub-cycle counts *)

(** [M] and [d] are what [initialize] computes for the stage fraction [f]:
    [M = int(ceil(f*dt/dt_2d))] and [d = f*dt/M]. *)
Definition subcycle_entry {num} `{Arith num} (dt dt_2d f : num) (M : Z)
           (d : num) : Prop :=
  (exists r, div (mul f dt) dt_2d = Ret r /\ ceil_int r = Ret M) /\
  div (mul f dt) (of_int M) = Ret d.

(** The [M] inner steps of length [d] cover the stage exactly, and none is
    longer than the target [dt_2d]. *)
Definition subcycle_covers {num} `{Arith num} (dt dt_2d f : num) (M : Z)
           (d : num) : Prop :=
  eqb (mul (of_int M) d) (mul f dt) = true /\ leb d dt_2d = true.

(** [new o dt dt_2d] constructs a recipe on which [initialize] succeeds,
    and afterwards every stage [k] has [P dt_frac[k] M[k] dt_2d[k]]. *)
Definition initialize_gives {num} `{Arith num}
           (new : options -> num -> num -> outcome obj)
           (o : options) (dt dt_2d : num)
           (P : num -> Z -> num -> Prop) : Prop :=
  exists (r : obj) (w : world) (tb : tables),
    new o dt dt_2d = Ret r /\ tabs r = Some tb /\
    run initialize r = (Ret tt, w) /\
    _initialized (self w) = true /\
    Forall3 P (t_dt_frac tb) (M_ (self w)) (dt_2d_ (self w)).

(** The sub-steppers every [initialize] starts, in order. *)
Definition steppers_to_initialize (op : options) : list stepper :=
  [timeStepper2d; timeStepper_mom3d]
    ++ optional (solveSalt op) [timeStepper_salt3d]
    ++ optional (solveVertDiffusion op) [timeStepper_vmom3d].

(** The attributes [initialize] reads have been assigned. *)
Definition well_formed {num} (o : @obj num) : Prop :=
  forall s, s ∈ steppers_to_initialize (opts o) -> s ∈ steppers o.

(** [new o dt dt_2d] constructs a recipe on which [initialize] succeeds and
    leaves [self.M = Ms] and [self.dt_2d = ds]. *)
Definition initialize_leaves {num} `{Arith num}
           (new : options -> num -> num -> outcome obj)
           (o : options) (dt dt_2d : num)
           (Ms : list Z) (same : list num -> Prop) : Prop :=
  exists (r : obj) (w : world),
    new o dt dt_2d = Ret r /\
    run initialize r = (Ret tt, w) /\
    M_ (self w) = Ms /\ same (dt_2d_ (self w)).

(** Every switch off. *)
Definition switches_off : options :=
  {| useALEMovingMesh := false; useBottomFriction := false;
     useParabolicViscosity := false; baroclinic := false;
     useTurbulence := false; useTurbulenceAdvection := false;
     useLimiterForTracers := false; solveSalt := false;
     solveVertDiffusion := false; smagorinskyFactor_given := false;
     saltJumpDiffFactor_given := false |}.

(** What C1 says of one stage: [M] and [d] are the computed count and inner
    step, and they cover the stage exactly within the target. *)
Definition stage_contract {num} `{Arith num} (dt dt_2d f : num) (M : Z)
           (d : num) : Prop :=
  subcycle_entry dt dt_2d f M d /\ subcycle_covers dt dt_2d f M d.

(** ** Rounding in binary64

    The rational a double stands for, and how far a rounded result is from
    the exact one. *)

(** The value of a finite double; infinities and NaN are given 0. *)
Definition SF2Q (x : spec_float) : Q :=
  match x with
  | S754_finite s m e =>
      let v := (inject_Z (Zpos m) * 2 ^ e)%Q in
      if s then (- v)%Q else v
  | _ => 0%Q
  end.

Definition value (x : float) : Q := SF2Q (Prim2SF x).

(** Where [y] lies in the interval [[m, m + 1)] of the truncated mantissa
    [m = shr_m mrs], as the round and sticky bits of [mrs] tell it: on [m],
    below the midpoint, on the midpoint, above the midpoint. *)
Definition inb (mrs : shr_record) (y : Q) : Prop :=
  let m := inject_Z (shr_m mrs) in
  match shr_r mrs, shr_s mrs with
  | false, false => (y == m)%Q
  | false, true => (m < y /\ y < m + (1 # 2))%Q
  | true, false => (y == m + (1 # 2))%Q
  | true, true => (m + (1 # 2) < y /\ y < m + 1)%Q
  end.

(** The unit roundoff of binary64. *)
Definition unit_roundoff : Q := 1 # 2 ^ 53.

(** [v] is [x] up to one rounding to nearest. *)
Definition rounded (x v : Q) : Prop :=
  ((1 - unit_roundoff) * x <= v /\ v <= (1 + unit_roundoff) * x)%Q.

(** [x] lies between two powers of two. *)
Definition between (a b : Z) (x : Q) : Prop := (2 ^ a <= x /\ x <= 2 ^ b)%Q.

(** The time steps for which no product or quotient of the stage
    arithmetic leaves the normal range of binary64. *)
Definition working_range (x : float) : Prop := between (-500) 500 (value x).

(** Four units of roundoff. *)
Definition rounding_tolerance : Q := 1 # 2 ^ 51.

(** The [M] inner steps of length [d] cover the stage, and none is longer
    than the target [dt_2d], both up to [rounding_tolerance] in relative
    terms; the products and the comparison are those of the exact values
    of the doubles. *)
Definition subcycle_covers_rounded (dt dt_2d f : float) (M : Z)
           (d : float) : Prop :=
  (Qabs (inject_Z M * value d - value f * value dt)
   <= rounding_tolerance * (value f * value dt) /\
   value d <= (1 + rounding_tolerance) * value dt_2d)%Q.

(** What C1 keeps of one stage in binary64: [M] and [d] are the computed
    count and inner step, and they cover the stage within the target up
    to rounding. *)
Definition stage_contract_rounded (dt dt_2d f : float) (M : Z)
           (d : float) : Prop :=
  subcycle_entry dt dt_2d f M d /\ subcycle_covers_rounded dt dt_2d f M d.

(** ** The dependency pipeline, step by step *)

(** Step 1. *)
Definition elevation_events : list event :=
  [Call copy2dFieldTo3d_elev2d_elev3d; Call elev3d_to_CG_projector_project].

(** Step 2, when [doALEUpdate] is set. *)
Definition moving_mesh_events (op : options) : list event :=
  if useALEMovingMesh op
  then [Call updateCoordinates; Call computeElemHeight;
        Call copy3dFieldTo2d_vElemSize]
  else [].

(** Step 4, when [do2DCoupling] is set. *)
Definition coupling_events (c : recipe) : list event :=
  match c with
  | coupledSSPRKSingleMode =>
      [Call computeVerticalIntegral; Call copy3dFieldTo2d_uvDav;
       Call uv2d_assign_uvDav2d]
  | coupledSSPRK =>
      [Call computeVerticalIntegral; Call copy3dFieldTo2d_uvDav;
       Call copy2dFieldTo3d_uvDav; Call uv2d_start_assign_uvDav2d]
  | _ =>
      [Call computeVerticalIntegral; Call copy3dFieldTo2d_uvDav;
       Call copy2dFieldTo3d_uvDav; Call uv3d_isub_uvDav3d;
       Call copy2dFieldTo3d_uv2d_uvDav3d; Call uv3d_iadd_uvDav3d]
  end.

(** Step 5. *)
Definition vertical_velocity_events : list event :=
  [Call computeVertVelocity].

(** Step 7. *)
Definition mesh_velocity_events (op : options) : list event :=
  if useALEMovingMesh op then [Call computeMeshVelocity] else [].

(** Step 8. *)
Definition friction_events (op : options) : list event :=
  (if useBottomFriction op
   then [Call uvP1_projector_project; Call computeBottomFriction] else [])
  ++ (if useParabolicViscosity op then [Call computeParabolicViscosity]
      else []).

(** Step 9. *)
Definition baroclinic_events (op : options) : list event :=
  if baroclinic op then [Call computeBaroclinicHead] else [].

(** Step 10, when [doStabParams] is set. *)
Definition stabilization_events (op : options) : list event :=
  [Call computeVelMagnitude; Call uvP1_projector_project]
  ++ (if smagorinskyFactor_given op then [Call smagorinskyViscosity] else [])
  ++ (if saltJumpDiffFactor_given op then [Call computeHorizJumpDiffusivity]
      else []).

(** Steps 1 and 2. *)
Definition pipeline_head (op : options) (fl : flags) : list event :=
  Enter fl :: elevation_events
    ++ (if doALEUpdate fl then moving_mesh_events op else []).

(** Steps 4 and 5. *)
Definition pipeline_middle (c : recipe) (fl : flags) : list event :=
  (if do2DCoupling fl then coupling_events c else [])
    ++ vertical_velocity_events.

(** Steps 7 to 10. *)
Definition pipeline_tail (op : options) (fl : flags) : list event :=
  mesh_velocity_events op ++ friction_events op ++ baroclinic_events op
    ++ (if doStabParams fl then stabilization_events op else []).

(** The trace of one pass through the pipeline in which neither the
    vertical diffusion step (3) nor the turbulence update (6) is entered. *)
Definition pipeline_events (c : recipe) (op : options) (fl : flags)
  : list event :=
  pipeline_head op fl ++ pipeline_middle c fl ++ pipeline_tail op fl.

(** Step 3 is entered. *)
Definition enters_vert_diffusion (op : options) (fl : flags) : bool :=
  doVertDiffusion fl && solveVertDiffusion op.

(** Step 6 is entered. *)
Definition enters_turbulence (op : options) (fl : flags) : bool :=
  doTurbulence fl && useTurbulence op.

(** The exception of a call [self.<s>.advance(t, ...)] in a scope where [t]
    is unbound. *)
Definition advance_error {num} (s : stepper) (o : @obj num) : exn :=
  if bool_decide (s ∈ steppers o) then NameError "t"
  else AttributeError (attr_name s).

(** How one pass through the pipeline ends when [t] is unbound. *)
Definition pipeline_outcome {num} (o : @obj num) (fl : flags)
  : outcome unit :=
  if enters_vert_diffusion (opts o) fl
  then Raise (advance_error timeStepper_vmom3d o)
  else if enters_turbulence (opts o) fl
       then Raise (advance_error timeStepper_psi3d o)
       else Ret tt.

(** [o] is what one of the five constructors returns. *)
Definition constructed {num} `{Arith num} (utility : gset string)
           (o : @obj num) : Prop :=
  exists (op : options) (dt dt_2d : num) (n : nat),
    new_coupledSSPRKSync op dt dt_2d = Ret o \/
    new_coupledSSPIMEX op dt dt_2d n = Ret o \/
    new_coupledSSPRKSemiImplicit op dt dt_2d = Ret o \/
    new_coupledSSPRKSingleMode op dt dt_2d n = Ret o \/
    new_coupledSSPRK utility op dt dt_2d = Ret o.

(** [o] holds the class, the options and the sub-stepper attributes of
    [r], which is all the pipeline reads of [self]; the other attributes
    ([_initialized], [M], [dt_2d], which sub-steppers were initialized)
    are free.  No method of the file assigns the class, the options or a
    sub-stepper after the constructor, so every later state of a
    constructed object holds these attributes of it (lemma
    [same_attributes_kept]). *)
Definition same_attributes {num} (r o : @obj num) : Prop :=
  cls o = cls r /\ opts o = opts r /\ steppers o = steppers r.

(** The recipes whose constructor creates the turbulence sub-steppers. *)
Definition creates_turbulence_steppers (c : recipe) : bool :=
  match c with
  | coupledSSPIMEX | coupledSSPRKSemiImplicit => true
  | _ => false
  end.

(** The events of one pass through the pipeline when [t] is unbound: up to
    the step that raises, or all of them. *)
Definition pipeline_trace {num} (o : @obj num) (fl : flags) : list event :=
  if enters_vert_diffusion (opts o) fl then pipeline_head (opts o) fl
  else if enters_turbulence (opts o) fl
       then pipeline_head (opts o) fl ++ pipeline_middle (cls o) fl
              ++ [Call glsModel_preprocess]
       else pipeline_events (cls o) (opts o) fl.

(** Vertical diffusion switched on, everything else off. *)
Definition vert_diffusion_on : options :=
  {| useALEMovingMesh := false; useBottomFriction := false;
     useParabolicViscosity := false; baroclinic := false;
     useTurbulence := false; useTurbulenceAdvection := false;
     useLimiterForTracers := false; solveSalt := false;
     solveVertDiffusion := true; smagorinskyFactor_given := false;
     saltJumpDiffFactor_given := false |}.

(** Turbulence switched on, everything else off. *)
Definition turbulence_on : options :=
  {| useALEMovingMesh := false; useBottomFriction := false;
     useParabolicViscosity := false; baroclinic := false;
     useTurbulence := true; useTurbulenceAdvection := false;
     useLimiterForTracers := false; solveSalt := false;
     solveVertDiffusion := false; smagorinskyFactor_given := false;
     saltJumpDiffFactor_given := false |}.

(** Turbulence with advection of its two quantities switched on, everything
    else off. *)
Definition turbulence_advection_on : options :=
  {| useALEMovingMesh := false; useBottomFriction := false;
     useParabolicViscosity := false; baroclinic := false;
     useTurbulence := true; useTurbulenceAdvection := true;
     useLimiterForTracers := false; solveSalt := false;
     solveVertDiffusion := false; smagorinskyFactor_given := false;
     saltJumpDiffFactor_given := false |}.

(** The names the recipes file uses from [utility], as a sample of what the
    star-import binds. *)
Definition sample_utility : gset string :=
  {[ "timed_region"; "copy2dFieldTo3d"; "copy3dFieldTo2d";
     "computeVertVelocity"; "updateCoordinates"; "computeElemHeight";
     "computeBottomFriction"; "computeParabolicViscosity"; "Constant";
     "computeVerticalIntegral"; "computeMeshVelocity";
     "computeBaroclinicHead"; "computeVelMagnitude";
     "smagorinskyViscosity"; "computeHorizJumpDiffusivity"; "Function";
     "printInfo"; "np" ]}.

(** ** Reading traces *)

(** The arguments of the successive entries of [_updateAllDependencies]. *)
Definition entries (tr : list event) : list flags :=
  omap (fun e => match e with Enter fl => Some fl | _ => None end) tr.

(** The four steps of a turbulence update. *)
Inductive turbulence_step : Type :=
| Preprocess
| AdvancePsi
| AdvanceTke
| Postprocess.

Definition turbulence_step_of (e : event) : option turbulence_step :=
  match e with
  | Call glsModel_preprocess => Some Preprocess
  | Call glsModel_postprocess => Some Postprocess
  | Advance timeStepper_psi3d _ | SolveStage timeStepper_psi3d _ _ =>
      Some AdvancePsi
  | Advance timeStepper_tke3d _ | SolveStage timeStepper_tke3d _ _ =>
      Some AdvanceTke
  | _ => None
  end.

(** The turbulence steps of a trace, in order. *)
Definition turbulence_steps (tr : list event) : list turbulence_step :=
  omap turbulence_step_of tr.

(** Every turbulence update is pre-processing, psi, tke, post-processing
    (what C5 asks of a trace). *)
Definition bracketed (l : list turbulence_step) : Prop :=
  exists n, l = concat (replicate n [Preprocess; AdvancePsi; AdvanceTke;
                                     Postprocess]).

(** ** The SSP-IMEX recipe *)

(** The flags [coupledSSPIMEX.advance] passes at stage [k] of [nS]. *)
Definition imex_flags (nS k : nat) : flags :=
  {| do2DCoupling := Nat.eqb k (nS - 1); doVertDiffusion := false;
     doALEUpdate := Nat.eqb k (nS - 1); doStabParams := Nat.eqb k (nS - 1);
     doTurbulence := false |}.

(** [o] is the object [r] after calls of [initialize] and [advance]: in
    the recipes without sub-cycling these change [_initialized] and [ready]
    only. *)
Definition later_state {num} (r o : @obj num) : Prop :=
  exists b rd, o = set_initialized b (set_ready rd r).

Definition rdy {num} (o : @obj num) (s : stepper) : bool :=
  bool_decide (s ∈ ready o).

(** What [initialize] changes, and records, when [advance] has to call it
    first. *)
Definition after_initialize {num} (o : @obj num) : @obj num :=
  if _initialized o then o
  else set_initialized true
         (set_ready (rev (steppers_to_initialize (opts o)) ++ ready o) o).

Definition initialize_events {num} (o : @obj num) : list event :=
  if _initialized o then []
  else map Initialize (steppers_to_initialize (opts o)).

(** The salt stage of stage [k]. *)
Definition salt_events {num} (o : @obj num) (k : nat) (lim : bool)
  : list event :=
  if solveSalt (opts o)
  then SolveStage timeStepper_salt3d k (rdy o timeStepper_salt3d)
         :: (if lim then [LimiterApply salt3d] else [])
  else [].

(** The turbulence block of a stage of [coupledSSPIMEX.advance]. *)
Definition imex_turbulence_events {num} (o : @obj num) (k : nat)
  : list event :=
  if useTurbulence (opts o)
  then [SolveStage timeStepper_psi3d k (rdy o timeStepper_psi3d);
        SolveStage timeStepper_tke3d k (rdy o timeStepper_tke3d)]
         ++ (if useLimiterForTracers (opts o)
             then [LimiterApply tke3d; LimiterApply psi3d] else [])
         ++ [Call glsModel_postprocess; Call glsModel_preprocess]
  else [].

(** Stage [k] of [coupledSSPIMEX.advance] without turbulence advection. *)
Definition imex_stage_events {num} (o : @obj num) (k : nat) : list event :=
  salt_events o k (useLimiterForTracers (opts o)
                   && Nat.eqb k (nStages o - 1))
    ++ [SolveStage timeStepper_mom3d k (rdy o timeStepper_mom3d);
        SolveStage timeStepper2d k (rdy o timeStepper2d)]
    ++ imex_turbulence_events o k
    ++ pipeline_events (cls o) (opts o) (imex_flags (nStages o) k).

(** The attributes of a [coupledSSPIMEX] object, in any initialization
    state. *)
Definition imex_object {num} (o : @obj num) : Prop :=
  cls o = coupledSSPIMEX /\
  solveVertDiffusion (opts o) = false /\
  steppers o = [timeStepper2d; timeStepper_mom3d]
                 ++ optional (solveSalt (opts o)) [timeStepper_salt3d]
                 ++ optional (useTurbulence (opts o))
                      [timeStepper_tke3d; timeStepper_psi3d].

(** ** A sample Euler stepper *)

(** A stepper for a scalar field with one forcing field [wind]. *)
Definition sample_euler : @ForwardEuler.state float Z :=
  {| ForwardEuler.dt := 2%float;
     ForwardEuler.dt_const := ForwardEuler.Num 2%float;
     ForwardEuler.solution := 5%Z;
     ForwardEuler.solution_old := 4%Z;
     ForwardEuler.fields := {[ "wind" := 1%Z ]};
     ForwardEuler.fields_old := {[ "wind" := 0%Z ]};
     ForwardEuler.forcings := [] |}.

(** A forcing callback that overwrites [wind]. *)
Definition sample_forcing : @ForwardEuler.callback float Z :=
  Some (fun _ fields => <[ "wind" := 7%Z ]> fields).

(** A solve that adds the lagged forcing to the lagged solution. *)
Definition sample_solve (u_old : Z) (fields_old : gmap string Z)
           (dt_const : @ForwardEuler.pyval float) : Z :=
  (u_old + default 0 (fields_old !! "wind"))%Z.

(** ** A sample momentum equation *)

(** Nonlinear, advection by parts, discontinuous in the horizontal, no
    open boundary. *)
Definition sample_equation : MomentumEquation.equation :=
  {| MomentumEquation.nonlin := true;
     MomentumEquation.horiz_advection_by_parts := true;
     MomentumEquation.horizontal_dg := true;
     MomentumEquation.boundary_markers := [];
     MomentumEquation.boundary_len := ∅;
     MomentumEquation.bnd_functions := ∅ |}.

(** The recipes whose [advance] tests [self._initialized]. *)
Definition tests_initialized (c : recipe) : bool :=
  match c with
  | coupledSSPRKSync | coupledSSPIMEX | coupledSSPRKSemiImplicit => true
  | coupledSSPRKSingleMode | coupledSSPRK => false
  end.

(** A computation that never changes the class of [self]. *)
Definition keeps_cls {num} {A} (c : @M num A) : Prop :=
  forall w r w', c w = (r, w') -> cls (self w') = cls (self w).

(** ** The stage loops of the 3-stage recipes *)

(** What [advance] does before its stage loop. *)
Definition advance_head {num} (o : @obj num) : list event :=
  match cls o with
  | coupledSSPRKSync => [Call sol2d_n_assign_sol2d]
  | _ => []
  end.

(** The 2D mode of stage [k]: [M[k]] sub-cycles of the 2D stepper after
    the blend in [coupledSSPRKSync], one stage solve in
    [coupledSSPRKSemiImplicit]. *)
Definition mode2d_events {num} (o : @obj num) (k : nat) : list event :=
  match cls o with
  | coupledSSPRKSync =>
      Call sol2d_assign_blend
        :: replicate (Z.to_nat (default 0%Z (M_ o !! k)))
             (Advance timeStepper2d (rdy o timeStepper2d))
  | _ => [SolveStage timeStepper2d k (rdy o timeStepper2d)]
  end.

(** What stage [k] does before it enters the pipeline (turbulence
    advection off). *)
Definition stage_head {num} (o : @obj num) (k : nat) : list event :=
  salt_events o k (useLimiterForTracers (opts o))
    ++ [SolveStage timeStepper_mom3d k (rdy o timeStepper_mom3d)]
    ++ mode2d_events o k.

(** Stage [k] of the loop, entering the pipeline with
    [lastStep = (k == 2)]. *)
Definition stage_events {num} (o : @obj num) (k : nat) : list event :=
  stage_head o k ++ pipeline_trace o (all_flags (Nat.eqb k 2)).

(** One call of [advance] on an initialized 3-stage recipe. *)
Definition three_stage_trace {num} (o : @obj num) : list event :=
  advance_head o ++ concat (map (stage_events o) [0; 1; 2]%nat).

(** The two recipes that sub-cycle the 2D mode by the stage tables. *)
Definition three_stage_recipe {num} `{Arith num} (op : options)
           (dt dt_2d : num) (r : @obj num) : Prop :=
  new_coupledSSPRKSync op dt dt_2d = Ret r \/
  (new_coupledSSPRKSemiImplicit op dt dt_2d = Ret r /\
   useTurbulenceAdvection op = false).

(** ** [coupledSSPRKSingleMode.advance] *)

(** The flags passed at stage [k]. *)
Definition single_mode_flags (k : nat) : flags :=
  {| do2DCoupling := true; doVertDiffusion := Nat.eqb k 2;
     doALEUpdate := Nat.eqb k 2; doStabParams := Nat.eqb k 2;
     doTurbulence := Nat.eqb k 2 |}.

(** Stage [k]. *)
Definition single_mode_stage_events {num} (o : @obj num) (k : nat)
  : list event :=
  salt_events o k (useLimiterForTracers (opts o))
    ++ [SolveStage timeStepper_mom3d k (rdy o timeStepper_mom3d);
        SolveStage timeStepper2d k (rdy o timeStepper2d)]
    ++ pipeline_trace o (single_mode_flags k).

(** How the call ends: as the pipeline of stage 2, when the 2D stepper
    has that many stages. *)
Definition single_mode_outcome {num} (o : @obj num) : outcome unit :=
  if (3 <=? nstages o)%nat then pipeline_outcome o (single_mode_flags 2)
  else Ret tt.

(** The number of stages the call gets through. *)
Definition single_mode_stages {num} (o : @obj num) : nat :=
  match pipeline_outcome o (single_mode_flags 2) with
  | Ret _ => nstages o
  | Raise _ => Nat.min (nstages o) 3
  end.

(** ** [coupledSSPRK.advance] *)

Definition advance_events {num} (o : @obj num) (b : bool) (s : stepper)
  : list event :=
  if b then [Advance s (rdy o s)] else [].

Definition coupledSSPRK_trace {num} (o : @obj num) : list event :=
  [Advance timeStepper2d (rdy o timeStepper2d);
   Call copy2dFieldTo3d_elev_n; Call copy2dFieldTo3d_elev_nph]
    ++ moving_mesh_events (opts o)
    ++ friction_events (opts o)
    ++ baroclinic_events (opts o)
    ++ [Advance timeStepper_mom3d (rdy o timeStepper_mom3d)]
    ++ advance_events o (solveVertDiffusion (opts o)) timeStepper_vmom3d
    ++ vertical_velocity_events
    ++ mesh_velocity_events (opts o)
    ++ advance_events o (solveSalt (opts o)) timeStepper_salt3d
    ++ coupling_events coupledSSPRK.

(** The star-import binds [SSPRK33] besides the sample names. *)
Definition utility_with_SSPRK33 : gset string :=
  {[ "SSPRK33" ]} ∪ sample_utility.

(** ** What the methods do to the object *)

(** After [c], however it ends, [R] relates the object before to the
    object after. *)
Definition relates {num} {A} (R : @obj num -> @obj num -> Prop)
           (c : @M num A) : Prop :=
  forall w r w', c w = (r, w') -> R (self w) (self w').

(** The sub-steppers on which some [initialize] of the file calls
    [initialize]. *)
Definition initialized_by_recipes : list stepper :=
  [timeStepper2d; timeStepper_mom3d; timeStepper_salt3d;
   timeStepper_vmom3d].

(** From [o] to [o'] the assigned attributes, the options and the class
    stay, and a sub-stepper becomes ready only if it is one of those
    four. *)
Definition ready_grows_within {num} (o o' : @obj num) : Prop :=
  cls o' = cls o /\ opts o' = opts o /\ steppers o' = steppers o /\
  forall s, s ∈ ready o' -> s ∈ ready o \/ s ∈ initialized_by_recipes.

(** ** Sample solves *)

(** An implicit solve that adds the mean of the field [wind] and its
    lagged value to the lagged solution. *)
Definition sample_implicit_solve (guess u_old : Z)
           (fields fields_old : gmap string Z)
           (dt_const : @ForwardEuler.pyval float) : Z :=
  (u_old + (default 0 (fields !! "wind")
            + default 0 (fields_old !! "wind")) / 2)%Z.

(** ** Picard iterations *)

(** What the constructor sets up: [solution_lagged] is a function of its
    own exactly when more than one iteration is asked for. *)
Definition lagged_as_constructed {num} {V U : Type}
           (s : @PressureProjectionPicard.state num V U) : Prop :=
  PressureProjectionPicard.lagged V U s = None
  <-> (PressureProjectionPicard.iterations V U s <= 1)%Z.

(** One Picard iteration on the pair (iterate, preliminary velocity): both
    solves read the iterate as the lagged solution and [u0] as the old
    one. *)
Definition picard_step {num} {V U : Type}
           (solve_mom : U -> V -> V -> gmap string V -> gmap string V
                        -> num -> U)
           (solve : V -> U -> V -> V -> gmap string V -> gmap string V
                    -> num -> V)
           (u0 : V) (f fo : gmap string V) (dtc : num) (p : V * U)
  : V * U :=
  let us := solve_mom (snd p) u0 (fst p) f fo dtc in
  (solve (fst p) us u0 (fst p) f fo dtc, us).

(** A sample Picard stepper on integers, with one iteration. *)
Definition sample_picard : @PressureProjectionPicard.state float Z Z :=
  PressureProjectionPicard.new Z Z 1 2%float 5%Z 0%Z 0%Z
    {[ "wind" := 1%Z ]} {[ "wind" := 0%Z ]}.

Definition sample_picard_callback
  : @PressureProjectionPicard.callback float Z :=
  Some (fun _ fields => <[ "wind" := 7%Z ]> fields).

Definition sample_solve_mom (uv_star u_old u_lagged : Z)
           (fields fields_old : gmap string Z) (dt_const : float) : Z :=
  (u_lagged + default 0 (fields !! "wind"))%Z.

Definition sample_solve_wave (guess uv_star u_old u_lagged : Z)
           (fields fields_old : gmap string Z) (dt_const : float) : Z :=
  (u_old + uv_star - u_lagged)%Z.

(** ** The ALE protocol of [SSPRK22ALE] *)

(** One time step as a caller that moves the mesh drives it: each stage
    is prepared on the geometry of the moment, then the mesh is moved (to
    [g1], then to [g2]) and the stage is solved on the new geometry. *)
Definition ale_step {num} `{Arith num} {V E G : Type}
           (assemble_mu : G -> V -> list num)
           (assemble_l : G -> num -> V -> E -> list num)
           (lin_solve : G -> list num -> V)
           (t : num) (cb : @TwoStage.callback num E) (g1 g2 : G)
           (s : @TwoStage.ssprk22 num V E G)
  : outcome unit * @TwoStage.ssprk22 num V E G :=
  match TwoStage.prepare_stage V E G assemble_mu assemble_l 0 t cb s with
  | (Ret _, a) =>
      match TwoStage.solve_stage V E G lin_solve 0
              (TwoStage.set_geometry V E G g1 a) with
      | (Ret _, b) =>
          match TwoStage.prepare_stage V E G assemble_mu assemble_l 1 t cb
                  b with
          | (Ret _, c) =>
              TwoStage.solve_stage V E G lin_solve 1
                (TwoStage.set_geometry V E G g2 c)
          | (Raise e, c) => (Raise e, c)
          end
      | (Raise e, b) => (Raise e, b)
      end
  | (Raise e, a) => (Raise e, a)
  end.

(** The fields after the forcing callback was invoked at time [time]. *)
Definition forced {num} {E : Type} (cb : @TwoStage.callback num E)
           (time : num) (f : E) : E :=
  match cb with
  | Some h => h time f
  | None => f
  end.

(** The times at which the callback is invoked in one step. *)
Definition stage_times {num} `{Arith num} {E : Type}
           (cb : @TwoStage.callback num E) (t dt : num) : list num :=
  match cb with
  | Some _ => [add t (mul (of_int 0) dt); add t (mul (of_int 1) dt)]
  | None => []
  end.

(** A sample scalar problem on one degree of freedom: the mass is the
    length of the cell (the geometry), the tendency is [dt] times the
    forcing. *)
Definition sample_ssprk22 : @TwoStage.ssprk22 Q Q Q Q :=
  {| TwoStage.dt := 1; TwoStage.dt_const := 1; TwoStage.solution := 3;
     TwoStage.fields := 2; TwoStage.geometry := 1; TwoStage.mu := [];
     TwoStage.mu_old := []; TwoStage.tendency := [];
     TwoStage._nontrivial := true; TwoStage.lin_solver := true;
     TwoStage.forcings := [] |}%Q.

Definition sample_assemble_mu (g u : Q) : list Q := [g * u]%Q.
Definition sample_assemble_l (g dtc u f : Q) : list Q := [dtc * g * f]%Q.
Definition sample_lin_solve (g : Q) (q : list Q) : Q :=
  (match q with x :: _ => x | [] => 0 end / g)%Q.
Definition sample_ale_callback : @TwoStage.callback Q Q :=
  Some (fun time f => (f + time)%Q).

(** ** Boundary terms of the momentum equation *)

(** The boundary markers for which the form [f] holds the elevation
    boundary term of [pressure_grad]. *)
Definition eta_boundary_markers (f : list MomentumRhs.term)
  : list Z :=
  omap (fun t => match t with
                 | MomentumRhs.pressure (MomentumRhs.eta_boundary m) => Some m
                 | _ => None
                 end) f.

(** The boundary markers for which [g] holds the prescribed-elevation
    term of [rhs]. *)
Definition elev_boundary_markers (g : list MomentumRhs.term)
  : list Z :=
  omap (fun t => match t with
                 | MomentumRhs.elev_boundary_pressure m => Some m
                 | _ => None
                 end) g.

(** An external elevation is given on the boundary [m]. *)
Definition elevation_prescribed (eq : MomentumEquation.equation) (m : Z)
  : bool :=
  match MomentumEquation.bnd_functions eq !! m with
  | Some funcs => bool_decide ("elev" ∈ funcs)
  | None => false
  end.

(** The arguments the linear equation does not read. *)
Definition without_advection_arguments {F : Type}
           (a : MomentumRhs.arguments F) : MomentumRhs.arguments F :=
  {| MomentumRhs.w := None;
     MomentumRhs.viscosity_v := MomentumRhs.viscosity_v F a;
     MomentumRhs.viscosity_h := MomentumRhs.viscosity_h F a;
     MomentumRhs.coriolis := MomentumRhs.coriolis F a;
     MomentumRhs.baroc_head := MomentumRhs.baroc_head F a;
     MomentumRhs.uv_bottom := MomentumRhs.uv_bottom F a;
     MomentumRhs.bottom_drag := MomentumRhs.bottom_drag F a;
     MomentumRhs.lin_drag := MomentumRhs.lin_drag F a;
     MomentumRhs.w_mesh := None;
     MomentumRhs.dw_mesh_dz := MomentumRhs.dw_mesh_dz F a;
     MomentumRhs.lax_friedrichs_factor := None;
     MomentumRhs.uv_mag := None;
     MomentumRhs.uv_p1 := None |}.

(** A sample equation with two open boundaries, the first with a
    prescribed elevation, the second with a prescribed normal flux. *)
Definition sample_open_equation : MomentumRhs.equation :=
  {| MomentumRhs.momentum :=
       {| MomentumEquation.nonlin := true;
          MomentumEquation.horiz_advection_by_parts := true;
          MomentumEquation.horizontal_dg := true;
          MomentumEquation.boundary_markers := [1; 2; 3]%Z;
          MomentumEquation.boundary_len := {[ 2%Z ]};
          MomentumEquation.bnd_functions :=
            {[ 1%Z := {[ "elev" ]}; 2%Z := {[ "flux" ]} ]} |};
     MomentumRhs.grad_eta_by_parts := true;
     MomentumRhs.vertical_dg := true |}.

Definition no_arguments {F : Type} : MomentumRhs.arguments F :=
  {| MomentumRhs.w := None; MomentumRhs.viscosity_v := None;
     MomentumRhs.viscosity_h := None; MomentumRhs.coriolis := None;
     MomentumRhs.baroc_head := None; MomentumRhs.uv_bottom := None;
     MomentumRhs.bottom_drag := None; MomentumRhs.lin_drag := None;
     MomentumRhs.w_mesh := None; MomentumRhs.dw_mesh_dz := None;
     MomentumRhs.lax_friedrichs_factor := None; MomentumRhs.uv_mag := None;
     MomentumRhs.uv_p1 := None |}.

(** ** The ALE protocol of [LeapFrogAM3] *)

(** The forcing callback of [advance], invoked once at [t + dt]. *)
Definition leapfrog_forced {num} `{Arith num} {V E G : Type}
           (cb : @TwoStage.callback num E) (t : num)
           (s : @LeapFrogAM3.state num V E G) : @LeapFrogAM3.state num V E G :=
  match cb with
  | Some f =>
      LeapFrogAM3.set_forcing V E G
        (f (add t (LeapFrogAM3.dt V E G s)) (LeapFrogAM3.fields V E G s))
        (LeapFrogAM3.forcings V E G s ++ [add t (LeapFrogAM3.dt V E G s)]) s
  | None => s
  end.

(** One time step as a caller that moves the mesh drives it: prediction
    and evaluation of the right-hand side on the geometry of the moment,
    then the mesh is moved to [g'] and the correction is made there. *)
Definition leapfrog_ale_step {num} `{Arith num} {V E G : Type}
           (assemble_mass : G -> V -> list num)
           (assemble_prediction : G -> num -> V -> V -> E -> list num)
           (assemble_l : G -> num -> V -> E -> list num)
           (mass_solve : G -> list num -> V)
           (t : num) (cb : @TwoStage.callback num E) (g' : G)
           (s : @LeapFrogAM3.state num V E G)
  : outcome unit * @LeapFrogAM3.state num V E G :=
  match LeapFrogAM3.predict V E G assemble_mass assemble_prediction
          mass_solve (leapfrog_forced cb t s) with
  | (Ret _, a) =>
      LeapFrogAM3.correct V E G mass_solve
        (LeapFrogAM3.set_geometry V E G g'
           (LeapFrogAM3.eval_rhs V E G assemble_l a))
  | (Raise e, a) => (Raise e, a)
  end.

(** A sample leap-frog stepper on one degree of freedom, as constructed
    on a cell of length 1, and the same after [initialize]. *)
Definition sample_leapfrog_constructed : @LeapFrogAM3.state Q Q Q Q :=
  {| LeapFrogAM3.dt := 1; LeapFrogAM3.dt_const := 1;
     LeapFrogAM3.solution := 0; LeapFrogAM3.solution_old := 0;
     LeapFrogAM3.msolution_old := []; LeapFrogAM3.rhs_func := [];
     LeapFrogAM3.mass_matrix := None; LeapFrogAM3.fs_is_dg := true;
     LeapFrogAM3.fields := 2; LeapFrogAM3.geometry := 1;
     LeapFrogAM3._nontrivial := true; LeapFrogAM3.forcings := [] |}%Q.

Definition sample_leapfrog : @LeapFrogAM3.state Q Q Q Q :=
  LeapFrogAM3.initialize Q Q Q sample_assemble_mu 3%Q
    sample_leapfrog_constructed.

(** The prediction weights of the class on one degree of freedom:
    [(1/2 - 2/12) M u_old + (1/2 + 2/12) M u + (1 - 2/12) dt f]. *)
Definition sample_assemble_prediction (g dtc u u_old f : Q) : list Q :=
  [(1 # 3) * (g * u_old) + (2 # 3) * (g * u) + (5 # 6) * (dtc * g * f)]%Q.

(** * Properties *)

(** ** Stage weights *)

Lemma bind_Ret_inv {A B} (c : outcome A) (k : A -> outcome B) (b : B) :
  bind c k = Ret b -> exists a, c = Ret a /\ k a = Ret b.
Proof. destruct c as [a|e]; simpl; [eauto | discriminate]. Qed.

Lemma index_Ret_inv {A} (l : list A) (i : nat) (a : A) :
  index l i = Ret a -> l !! i = Some a.
Proof. unfold index. destruct (l !! i); congruence. Qed.

Lemma mapM_length {A B} (f : A -> outcome B) (l : list A) (bs : list B) :
  mapM f l = Ret bs -> length bs = length l.
Proof.
  revert bs. induction l as [|a l IH]; simpl; intros bs Hm.
  - injection Hm as <-. reflexivity.
  - apply bind_Ret_inv in Hm as (b & _ & Hm).
    apply bind_Ret_inv in Hm as (bs' & Hbs & Hm).
    injection Hm as <-. simpl. f_equal. auto.
Qed.

Lemma mapM_lookup {A B} (f : A -> outcome B) (l : list A) (bs : list B)
      (i : nat) (a : A) :
  mapM f l = Ret bs -> l !! i = Some a ->
  exists b, f a = Ret b /\ bs !! i = Some b.
Proof.
  revert bs i. induction l as [|x l IH]; simpl; intros bs i Hm Hi.
  - destruct i; discriminate.
  - apply bind_Ret_inv in Hm as (b & Hb & Hm).
    apply bind_Ret_inv in Hm as (bs' & Hbs & Hm).
    injection Hm as <-.
    destruct i as [|i]; simpl in *.
    + injection Hi as ->. eauto.
    + eauto.
Qed.

(** The loop of the constructors builds a table that satisfies the
    recurrence, whatever the two input tables and the arithmetic. *)
Lemma stage_w_of_recurrence {num} `{Arith num} (dtf stf w : list num) :
  dtf <> [] -> stage_w_of dtf stf = Ret w -> recurrence dtf stf w.
Proof.
  intros Hne Hw. unfold stage_w_of in Hw.
  apply bind_Ret_inv in Hw as (s0 & Hs0 & Hw).
  apply bind_Ret_inv in Hw as (ws & Hws & Hw).
  injection Hw as <-.
  apply index_Ret_inv in Hs0.
  pose proof (mapM_length _ _ _ Hws) as Hlen. rewrite length_seq in Hlen.
  assert (length dtf <> 0)%nat as Hl by (destruct dtf; simpl; congruence).
  repeat split.
  - simpl. lia.
  - exists s0. auto.
  - intros k [Hk0 Hk].
    destruct k as [|k]; [lia|].
    assert (seq 1 (length dtf - 1) !! k = Some (S k)) as Hseq.
    { rewrite lookup_seq. split; [reflexivity | lia]. }
    destruct (mapM_lookup _ _ _ _ _ Hws Hseq) as (b & Hb & Hbk).
    unfold stage_w_at in Hb.
    apply bind_Ret_inv in Hb as (sp & Hsp & Hb).
    apply bind_Ret_inv in Hb as (dp & Hdp & Hb).
    apply bind_Ret_inv in Hb as (sk & Hsk & Hb).
    injection Hb as <-.
    apply index_Ret_inv in Hsp, Hdp, Hsk.
    exists sp, dp, sk. simpl. auto.
Qed.

(** C4. Both 3-stage SSP constructors, [coupledSSPRKSync.__init__] and
    [coupledSSPRKSemiImplicit.__init__], succeed for every configuration and
    leave the same tables: [dt_frac = [1, 1/4, 2/3]],
    [start_frac = [0, 1/4, 1/3]], and a [stage_w] with
    [stage_w[0] = 1 - start_frac[0]] and, for every [k > 0],
    [stage_w[k] = (start_frac[k-1] + dt_frac[k-1]) * (1 - start_frac[k])]. *)
Theorem stage_w_satisfies_recurrence (o : options) (dt dt_2d : float) :
  exists (sync semi : obj) (tb : tables),
    new_coupledSSPRKSync o dt dt_2d = Ret sync /\
    new_coupledSSPRKSemiImplicit o dt dt_2d = Ret semi /\
    tabs sync = Some tb /\ tabs semi = Some tb /\
    canonical_tables tb /\
    recurrence (t_dt_frac tb) (t_start_frac tb) (t_stage_w tb).
Proof.
  destruct (@ssp_tables float _) as [tb|e] eqn:Htb;
    [|vm_compute in Htb; discriminate].
  unfold new_coupledSSPRKSync, new_coupledSSPRKSemiImplicit.
  rewrite Htb. simpl.
  eexists _, _, tb.
  split; [reflexivity|]. split; [reflexivity|].
  split; [reflexivity|]. split; [reflexivity|].
  split.
  - vm_compute in Htb. injection Htb as <-. split; reflexivity.
  - unfold ssp_tables in Htb.
    apply bind_Ret_inv in Htb as (dtf & Hd & Htb).
    apply bind_Ret_inv in Htb as (stf & Hs & Htb).
    apply bind_Ret_inv in Htb as (w & Hw & Htb).
    injection Htb as <-. simpl.
    apply stage_w_of_recurrence; [|exact Hw].
    vm_compute in Hd. injection Hd as <-. discriminate.
Qed.

(** The stage weights in binary64 and in exact arithmetic. *)
Lemma stage_w_binary64 :
  exists tb, @ssp_tables float _ = Ret tb /\
             t_stage_w tb = [1; 0.75; 0.33333333333333337]%float.
Proof. eexists. split; vm_compute; reflexivity. Qed.

Lemma stage_w_exact :
  exists tb, @ssp_tables Q _ = Ret tb /\
             Forall2 Qeq (t_stage_w tb) [1; 3 # 4; 1 # 3]%Q.
Proof.
  eexists. split; [vm_compute; reflexivity|]. simpl.
  repeat constructor; reflexivity.
Qed.

(** C3, as stated, fails: the second weight is 0.75 and the third 1/3, so
    the weights are not [[1.0, 0.1875, 0.5556]], not even to within 0.1. *)
Lemma stage_w_not_01875_05556 :
  ~ stage_w_is_about 0.1%float [1; 0.1875; 0.5556]%float.
Proof.
  intros (tb & Htb & Hall).
  vm_compute in Htb. injection Htb as <-. simpl in Hall.
  inversion Hall as [|? ? ? ? _ Hrest]; subst.
  inversion Hrest as [|? ? ? ? Hsecond _]; subst.
  vm_compute in Hsecond. discriminate.
Qed.

(** C3, amended. The stage weights computed at construction from
    [dt_frac = [1, 1/4, 2/3]] and [start_frac = [0, 1/4, 1/3]] are
    approximately [[1.0, 0.75, 0.3333]] (to within 0.00005 in binary64), and
    exactly [[1, 3/4, 1/3]] in exact arithmetic: the weights of the initial
    values [u_n], [3/4 u_n + 1/4 u_(1)], [1/3 u_n + 2/3 u_(2)] of the three
    stages. *)
Theorem stage_w_is_1_075_03333 :
  stage_w_is_about 0.00005%float [1; 0.75; 0.3333]%float /\
  (exists tb, @ssp_tables Q _ = Ret tb /\
              Forall2 Qeq (t_stage_w tb) [1; 3 # 4; 1 # 3]%Q).
Proof.
  split; [|exact stage_w_exact].
  eexists. split; [vm_compute; reflexivity|]. simpl.
  repeat constructor; vm_compute; reflexivity.
Qed.

(** ** Running methods *)

Section Runs.
Context {num : Type} `{Arith num}.
Implicit Types o : @obj num.

Lemma runs_ret {A} (a : A) o : runs (ret a) o (Ret a) o [].
Proof. intros tr. unfold ret. rewrite app_nil_r. reflexivity. Qed.

Lemma runs_raise {A} (e : exn) o :
  runs (raise e : M A) o (Raise e) o [].
Proof. intros tr. unfold raise. rewrite app_nil_r. reflexivity. Qed.

Lemma runs_lift {A} (c : outcome A) o : runs (lift c) o c o [].
Proof. intros tr. unfold lift. rewrite app_nil_r. reflexivity. Qed.

Lemma runs_get o : runs get o (Ret o) o [].
Proof. intros tr. unfold get. rewrite app_nil_r. reflexivity. Qed.

Lemma runs_modify (f : obj -> obj) o o' :
  o' = f o -> runs (modify f) o (Ret tt) o' [].
Proof.
  intros -> tr. unfold modify. simpl. rewrite app_nil_r. reflexivity.
Qed.

Lemma runs_emit (e : event) o : runs (emit e) o (Ret tt) o [e].
Proof. intros tr. reflexivity. Qed.

Lemma runs_bind {A B} (c : M A) (k : A -> M B) o a o1 e1 r o2 e2 :
  runs c o (Ret a) o1 e1 -> runs (k a) o1 r o2 e2 ->
  runs (bindM c k) o r o2 (e1 ++ e2).
Proof.
  intros Hc Hk tr. unfold bindM. rewrite Hc, Hk, app_assoc. reflexivity.
Qed.

Lemma runs_bind_raise {A B} (c : M A) (k : A -> M B) o e o1 e1 :
  runs c o (Raise e) o1 e1 -> runs (bindM c k) o (Raise e) o1 e1.
Proof. intros Hc tr. unfold bindM. rewrite Hc. reflexivity. Qed.

Lemma runs_events {A} (c : M A) o r o' evs evs' :
  runs c o r o' evs -> evs = evs' -> runs c o r o' evs'.
Proof. intros Hc <-. exact Hc. Qed.

Lemma runs_final {A} (c : M A) o r o1 e1 o2 e2 :
  runs c o r o1 e1 -> o1 = o2 -> e1 = e2 -> runs c o r o2 e2.
Proof. intros Hc <- <-. exact Hc. Qed.

Lemma runs_when_false (c : M unit) o :
  runs (when false c) o (Ret tt) o [].
Proof. apply runs_ret. Qed.

Lemma runs_when (b : bool) (c : M unit) o evs :
  runs c o (Ret tt) o evs ->
  runs (when b c) o (Ret tt) o (if b then evs else []).
Proof. destruct b; [auto | intros _; apply runs_ret]. Qed.

(** Two runs of the same computation from the same object agree. *)
Lemma runs_functional {A} (c : M A) o r1 o1 e1 r2 o2 e2 :
  runs c o r1 o1 e1 -> runs c o r2 o2 e2 -> r1 = r2 /\ o1 = o2 /\ e1 = e2.
Proof.
  intros H1 H2. specialize (H1 []). specialize (H2 []).
  rewrite H1 in H2. simpl in H2. injection H2 as -> -> ->. auto.
Qed.

Lemma runs_run {A} (c : M A) o r o' evs :
  runs c o r o' evs -> run c o = (r, {| self := o'; trace := evs |}).
Proof. intros Hc. unfold run. rewrite (Hc []). reflexivity. Qed.

Lemma runs_get_stepper (s : stepper) o :
  s ∈ steppers o -> runs (get_stepper s) o (Ret tt) o [].
Proof.
  intros Hs. unfold get_stepper.
  eapply runs_events; [eapply runs_bind; [apply runs_get|]|reflexivity].
  rewrite bool_decide_eq_true_2 by exact Hs. apply runs_ret.
Qed.

Lemma runs_get_stepper_missing (s : stepper) o :
  s ∉ steppers o ->
  runs (get_stepper s) o (Raise (AttributeError (attr_name s))) o [].
Proof.
  intros Hs. unfold get_stepper.
  eapply runs_events; [eapply runs_bind; [apply runs_get|]|reflexivity].
  rewrite bool_decide_eq_false_2 by exact Hs. apply runs_raise.
Qed.

Lemma runs_stepper_initialize (s : stepper) o :
  s ∈ steppers o ->
  runs (stepper_initialize s) o (Ret tt) (set_ready (s :: ready o) o)
       [Initialize s].
Proof.
  intros Hs. unfold stepper_initialize.
  eapply runs_events.
  - eapply runs_bind; [apply runs_get_stepper, Hs|].
    eapply runs_bind; [apply runs_emit|]. apply runs_modify. reflexivity.
  - reflexivity.
Qed.

End Runs.

Create HintDb runs.
#[export] Hint Resolve runs_ret runs_raise runs_lift runs_get runs_emit
  runs_when_false : runs.

(** One step of a sequence that returns normally. *)
Ltac run_step := eapply runs_bind; [solve [eauto with runs]|cbv beta].

(** A sub-stepper initialization inside a sequence. *)
Ltac init_step Hwf :=
  eapply runs_bind;
  [apply runs_stepper_initialize; simpl; apply Hwf; set_solver|].

Section Initialize.
Context {num : Type} `{Arith num}.
Implicit Types o : @obj num.

Lemma runs_initialize_steppers o :
  well_formed o ->
  runs initialize_steppers o (Ret tt)
       (set_ready (rev (steppers_to_initialize (opts o)) ++ ready o) o)
       (map Initialize (steppers_to_initialize (opts o))).
Proof.
  intros Hwf. unfold initialize_steppers, well_formed in *.
  unfold steppers_to_initialize in *.
  destruct (solveSalt (opts o)) eqn:Hsalt;
    destruct (solveVertDiffusion (opts o)) eqn:Hvd; simpl in *.
  all: eapply runs_final;
    [ run_step; init_step Hwf; init_step Hwf;
      simpl; rewrite ?Hsalt, ?Hvd; simpl
    | | ].
  - init_step Hwf. apply runs_stepper_initialize; simpl; apply Hwf; set_solver.
  - reflexivity.
  - reflexivity.
  - init_step Hwf. apply runs_ret.
  - reflexivity.
  - reflexivity.
  - eapply runs_bind; [apply runs_ret|].
    apply runs_stepper_initialize; simpl; apply Hwf; set_solver.
  - reflexivity.
  - reflexivity.
  - eapply runs_bind; [apply runs_ret|]. apply runs_ret.
  - destruct o; reflexivity.
  - reflexivity.
Qed.

(** The loop of [initialize] appends what [substep] computes for each
    stage fraction. *)
Lemma runs_subcycle_loop (fr : list num) (ps : list (Z * num)) o :
  mapM (substep (solver_dt o) (solver_dt_2d o)) fr = Ret ps ->
  runs (for_each fr (fun f =>
          bindM get (fun o =>
          bindM (lift (substep (solver_dt o) (solver_dt_2d o) f)) (fun p =>
          bindM (modify (fun o => set_M (M_ o ++ [fst p]) o)) (fun _ =>
          modify (fun o => set_dt_2d (dt_2d_ o ++ [snd p]) o))))))
       o (Ret tt)
       (set_dt_2d (dt_2d_ o ++ map snd ps) (set_M (M_ o ++ map fst ps) o))
       [].
Proof.
  revert ps o. induction fr as [|f fr IH]; simpl; intros ps o Hps.
  - injection Hps as <-. simpl. eapply runs_final; [apply runs_ret| |reflexivity].
    rewrite !app_nil_r. destruct o; reflexivity.
  - apply bind_Ret_inv in Hps as (p & Hp & Hps).
    apply bind_Ret_inv in Hps as (ps' & Hps' & Hps).
    injection Hps as <-.
    eapply runs_final.
    + eapply runs_bind.
      * run_step. rewrite Hp. run_step.
        eapply runs_bind; [apply runs_modify; reflexivity|].
        apply runs_modify; reflexivity.
      * apply IH. simpl. exact Hps'.
    + simpl. unfold set_dt_2d, set_M. simpl. rewrite <- !app_assoc. reflexivity.
    + reflexivity.
Qed.

(** [initialize] of the sub-cycling recipes, when the stage arithmetic
    raises nothing. *)
Lemma runs_initialize_subcycling o (tb : tables) (ps : list (Z * num)) :
  well_formed o -> tabs o = Some tb ->
  mapM (substep (solver_dt o) (solver_dt_2d o)) (t_dt_frac tb) = Ret ps ->
  runs initialize_subcycling o (Ret tt)
       (set_initialized true
          (set_dt_2d (map snd ps)
             (set_M (map fst ps)
                (set_ready (rev (steppers_to_initialize (opts o)) ++ ready o)
                           o))))
       (map Initialize (steppers_to_initialize (opts o))).
Proof.
  intros Hwf Htb Hps. unfold initialize_subcycling.
  eapply runs_final.
  - eapply runs_bind; [apply runs_initialize_steppers, Hwf|].
    eapply runs_bind; [apply runs_modify; reflexivity|].
    eapply runs_bind; [apply runs_modify; reflexivity|].
    eapply runs_bind.
    { unfold get_tables. run_step. simpl. rewrite Htb. apply runs_ret. }
    eapply runs_bind; [apply runs_subcycle_loop; simpl; exact Hps|].
    apply runs_modify; reflexivity.
  - destruct o; reflexivity.
  - rewrite !app_nil_r. reflexivity.
Qed.

End Initialize.

(** ** Sub-cycle counts *)

Lemma new_coupledSSPRKSync_well_formed {num} `{Arith num} o dt dt_2d
      (r : obj) :
  new_coupledSSPRKSync o dt dt_2d = Ret r ->
  well_formed r /\ opts r = o /\ solver_dt r = dt /\ solver_dt_2d r = dt_2d /\
  cls r = coupledSSPRKSync /\ _initialized r = false /\
  exists tb, ssp_tables = Ret tb /\ tabs r = Some tb.
Proof.
  unfold new_coupledSSPRKSync. intros Hr.
  apply bind_Ret_inv in Hr as (tb & Htb & Hr). injection Hr as <-.
  repeat split; eauto.
  unfold well_formed, steppers_to_initialize. simpl. auto.
Qed.

Lemma new_coupledSSPRKSemiImplicit_well_formed {num} `{Arith num} o dt dt_2d
      (r : obj) :
  new_coupledSSPRKSemiImplicit o dt dt_2d = Ret r ->
  well_formed r /\ opts r = o /\ solver_dt r = dt /\ solver_dt_2d r = dt_2d /\
  cls r = coupledSSPRKSemiImplicit /\ _initialized r = false /\
  exists tb, ssp_tables = Ret tb /\ tabs r = Some tb.
Proof.
  unfold new_coupledSSPRKSemiImplicit. intros Hr.
  apply bind_Ret_inv in Hr as (tb & Htb & Hr). injection Hr as <-.
  repeat split; eauto.
  unfold well_formed, steppers_to_initialize. simpl.
  intros s Hs.
  destruct (solveSalt o), (solveVertDiffusion o), (useTurbulence o);
    simpl in *; rewrite ?elem_of_cons, ?elem_of_nil in *; tauto.
Qed.

(** In exact arithmetic a positive stage fraction of a positive step, with
    a positive target, gets at least one inner step; the inner steps cover
    the stage exactly and none exceeds the target. *)
Lemma substep_exact (dt dt_2d f : Q) :
  (0 < dt)%Q -> (0 < dt_2d)%Q -> (0 < f)%Q ->
  exists M d, substep dt dt_2d f = Ret (M, d) /\
              subcycle_entry dt dt_2d f M d /\
              subcycle_covers dt dt_2d f M d.
Proof.
  intros Hdt Hdt2 Hf.
  assert (0 < f * dt)%Q as Hfdt by (apply Qmult_lt_0_compat; assumption).
  assert (~ dt_2d == 0)%Q as Hnz2
      by (intros E; rewrite E in Hdt2; exact (Qlt_irrefl _ Hdt2)).
  assert (Qeq_bool dt_2d 0 = false) as Hz2.
  { destruct (Qeq_bool dt_2d 0) eqn:E; [|reflexivity].
    apply Qeq_bool_iff in E. contradiction. }
  set (r := (f * dt / dt_2d)%Q).
  assert (0 < r)%Q as Hr.
  { unfold r. apply Qlt_shift_div_l; [exact Hdt2|]. rewrite Qmult_0_l. exact Hfdt. }
  pose proof (Qle_ceiling r) as Hceil.
  set (M := Qceiling r) in *.
  assert (0 < inject_Z M)%Q as HM by (eapply Qlt_le_trans; eassumption).
  assert (~ inject_Z M == 0)%Q as HMnz
      by (intros E; rewrite E in HM; exact (Qlt_irrefl _ HM)).
  assert (Qeq_bool (inject_Z M) 0 = false) as HzM.
  { destruct (Qeq_bool (inject_Z M) 0) eqn:E; [|reflexivity].
    apply Qeq_bool_iff in E. contradiction. }
  exists M, (f * dt / inject_Z M)%Q.
  assert (div (f * dt)%Q dt_2d = Ret r) as Hdiv1
      by (unfold div; simpl; rewrite Hz2; reflexivity).
  assert (div (f * dt)%Q (inject_Z M) = Ret (f * dt / inject_Z M)%Q) as Hdiv2
      by (unfold div; simpl; rewrite HzM; reflexivity).
  split; [|split].
  - unfold substep. simpl. change (Qmult f dt) with (f * dt)%Q.
    rewrite Hdiv1. simpl. fold r. fold M. rewrite Hdiv2. reflexivity.
  - split; [exists r; split; [exact Hdiv1|reflexivity]|exact Hdiv2].
  - split; simpl.
    + apply Qeq_bool_iff. apply Qmult_div_r. exact HMnz.
    + apply Qle_bool_iff. apply Qle_shift_div_r; [exact HM|].
      assert (f * dt == r * dt_2d)%Q as E by (unfold r; field; exact Hnz2).
      rewrite E, (Qmult_comm dt_2d).
      apply Qmult_le_compat_r; [exact Hceil|]. apply Qlt_le_weak, Hdt2.
Qed.

Lemma runs_initialize_dispatch {num} `{Arith num} (o : @obj num) r o' evs :
  cls o = coupledSSPRKSync \/ cls o = coupledSSPRKSemiImplicit ->
  runs initialize_subcycling o r o' evs -> runs initialize o r o' evs.
Proof.
  intros Hcls Hrun. unfold initialize.
  eapply runs_final; [eapply runs_bind; [apply runs_get|]| |]; try reflexivity.
  destruct Hcls as [-> | ->]; exact Hrun.
Qed.

(** [initialize] on a sub-cycling recipe in exact arithmetic. *)
Lemma initialize_exact (r : @obj Q) (tb : tables) :
  well_formed r -> tabs r = Some tb -> @ssp_tables Q _ = Ret tb ->
  cls r = coupledSSPRKSync \/ cls r = coupledSSPRKSemiImplicit ->
  (0 < solver_dt r)%Q -> (0 < solver_dt_2d r)%Q ->
  exists w, run initialize r = (Ret tt, w) /\
            _initialized (self w) = true /\
            Forall3 (fun f M d =>
                       subcycle_entry (solver_dt r) (solver_dt_2d r) f M d /\
                       subcycle_covers (solver_dt r) (solver_dt_2d r) f M d)
                    (t_dt_frac tb) (M_ (self w)) (dt_2d_ (self w)).
Proof.
  intros Hwf Htabs Htb Hcls Hdt Hdt2.
  vm_compute in Htb. injection Htb as <-.
  destruct (substep_exact _ _ 1%Q Hdt Hdt2 eq_refl) as (M0 & d0 & H0 & E0 & C0).
  destruct (substep_exact _ _ (1 # 4)%Q Hdt Hdt2 eq_refl)
    as (M1 & d1 & H1 & E1 & C1).
  destruct (substep_exact _ _ (2 # 3)%Q Hdt Hdt2 eq_refl)
    as (M2 & d2 & H2 & E2 & C2).
  assert (mapM (substep (solver_dt r) (solver_dt_2d r))
               [1%Q; (1 # 4)%Q; (2 # 3)%Q]
          = Ret [(M0, d0); (M1, d1); (M2, d2)]) as Hps
      by (simpl; rewrite H0, H1, H2; reflexivity).
  pose proof (runs_initialize_dispatch _ _ _ _ Hcls
                (runs_initialize_subcycling r _ _ Hwf Htabs Hps)) as Hrun.
  apply runs_run in Hrun.
  eexists. split; [exact Hrun|]. simpl. split; [reflexivity|].
  apply Forall3_cons; [split; assumption|].
  apply Forall3_cons; [split; assumption|].
  apply Forall3_cons; [split; assumption|].
  apply Forall3_nil.
Qed.

Lemma ssp_tables_exact :
  @ssp_tables Q _ = Ret {| t_dt_frac := [1; 1 # 4; 2 # 3]%Q;
                           t_start_frac := [0; 1 # 4; 1 # 3]%Q;
                           t_stage_w := [1; 3 # 4; 16 # 48]%Q |}.
Proof. vm_compute. reflexivity. Qed.

Lemma initialize_gives_exact_Sync (o : options) (dt dt_2d : Q) :
  (0 < dt)%Q -> (0 < dt_2d)%Q ->
  initialize_gives new_coupledSSPRKSync o dt dt_2d (stage_contract dt dt_2d).
Proof.
  intros Hdt Hdt2.
  destruct (new_coupledSSPRKSync o dt dt_2d) as [r|e] eqn:Hnew;
    [|unfold new_coupledSSPRKSync in Hnew; rewrite ssp_tables_exact in Hnew;
      discriminate].
  destruct (new_coupledSSPRKSync_well_formed _ _ _ _ Hnew)
    as (Hwf & _ & Hsdt & Hsdt2 & Hcls & _ & tb & Htb & Htabs).
  subst dt dt_2d.
  destruct (initialize_exact r tb Hwf Htabs Htb (or_introl Hcls) Hdt Hdt2)
    as (w & Hrun & Hinit & Hall).
  exists r, w, tb. auto.
Qed.

Lemma initialize_gives_exact_SemiImplicit (o : options) (dt dt_2d : Q) :
  (0 < dt)%Q -> (0 < dt_2d)%Q ->
  initialize_gives new_coupledSSPRKSemiImplicit o dt dt_2d
                   (stage_contract dt dt_2d).
Proof.
  intros Hdt Hdt2.
  destruct (new_coupledSSPRKSemiImplicit o dt dt_2d) as [r|e] eqn:Hnew;
    [|unfold new_coupledSSPRKSemiImplicit in Hnew;
      rewrite ssp_tables_exact in Hnew; discriminate].
  destruct (new_coupledSSPRKSemiImplicit_well_formed _ _ _ _ Hnew)
    as (Hwf & _ & Hsdt & Hsdt2 & Hcls & _ & tb & Htb & Htabs).
  subst dt dt_2d.
  destruct (initialize_exact r tb Hwf Htabs Htb (or_intror Hcls) Hdt Hdt2)
    as (w & Hrun & Hinit & Hall).
  exists r, w, tb. auto.
Qed.

(** The scenario [dt = 10], [dt_2d = 3], run in both arithmetics. *)
Lemma scenario_exact (o : options) :
  initialize_leaves new_coupledSSPRKSync o 10%Q 3%Q [4; 1; 3]%Z
                    (Forall2 Qeq [5 # 2; 5 # 2; 20 # 9]%Q) /\
  initialize_leaves new_coupledSSPRKSemiImplicit o 10%Q 3%Q [4; 1; 3]%Z
                    (Forall2 Qeq [5 # 2; 5 # 2; 20 # 9]%Q).
Proof.
  destruct o as [a b c d e f g salt vd h i].
  split; destruct salt, vd; eexists _, _;
    (split; [lazy; reflexivity|]); (split; [lazy; reflexivity|]);
    (split; [reflexivity|]); simpl; repeat constructor.
Qed.

Lemma scenario_binary64 (o : options) :
  initialize_leaves new_coupledSSPRKSync o 10%float 3%float [4; 1; 3]%Z
                    (eq [2.5; 2.5; 2.2222222222222219]%float) /\
  initialize_leaves new_coupledSSPRKSemiImplicit o 10%float 3%float
                    [4; 1; 3]%Z
                    (eq [2.5; 2.5; 2.2222222222222219]%float).
Proof.
  destruct o as [a b c d e f g salt vd h i].
  split; destruct salt, vd; eexists _, _;
    (split; [lazy; reflexivity|]); (split; [lazy; reflexivity|]);
    (split; reflexivity).
Qed.

(** In binary64 the contract of C1 holds in the scenario [dt = 10],
    [dt_2d = 3]. *)
Lemma stage_contract_10_3 :
  Forall3 (stage_contract 10%float 3%float)
          [1; 1 / 4; 2 / 3]%float [4; 1; 3]%Z
          [2.5; 2.5; 2.2222222222222219]%float.
Proof.
  repeat apply Forall3_cons; try apply Forall3_nil.
  all: match goal with
       | |- stage_contract _ _ ?f _ _ =>
           split;
           [split; [exists (PrimFloat.div (PrimFloat.mul f 10) 3); split|]
           |split]; vm_compute; reflexivity
       end.
Qed.

Lemma scenario_binary64_contract (o : options) :
  initialize_gives new_coupledSSPRKSync o 10%float 3%float
                   (stage_contract 10%float 3%float) /\
  initialize_gives new_coupledSSPRKSemiImplicit o 10%float 3%float
                   (stage_contract 10%float 3%float).
Proof.
  destruct o as [a b c d e f g salt vd h i].
  split; destruct salt, vd; eexists _, _, _;
    (split; [lazy; reflexivity|]); (split; [reflexivity|]);
    (split; [lazy; reflexivity|]); (split; [reflexivity|]);
    exact stage_contract_10_3.
Qed.

(** ** Rounding in binary64: products, quotients and conversions

    The primitive operations are specified by [SpecFloat]: a product, a
    quotient or a conversion from [Z] truncates an exact mantissa to 53
    bits, keeping a round and a sticky bit, and rounds to nearest even
    ([binary_round_aux]).  In the normal range the result is within a
    relative error of [2 ^ -53] of the exact value; this is proved here
    from the specification and used on the stage arithmetic of
    [initialize]. *)

Section Rounding64.
Local Open Scope Q_scope.

Lemma pow2_pos (e : Z) : (0 < 2 ^ e)%Q.
Proof. apply Qpower_0_lt. reflexivity. Qed.

Lemma pow2_add (a b : Z) : (2 ^ (a + b) == 2 ^ a * 2 ^ b)%Q.
Proof. apply Qpower_plus. intros E. discriminate E. Qed.

Lemma pow2_le (a b : Z) : (a <= b)%Z -> (2 ^ a <= 2 ^ b)%Q.
Proof. intros Hab. apply Qpower_le_compat_l; [exact Hab|]. discriminate. Qed.

Lemma pow2_lt (a b : Z) : (a < b)%Z -> (2 ^ a < 2 ^ b)%Q.
Proof. intros Hab. apply Qpower_lt_compat_l; [exact Hab|]. reflexivity. Qed.

Lemma pow2_Z (n : Z) : (0 <= n)%Z -> (inject_Z (2 ^ n) == 2 ^ n)%Q.
Proof. intros Hn. apply (Zpower_Qpower 2 n Hn). Qed.

(** [digits2_pos m] is the number of binary digits of [m]. *)
Lemma digits2_pos_bounds (m : positive) :
  (2 ^ (Zpos (digits2_pos m) - 1) <= Zpos m < 2 ^ Zpos (digits2_pos m))%Z.
Proof.
  induction m as [p IH|p IH|]; simpl digits2_pos.
  - rewrite Pos2Z.inj_succ, Z.pow_succ_r by lia.
    replace (Z.succ (Zpos (digits2_pos p)) - 1)%Z
      with (Z.succ (Zpos (digits2_pos p) - 1)) by lia.
    rewrite Z.pow_succ_r by lia. lia.
  - rewrite Pos2Z.inj_succ, Z.pow_succ_r by lia.
    replace (Z.succ (Zpos (digits2_pos p)) - 1)%Z
      with (Z.succ (Zpos (digits2_pos p) - 1)) by lia.
    rewrite Z.pow_succ_r by lia. lia.
  - simpl. lia.
Qed.

Lemma digits2_pos_unique (m : positive) (d : Z) :
  (2 ^ (d - 1) <= Zpos m < 2 ^ d)%Z -> Zpos (digits2_pos m) = d.
Proof.
  intros [Hlo Hhi].
  pose proof (digits2_pos_bounds m) as [Hlo' Hhi'].
  assert (0 < d)%Z as Hd.
  { destruct (Z.lt_trichotomy d 0) as [Hneg|[->|Hpos]]; [|simpl in Hhi; lia|lia].
    rewrite Z.pow_neg_r in Hhi by lia. lia. }
  assert (Zpos (digits2_pos m) - 1 < d)%Z
    by (apply (Z.pow_lt_mono_r_iff 2); lia).
  assert (d - 1 < Zpos (digits2_pos m))%Z
    by (apply (Z.pow_lt_mono_r_iff 2); lia).
  lia.
Qed.

Lemma inb_ext (mrs : shr_record) (y y' : Q) :
  (y == y')%Q -> inb mrs y -> inb mrs y'.
Proof.
  intros E. unfold inb. destruct (shr_r mrs), (shr_s mrs); rewrite E; auto.
Qed.

Lemma inject_Z_xO (p : positive) :
  (inject_Z (Zpos p~0) == 2 * inject_Z (Zpos p))%Q.
Proof. rewrite Pos2Z.inj_xO, inject_Z_mult. reflexivity. Qed.

Lemma inject_Z_xI (p : positive) :
  (inject_Z (Zpos p~1) == 2 * inject_Z (Zpos p) + 1)%Q.
Proof. rewrite Pos2Z.inj_xI, inject_Z_plus, inject_Z_mult. reflexivity. Qed.

(** Shifting one bit out halves the located value. *)
Lemma shr_1_inb (mrs : shr_record) (y y' : Q) :
  (0 <= shr_m mrs)%Z -> inb mrs y -> (y' * 2 == y)%Q ->
  inb (shr_1 mrs) y' /\ shr_m (shr_1 mrs) = (shr_m mrs / 2)%Z.
Proof.
  destruct mrs as [m r s]. simpl shr_m. intros Hm Hy Hy'.
  destruct m as [|p|p]; [| |lia].
  - split; [|reflexivity].
    revert Hy. unfold inb; destruct r, s; simpl;
      change (inject_Z 0) with 0%Q; intros; lra.
  - split.
    + revert Hy. unfold inb.
      destruct p as [p|p|]; destruct r, s; simpl shr_1; simpl shr_m;
        simpl shr_r; simpl shr_s; cbv iota beta;
        rewrite ?inject_Z_xO, ?inject_Z_xI;
        change (inject_Z 0) with 0%Q; change (inject_Z 1) with 1%Q;
        intros; lra.
    + destruct p as [p|p|]; simpl shr_1; simpl shr_m.
      * rewrite Pos2Z.inj_xI. Z.div_mod_to_equations. lia.
      * rewrite Pos2Z.inj_xO. Z.div_mod_to_equations. lia.
      * reflexivity.
Qed.

(** Shifting [n] bits out divides the located value by [2 ^ n]. *)
Lemma shr_iter_inb (n : positive) :
  forall (mrs : shr_record) (y y' : Q),
    (0 <= shr_m mrs)%Z -> inb mrs y ->
    (y' * inject_Z (2 ^ Zpos n) == y)%Q ->
    inb (SpecFloat.iter_pos shr_1 n mrs) y' /\
    shr_m (SpecFloat.iter_pos shr_1 n mrs) = (shr_m mrs / 2 ^ Zpos n)%Z.
Proof.
  induction n as [n IH|n IH|]; intros mrs y y' Hm Hy Hy'; simpl SpecFloat.iter_pos.
  - assert (2 ^ Zpos n~1 = 2 * (2 ^ Zpos n * 2 ^ Zpos n))%Z as Hpow
        by (replace (Zpos n~1) with (1 + (Zpos n + Zpos n))%Z by lia;
            rewrite !Z.pow_add_r by lia; reflexivity).
    rewrite Hpow, !inject_Z_mult in Hy'.
    set (P := inject_Z (2 ^ Zpos n)) in *.
    destruct (shr_1_inb mrs y (y' * P * P) Hm Hy) as [H1 E1].
    { rewrite <- Hy'. change (inject_Z 2) with 2%Q. ring. }
    assert (0 <= shr_m (shr_1 mrs))%Z as Hm1
        by (rewrite E1; apply Z.div_pos; lia).
    destruct (IH _ _ (y' * P) Hm1 H1) as [H2 E2]; [reflexivity|].
    assert (0 <= shr_m (SpecFloat.iter_pos shr_1 n (shr_1 mrs)))%Z as Hm2
        by (rewrite E2; apply Z.div_pos; lia).
    destruct (IH _ _ y' Hm2 H2) as [H3 E3]; [reflexivity|].
    split; [exact H3|].
    rewrite E3, E2, E1, Hpow, !Z.div_div by lia. reflexivity.
  - assert (2 ^ Zpos n~0 = 2 ^ Zpos n * 2 ^ Zpos n)%Z as Hpow
        by (replace (Zpos n~0) with (Zpos n + Zpos n)%Z by lia;
            rewrite !Z.pow_add_r by lia; reflexivity).
    rewrite Hpow, !inject_Z_mult in Hy'.
    set (P := inject_Z (2 ^ Zpos n)) in *.
    destruct (IH _ _ (y' * P) Hm Hy) as [H2 E2].
    { rewrite <- Hy'. ring. }
    assert (0 <= shr_m (SpecFloat.iter_pos shr_1 n mrs))%Z as Hm2
        by (rewrite E2; apply Z.div_pos; lia).
    destruct (IH _ _ y' Hm2 H2) as [H3 E3]; [reflexivity|].
    split; [exact H3|].
    rewrite E3, E2, Hpow, !Z.div_div by lia. reflexivity.
  - apply (shr_1_inb mrs y y' Hm Hy). exact Hy'.
Qed.

(** Rounding to nearest even moves to an integer within one half. *)
Lemma round_nearest_even_inb (mrs : shr_record) (y : Q) :
  inb mrs y ->
  let m1 := round_nearest_even (shr_m mrs) (loc_of_shr_record mrs) in
  (m1 = shr_m mrs \/ m1 = shr_m mrs + 1)%Z /\
  (inject_Z m1 - (1 # 2) <= y <= inject_Z m1 + (1 # 2))%Q /\
  (inject_Z (shr_m mrs) <= y)%Q.
Proof.
  destruct mrs as [m r s]. unfold inb. simpl.
  destruct r, s; simpl; intros Hy;
    try destruct (Z.even m);
    rewrite ?inject_Z_plus; change (inject_Z 1) with 1%Q;
    (split; [auto|split; lra]).
Qed.

Lemma fexp_normal (E : Z) :
  (-1021 <= E)%Z -> fexp prec emax E = (E - 53)%Z.
Proof. unfold fexp, SpecFloat.emin, prec, emax. lia. Qed.

Lemma pow2_cancel (n : Z) : 2 ^ (- n) * 2 ^ n == 1.
Proof. rewrite <- pow2_add. replace (- n + n)%Z with 0%Z by lia. reflexivity. Qed.

(** The first alignment of [binary_round_aux], in the normal range: the
    mantissa is cut to 53 bits. *)
Lemma shr_fexp_normal (mx ex : Z) (lx : location) (y : Q) :
  (0 < mx)%Z ->
  inb (shr_record_of_loc mx lx) y ->
  (ex <= Zdigits2 mx + ex - 53)%Z ->
  (-1021 <= Zdigits2 mx + ex)%Z ->
  exists (mrs : shr_record) (y' : Q),
    shr_fexp prec emax mx ex lx = (mrs, (Zdigits2 mx + ex - 53)%Z) /\
    inb mrs y' /\
    (2 ^ 52 <= shr_m mrs < 2 ^ 53)%Z /\
    y' * 2 ^ (Zdigits2 mx + ex - 53) == y * 2 ^ ex.
Proof.
  intros Hmx Hy Hprec Hlow.
  destruct mx as [|pm|pm]; try lia. simpl Zdigits2 in *.
  pose proof (digits2_pos_bounds pm) as Hd.
  set (d := Zpos (digits2_pos pm)) in *.
  assert (shr_m (shr_record_of_loc (Zpos pm) lx) = Zpos pm) as Hm0
      by (destruct lx as [|[]]; reflexivity).
  unfold shr_fexp. simpl Zdigits2. fold d. rewrite fexp_normal by exact Hlow.
  destruct (d + ex - 53 - ex)%Z as [|n|n] eqn:Hn; try lia.
  - (* no shift *)
    assert (d = 53%Z) as Hd53 by lia.
    exists (shr_record_of_loc (Zpos pm) lx), y.
    split; [unfold shr; f_equal; lia|]. split; [exact Hy|].
    rewrite Hm0. split; [rewrite Hd53 in Hd; simpl in Hd; lia|].
    replace (d + ex - 53)%Z with ex by lia. reflexivity.
  - (* [n] bits are shifted out *)
    assert (d = (53 + Zpos n)%Z) as Hdn by lia.
    set (y' := y * 2 ^ (- Zpos n)).
    assert (y' * inject_Z (2 ^ Zpos n) == y) as Hy'.
    { unfold y'. rewrite pow2_Z by lia. rewrite <- Qmult_assoc, pow2_cancel.
      ring. }
    destruct (shr_iter_inb n _ y y' ltac:(rewrite Hm0; lia) Hy Hy')
      as [Hinb Hm].
    exists (SpecFloat.iter_pos shr_1 n (shr_record_of_loc (Zpos pm) lx)), y'.
    split; [unfold shr; f_equal; lia|]. split; [exact Hinb|].
    rewrite Hm, Hm0. split.
    + rewrite Hdn in Hd.
      replace (53 + Zpos n - 1)%Z with (52 + Zpos n)%Z in Hd by lia.
      rewrite !Z.pow_add_r in Hd by lia.
      split.
      * apply Z.div_le_lower_bound; lia.
      * apply Z.div_lt_upper_bound; lia.
    + unfold y'. rewrite <- Qmult_assoc, <- pow2_add.
      replace (- Zpos n + (d + ex - 53))%Z with ex by lia. reflexivity.
Qed.

(** A positive binary64 with a full mantissa, as [binary_round_aux] returns
    it in the normal range. *)
Lemma bounded_normal (m : positive) (e : Z) :
  (2 ^ 52 <= Zpos m < 2 ^ 53)%Z -> (-1074 <= e <= 971)%Z ->
  bounded prec emax m e = true /\ Zpos (digits2_pos m) = 53%Z.
Proof.
  intros Hm He.
  assert (Zpos (digits2_pos m) = 53%Z) as Hd
      by (apply digits2_pos_unique; exact Hm).
  split; [|exact Hd].
  unfold bounded, canonical_mantissa. rewrite Hd.
  apply andb_true_intro. split.
  - apply Z.eqb_eq. unfold fexp, SpecFloat.emin, prec, emax. lia.
  - apply Z.leb_le. unfold prec, emax. lia.
Qed.

(** [binary_round_aux] in the normal range: the result is a finite double
    with a full mantissa, within half a unit in the last place of the exact
    value [y * 2 ^ ex]. *)
Lemma binary_round_aux_normal (mx ex : Z) (lx : location) (y : Q) :
  (0 < mx)%Z ->
  inb (shr_record_of_loc mx lx) y ->
  (ex <= Zdigits2 mx + ex - 53)%Z ->
  (-1021 <= Zdigits2 mx + ex <= 1023)%Z ->
  exists (m : positive) (e : Z),
    binary_round_aux prec emax false mx ex lx = S754_finite false m e /\
    bounded prec emax m e = true /\
    Zpos (digits2_pos m) = 53%Z /\
    (1 - (1 # 2 ^ 53)) * (y * 2 ^ ex) <= inject_Z (Zpos m) * 2 ^ e /\
    inject_Z (Zpos m) * 2 ^ e <= (1 + (1 # 2 ^ 53)) * (y * 2 ^ ex) /\
    2 ^ (Zdigits2 mx + ex - 1) <= y * 2 ^ ex.
Proof.
  intros Hmx Hy Hprec [Hlow Hhigh].
  destruct (shr_fexp_normal mx ex lx y Hmx Hy Hprec Hlow)
    as (mrs & y' & Hshr & Hinb & Hm & Hy').
  set (E := (Zdigits2 mx + ex)%Z) in *.
  destruct (round_nearest_even_inb mrs y' Hinb) as (Hm1 & Hnear & Hfloor).
  unfold binary_round_aux. rewrite Hshr.
  set (m1 := round_nearest_even (shr_m mrs) (loc_of_shr_record mrs)) in *.
  cbv zeta in Hm1, Hnear.
  assert (0 < 2 ^ (E - 53)) as HA by apply pow2_pos.
  assert (2 ^ (E - 1) == inject_Z (2 ^ 52) * 2 ^ (E - 53)) as Hbinade.
  { rewrite pow2_Z by lia. rewrite <- pow2_add. f_equiv. lia. }
  assert (inject_Z (2 ^ 52) <= y') as Hy52.
  { eapply Qle_trans; [|exact Hfloor]. rewrite <- Zle_Qle. lia. }
  assert (forall v : Q, v == inject_Z m1 * 2 ^ (E - 53) ->
            (1 - (1 # 2 ^ 53)) * (y * 2 ^ ex) <= v /\
            v <= (1 + (1 # 2 ^ 53)) * (y * 2 ^ ex) /\
            2 ^ (E - 1) <= y * 2 ^ ex) as Herr.
  { intros v ->. rewrite <- Hy', Hbinade.
    set (A := 2 ^ (E - 53)) in *.
    change (inject_Z (2 ^ 52)) with (4503599627370496 # 1) in *.
    change (1 # 2 ^ 53) with (1 # 9007199254740992).
    destruct Hnear as [Hn1 Hn2].
    assert (0 <= (y' - (4503599627370496 # 1)) * A) as H1
        by (apply Qmult_le_0_compat; lra).
    assert (0 <= (inject_Z m1 + (1 # 2) - y') * A) as H2
        by (apply Qmult_le_0_compat; lra).
    assert (0 <= (y' - (inject_Z m1 - (1 # 2))) * A) as H3
        by (apply Qmult_le_0_compat; lra).
    split; [|split]; lra. }
  destruct (Z.eq_dec m1 (2 ^ 53)%Z) as [Htop|Htop].
  - (* the mantissa was rounded up to the next binade *)
    exists 4503599627370496%positive, (E - 53 + 1)%Z.
    assert (shr_fexp prec emax 9007199254740992 (E - 53) loc_Exact
            = ({| shr_m := 4503599627370496; shr_r := false;
                  shr_s := false |}, (E - 53 + 1)%Z)) as Hshr2.
    { unfold shr_fexp.
      change (Zdigits2 9007199254740992) with 54%Z.
      replace (fexp prec emax (54 + (E - 53)))%Z with (E - 52)%Z
        by (unfold fexp, SpecFloat.emin, prec, emax; lia).
      replace (E - 52 - (E - 53))%Z with 1%Z by lia.
      reflexivity. }
    change (2 ^ 53)%Z with 9007199254740992%Z in Htop.
    rewrite Htop, Hshr2. cbv iota beta. simpl shr_m.
    replace (E - 53 + 1 <=? emax - prec)%Z with true
      by (symmetry; apply Z.leb_le; unfold prec, emax; lia).
    split; [reflexivity|].
    destruct (bounded_normal 4503599627370496 (E - 53 + 1)%Z) as [Hb Hd];
      [simpl; lia|lia|].
    split; [exact Hb|]. split; [exact Hd|].
    apply Herr. rewrite Htop.
    rewrite (Z.add_comm (E - 53) 1), pow2_add. change (2 ^ 1) with 2.
    change (inject_Z (Z.pos 4503599627370496))
      with (4503599627370496 # 1).
    change (inject_Z 9007199254740992) with (9007199254740992 # 1). ring.
  - (* the rounded mantissa still has 53 bits *)
    assert (2 ^ 52 <= m1 < 2 ^ 53)%Z as Hm1' by lia.
    destruct m1 as [|p1|p1] eqn:Ep1; try lia.
    exists p1, (E - 53)%Z.
    destruct (bounded_normal p1 (E - 53)%Z Hm1') as [Hb Hd]; [lia|].
    unfold shr_fexp. simpl Zdigits2. rewrite Hd.
    replace (fexp prec emax (53 + (E - 53)))%Z with (E - 53)%Z
      by (unfold fexp, SpecFloat.emin, prec, emax; lia).
    replace (E - 53 - (E - 53))%Z with 0%Z by lia.
    simpl shr. cbv iota beta.
    replace (E - 53 <=? emax - prec)%Z with true
      by (symmetry; apply Z.leb_le; unfold prec, emax; lia).
    split; [reflexivity|]. split; [exact Hb|]. split; [reflexivity|].
    apply Herr. reflexivity.
Qed.

Lemma inb_bounds (mrs : shr_record) (y : Q) :
  inb mrs y -> inject_Z (shr_m mrs) <= y /\ y < inject_Z (shr_m mrs) + 1.
Proof.
  unfold inb. destruct (shr_r mrs), (shr_s mrs); intros Hy; split; lra.
Qed.

Lemma shr_m_of_loc (m : Z) (l : location) :
  shr_m (shr_record_of_loc m l) = m.
Proof. destruct l as [|[]]; reflexivity. Qed.

(** Where the exact value lies, from the number of digits of the
    truncated mantissa. *)
Lemma binade_of_digits (m : positive) (e : Z) (y : Q) :
  inject_Z (Zpos m) <= y -> y < inject_Z (Zpos m) + 1 ->
  2 ^ (Zpos (digits2_pos m) + e - 1) <= y * 2 ^ e /\
  y * 2 ^ e < 2 ^ (Zpos (digits2_pos m) + e).
Proof.
  intros Hlo Hhi.
  pose proof (digits2_pos_bounds m) as [Hdlo Hdhi].
  set (d := Zpos (digits2_pos m)) in *.
  assert (0 < d)%Z as Hd by (unfold d; lia).
  pose proof (pow2_pos e) as He.
  replace (d + e - 1)%Z with ((d - 1) + e)%Z by lia.
  rewrite !pow2_add, <- (pow2_Z d), <- (pow2_Z (d - 1)) by lia.
  split.
  - apply Qmult_le_compat_r; [|lra].
    eapply Qle_trans; [|exact Hlo]. rewrite <- Zle_Qle. exact Hdlo.
  - apply Qmult_lt_compat_r; [exact He|].
    eapply Qlt_le_trans; [exact Hhi|].
    assert (inject_Z (Zpos m) + 1 == inject_Z (Zpos m + 1)) as ->
        by (rewrite inject_Z_plus; reflexivity).
    rewrite <- Zle_Qle. lia.
Qed.

Lemma pow2_lt_inv (a b : Z) : 2 ^ a < 2 ^ b -> (a < b)%Z.
Proof.
  intros Hlt. destruct (Z_lt_le_dec a b) as [H|H]; [exact H|].
  apply pow2_le in H. lra.
Qed.

(** [binary_round_aux] on a mantissa of at least 53 bits whose exact value
    lies in the normal range: the result is a normal double within a
    relative error of [2 ^ -53]. *)
Lemma binary_round_aux_range (mx ex : Z) (lx : location) (y x : Q) :
  (2 ^ 52 <= mx)%Z ->
  inb (shr_record_of_loc mx lx) y ->
  x == y * 2 ^ ex ->
  2 ^ (-1022) <= x -> x < 2 ^ 1023 ->
  exists (m : positive) (e : Z),
    binary_round_aux prec emax false mx ex lx = S754_finite false m e /\
    bounded prec emax m e = true /\
    Zpos (digits2_pos m) = 53%Z /\
    (1 - (1 # 2 ^ 53)) * x <= inject_Z (Zpos m) * 2 ^ e /\
    inject_Z (Zpos m) * 2 ^ e <= (1 + (1 # 2 ^ 53)) * x.
Proof.
  intros Hmx Hy Hx Hlo Hhi.
  destruct mx as [|pm|pm]; try lia.
  destruct (inb_bounds _ _ Hy) as [Hy1 Hy2]. rewrite shr_m_of_loc in Hy1, Hy2.
  destruct (binade_of_digits pm ex y Hy1 Hy2) as [Hb1 Hb2].
  rewrite <- Hx in Hb1, Hb2.
  pose proof (digits2_pos_bounds pm) as [_ Hdhi].
  assert (52 < Zpos (digits2_pos pm))%Z as Hd
      by (apply (Z.pow_lt_mono_r_iff 2); lia).
  assert (-1022 < Zpos (digits2_pos pm) + ex)%Z as HE1
      by (apply pow2_lt_inv; lra).
  assert (Zpos (digits2_pos pm) + ex - 1 < 1023)%Z as HE2
      by (apply pow2_lt_inv; lra).
  destruct (binary_round_aux_normal (Zpos pm) ex lx y) as
    (m & e & Hr & Hbd & Hdm & He1 & He2 & _);
    [lia|exact Hy|simpl Zdigits2; lia|simpl Zdigits2; lia|].
  exists m, e. rewrite Hx. auto.
Qed.

(** A double whose value is at least [2 ^ -1022] is positive and normal. *)
Lemma value_normal (a : float) :
  2 ^ (-1022) <= value a ->
  exists (m : positive) (e : Z),
    Prim2SF a = S754_finite false m e /\
    (2 ^ 52 <= Zpos m < 2 ^ 53)%Z /\
    value a == inject_Z (Zpos m) * 2 ^ e.
Proof.
  intros Hlo. pose proof (pow2_pos (-1022)) as Hpos.
  pose proof (Prim2SF_valid a) as Hvalid. unfold value in *.
  destruct (Prim2SF a) as [s|s| |s m e]; cbn [SF2Q] in *; try lra.
  assert (0 < inject_Z (Zpos m) * 2 ^ e) as Hv.
  { apply Qmult_lt_0_compat; [|apply pow2_pos].
    unfold Qlt; simpl; lia. }
  destruct s; [lra|].
  exists m, e. split; [reflexivity|]. split; [|reflexivity].
  cbn [valid_binary] in Hvalid. unfold bounded, canonical_mantissa in Hvalid.
  apply andb_prop in Hvalid as [Hcanon _]. apply Z.eqb_eq in Hcanon.
  pose proof (digits2_pos_bounds m) as [Hdlo Hdhi].
  set (d := Zpos (digits2_pos m)) in *.
  destruct (Z_lt_le_dec (d + e - 53) (-1074)) as [Hsub|Hnorm].
  - (* a subnormal would be too small *)
    exfalso.
    assert (e = (-1074)%Z) as ->
        by (revert Hcanon; unfold fexp, SpecFloat.emin, prec, emax; lia).
    assert (Zpos m < 2 ^ 52)%Z as Hm.
    { eapply Z.lt_le_trans; [exact Hdhi|]. apply Z.pow_le_mono_r; lia. }
    assert (inject_Z (Zpos m) * 2 ^ (-1074) < 2 ^ (-1022)); [|lra].
    replace (-1022)%Z with (52 + -1074)%Z by lia.
    rewrite pow2_add, <- (pow2_Z 52) by lia.
    apply Qmult_lt_compat_r; [apply pow2_pos|].
    rewrite <- Zlt_Qlt. exact Hm.
  - assert (d = 53%Z) as Hd
        by (revert Hcanon; unfold fexp, SpecFloat.emin, prec, emax; lia).
    rewrite Hd in Hdlo, Hdhi. simpl in Hdlo. lia.
Qed.

Lemma rounded_of_parts (x v : Q) :
  (1 - (1 # 2 ^ 53)) * x <= v -> v <= (1 + (1 # 2 ^ 53)) * x -> rounded x v.
Proof. intros H1 H2. split; assumption. Qed.

(** The product of two normal doubles whose exact product is in the normal
    range. *)
Lemma mul_rounded (a b : float) :
  2 ^ (-1022) <= value a -> 2 ^ (-1022) <= value b ->
  2 ^ (-1022) <= value a * value b -> value a * value b < 2 ^ 1023 ->
  rounded (value a * value b) (value (a * b)%float).
Proof.
  intros Ha Hb Hlo Hhi.
  destruct (value_normal a Ha) as (ma & ea & Ea & Hma & Va).
  destruct (value_normal b Hb) as (mb & eb & Eb & Hmb & Vb).
  assert (Prim2SF (a * b)%float
          = binary_round_aux prec emax false (Zpos (ma * mb)) (ea + eb)
                             loc_Exact) as Hspec
      by (rewrite mul_spec, Ea, Eb; reflexivity).
  destruct (binary_round_aux_range (Zpos (ma * mb)) (ea + eb) loc_Exact
              (inject_Z (Zpos (ma * mb))) (value a * value b))
    as (m & e & Hr & _ & _ & H1 & H2).
  - rewrite Pos2Z.inj_mul. nia.
  - reflexivity.
  - rewrite Va, Vb, Pos2Z.inj_mul, inject_Z_mult, pow2_add. ring.
  - exact Hlo.
  - exact Hhi.
  - unfold value at 3. rewrite Hspec, Hr. cbn [SF2Q].
    apply rounded_of_parts; assumption.
Qed.

(** The quotient of two normal doubles whose exact quotient is in the
    normal range (above its lowest binade). *)
Lemma div_rounded (a b : float) :
  2 ^ (-1022) <= value a -> 2 ^ (-1022) <= value b ->
  2 ^ (-1021) <= value a / value b -> value a / value b < 2 ^ 1023 ->
  rounded (value a / value b) (value (a / b)%float).
Proof.
  intros Ha Hb Hlo Hhi.
  destruct (value_normal a Ha) as (ma & ea & Ea & Hma & Va).
  destruct (value_normal b Hb) as (mb & eb & Eb & Hmb & Vb).
  assert (0 < inject_Z (Zpos mb)) as Hmbpos by (unfold Qlt; simpl; lia).
  assert (~ inject_Z (Zpos mb) == 0) as Hmbnz by lra.
  pose proof (pow2_pos eb) as Hebpos.
  assert (value a / value b
          == inject_Z (Zpos ma) / inject_Z (Zpos mb) * 2 ^ (ea - eb)) as Vq.
  { rewrite Va, Vb. unfold Zminus. rewrite pow2_add, Qpower_opp.
    field. split; lra. }
  (* the exponents are far enough from the subnormal range *)
  assert (-1021 <= ea - eb)%Z as Hexp.
  { assert (value a / value b < 2 ^ (ea - eb + 1)) as Hup.
    { rewrite Vq, pow2_add. change (2 ^ 1) with 2.
      pose proof (pow2_pos (ea - eb)) as Hp.
      assert (inject_Z (Zpos ma) / inject_Z (Zpos mb) < 2); [|nra].
      apply Qlt_shift_div_r; [exact Hmbpos|].
      change 2 with (inject_Z 2). rewrite <- inject_Z_mult, <- Zlt_Qlt. lia. }
    assert (-1021 < ea - eb + 1)%Z by (apply pow2_lt_inv; lra).
    lia. }
  assert (SFdiv_core_binary prec emax (Zpos ma) ea (Zpos mb) eb
          = ((Zpos ma * 2 ^ 53 / Zpos mb)%Z, (ea - eb - 53)%Z,
             new_location (Zpos mb) ((Zpos ma * 2 ^ 53) mod Zpos mb)%Z))
    as Hcore.
  { unfold SFdiv_core_binary. cbn [Zdigits2].
    rewrite (digits2_pos_unique ma 53), (digits2_pos_unique mb 53)
      by (simpl; lia).
    replace (Z.min (fexp prec emax (53 + ea - (53 + eb))) (ea - eb))
      with (ea - eb - 53)%Z
      by (unfold fexp, SpecFloat.emin, prec, emax; lia).
    replace (ea - eb - (ea - eb - 53))%Z with 53%Z by lia.
    rewrite Z.shiftl_mul_pow2 by lia.
    unfold Z.div, Z.modulo.
    destruct (Z.div_eucl (Zpos ma * 2 ^ 53) (Zpos mb)) as [q r].
    reflexivity. }
  set (n := (Zpos ma * 2 ^ 53)%Z) in *.
  pose proof (Z.div_mod n (Zpos mb) ltac:(lia)) as Hdm.
  pose proof (Z.mod_pos_bound n (Zpos mb) ltac:(lia)) as Hr.
  set (q := (n / Zpos mb)%Z) in *. set (r := (n mod Zpos mb)%Z) in *.
  assert (2 ^ 52 <= q)%Z as Hq
      by (apply Z.div_le_lower_bound; unfold n; lia).
  set (y := inject_Z n / inject_Z (Zpos mb)).
  assert (y == inject_Z q + inject_Z r / inject_Z (Zpos mb)) as Hy.
  { unfold y. rewrite Hdm, inject_Z_plus, inject_Z_mult. field. exact Hmbnz. }
  assert (Prim2SF (a / b)%float
          = binary_round_aux prec emax false q (ea - eb - 53)
              (new_location (Zpos mb) r)) as Hspec.
  { rewrite div_spec, Ea, Eb. unfold SF64div, SFdiv. rewrite Hcore.
    reflexivity. }
  destruct (binary_round_aux_range q (ea - eb - 53)
              (new_location (Zpos mb) r) y (value a / value b))
    as (m & e & Hres & _ & _ & H1 & H2).
  - exact Hq.
  - (* the location of the remainder *)
    apply (inb_ext _ (inject_Z q + inject_Z r / inject_Z (Zpos mb)));
      [symmetry; exact Hy|].
    set (t := inject_Z r / inject_Z (Zpos mb)).
    assert (forall c : Z, (c < 2 * r)%Z -> inject_Z c < 2 * t * inject_Z (Zpos mb))
      as Hgt.
    { intros c Hc. unfold t.
      assert (2 * (inject_Z r / inject_Z (Zpos mb)) * inject_Z (Zpos mb)
              == inject_Z (2 * r)) as ->
          by (rewrite inject_Z_mult; change (inject_Z 2) with 2; field;
              exact Hmbnz).
      rewrite <- Zlt_Qlt. exact Hc. }
    assert (forall c : Z, (2 * r < c)%Z -> 2 * t * inject_Z (Zpos mb) < inject_Z c)
      as Hlt.
    { intros c Hc. unfold t.
      assert (2 * (inject_Z r / inject_Z (Zpos mb)) * inject_Z (Zpos mb)
              == inject_Z (2 * r)) as ->
          by (rewrite inject_Z_mult; change (inject_Z 2) with 2; field;
              exact Hmbnz).
      rewrite <- Zlt_Qlt. exact Hc. }
    assert (forall c : Z, (2 * r = c)%Z -> 2 * t * inject_Z (Zpos mb) == inject_Z c)
      as Heq.
    { intros c Hc. unfold t. rewrite <- Hc, inject_Z_mult.
      change (inject_Z 2) with 2. field. exact Hmbnz. }
    assert ((0 < r)%Z -> 0 < t) as Htpos.
    { intros Hrpos. specialize (Hgt 0%Z ltac:(lia)).
      change (inject_Z 0) with 0 in Hgt. nra. }
    assert (r = 0%Z -> t == 0) as Htzero.
    { intros ->. unfold t. change (inject_Z 0) with 0. field. exact Hmbnz. }
    unfold new_location, new_location_even, new_location_odd.
    destruct (Z.even (Zpos mb)) eqn:Heven.
    + destruct (Z.eqb_spec r 0) as [Hr0|Hr0].
      * unfold inb; simpl. rewrite (Htzero Hr0). ring.
      * specialize (Htpos ltac:(lia)).
        destruct (Z.compare_spec (2 * r) (Zpos mb)) as [Hc|Hc|Hc];
          unfold inb; simpl.
        -- specialize (Heq _ Hc). nra.
        -- specialize (Hlt _ Hc). nra.
        -- specialize (Hgt _ Hc). specialize (Hlt (2 * Zpos mb)%Z ltac:(lia)).
           rewrite inject_Z_mult in Hlt. change (inject_Z 2) with 2 in Hlt.
           nra.
    + assert (2 * r <> Zpos mb)%Z as Hodd.
      { intros Hc. rewrite <- Hc, Z.even_mul in Heven. discriminate Heven. }
      destruct (Z.eqb_spec r 0) as [Hr0|Hr0].
      * unfold inb; simpl. rewrite (Htzero Hr0). ring.
      * specialize (Htpos ltac:(lia)).
        destruct (Z.compare_spec (2 * r + 1) (Zpos mb)) as [Hc|Hc|Hc];
          unfold inb; simpl.
        -- specialize (Hlt (Zpos mb) ltac:(lia)). nra.
        -- specialize (Hlt (Zpos mb) ltac:(lia)). nra.
        -- specialize (Hgt (Zpos mb) ltac:(lia)).
           specialize (Hlt (2 * Zpos mb)%Z ltac:(lia)).
           rewrite inject_Z_mult in Hlt. change (inject_Z 2) with 2 in Hlt.
           nra.
  - rewrite Vq. unfold y, n. rewrite inject_Z_mult, pow2_Z by lia.
    replace (ea - eb)%Z with (53 + (ea - eb - 53))%Z at 1 by lia.
    rewrite pow2_add. field. exact Hmbnz.
  - eapply Qle_trans; [|exact Hlo]. apply pow2_le. lia.
  - exact Hhi.
  - unfold value at 3. rewrite Hspec, Hres. cbn [SF2Q].
    apply rounded_of_parts; assumption.
Qed.

Lemma Zpos_iter_xO (m k : positive) :
  Zpos (Pos.iter xO m k) = (Zpos m * 2 ^ Zpos k)%Z.
Proof.
  induction k as [|k IH] using Pos.peano_ind.
  - simpl. lia.
  - rewrite Pos.iter_succ, Pos2Z.inj_xO, IH, Pos2Z.inj_succ, Z.pow_succ_r
      by lia.
    ring.
Qed.

(** The conversion of a positive Python [int] to a float. *)
Lemma of_int_rounded (M : Z) :
  (1 <= M)%Z -> inject_Z M < 2 ^ 1023 ->
  rounded (inject_Z M) (value (float_of_Z M)).
Proof.
  intros HM Hhi. destruct M as [|pm|pm]; try lia.
  pose proof (digits2_pos_bounds pm) as [Hdlo Hdhi].
  set (d := Zpos (digits2_pos pm)) in *.
  assert (0 < d)%Z as Hd by (unfold d; lia).
  assert (fexp prec emax (d + 0) = (d - 53)%Z) as Hfexp
      by (unfold fexp, SpecFloat.emin, prec, emax; lia).
  assert (exists (mz : positive) (ez : Z),
             shl_align pm 0 (d - 53) = (mz, ez) /\
             (2 ^ 52 <= Zpos mz)%Z /\
             inject_Z (Zpos pm) == inject_Z (Zpos mz) * 2 ^ ez)
    as (mz & ez & Halign & Hmz & Hval).
  { unfold shl_align. destruct (d - 53 - 0)%Z as [|k|k] eqn:Hk.
    - exists pm, 0%Z. split; [reflexivity|].
      split; [|change (2 ^ 0) with 1; ring].
      assert (d = 53%Z) as Hd53 by lia. rewrite Hd53 in Hdlo. exact Hdlo.
    - exists pm, 0%Z. split; [reflexivity|].
      split; [|change (2 ^ 0) with 1; ring].
      eapply Z.le_trans; [|exact Hdlo]. apply Z.pow_le_mono_r; lia.
    - exists (Pos.iter xO pm k), (d - 53)%Z. split; [reflexivity|].
      rewrite Zpos_iter_xO.
      assert (d - 1 + Zpos k = 52)%Z as Hsum by lia.
      split.
      + rewrite <- Hsum, Z.pow_add_r by lia.
        apply Z.mul_le_mono_nonneg_r; lia.
      + rewrite inject_Z_mult, pow2_Z, <- Qmult_assoc, <- pow2_add by lia.
        replace (Zpos k + (d - 53))%Z with 0%Z by lia.
        change (2 ^ 0) with 1. ring. }
  destruct (binary_round_aux_range (Zpos mz) ez loc_Exact
              (inject_Z (Zpos mz)) (inject_Z (Zpos pm)))
    as (m & e & Hres & Hbounded & _ & H1 & H2).
  - exact Hmz.
  - reflexivity.
  - exact Hval.
  - apply Qle_trans with (2 ^ 0); [apply pow2_le; lia|].
    change (2 ^ 0) with (inject_Z 1). rewrite <- Zle_Qle. lia.
  - exact Hhi.
  - assert (binary_normalize prec emax (Zpos pm) 0 false
            = S754_finite false m e) as Hnorm.
    { unfold binary_normalize, binary_round. fold d. rewrite Hfexp, Halign.
      exact Hres. }
    unfold value, float_of_Z.
    rewrite Hnorm, (Prim2SF_SF2Prim (S754_finite false m e) Hbounded).
    cbn [SF2Q]. apply rounded_of_parts; assumption.
Qed.

(** [int(np.ceil(x))] of a positive double is the ceiling of its value. *)
Lemma float_ceil_value (a : float) :
  0 < value a -> float_ceil a = Ret (Qceiling (value a)).
Proof.
  intros Hpos. unfold value in *. unfold float_ceil.
  destruct (Prim2SF a) as [s|s| |s m e]; cbn [SF2Q] in *; try lra.
  assert (0 < inject_Z (Zpos m) * 2 ^ e) as Hv.
  { apply Qmult_lt_0_compat; [|apply pow2_pos]. unfold Qlt; simpl; lia. }
  destruct s; [lra|]. f_equal.
  destruct e as [|p|p].
  - rewrite <- (Qceiling_Z (Zpos m)) at 1. apply Qceiling_comp.
    change (2 ^ 0) with 1. ring.
  - rewrite <- (Qceiling_Z (Zpos m * 2 ^ Zpos p)). apply Qceiling_comp.
    rewrite inject_Z_mult, pow2_Z by lia. reflexivity.
  - unfold Qceiling. f_equal. rewrite Zdiv_Qdiv. apply Qfloor_comp.
    rewrite inject_Z_opp, pow2_Z by lia.
    change (Zneg p) with (- Zpos p)%Z. rewrite Qpower_opp.
    field. pose proof (pow2_pos (Zpos p)). lra.
Qed.

(** A double with a positive value is not zero. *)
Lemma is_zero_positive (a : float) : 0 < value a -> is_zero a = false.
Proof.
  intros Hpos. unfold value in Hpos. simpl is_zero. rewrite FloatAxioms.eqb_spec.
  change (Prim2SF 0) with (S754_zero false).
  destruct (Prim2SF a) as [s|s| |s m e]; cbn [SF2Q] in Hpos; try lra.
  destruct s; reflexivity.
Qed.

(** *** Intervals of powers of two *)

Lemma between_pos (a b : Z) (x : Q) : between a b x -> 0 < x.
Proof. intros [Hlo _]. pose proof (pow2_pos a). lra. Qed.

Lemma between_weaken (a b a' b' : Z) (x : Q) :
  between a b x -> (a' <= a)%Z -> (b <= b')%Z -> between a' b' x.
Proof.
  intros [Hlo Hhi] Ha Hb. apply pow2_le in Ha, Hb. split; lra.
Qed.

Lemma between_mul (a b c d : Z) (x y : Q) :
  between a b x -> between c d y -> between (a + c) (b + d) (x * y).
Proof.
  intros [Hxl Hxh] [Hyl Hyh]. unfold between. rewrite !pow2_add.
  pose proof (pow2_pos a). pose proof (pow2_pos c).
  split; nra.
Qed.

Lemma between_quotient (a b c d : Z) (x y z : Q) :
  between a b x -> between c d y -> z * y == x ->
  between (a - d) (b - c) z.
Proof.
  intros [Hxl Hxh] [Hyl Hyh] Hz.
  pose proof (pow2_pos a). pose proof (pow2_pos c). pose proof (pow2_pos d).
  pose proof (pow2_pos (a - d)) as Had. pose proof (pow2_pos (b - c)) as Hbc.
  assert (2 ^ a == 2 ^ (a - d) * 2 ^ d) as Ea
      by (rewrite <- pow2_add; f_equiv; lia).
  assert (2 ^ b == 2 ^ (b - c) * 2 ^ c) as Eb
      by (rewrite <- pow2_add; f_equiv; lia).
  assert (0 < z) as Hzpos.
  { destruct (Qlt_le_dec 0 z) as [Hp|Hn]; [exact Hp|]. exfalso. nra. }
  split.
  - destruct (Qlt_le_dec z (2 ^ (a - d))) as [Hlt|Hge]; [|exact Hge].
    exfalso. nra.
  - destruct (Qlt_le_dec (2 ^ (b - c)) z) as [Hlt|Hge]; [|exact Hge].
    exfalso. nra.
Qed.

Lemma unit_roundoff_small : 0 < unit_roundoff /\ unit_roundoff <= 1 # 8.
Proof. split; [reflexivity|discriminate]. Qed.

Lemma between_rounded (a b : Z) (x v : Q) :
  between a b x -> rounded x v -> between (a - 1) (b + 1) v.
Proof.
  intros [Hlo Hhi] [Hv1 Hv2].
  destruct unit_roundoff_small as [Hu1 Hu2].
  set (u := unit_roundoff) in *. clearbody u.
  pose proof (pow2_pos (a - 1)) as Ha.
  assert (2 ^ a == 2 * 2 ^ (a - 1)) as Ea.
  { change 2 with (2 ^ 1) at 2. rewrite <- pow2_add. f_equiv. lia. }
  assert (2 ^ (b + 1) == 2 * 2 ^ b) as Eb.
  { rewrite pow2_add. change (2 ^ 1) with 2. ring. }
  pose proof (pow2_pos b) as Hb.
  split; [|rewrite Eb]; nra.
Qed.

Lemma rounded_pos (x v : Q) : 0 < x -> rounded x v -> 0 < v.
Proof.
  intros Hx [Hv _]. destruct unit_roundoff_small as [Hu1 Hu2].
  set (u := unit_roundoff) in *. clearbody u. nra.
Qed.

Lemma mul_between (x y : float) (a b c d : Z) :
  between a b (value x) -> between c d (value y) ->
  (-1022 <= a)%Z -> (-1022 <= c)%Z -> (-1022 <= a + c)%Z ->
  (b + d < 1023)%Z ->
  rounded (value x * value y) (value (x * y)%float) /\
  between (a + c - 1) (b + d + 1) (value (x * y)%float).
Proof.
  intros Hx Hy Ha Hc Hac Hbd.
  pose proof (between_mul _ _ _ _ _ _ Hx Hy) as Hxy.
  assert (rounded (value x * value y) (value (x * y)%float)) as Hr.
  { apply mul_rounded.
    - apply (between_weaken _ _ (-1022) b) in Hx; [apply Hx|lia|lia].
    - apply (between_weaken _ _ (-1022) d) in Hy; [apply Hy|lia|lia].
    - apply (between_weaken _ _ (-1022) (b + d)) in Hxy; [apply Hxy|lia|lia].
    - destruct Hxy as [_ Hhi]. eapply Qle_lt_trans; [exact Hhi|].
      apply pow2_lt. lia. }
  split; [exact Hr|]. exact (between_rounded _ _ _ _ Hxy Hr).
Qed.

Lemma div_between (x y : float) (a b c d : Z) :
  between a b (value x) -> between c d (value y) ->
  (-1022 <= a)%Z -> (-1022 <= c)%Z -> (-1021 <= a - d)%Z ->
  (b - c < 1023)%Z ->
  rounded (value x / value y) (value (x / y)%float) /\
  between (a - d - 1) (b - c + 1) (value (x / y)%float).
Proof.
  intros Hx Hy Ha Hc Had Hbc.
  pose proof (between_pos _ _ _ Hy) as Hypos.
  assert (value x / value y * value y == value x) as Hq by (field; lra).
  pose proof (between_quotient _ _ _ _ _ _ _ Hx Hy Hq) as Hxy.
  assert (rounded (value x / value y) (value (x / y)%float)) as Hr.
  { apply div_rounded.
    - apply (between_weaken _ _ (-1022) b) in Hx; [apply Hx|lia|lia].
    - apply (between_weaken _ _ (-1022) d) in Hy; [apply Hy|lia|lia].
    - apply (between_weaken _ _ (-1021) (b - c)) in Hxy; [apply Hxy|lia|lia].
    - destruct Hxy as [_ Hhi]. eapply Qle_lt_trans; [exact Hhi|].
      apply pow2_lt. lia. }
  split; [exact Hr|]. exact (between_rounded _ _ _ _ Hxy Hr).
Qed.

(** *** The error of one sub-cycle entry

    [vp], [vq], [vM] and [vd] are the rounded product [f * dt], quotient
    [p / dt_2d], count [M] and quotient [p / M]; [xp], [xq] and [xd] are
    the exact values they round. *)
Lemma subcycle_error (xp vp vc xq vq vM xd vd : Q) (M : Z) :
  0 < xp -> 0 < vc ->
  rounded xp vp -> xq * vc == vp -> rounded xq vq ->
  vq <= inject_Z M -> rounded (inject_Z M) vM ->
  xd * vM == vp -> rounded xd vd ->
  Qabs (inject_Z M * vd - xp) <= 4 * unit_roundoff * xp /\
  vd <= (1 + 4 * unit_roundoff) * vc.
Proof.
  intros Hxp Hvc [Hp1 Hp2] Hq [Hq1 Hq2] HM [HM1 HM2] Hd [Hd1 Hd2].
  destruct unit_roundoff_small as [Hu1 Hu2].
  set (u := unit_roundoff) in *. clearbody u.
  set (m := inject_Z M) in *. clearbody m.
  assert (0 < vp) as Hvp by nra.
  assert (0 < xq) as Hxq.
  { destruct (Qlt_le_dec 0 xq) as [Hpos|Hneg]; [exact Hpos|]. exfalso. nra. }
  assert (0 < vq) as Hvq by nra.
  assert (0 < m) as Hm by lra.
  assert (0 < vM) as HvM by nra.
  assert (0 < xd) as Hxd.
  { destruct (Qlt_le_dec 0 xd) as [Hpos|Hneg]; [exact Hpos|]. exfalso. nra. }
  assert (0 < vd) as Hvd by nra.
  (* [m * xd] against [vp] *)
  assert ((1 - u) * (m * xd) <= vp) as Hmx1.
  { rewrite <- Hd. assert (0 <= xd * (vM - (1 - u) * m)) by
        (apply Qmult_le_0_compat; lra). lra. }
  assert (vp <= (1 + u) * (m * xd)) as Hmx2.
  { rewrite <- Hd. assert (0 <= xd * ((1 + u) * m - vM)) by
        (apply Qmult_le_0_compat; lra). lra. }
  assert (m * vd <= (1 + u) * (m * xd)) as Hmd2.
  { assert (0 <= m * ((1 + u) * xd - vd)) by
        (apply Qmult_le_0_compat; lra). lra. }
  assert ((1 - u) * (m * xd) <= m * vd) as Hmd1.
  { assert (0 <= m * (vd - (1 - u) * xd)) by
        (apply Qmult_le_0_compat; lra). lra. }
  split.
  - apply Qabs_Qle_condition. split.
    + (* (1 + u) * m * vd >= (1 - u)^2 * xp >= (1 - 4u)(1 + u) * xp *)
      assert ((1 - u) * ((1 - u) * xp) <= (1 + u) * (m * vd)) as Hlow.
      { assert (0 <= (1 - u) * (vp - (1 - u) * xp)) by
            (apply Qmult_le_0_compat; lra).
        assert (0 <= (1 + u) * (m * vd - (1 - u) * (m * xd))) by
            (apply Qmult_le_0_compat; lra).
        assert (0 <= (1 - u) * ((1 + u) * (m * xd) - vp)) by
            (apply Qmult_le_0_compat; lra).
        lra. }
      assert (0 <= u * u * xp) by
          (apply Qmult_le_0_compat; [apply Qmult_le_0_compat|]; lra).
      assert (0 <= u * xp) by (apply Qmult_le_0_compat; lra).
      assert (0 <= (1 + u) * (m * vd - (1 - 4 * u) * xp)) as Hfin by nra.
      assert (0 <= m * vd - (1 - 4 * u) * xp); [|lra].
      destruct (Qlt_le_dec (m * vd - (1 - 4 * u) * xp) 0) as [Hneg|Hpos];
        [exfalso; nra|exact Hpos].
    + assert ((1 - u) * (m * vd) <= (1 + u) * ((1 + u) * xp)) as Hup.
      { assert (0 <= (1 + u) * ((1 + u) * xp - vp)) by
            (apply Qmult_le_0_compat; lra).
        assert (0 <= (1 - u) * ((1 + u) * (m * xd) - m * vd)) by
            (apply Qmult_le_0_compat; lra).
        assert (0 <= (1 + u) * (vp - (1 - u) * (m * xd))) by
            (apply Qmult_le_0_compat; lra).
        lra. }
      assert (0 <= u * xp) by (apply Qmult_le_0_compat; lra).
      assert (0 <= (1 - u) * ((1 + 4 * u) * xp - m * vd)) as Hfin by nra.
      assert (0 <= (1 + 4 * u) * xp - m * vd); [|lra].
      destruct (Qlt_le_dec ((1 + 4 * u) * xp - m * vd) 0) as [Hneg|Hpos];
        [exfalso; nra|exact Hpos].
  - (* vM >= (1 - u) * m >= (1 - u) * vq >= (1 - u)^2 * xq *)
    assert ((1 - u) * ((1 - u) * xq) <= vM) as HvMq.
    { assert (0 <= (1 - u) * (vq - (1 - u) * xq)) by
          (apply Qmult_le_0_compat; lra).
      assert (0 <= (1 - u) * (m - vq)) by (apply Qmult_le_0_compat; lra).
      lra. }
    assert ((1 - u) * (1 - u) * xd <= vc) as Hxdvc.
    { assert (0 <= xd * (vM - (1 - u) * ((1 - u) * xq))) as H1 by
          (apply Qmult_le_0_compat; lra).
      assert (xq * ((1 - u) * (1 - u) * xd) <= xq * vc) as H2 by
          (rewrite Hq, <- Hd; lra).
      destruct (Qlt_le_dec vc ((1 - u) * (1 - u) * xd)) as [Hgt|Hle];
        [exfalso; nra|exact Hle]. }
    assert ((1 - u) * (1 - u) * vd <= (1 + u) * vc) as Hvdvc.
    { assert (0 <= (1 - u) * (1 - u) * ((1 + u) * xd - vd)) by
          (apply Qmult_le_0_compat; [apply Qmult_le_0_compat|]; lra).
      assert (0 <= (1 + u) * (vc - (1 - u) * (1 - u) * xd)) by
          (apply Qmult_le_0_compat; lra).
      lra. }
    assert (0 <= u * vc) by (apply Qmult_le_0_compat; lra).
    assert (0 < (1 - u) * (1 - u)) as Hsq by
        (apply Qmult_lt_0_compat; lra).
    assert ((1 + u) * vc <= (1 - u) * (1 - u) * ((1 + 4 * u) * vc)) as Hfac.
    { assert (0 <= u * (1 - 7 * u + 4 * u * u) * vc).
      { apply Qmult_le_0_compat; [apply Qmult_le_0_compat|]; try lra.
        assert (0 <= u * u) by (apply Qmult_le_0_compat; lra). nra. }
      lra. }
    destruct (Qlt_le_dec ((1 + 4 * u) * vc) vd) as [Hgt|Hle];
      [exfalso|exact Hle].
    assert ((1 - u) * (1 - u) * ((1 + 4 * u) * vc)
            < (1 - u) * (1 - u) * vd) by
        (apply Qmult_lt_l; assumption).
    lra.
Qed.

(** The inner step is not much smaller than the stage or than the target:
    the count [M] is 1, or less than twice the quotient it rounds up. *)
Lemma inner_step_not_tiny (vp vc xq vq vM xd : Q) (M : Z) :
  0 < vp -> 0 < vc ->
  xq * vc == vp -> rounded xq vq ->
  inject_Z M - 1 < vq -> (1 <= M)%Z -> rounded (inject_Z M) vM ->
  xd * vM == vp ->
  vp <= 2 * xd \/ vc <= 8 * xd.
Proof.
  intros Hvp Hvc Hq [Hq1 Hq2] HM1 HM [HvM1 HvM2] Hd.
  destruct unit_roundoff_small as [Hu1 Hu2].
  set (u := unit_roundoff) in *. clearbody u.
  assert (0 < xq) as Hxq.
  { destruct (Qlt_le_dec 0 xq) as [Hpos|Hneg]; [exact Hpos|]. exfalso. nra. }
  destruct (Z.eq_dec M 1%Z) as [->|Hne].
  - left. change (inject_Z 1) with 1 in *.
    assert (0 < vM) by lra.
    assert (0 < xd) as Hxd.
    { destruct (Qlt_le_dec 0 xd) as [Hpos|Hneg]; [exact Hpos|]. exfalso. nra. }
    rewrite <- Hd. assert (0 <= xd * (2 - vM)) by
        (apply Qmult_le_0_compat; lra). lra.
  - right.
    assert (2 <= inject_Z M) as Hm2
        by (change 2 with (inject_Z 2); rewrite <- Zle_Qle; lia).
    set (m := inject_Z M) in *. clearbody m.
    assert (0 < vM) by nra.
    assert (0 < xd) as Hxd.
    { destruct (Qlt_le_dec 0 xd) as [Hpos|Hneg]; [exact Hpos|]. exfalso. nra. }
    (* vM <= (1 + u) m <= 2 m < 4 vq <= 8 xq *)
    assert (vM < 8 * xq) as HvM8 by nra.
    destruct (Qlt_le_dec (8 * xd) vc) as [Hlt|Hle]; [exfalso|exact Hle].
    assert (xd * vM < xd * (8 * xq)) by (apply Qmult_lt_l; assumption).
    assert (xq * (8 * xd) < xq * vc) by (apply Qmult_lt_l; assumption).
    lra.
Qed.

(** *** One sub-cycle entry in binary64 *)

Lemma div_returns (x y : float) :
  0 < value y -> div x y = Ret (x / y)%float.
Proof. intros Hy. unfold div. rewrite (is_zero_positive y Hy). reflexivity. Qed.

Lemma substep_binary64 (dt dt_2d f : float) :
  working_range dt -> working_range dt_2d -> between (-2) 0 (value f) ->
  exists (M : Z) (d : float),
    substep dt dt_2d f = Ret (M, d) /\
    stage_contract_rounded dt dt_2d f M d.
Proof.
  intros Hdt Hdt2 Hf.
  (* p = f * dt *)
  destruct (mul_between f dt _ _ _ _ Hf Hdt) as [Hp Hpb]; try lia.
  set (p := (f * dt)%float) in *.
  apply (between_weaken _ _ (-503) 501) in Hpb; [|lia|lia].
  pose proof (between_pos _ _ _ Hf) as Hfpos.
  pose proof (between_pos _ _ _ Hdt) as Hdtpos.
  pose proof (between_pos _ _ _ Hdt2) as Hdt2pos.
  pose proof (between_pos _ _ _ Hpb) as Hppos.
  (* q = p / dt_2d *)
  destruct (div_between p dt_2d _ _ _ _ Hpb Hdt2) as [Hq Hqb]; try lia.
  set (q := (p / dt_2d)%float) in *.
  apply (between_weaken _ _ (-1004) 1002) in Hqb; [|lia|lia].
  pose proof (between_pos _ _ _ Hqb) as Hqpos.
  (* M = ceil q *)
  pose proof (float_ceil_value q Hqpos) as Hceil.
  set (M := Qceiling (value q)) in *.
  pose proof (Qle_ceiling (value q)) as HM1. fold M in HM1.
  pose proof (Qceiling_lt (value q)) as HM2. fold M in HM2.
  unfold Z.sub in HM2. rewrite inject_Z_plus, inject_Z_opp in HM2.
  change (inject_Z 1) with 1 in HM2.
  assert (1 <= M)%Z as HMpos.
  { assert (0 < M)%Z; [|lia]. rewrite Zlt_Qlt. change (inject_Z 0) with 0.
    lra. }
  assert (inject_Z M < 2 ^ 1023) as HMhi.
  { destruct Hqb as [_ Hqhi].
    assert (2 ^ 1003 == 2 * 2 ^ 1002) as E
        by (change 2 with (2 ^ 1) at 2; rewrite <- pow2_add; reflexivity).
    assert (2 ^ 0 <= 2 ^ 1002) as H0 by (apply pow2_le; lia).
    change (2 ^ 0) with 1 in H0.
    assert (2 ^ 1003 < 2 ^ 1023) by (apply pow2_lt; lia).
    lra. }
  (* float(M) *)
  pose proof (of_int_rounded M HMpos HMhi) as HMf.
  assert (0 < inject_Z M) as HMq by lra.
  pose proof (rounded_pos _ _ HMq HMf) as HMfpos.
  (* d = p / float(M) *)
  assert (value p / value (float_of_Z M) * value (float_of_Z M) == value p)
    as Hxd by (field; lra).
  assert (value p / value dt_2d * value dt_2d == value p)
    as Hxq by (field; lra).
  set (xd := value p / value (float_of_Z M)) in *.
  assert (2 ^ (-1021) <= xd) as Hxdlo.
  { apply Qle_trans with (2 ^ (-504)); [apply pow2_le; lia|].
    assert (2 ^ (-503) == 2 * 2 ^ (-504)) as E1
        by (change 2 with (2 ^ 1) at 2; rewrite <- pow2_add; reflexivity).
    assert (2 ^ (-500) == 8 * 2 ^ (-503)) as E2
        by (change 8 with (2 ^ 3); rewrite <- pow2_add; reflexivity).
    pose proof (pow2_pos (-504)) as Hpos.
    destruct Hpb as [Hpl _]. destruct Hdt2 as [Hcl _].
    destruct (inner_step_not_tiny _ _ _ _ _ _ M Hppos Hdt2pos Hxq Hq
                ltac:(lra) HMpos HMf Hxd) as [Hlow|Hlow]; lra. }
  assert (xd < 2 ^ 1023) as Hxdhi.
  { assert (between 0 1023 (inject_Z M)) as HMb.
    { split; [|lra]. change (2 ^ 0) with (inject_Z 1).
      rewrite <- Zle_Qle. exact HMpos. }
    pose proof (between_rounded _ _ _ _ HMb HMf) as HMfb.
    destruct (between_quotient _ _ _ _ _ _ _ Hpb HMfb Hxd) as [_ Hhi].
    eapply Qle_lt_trans; [exact Hhi|]. apply pow2_lt. lia. }
  assert (rounded xd (value (p / float_of_Z M)%float)) as Hd.
  { apply div_rounded; [| |exact Hxdlo|exact Hxdhi].
    - destruct Hpb as [Hpl _]. eapply Qle_trans; [|exact Hpl].
      apply pow2_le. lia.
    - destruct HMf as [HMf1 _]. destruct unit_roundoff_small.
      set (u := unit_roundoff) in *. clearbody u.
      apply Qle_trans with (2 ^ (-1)); [apply pow2_le; lia|].
      change (2 ^ (-1)) with (1 # 2).
      assert (1 <= inject_Z M)
        by (change 1 with (inject_Z 1); rewrite <- Zle_Qle; exact HMpos).
      nra. }
  exists M, (p / float_of_Z M)%float.
  split.
  { unfold substep. change (mul f dt) with p.
    rewrite (div_returns p dt_2d Hdt2pos). cbn [bind].
    change (ceil_int (p / dt_2d)%float) with (float_ceil q).
    rewrite Hceil. cbn [bind].
    change (of_int M) with (float_of_Z M).
    rewrite (div_returns p (float_of_Z M) HMfpos). reflexivity. }
  split.
  { split.
    - exists q. split; [exact (div_returns p dt_2d Hdt2pos)|exact Hceil].
    - exact (div_returns p (float_of_Z M) HMfpos). }
  destruct (subcycle_error (value f * value dt) (value p)
              (value dt_2d) (value p / value dt_2d) (value q)
              (value (float_of_Z M)) xd
              (value (p / float_of_Z M)%float) M)
    as [HA HB];
    [apply Qmult_lt_0_compat; assumption|exact Hdt2pos|exact Hp|exact Hxq
     |exact Hq|exact HM1|exact HMf|exact Hxd|exact Hd|].
  assert (4 * unit_roundoff == rounding_tolerance) as Etol by reflexivity.
  unfold subcycle_covers_rounded. rewrite <- Etol.
  split; [exact HA|exact HB].
Qed.

End Rounding64.

(** The stage fractions of the constructors lie between 1/4 and 1. *)
Lemma stage_fractions_between :
  between (-2) 0 (value 1%float) /\
  between (-2) 0 (value 0.25%float) /\
  between (-2) 0 (value 0.66666666666666663%float).
Proof.
  repeat split; vm_compute; intros Hc; discriminate Hc.
Qed.

(** [initialize] on a sub-cycling recipe in binary64, for time steps in the
    working range. *)
Lemma initialize_binary64 (r : @obj float) (tb : tables) :
  well_formed r -> tabs r = Some tb -> @ssp_tables float _ = Ret tb ->
  cls r = coupledSSPRKSync \/ cls r = coupledSSPRKSemiImplicit ->
  working_range (solver_dt r) -> working_range (solver_dt_2d r) ->
  exists w, run initialize r = (Ret tt, w) /\
            _initialized (self w) = true /\
            Forall3 (stage_contract_rounded (solver_dt r) (solver_dt_2d r))
                    (t_dt_frac tb) (M_ (self w)) (dt_2d_ (self w)).
Proof.
  intros Hwf Htabs Htb Hcls Hdt Hdt2.
  vm_compute in Htb. injection Htb as <-.
  destruct stage_fractions_between as (Hf0 & Hf1 & Hf2).
  destruct (substep_binary64 _ _ _ Hdt Hdt2 Hf0) as (M0 & d0 & H0 & C0).
  destruct (substep_binary64 _ _ _ Hdt Hdt2 Hf1) as (M1 & d1 & H1 & C1).
  destruct (substep_binary64 _ _ _ Hdt Hdt2 Hf2) as (M2 & d2 & H2 & C2).
  assert (mapM (substep (solver_dt r) (solver_dt_2d r))
               [1; 0.25; 0.66666666666666663]%float
          = Ret [(M0, d0); (M1, d1); (M2, d2)]) as Hps
      by (simpl; rewrite H0, H1, H2; reflexivity).
  pose proof (runs_initialize_dispatch _ _ _ _ Hcls
                (runs_initialize_subcycling r _ _ Hwf Htabs Hps)) as Hrun.
  apply runs_run in Hrun.
  eexists. split; [exact Hrun|]. simpl. split; [reflexivity|].
  repeat (apply Forall3_cons; [assumption|]). apply Forall3_nil.
Qed.

Lemma initialize_gives_binary64_Sync (o : options) (dt dt_2d : float) :
  working_range dt -> working_range dt_2d ->
  initialize_gives new_coupledSSPRKSync o dt dt_2d
                   (stage_contract_rounded dt dt_2d).
Proof.
  intros Hdt Hdt2.
  destruct (new_coupledSSPRKSync o dt dt_2d) as [r|e] eqn:Hnew;
    [|unfold new_coupledSSPRKSync in Hnew; vm_compute in Hnew;
      destruct o; discriminate].
  destruct (new_coupledSSPRKSync_well_formed _ _ _ _ Hnew)
    as (Hwf & _ & Hsdt & Hsdt2 & Hcls & _ & tb & Htb & Htabs).
  subst dt dt_2d.
  destruct (initialize_binary64 r tb Hwf Htabs Htb (or_introl Hcls) Hdt Hdt2)
    as (w & Hrun & Hinit & Hall).
  exists r, w, tb. auto.
Qed.

Lemma initialize_gives_binary64_SemiImplicit (o : options)
      (dt dt_2d : float) :
  working_range dt -> working_range dt_2d ->
  initialize_gives new_coupledSSPRKSemiImplicit o dt dt_2d
                   (stage_contract_rounded dt dt_2d).
Proof.
  intros Hdt Hdt2.
  destruct (new_coupledSSPRKSemiImplicit o dt dt_2d) as [r|e] eqn:Hnew;
    [|unfold new_coupledSSPRKSemiImplicit in Hnew; vm_compute in Hnew;
      destruct o; discriminate].
  destruct (new_coupledSSPRKSemiImplicit_well_formed _ _ _ _ Hnew)
    as (Hwf & _ & Hsdt & Hsdt2 & Hcls & _ & tb & Htb & Htabs).
  subst dt dt_2d.
  destruct (initialize_binary64 r tb Hwf Htabs Htb (or_intror Hcls) Hdt Hdt2)
    as (w & Hrun & Hinit & Hall).
  exists r, w, tb. auto.
Qed.

(** C1, as stated, fails in the arithmetic the code runs in: with
    [dt = 900] and [dt_2d = 11] the first stage gets [M = 82] inner steps
    of [900/82] rounded to a double, and 82 times that double is
    900.00000000000011, not 900.  The bound fails as well: with
    [dt = 1635.2] and [dt_2d = 2.8] the first stage gets [M = 584] and an
    inner step of 2.8000000000000003, above the target. *)
Lemma subcycles_not_exact_in_binary64 :
  ~ (forall (o : options) (dt dt_2d : float),
        ltb 0%float dt = true -> ltb 0%float dt_2d = true ->
        initialize_gives new_coupledSSPRKSync o dt dt_2d
                         (stage_contract dt dt_2d)) /\
  ~ (forall (o : options) (dt dt_2d : float),
        ltb 0%float dt = true -> ltb 0%float dt_2d = true ->
        initialize_gives new_coupledSSPRKSync o dt dt_2d
                         (fun f M d => subcycle_entry dt dt_2d f M d /\
                                       leb d dt_2d = true)).
Proof.
  split; intros Hall.
  - destruct (Hall switches_off 900%float 11%float eq_refl eq_refl)
      as (r & w & tb & Hnew & Htabs & Hrun & _ & Hstages).
    vm_compute in Hnew. injection Hnew as <-.
    vm_compute in Htabs. injection Htabs as <-.
    vm_compute in Hrun. injection Hrun as <-.
    simpl in Hstages.
    inversion Hstages as [|? ? ? ? ? ? Hfirst _]; subst.
    destruct Hfirst as [_ [Hexact _]].
    vm_compute in Hexact. discriminate.
  - destruct (Hall switches_off 1635.2%float 2.8%float eq_refl eq_refl)
      as (r & w & tb & Hnew & Htabs & Hrun & _ & Hstages).
    vm_compute in Hnew. injection Hnew as <-.
    vm_compute in Htabs. injection Htabs as <-.
    vm_compute in Hrun. injection Hrun as <-.
    simpl in Hstages.
    inversion Hstages as [|? ? ? ? ? ? Hfirst _]; subst.
    destruct Hfirst as [_ Hbound].
    vm_compute in Hbound. discriminate.
Qed.

(** Far outside the working range a product underflows to zero and
    [initialize] raises: with [dt = 2 ^ -1074] the second stage computes
    [0.25 * dt = 0], [M = 0] and divides by it. *)
Lemma initialize_raises_on_underflow (o : options) :
  exists r : @obj float,
    new_coupledSSPRKSync o 0x1p-1074%float 1%float = Ret r /\
    fst (run initialize r) = Raise ZeroDivisionError.
Proof.
  destruct o as [a b c d e f g salt vd h i].
  eexists. split; [lazy; reflexivity|].
  destruct salt, vd; vm_compute; reflexivity.
Qed.

(** C1, amended. For every stage [k] of a sub-cycling 3-stage SSP recipe
    ([coupledSSPRKSync], [coupledSSPRKSemiImplicit]) with [dt_outer] and
    [dt_inner_target] doubles between [2 ^ -500] and [2 ^ 500],
    [initialize] returns and computes
    [M[k] = ceil(dt_frac[k] * dt_outer / dt_inner_target)] and
    [dt_inner[k] = dt_frac[k] * dt_outer / M[k]] in binary64, so that
    [M[k] * dt_inner[k]] equals [dt_frac[k] * dt_outer] up to a relative
    error of [2 ^ -51] and [dt_inner[k] <= dt_inner_target * (1 + 2 ^ -51)].
    In exact arithmetic, for all positive [dt_outer] and [dt_inner_target],
    the two relations hold exactly.  For [dt_outer = 10],
    [dt_inner_target = 3] the stages yield [M = [4, 1, 3]] and
    [dt_inner = [5/2, 5/2, 20/9]], in binary64
    [[2.5, 2.5, 2.2222222222222219]], for which the two relations hold
    exactly as well.  Far outside the range [initialize] may raise:
    [dt_outer = 2 ^ -1074], [dt_inner_target = 1] gives
    [ZeroDivisionError]. *)
Theorem subcycles_cover_each_stage (o : options) (dt dt_2d : float) :
  working_range dt -> working_range dt_2d ->
  (initialize_gives new_coupledSSPRKSync o dt dt_2d
                    (stage_contract_rounded dt dt_2d) /\
   initialize_gives new_coupledSSPRKSemiImplicit o dt dt_2d
                    (stage_contract_rounded dt dt_2d)) /\
  (forall dt' dt_2d' : Q,
      (0 < dt')%Q -> (0 < dt_2d')%Q ->
      initialize_gives new_coupledSSPRKSync o dt' dt_2d'
                       (stage_contract dt' dt_2d') /\
      initialize_gives new_coupledSSPRKSemiImplicit o dt' dt_2d'
                       (stage_contract dt' dt_2d')) /\
  (initialize_leaves new_coupledSSPRKSync o 10%Q 3%Q [4; 1; 3]%Z
                     (Forall2 Qeq [5 # 2; 5 # 2; 20 # 9]%Q) /\
   initialize_leaves new_coupledSSPRKSemiImplicit o 10%Q 3%Q [4; 1; 3]%Z
                     (Forall2 Qeq [5 # 2; 5 # 2; 20 # 9]%Q)) /\
  (initialize_leaves new_coupledSSPRKSync o 10%float 3%float [4; 1; 3]%Z
                     (eq [2.5; 2.5; 2.2222222222222219]%float) /\
   initialize_leaves new_coupledSSPRKSemiImplicit o 10%float 3%float
                     [4; 1; 3]%Z
                     (eq [2.5; 2.5; 2.2222222222222219]%float)) /\
  (initialize_gives new_coupledSSPRKSync o 10%float 3%float
                    (stage_contract 10%float 3%float) /\
   initialize_gives new_coupledSSPRKSemiImplicit o 10%float 3%float
                    (stage_contract 10%float 3%float)) /\
  (exists r : @obj float,
      new_coupledSSPRKSync o 0x1p-1074%float 1%float = Ret r /\
      fst (run initialize r) = Raise ZeroDivisionError).
Proof.
  intros Hdt Hdt2.
  split; [split|split; [|split; [|split; [|split]]]].
  - apply initialize_gives_binary64_Sync; assumption.
  - apply initialize_gives_binary64_SemiImplicit; assumption.
  - intros dt' dt_2d' Hdt' Hdt2'. split.
    + apply initialize_gives_exact_Sync; assumption.
    + apply initialize_gives_exact_SemiImplicit; assumption.
  - apply scenario_exact.
  - apply scenario_binary64.
  - apply scenario_binary64_contract.
  - apply initialize_raises_on_underflow.
Qed.

Lemma working_range_900_11 :
  working_range 900%float /\ working_range 11%float.
Proof. repeat split; vm_compute; intros Hc; discriminate Hc. Qed.

Lemma subcycles_cover_each_stage_witness :
  working_range 900%float /\ working_range 11%float /\
  initialize_gives new_coupledSSPRKSync switches_off 900%float 11%float
                   (stage_contract_rounded 900%float 11%float).
Proof.
  destruct working_range_900_11 as [H900 H11].
  split; [exact H900|]. split; [exact H11|].
  apply (subcycles_cover_each_stage switches_off 900%float 11%float);
    assumption.
Defined.

(** ** The dependency pipeline *)

Section Pipeline.
Context {num : Type} `{Arith num}.
Implicit Types o : @obj num.
Variable utility : gset string.

Lemma runs_do_call (c : call) o : runs (do_call c) o (Ret tt) o [Call c].
Proof. apply runs_emit. Qed.


Lemma runs_update3dElevation o :
  runs _update3dElevation o (Ret tt) o elevation_events.
Proof.
  unfold _update3dElevation.
  eapply runs_final; [run_step; apply runs_do_call| |]; reflexivity.
Qed.

Lemma runs_updateVerticalVelocity o :
  runs _updateVerticalVelocity o (Ret tt) o vertical_velocity_events.
Proof. apply runs_do_call. Qed.

Lemma runs_updateMovingMesh o :
  runs _updateMovingMesh o (Ret tt) o (moving_mesh_events (opts o)).
Proof.
  unfold _updateMovingMesh, moving_mesh_events.
  eapply runs_final; [run_step; apply runs_when| |]; try reflexivity.
  eapply runs_final; [run_step; run_step; apply runs_do_call| |]; reflexivity.
Qed.

Lemma runs_updateBottomFriction o :
  runs _updateBottomFriction o (Ret tt) o (friction_events (opts o)).
Proof.
  unfold _updateBottomFriction, friction_events.
  eapply runs_final;
    [run_step; eapply runs_bind; [apply runs_when|apply runs_when]| |];
    try reflexivity.
  - eapply runs_final; [run_step; apply runs_do_call| |]; reflexivity.
  - apply runs_do_call.
Qed.

Lemma runs_update2DCoupling o :
  runs _update2DCoupling o (Ret tt) o (coupling_events (cls o)).
Proof.
  unfold _update2DCoupling, coupling_events.
  eapply runs_final; [run_step| |]; try reflexivity.
  destruct (cls o);
    (eapply runs_final; [repeat run_step; apply runs_do_call| |]);
    reflexivity.
Qed.

Lemma runs_updateMeshVelocity o :
  runs _updateMeshVelocity o (Ret tt) o (mesh_velocity_events (opts o)).
Proof.
  unfold _updateMeshVelocity, mesh_velocity_events.
  eapply runs_final; [run_step; apply runs_when, runs_do_call| |];
    reflexivity.
Qed.

Lemma runs_updateBaroclinicity o :
  runs _updateBaroclinicity o (Ret tt) o (baroclinic_events (opts o)).
Proof.
  unfold _updateBaroclinicity, baroclinic_events.
  eapply runs_final; [run_step; apply runs_when, runs_do_call| |];
    reflexivity.
Qed.

Lemma runs_updateStabilizationParams o :
  runs _updateStabilizationParams o (Ret tt) o
       (stabilization_events (opts o)).
Proof.
  unfold _updateStabilizationParams, stabilization_events.
  eapply runs_final;
    [run_step; run_step; run_step;
     eapply runs_bind; apply runs_when, runs_do_call| |];
    reflexivity.
Qed.

Lemma runs_updateTurbulence_disabled o :
  useTurbulence (opts o) = false ->
  runs (_updateTurbulence utility) o (Ret tt) o [].
Proof.
  intros Hturb. unfold _updateTurbulence.
  eapply runs_final; [run_step| |]; try reflexivity.
  rewrite Hturb. apply runs_ret.
Qed.

(** Steps 7 to 10 always run to their end. *)
Lemma runs_pipeline_tail (fl : flags) o :
  runs (bindM _updateMeshVelocity (fun _ =>
        bindM _updateBottomFriction (fun _ =>
        bindM _updateBaroclinicity (fun _ =>
        when (doStabParams fl) _updateStabilizationParams))))
       o (Ret tt) o (pipeline_tail (opts o) fl).
Proof.
  unfold pipeline_tail.
  eapply runs_bind; [apply runs_updateMeshVelocity|].
  eapply runs_bind; [apply runs_updateBottomFriction|].
  eapply runs_bind; [apply runs_updateBaroclinicity|].
  apply runs_when, runs_updateStabilizationParams.
Qed.

(** When neither step 3 nor step 6 is entered, the pipeline performs
    steps 1, 2, 4, 5, 7, 8, 9, 10 in this order and returns, whatever the
    module binds. *)
Lemma runs_pipeline_completes (fl : flags) o :
  enters_vert_diffusion (opts o) fl = false ->
  enters_turbulence (opts o) fl = false ->
  runs (_updateAllDependencies utility fl) o (Ret tt) o
       (pipeline_events (cls o) (opts o) fl).
Proof.
  unfold enters_vert_diffusion, enters_turbulence. intros Hvd Hturb.
  unfold _updateAllDependencies.
  eapply runs_final.
  - run_step.
    eapply runs_bind; [apply runs_update3dElevation|].
    eapply runs_bind; [apply runs_when, runs_updateMovingMesh|].
    run_step. rewrite Hvd.
    eapply runs_bind; [apply runs_ret|].
    eapply runs_bind; [apply runs_when, runs_update2DCoupling|].
    eapply runs_bind; [apply runs_updateVerticalVelocity|].
    eapply (runs_bind _ _ _ tt o []).
    { destruct (doTurbulence fl); [|apply runs_ret]. simpl in *.
      apply runs_updateTurbulence_disabled, Hturb. }
    apply runs_pipeline_tail.
  - reflexivity.
  - unfold pipeline_events, pipeline_head, pipeline_middle. simpl.
    rewrite <- ?app_assoc. reflexivity.
Qed.

(** *** Reading the unbound name *)

Hypothesis t_unbound : "t" ∉ utility.

Lemma resolve_t_unbound (locals : list string) :
  "t" ∉ locals -> resolve utility locals "t" = Raise (NameError "t").
Proof.
  intros Hloc. unfold resolve.
  rewrite bool_decide_eq_false_2 by exact Hloc.
  rewrite bool_decide_eq_false_2; [reflexivity|].
  rewrite not_elem_of_union. split; [|exact t_unbound].
  vm_compute. intros Hin. discriminate Hin.
Qed.

Lemma runs_stepper_advance_unbound (locals : list string) (s : stepper) o :
  "t" ∉ locals ->
  runs (stepper_advance utility locals "t" s) o
       (Raise (advance_error s o)) o [].
Proof.
  intros Hloc. unfold stepper_advance, advance_error.
  destruct (decide (s ∈ steppers o)) as [Hs|Hs].
  - rewrite bool_decide_eq_true_2 by exact Hs.
    eapply runs_final;
      [eapply runs_bind; [apply runs_get_stepper, Hs|]| |]; try reflexivity.
    apply runs_bind_raise. unfold load_name.
    rewrite resolve_t_unbound by exact Hloc. apply runs_lift.
  - rewrite bool_decide_eq_false_2 by exact Hs.
    apply runs_bind_raise, runs_get_stepper_missing, Hs.
Qed.

Lemma t_not_local_in_updateTurbulence : "t" ∉ ["self"].
Proof.
  intros Hin.
  repeat (apply elem_of_cons in Hin as [Hin|Hin]; [discriminate Hin|]).
  apply elem_of_nil in Hin. exact Hin.
Qed.

Lemma t_not_local_in_updateAllDependencies :
  "t" ∉ _updateAllDependencies_locals.
Proof.
  unfold _updateAllDependencies_locals. intros Hin.
  repeat (apply elem_of_cons in Hin as [Hin|Hin]; [discriminate Hin|]).
  apply elem_of_nil in Hin. exact Hin.
Qed.

(** [_updateTurbulence] with turbulence enabled: pre-processing, then the
    call on the psi sub-stepper raises. *)
Lemma runs_updateTurbulence_enabled o :
  useTurbulence (opts o) = true ->
  runs (_updateTurbulence utility) o
       (Raise (advance_error timeStepper_psi3d o)) o
       [Call glsModel_preprocess].
Proof.
  intros Hturb. unfold _updateTurbulence.
  eapply runs_final; [run_step| |]; try reflexivity.
  rewrite Hturb. simpl.
  eapply runs_final; [run_step| |]; try reflexivity.
  apply runs_bind_raise, runs_stepper_advance_unbound,
    t_not_local_in_updateTurbulence.
Qed.

(** One pass through [_updateAllDependencies] in a module where [t] is
    unbound. *)
Lemma runs_updateAllDependencies (fl : flags) o :
  runs (_updateAllDependencies utility fl) o
       (pipeline_outcome o fl) o (pipeline_trace o fl).
Proof.
  unfold _updateAllDependencies, pipeline_outcome, pipeline_trace.
  unfold enters_vert_diffusion, enters_turbulence.
  destruct (doVertDiffusion fl && solveVertDiffusion (opts o)) eqn:Hvd.
  - (* step 3 raises *)
    eapply runs_final.
    + run_step.
      eapply runs_bind; [apply runs_update3dElevation|].
      eapply runs_bind; [apply runs_when, runs_updateMovingMesh|].
      run_step. rewrite Hvd.
      apply runs_bind_raise. simpl.
      apply runs_stepper_advance_unbound,
        t_not_local_in_updateAllDependencies.
    + reflexivity.
    + unfold pipeline_head. simpl. rewrite ?app_nil_r. reflexivity.
  - destruct (doTurbulence fl && useTurbulence (opts o)) eqn:Hturb.
    + (* step 6 raises *)
      apply andb_true_iff in Hturb as [Hdo Huse].
      eapply runs_final.
      * run_step.
        eapply runs_bind; [apply runs_update3dElevation|].
        eapply runs_bind; [apply runs_when, runs_updateMovingMesh|].
        run_step. rewrite Hvd.
        eapply runs_bind; [apply runs_ret|].
        eapply runs_bind; [apply runs_when, runs_update2DCoupling|].
        eapply runs_bind; [apply runs_updateVerticalVelocity|].
        rewrite Hdo. apply runs_bind_raise. simpl.
        apply runs_updateTurbulence_enabled, Huse.
      * reflexivity.
      * unfold pipeline_head, pipeline_middle. simpl.
        rewrite <- ?app_assoc. reflexivity.
    + (* every step returns *)
      apply runs_pipeline_completes; assumption.
Qed.

End Pipeline.

(** What the constructors assign: the vertical diffusion sub-stepper
    whenever vertical diffusion is switched on, the turbulence sub-steppers
    in two of the five recipes only. *)
Lemma constructed_steppers {num} `{Arith num} (utility : gset string)
      (o : @obj num) :
  constructed utility o ->
  (solveVertDiffusion (opts o) = true ->
   bool_decide (timeStepper_vmom3d ∈ steppers o) = true) /\
  (useTurbulence (opts o) = true ->
   bool_decide (timeStepper_psi3d ∈ steppers o)
   = creates_turbulence_steppers (cls o)).
Proof.
  intros (op & dt & dt_2d & n & Hnew).
  destruct Hnew as [Hnew|[Hnew|[Hnew|[Hnew|Hnew]]]].
  - unfold new_coupledSSPRKSync in Hnew.
    apply bind_Ret_inv in Hnew as (tb & _ & Hnew). injection Hnew as <-.
    simpl. split; intros Hx; rewrite ?Hx; destruct (solveSalt op);
      try destruct (solveVertDiffusion op); reflexivity.
  - unfold new_coupledSSPIMEX in Hnew.
    destruct (solveVertDiffusion op) eqn:Hvd; [discriminate|].
    injection Hnew as <-. simpl. rewrite Hvd.
    split; [discriminate|]. intros Hx; rewrite ?Hx. destruct (solveSalt op); reflexivity.
  - unfold new_coupledSSPRKSemiImplicit in Hnew.
    apply bind_Ret_inv in Hnew as (tb & _ & Hnew). injection Hnew as <-.
    simpl. split; intros Hx; rewrite ?Hx; destruct (solveSalt op);
      try destruct (solveVertDiffusion op);
      try destruct (useTurbulence op); reflexivity.
  - unfold new_coupledSSPRKSingleMode in Hnew. injection Hnew as <-.
    simpl. split; intros Hx; rewrite ?Hx; destruct (solveSalt op);
      try destruct (solveVertDiffusion op); reflexivity.
  - unfold new_coupledSSPRK in Hnew.
    apply bind_Ret_inv in Hnew as (u & _ & Hnew). injection Hnew as <-.
    simpl. split; intros Hx; rewrite ?Hx; destruct (solveSalt op);
      try destruct (solveVertDiffusion op); reflexivity.
Qed.

(** C2, at the failing input. On a [coupledSSPRKSync] recipe constructed
    with vertical diffusion switched on, in a module where [t] is unbound,
    the pipeline invoked with every flag set (as [advance] does at its last
    stage) performs step 1 only: evaluating the arguments of the vertical
    diffusion solve raises [NameError], and steps 3 to 10 are not
    performed. *)
Theorem pipeline_stops_at_vertical_diffusion (utility : gset string)
        (dt dt_2d : float) :
  "t" ∉ utility ->
  exists r : obj,
    new_coupledSSPRKSync vert_diffusion_on dt dt_2d = Ret r /\
    run (_updateAllDependencies utility (all_flags true)) r
    = (Raise (NameError "t"),
       {| self := r;
          trace := [Enter (all_flags true);
                    Call copy2dFieldTo3d_elev2d_elev3d;
                    Call elev3d_to_CG_projector_project] |}).
Proof.
  intros Ht.
  destruct (new_coupledSSPRKSync vert_diffusion_on dt dt_2d) as [r|e] eqn:Hnew;
    [|vm_compute in Hnew; discriminate].
  exists r. split; [reflexivity|].
  rewrite (runs_run _ _ _ _ _ (runs_updateAllDependencies utility Ht _ r)).
  unfold new_coupledSSPRKSync in Hnew.
  apply bind_Ret_inv in Hnew as (tb & _ & Hnew). injection Hnew as <-.
  reflexivity.
Qed.

Lemma t_not_in_sample_utility : "t" ∉ sample_utility.
Proof. vm_compute. intros Hin. discriminate Hin. Qed.

Lemma pipeline_stops_at_vertical_diffusion_witness :
  ("t" ∉ sample_utility) /\
  exists r : obj,
    new_coupledSSPRKSync vert_diffusion_on 10%float 3%float = Ret r /\
    run (_updateAllDependencies sample_utility (all_flags true)) r
    = (Raise (NameError "t"),
       {| self := r;
          trace := [Enter (all_flags true);
                    Call copy2dFieldTo3d_elev2d_elev3d;
                    Call elev3d_to_CG_projector_project] |}).
Proof.
  split; [exact t_not_in_sample_utility|].
  exact (pipeline_stops_at_vertical_diffusion sample_utility
           10%float 3%float t_not_in_sample_utility).
Defined.

(** C10, as stated, fails: on a [coupledSSPRKSync] recipe with turbulence
    switched on the turbulence update does not reach the name [t]. The
    constructor never assigned [timeStepper_psi3d], and reading that
    attribute raises [AttributeError] first. *)
Lemma turbulence_update_may_raise_AttributeError :
  ~ (forall (utility : gset string) (o : @obj float) (fl : flags),
        "t" ∉ utility -> constructed utility o ->
        enters_vert_diffusion (opts o) fl || enters_turbulence (opts o) fl
        = true ->
        fst (run (_updateAllDependencies utility fl) o)
        = Raise (NameError "t")).
Proof.
  intros Hall.
  destruct (new_coupledSSPRKSync turbulence_on 10%float 3%float)
    as [r|e] eqn:Hnew; [|vm_compute in Hnew; discriminate].
  assert ("t" ∉ (∅ : gset string)) as Ht by set_solver.
  assert (constructed ∅ r) as Hc
      by (exists turbulence_on, 10%float, 3%float, 0%nat; auto).
  assert (opts r = turbulence_on) as Hopts
      by (eapply new_coupledSSPRKSync_well_formed; exact Hnew).
  specialize (Hall ∅ r (all_flags true) Ht Hc).
  rewrite Hopts in Hall. specialize (Hall eq_refl).
  rewrite (runs_run _ _ _ _ _ (runs_updateAllDependencies ∅ Ht _ r)) in Hall.
  vm_compute in Hnew. injection Hnew as <-.
  vm_compute in Hall. discriminate.
Qed.

(** C10, amended. In a module where [t] is unbound, on an object built by
    one of the five constructors and in any later state (initialized or
    not, whatever [M], [dt_2d] and the initialized sub-steppers are by
    then): whenever the pipeline is invoked with [doVertDiffusion] and
    vertical diffusion is enabled in the options, the vertical diffusion
    step reads the undefined [t] and raises [NameError]; otherwise,
    whenever it is invoked with [doTurbulence] and turbulence is enabled,
    the turbulence update raises after its pre-processing, [NameError] for
    [t] in the recipes whose constructor creates the turbulence
    sub-steppers ([coupledSSPIMEX], [coupledSSPRKSemiImplicit]) and
    [AttributeError] for [timeStepper_psi3d] in the others; in both cases
    the pipeline does not complete.  With those flags false or the options
    disabled no raising branch is reached and the pipeline runs steps 1, 2,
    4, 5, 7, 8, 9, 10 to the end. *)
Theorem pipeline_outcome_with_t_unbound {num} `{Arith num}
        (utility : gset string) (r o : @obj num) (fl : flags) :
  "t" ∉ utility -> constructed utility r -> same_attributes r o ->
  (enters_vert_diffusion (opts o) fl = true ->
   run (_updateAllDependencies utility fl) o
   = (Raise (NameError "t"),
      {| self := o; trace := pipeline_head (opts o) fl |})) /\
  (enters_vert_diffusion (opts o) fl = false ->
   enters_turbulence (opts o) fl = true ->
   run (_updateAllDependencies utility fl) o
   = (Raise (if creates_turbulence_steppers (cls o)
             then NameError "t"
             else AttributeError "timeStepper_psi3d"),
      {| self := o;
         trace := pipeline_head (opts o) fl ++ pipeline_middle (cls o) fl
                    ++ [Call glsModel_preprocess] |})) /\
  (enters_vert_diffusion (opts o) fl = false ->
   enters_turbulence (opts o) fl = false ->
   run (_updateAllDependencies utility fl) o
   = (Ret tt,
      {| self := o; trace := pipeline_events (cls o) (opts o) fl |})).
Proof.
  intros Ht Hc (Hcls & Hopts & Hsteppers).
  destruct (constructed_steppers utility r Hc) as [Hvmom Hpsi].
  rewrite <- Hcls, <- Hopts, <- Hsteppers in *.
  pose proof (runs_run _ _ _ _ _ (runs_updateAllDependencies utility Ht fl o))
    as Hrun.
  unfold pipeline_outcome, pipeline_trace, advance_error in Hrun.
  split; [|split].
  - intros Hvd. rewrite Hvd in Hrun. rewrite Hrun.
    unfold enters_vert_diffusion in Hvd. apply andb_true_iff in Hvd as [_ Hvd].
    rewrite (Hvmom Hvd). reflexivity.
  - intros Hvd Hturb. rewrite Hvd, Hturb in Hrun. rewrite Hrun.
    unfold enters_turbulence in Hturb.
    apply andb_true_iff in Hturb as [_ Hturb].
    rewrite (Hpsi Hturb). reflexivity.
  - intros Hvd Hturb. rewrite Hvd, Hturb in Hrun. exact Hrun.
Qed.

Lemma pipeline_outcome_with_t_unbound_witness :
  exists r : @obj float,
    ("t" ∉ sample_utility) /\ constructed sample_utility r /\
    same_attributes r (self (snd (run initialize r))) /\
    _initialized (self (snd (run initialize r))) = true /\
    fst (run (_updateAllDependencies sample_utility (all_flags true))
             (self (snd (run initialize r))))
    = Raise (NameError "t").
Proof.
  pose proof t_not_in_sample_utility as Ht.
  destruct (new_coupledSSPRKSync vert_diffusion_on 10%float 3%float)
    as [r|e] eqn:Hnew; [|vm_compute in Hnew; discriminate].
  assert (constructed sample_utility r) as Hc
      by (exists vert_diffusion_on, 10%float, 3%float, 0%nat; auto).
  vm_compute in Hnew. injection Hnew as Hr.
  assert (same_attributes r (self (snd (run initialize r)))) as Hsame
      by (rewrite <- Hr; vm_compute; auto).
  exists r. split; [exact Ht|]. split; [exact Hc|]. split; [exact Hsame|].
  split; [rewrite <- Hr; vm_compute; reflexivity|].
  rewrite (proj1 (pipeline_outcome_with_t_unbound
                    sample_utility r (self (snd (run initialize r)))
                    (all_flags true) Ht Hc Hsame)).
  - reflexivity.
  - rewrite <- Hr. vm_compute. reflexivity.
Defined.

(** ** Stage loops *)

Section Stages.
Context {num : Type} `{Arith num}.
Implicit Types o : @obj num.
Variable utility : gset string.

Lemma runs_solveStage (s : stepper) (k : nat) o :
  s ∈ steppers o ->
  runs (solveStage s k) o (Ret tt) o [SolveStage s k (rdy o s)].
Proof.
  intros Hs. unfold solveStage, is_ready.
  eapply runs_final.
  - eapply runs_bind; [apply runs_get_stepper, Hs|].
    eapply runs_bind; [run_step; apply runs_ret|]. apply runs_emit.
  - reflexivity.
  - reflexivity.
Qed.

Lemma runs_solveStage_missing (s : stepper) (k : nat) o :
  s ∉ steppers o ->
  runs (solveStage s k) o (Raise (AttributeError (attr_name s))) o [].
Proof.
  intros Hs. unfold solveStage.
  apply runs_bind_raise, runs_get_stepper_missing, Hs.
Qed.

Lemma runs_limiter_apply (f : field) o :
  runs (limiter_apply f) o (Ret tt) o [LimiterApply f].
Proof. apply runs_emit. Qed.

Lemma runs_salt_stage (k : nat) (lim : bool) o :
  (solveSalt (opts o) = true -> timeStepper_salt3d ∈ steppers o) ->
  runs (salt_stage k lim) o (Ret tt) o (salt_events o k lim).
Proof.
  intros Hsalt. unfold salt_stage, salt_events.
  eapply runs_final; [run_step| |]; try reflexivity.
  destruct (solveSalt (opts o)); [|apply runs_ret]. simpl.
  eapply runs_final.
  - eapply runs_bind; [apply runs_solveStage, Hsalt; reflexivity|].
    apply runs_when, runs_limiter_apply.
  - reflexivity.
  - reflexivity.
Qed.

Lemma runs_turbulence_advection_off (k : nat) (lim : bool) o :
  useTurbulenceAdvection (opts o) = false ->
  runs (turbulence_advection_stage k lim) o (Ret tt) o [].
Proof.
  intros Hoff. unfold turbulence_advection_stage.
  eapply runs_final; [run_step| |]; try reflexivity.
  rewrite Hoff. apply runs_ret.
Qed.

Lemma runs_turbulence_advection_missing (k : nat) (lim : bool) o :
  useTurbulenceAdvection (opts o) = true ->
  timeStepper_tkeAdvEq ∉ steppers o ->
  runs (turbulence_advection_stage k lim) o
       (Raise (AttributeError "timeStepper_tkeAdvEq")) o [].
Proof.
  intros Hon Hmiss. unfold turbulence_advection_stage.
  eapply runs_final; [run_step| |]; try reflexivity.
  rewrite Hon. simpl.
  apply runs_bind_raise.
  exact (runs_solveStage_missing timeStepper_tkeAdvEq k o Hmiss).
Qed.

(** A loop whose iterations return and leave the object as it was. *)
Lemma runs_for_each {A} (l : list A) (body : A -> M unit)
      (ev : A -> list event) o :
  (forall a, a ∈ l -> runs (body a) o (Ret tt) o (ev a)) ->
  runs (for_each l body) o (Ret tt) o (concat (map ev l)).
Proof.
  induction l as [|a l IH]; simpl; intros Hbody.
  - apply runs_ret.
  - eapply runs_bind; [apply Hbody; left|].
    apply IH. intros b Hb. apply Hbody. right. exact Hb.
Qed.

(** A loop whose first iteration raises. *)
Lemma runs_for_each_raise {A} (a : A) (l : list A) (body : A -> M unit)
      (e : exn) (evs : list event) o :
  runs (body a) o (Raise e) o evs ->
  runs (for_each (a :: l) body) o (Raise e) o evs.
Proof. intros Hbody. simpl. apply runs_bind_raise, Hbody. Qed.

End Stages.

(** ** [coupledSSPIMEX] *)

Section IMEX.
Context {num : Type} `{Arith num}.
Implicit Types o : @obj num.
Variable utility : gset string.

Lemma new_coupledSSPIMEX_object op dt dt_2d nS (r : @obj num) :
  new_coupledSSPIMEX op dt dt_2d nS = Ret r ->
  imex_object r /\ opts r = op /\ nStages r = nS.
Proof.
  unfold new_coupledSSPIMEX. destruct (solveVertDiffusion op) eqn:Hvd;
    [discriminate|].
  intros Hr. injection Hr as <-. unfold imex_object. simpl. auto.
Qed.

Lemma imex_object_later (r : @obj num) o :
  imex_object r -> later_state r o ->
  imex_object o /\ opts o = opts r /\ nStages o = nStages r.
Proof. intros Hr (b & rd & ->). unfold imex_object in *. simpl. auto. Qed.

Lemma imex_object_steppers o (s : stepper) :
  imex_object o ->
  s ∈ steppers o <->
  s = timeStepper2d \/ s = timeStepper_mom3d \/
  (solveSalt (opts o) = true /\ s = timeStepper_salt3d) \/
  (useTurbulence (opts o) = true /\
   (s = timeStepper_tke3d \/ s = timeStepper_psi3d)).
Proof.
  intros (_ & _ & ->).
  destruct (solveSalt (opts o)), (useTurbulence (opts o)); simpl;
    rewrite ?elem_of_cons, ?elem_of_nil; intuition congruence.
Qed.

Lemma imex_object_well_formed o : imex_object o -> well_formed o.
Proof.
  intros Ho s. rewrite (imex_object_steppers o s Ho).
  destruct Ho as (_ & Hvd & _).
  unfold steppers_to_initialize. rewrite Hvd.
  destruct (solveSalt (opts o)); simpl;
    rewrite ?elem_of_cons, ?elem_of_nil; intuition congruence.
Qed.

Lemma runs_initialize_plain o :
  well_formed o ->
  runs initialize_plain o (Ret tt)
       (set_initialized true
          (set_ready (rev (steppers_to_initialize (opts o)) ++ ready o) o))
       (map Initialize (steppers_to_initialize (opts o))).
Proof.
  intros Hwf. unfold initialize_plain.
  eapply runs_final.
  - eapply runs_bind; [apply runs_initialize_steppers, Hwf|].
    apply runs_modify. reflexivity.
  - reflexivity.
  - apply app_nil_r.
Qed.

(** The test [if not self._initialized: self.initialize()] on a recipe
    whose [initialize] is the plain one. *)
Lemma runs_initialize_if_needed o :
  well_formed o ->
  cls o = coupledSSPIMEX \/ cls o = coupledSSPRKSingleMode ->
  runs (when (negb (_initialized o)) initialize) o (Ret tt)
       (after_initialize o) (initialize_events o).
Proof.
  intros Hwf Hcls. unfold after_initialize, initialize_events.
  destruct (_initialized o); simpl; [apply runs_ret|].
  unfold initialize.
  eapply runs_final; [eapply runs_bind; [apply runs_get|]| |];
    try reflexivity.
  destruct Hcls as [-> | ->]; apply runs_initialize_plain, Hwf.
Qed.

Lemma runs_imex_turbulence (k : nat) o :
  imex_object o ->
  runs (when (useTurbulence (opts o))
          (bindM (solveStage timeStepper_psi3d k) (fun _ =>
           bindM (solveStage timeStepper_tke3d k) (fun _ =>
           bindM (when (useLimiterForTracers (opts o))
                    (bindM (limiter_apply tke3d)
                           (fun _ => limiter_apply psi3d))) (fun _ =>
           bindM (do_call glsModel_postprocess) (fun _ =>
           do_call glsModel_preprocess))))))
       o (Ret tt) o (imex_turbulence_events o k).
Proof.
  intros Ho. unfold imex_turbulence_events.
  destruct (useTurbulence (opts o)) eqn:Hturb; [|apply runs_ret]. simpl.
  eapply runs_final.
  - eapply runs_bind.
    { apply runs_solveStage, (imex_object_steppers o _ Ho). auto 10. }
    eapply runs_bind.
    { apply runs_solveStage, (imex_object_steppers o _ Ho). auto 10. }
    eapply runs_bind.
    { apply runs_when.
      eapply runs_bind; [apply runs_limiter_apply|apply runs_limiter_apply]. }
    eapply runs_bind; apply runs_emit.
  - reflexivity.
  - simpl. destruct (useLimiterForTracers (opts o)); reflexivity.
Qed.

(** One stage of [coupledSSPIMEX.advance], turbulence advection off. *)
Lemma runs_imex_stage (k : nat) o :
  imex_object o ->
  useTurbulenceAdvection (opts o) = false ->
  runs (bindM (salt_stage k (useLimiterForTracers (opts o)
                             && Nat.eqb k (nStages o - 1))) (fun _ =>
        bindM (turbulence_advection_stage k
                 (useLimiterForTracers (opts o)
                  && Nat.eqb k (nStages o - 1))) (fun _ =>
        bindM (solveStage timeStepper_mom3d k) (fun _ =>
        bindM (solveStage timeStepper2d k) (fun _ =>
        bindM (when (useTurbulence (opts o))
                 (bindM (solveStage timeStepper_psi3d k) (fun _ =>
                  bindM (solveStage timeStepper_tke3d k) (fun _ =>
                  bindM (when (useLimiterForTracers (opts o))
                           (bindM (limiter_apply tke3d)
                                  (fun _ => limiter_apply psi3d))) (fun _ =>
                  bindM (do_call glsModel_postprocess) (fun _ =>
                  do_call glsModel_preprocess)))))) (fun _ =>
        _updateAllDependencies utility
          {| do2DCoupling := Nat.eqb k (nStages o - 1);
             doVertDiffusion := false;
             doALEUpdate := Nat.eqb k (nStages o - 1);
             doStabParams := Nat.eqb k (nStages o - 1);
             doTurbulence := false |}))))))
       o (Ret tt) o (imex_stage_events o k).
Proof.
  intros Ho Hadv. unfold imex_stage_events.
  eapply runs_final.
  - eapply runs_bind.
    { apply runs_salt_stage. intros Hsalt.
      apply (imex_object_steppers o _ Ho). auto 10. }
    eapply runs_bind; [apply runs_turbulence_advection_off, Hadv|].
    eapply runs_bind.
    { apply runs_solveStage, (imex_object_steppers o _ Ho). auto. }
    eapply runs_bind.
    { apply runs_solveStage, (imex_object_steppers o _ Ho). auto. }
    eapply runs_bind; [apply runs_imex_turbulence, Ho|].
    apply runs_pipeline_completes; reflexivity.
  - reflexivity.
  - simpl. rewrite <- ?app_assoc. reflexivity.
Qed.

End IMEX.

(** ** Reading the traces of the stage loops *)

(** Case analysis on every test that remains in a list of events. *)
Ltac split_tests :=
  repeat match goal with
         | |- context [if ?b then _ else _] => destruct b
         end.

Lemma entries_app (l1 l2 : list event) :
  entries (l1 ++ l2) = entries l1 ++ entries l2.
Proof. apply omap_app. Qed.

Lemma turbulence_steps_app (l1 l2 : list event) :
  turbulence_steps (l1 ++ l2) = turbulence_steps l1 ++ turbulence_steps l2.
Proof. apply omap_app. Qed.

Lemma entries_pipeline_events (c : recipe) (op : options) (fl : flags) :
  entries (pipeline_events c op fl) = [fl].
Proof.
  unfold pipeline_events, pipeline_head, pipeline_middle, pipeline_tail,
    elevation_events, moving_mesh_events, coupling_events,
    vertical_velocity_events, mesh_velocity_events, friction_events,
    baroclinic_events, stabilization_events.
  destruct c; split_tests; reflexivity.
Qed.

Lemma turbulence_steps_pipeline_events (c : recipe) (op : options)
      (fl : flags) :
  turbulence_steps (pipeline_events c op fl) = [].
Proof.
  unfold pipeline_events, pipeline_head, pipeline_middle, pipeline_tail,
    elevation_events, moving_mesh_events, coupling_events,
    vertical_velocity_events, mesh_velocity_events, friction_events,
    baroclinic_events, stabilization_events.
  destruct c; split_tests; reflexivity.
Qed.

Lemma entries_initialize_events {num} (o : @obj num) :
  entries (initialize_events o) = [].
Proof.
  unfold initialize_events, steppers_to_initialize, optional.
  split_tests; reflexivity.
Qed.

Lemma turbulence_steps_initialize_events {num} (o : @obj num) :
  turbulence_steps (initialize_events o) = [].
Proof.
  unfold initialize_events, steppers_to_initialize, optional.
  split_tests; reflexivity.
Qed.

Lemma entries_salt_events {num} (o : @obj num) (k : nat) (lim : bool) :
  entries (salt_events o k lim) = [].
Proof. unfold salt_events. split_tests; reflexivity. Qed.

Lemma entries_imex_stage_events {num} (o : @obj num) (k : nat) :
  entries (imex_stage_events o k) = [imex_flags (nStages o) k].
Proof.
  unfold imex_stage_events. rewrite !entries_app, entries_pipeline_events.
  rewrite entries_salt_events.
  unfold imex_turbulence_events. split_tests; reflexivity.
Qed.

Lemma turbulence_steps_imex_stage_events {num} (o : @obj num) (k : nat) :
  turbulence_steps (imex_stage_events o k)
  = if useTurbulence (opts o)
    then [AdvancePsi; AdvanceTke; Postprocess; Preprocess] else [].
Proof.
  unfold imex_stage_events.
  rewrite !turbulence_steps_app, turbulence_steps_pipeline_events.
  unfold salt_events, imex_turbulence_events. split_tests; reflexivity.
Qed.

Lemma entries_stages {num} (o : @obj num) (ks : list nat) :
  entries (concat (map (imex_stage_events o) ks))
  = map (imex_flags (nStages o)) ks.
Proof.
  induction ks as [|k ks IH]; [reflexivity|]. simpl.
  rewrite entries_app, entries_imex_stage_events, IH. reflexivity.
Qed.

Lemma turbulence_steps_stages {num} (o : @obj num) (j n : nat) :
  useTurbulence (opts o) = true ->
  turbulence_steps (concat (map (imex_stage_events o) (seq j n)))
  = concat (replicate n [AdvancePsi; AdvanceTke; Postprocess; Preprocess]).
Proof.
  intros Hturb. revert j. induction n as [|n IH]; intros j; [reflexivity|].
  simpl seq. simpl map. simpl concat.
  rewrite turbulence_steps_app, turbulence_steps_imex_stage_events, Hturb, IH.
  reflexivity.
Qed.

Section IMEXAdvance.
Context {num : Type} `{Arith num}.
Implicit Types o : @obj num.
Variable utility : gset string.

Lemma imex_object_after_initialize o :
  imex_object o ->
  imex_object (after_initialize o) /\
  opts (after_initialize o) = opts o /\
  nStages (after_initialize o) = nStages o.
Proof.
  intros Ho. unfold after_initialize.
  destruct (_initialized o); [auto|].
  unfold imex_object in *. simpl. auto.
Qed.

(** [coupledSSPIMEX.advance] without turbulence advection: every stage
    runs to its end. *)
Lemma runs_advance_IMEX o :
  imex_object o ->
  useTurbulenceAdvection (opts o) = false ->
  runs (advance utility) o (Ret tt) (after_initialize o)
       (initialize_events o
          ++ concat (map (imex_stage_events (after_initialize o))
                         (seq 0 (nStages o)))).
Proof.
  intros Ho Hadv.
  destruct (imex_object_after_initialize o Ho) as (Ho1 & Hopts & HnS).
  pose proof Ho as (Hcls & _).
  rewrite <- HnS. unfold advance.
  eapply runs_final; [eapply runs_bind; [apply runs_get|]| |];
    try reflexivity.
  rewrite Hcls. unfold advance_IMEX.
  eapply runs_final.
  - run_step.
    eapply runs_bind.
    { apply runs_initialize_if_needed;
        [apply imex_object_well_formed, Ho|left; exact Hcls]. }
    run_step.
    apply runs_for_each. intros k _.
    apply (runs_imex_stage utility k (after_initialize o) Ho1).
    rewrite Hopts. exact Hadv.
  - reflexivity.
  - reflexivity.
Qed.

(** With turbulence advection switched on, the first stage stops at the
    attribute [timeStepper_tkeAdvEq], which no constructor assigns: the
    pipeline is not entered. *)
Lemma runs_advance_IMEX_advection o :
  imex_object o ->
  useTurbulenceAdvection (opts o) = true ->
  exists evs,
    runs (advance utility) o
         (match nStages o with
          | O => Ret tt
          | S _ => Raise (AttributeError "timeStepper_tkeAdvEq")
          end)
         (after_initialize o) (initialize_events o ++ evs) /\
    entries evs = [].
Proof.
  intros Ho Hadv.
  destruct (imex_object_after_initialize o Ho) as (Ho1 & Hopts & HnS).
  pose proof Ho as (Hcls & _).
  assert (forall r evs,
             runs (for_each (seq 0 (nStages (after_initialize o)))
                     (fun k =>
                        let lastStep := Nat.eqb k (nStages (after_initialize o) - 1) in
                        bindM (salt_stage k
                                 (useLimiterForTracers (opts (after_initialize o))
                                  && lastStep)) (fun _ =>
                        bindM (turbulence_advection_stage k
                                 (useLimiterForTracers (opts (after_initialize o))
                                  && lastStep)) (fun _ =>
                        bindM (solveStage timeStepper_mom3d k) (fun _ =>
                        bindM (solveStage timeStepper2d k) (fun _ =>
                        bindM (when (useTurbulence (opts (after_initialize o)))
                                 (bindM (solveStage timeStepper_psi3d k) (fun _ =>
                                  bindM (solveStage timeStepper_tke3d k) (fun _ =>
                                  bindM (when (useLimiterForTracers
                                                 (opts (after_initialize o)))
                                           (bindM (limiter_apply tke3d)
                                              (fun _ => limiter_apply psi3d)))
                                        (fun _ =>
                                  bindM (do_call glsModel_postprocess) (fun _ =>
                                  do_call glsModel_preprocess)))))) (fun _ =>
                        _updateAllDependencies utility
                          {| do2DCoupling := lastStep;
                             doVertDiffusion := false;
                             doALEUpdate := lastStep;
                             doStabParams := lastStep;
                             doTurbulence := false |})))))))
                  (after_initialize o) r (after_initialize o) evs ->
             runs (advance utility) o r (after_initialize o)
                  (initialize_events o ++ evs)) as Hwrap.
  { intros r evs Hloop. unfold advance.
    eapply runs_final; [eapply runs_bind; [apply runs_get|]| |];
      try reflexivity.
    rewrite Hcls. unfold advance_IMEX.
    eapply runs_final.
    - run_step.
      eapply runs_bind.
      { apply runs_initialize_if_needed;
          [apply imex_object_well_formed, Ho|left; exact Hcls]. }
      run_step. exact Hloop.
    - reflexivity.
    - reflexivity. }
  rewrite <- HnS.
  destruct (nStages (after_initialize o)) as [|n] eqn:Hn.
  - exists []. split; [|reflexivity].
    apply Hwrap. simpl. apply runs_ret.
  - eexists. split.
    + apply Hwrap. simpl seq. apply runs_for_each_raise. cbv zeta.
      eapply runs_bind.
      { apply runs_salt_stage. intros Hsalt.
        apply (imex_object_steppers _ _ Ho1). rewrite Hopts in *. auto 10. }
      apply runs_bind_raise.
      apply runs_turbulence_advection_missing; [rewrite Hopts; exact Hadv|].
      rewrite (imex_object_steppers _ _ Ho1). intuition discriminate.
    + rewrite app_nil_r. apply entries_salt_events.
Qed.

End IMEXAdvance.

Lemma later_state_refl {num} (r : @obj num) : later_state r r.
Proof. exists (_initialized r), (ready r). destruct r; reflexivity. Qed.

(** C6, at the failing input. Constructing the SSP-IMEX recipe with the
    vertical diffusion (vertical momentum) equation requested raises at
    construction time, and with turbulence advection off every call of
    [coupledSSPIMEX.advance], on an object in any initialization state,
    returns after entering the pipeline once per stage, in stage order,
    with [doVertDiffusion] (and [doTurbulence]) false at every stage and
    [do2DCoupling], [doALEUpdate], [doStabParams] true exactly on the last
    stage.  With turbulence advection on, however, the first stage reads
    [self.timeStepper_tkeAdvEq], which no constructor assigns: the call
    raises [AttributeError] and the pipeline is entered at no stage. *)
Theorem SSPIMEX_advance_stops_at_missing_tkeAdvEq
        {num} `{Arith num} (utility : gset string)
        (op : options) (dt dt_2d : num) (nS : nat) :
  (solveVertDiffusion op = true ->
   new_coupledSSPIMEX op dt dt_2d nS
   = Raise (Exception
              "vert mom eq should not exist for this time integrator")) /\
  (forall r o : @obj num,
      new_coupledSSPIMEX op dt dt_2d nS = Ret r -> later_state r o ->
      (useTurbulenceAdvection op = false ->
       fst (run (advance utility) o) = Ret tt /\
       entries (trace (snd (run (advance utility) o)))
       = map (imex_flags nS) (seq 0 nS)) /\
      (useTurbulenceAdvection op = true -> (0 < nS)%nat ->
       fst (run (advance utility) o)
       = Raise (AttributeError "timeStepper_tkeAdvEq") /\
       entries (trace (snd (run (advance utility) o))) = [])).
Proof.
  split.
  - intros Hvd. unfold new_coupledSSPIMEX. rewrite Hvd. reflexivity.
  - intros r o Hnew Hlater.
    destruct (new_coupledSSPIMEX_object _ _ _ _ _ Hnew) as (Hr & Hopts & HnS).
    destruct (imex_object_later r o Hr Hlater) as (Ho & Hopts' & HnS').
    rewrite Hopts in Hopts'. rewrite HnS in HnS'.
    split.
    + intros Hadv. rewrite <- Hopts' in Hadv.
      rewrite (runs_run _ _ _ _ _ (runs_advance_IMEX utility o Ho Hadv)).
      simpl. rewrite entries_app, entries_initialize_events, entries_stages.
      destruct (imex_object_after_initialize o Ho) as (_ & _ & ->).
      rewrite HnS'. split; reflexivity.
    + intros Hadv Hpos. rewrite <- Hopts' in Hadv.
      destruct (runs_advance_IMEX_advection utility o Ho Hadv)
        as (evs & Hrun & Hevs).
      rewrite (runs_run _ _ _ _ _ Hrun). simpl.
      rewrite entries_app, entries_initialize_events, Hevs.
      rewrite HnS'. destruct nS as [|n]; [lia|]. split; reflexivity.
Qed.

Lemma SSPIMEX_advance_stops_at_missing_tkeAdvEq_witness :
  exists r : @obj float,
    new_coupledSSPIMEX turbulence_advection_on 10%float 3%float 3 = Ret r /\
    fst (run (advance sample_utility) r)
    = Raise (AttributeError "timeStepper_tkeAdvEq") /\
    entries (trace (snd (run (advance sample_utility) r))) = [].
Proof.
  destruct (new_coupledSSPIMEX turbulence_advection_on 10%float 3%float 3)
    as [r|e] eqn:Hnew; [|discriminate Hnew].
  exists r. split; [reflexivity|].
  apply (proj2 (SSPIMEX_advance_stops_at_missing_tkeAdvEq
                  sample_utility turbulence_advection_on 10%float 3%float 3)
               r r Hnew (later_state_refl r));
    [reflexivity|lia].
Defined.

(** C5, as stated, fails: in [coupledSSPIMEX.advance] the turbulence update
    of a stage advances psi, then tke, then runs the post-processing and
    only then the pre-processing. *)
Lemma SSPIMEX_preprocess_comes_last :
  ~ (forall (utility : gset string) (op : options) (nS : nat)
            (r : @obj float),
        useTurbulence op = true ->
        new_coupledSSPIMEX op 10%float 3%float nS = Ret r ->
        bracketed (turbulence_steps
                     (trace (snd (run (advance utility) r))))).
Proof.
  intros Hall.
  destruct (new_coupledSSPIMEX turbulence_on 10%float 3%float 1)
    as [r|e] eqn:Hnew; [|discriminate Hnew].
  destruct (Hall ∅ turbulence_on 1%nat r eq_refl Hnew) as [n Hn].
  vm_compute in Hnew. injection Hnew as <-.
  vm_compute in Hn.
  destruct n as [|n]; simpl in Hn; discriminate.
Qed.

(** C5, amended. In the SSP-IMEX recipe with turbulence enabled (and
    turbulence advection off, so that the stages run), every stage of
    [advance] advances the second transported quantity (psi) before the
    first (tke), runs the post-processing after both advances, and runs the
    pre-processing after the post-processing, for the next stage; the call
    returns normally after [nStages] such updates. *)
Theorem SSPIMEX_turbulence_order {num} `{Arith num} (utility : gset string)
        (op : options) (dt dt_2d : num) (nS : nat) (r o : @obj num) :
  useTurbulence op = true -> useTurbulenceAdvection op = false ->
  new_coupledSSPIMEX op dt dt_2d nS = Ret r -> later_state r o ->
  fst (run (advance utility) o) = Ret tt /\
  turbulence_steps (trace (snd (run (advance utility) o)))
  = concat (replicate nS [AdvancePsi; AdvanceTke; Postprocess; Preprocess]).
Proof.
  intros Hturb Hadv Hnew Hlater.
  destruct (new_coupledSSPIMEX_object _ _ _ _ _ Hnew) as (Hr & Hopts & HnS).
  destruct (imex_object_later r o Hr Hlater) as (Ho & Hopts' & HnS').
  rewrite Hopts in Hopts'. rewrite HnS in HnS'.
  rewrite <- Hopts' in Hadv, Hturb.
  rewrite (runs_run _ _ _ _ _ (runs_advance_IMEX utility o Ho Hadv)).
  simpl. split; [reflexivity|].
  rewrite turbulence_steps_app, turbulence_steps_initialize_events.
  destruct (imex_object_after_initialize o Ho) as (_ & Hopts1 & _).
  rewrite turbulence_steps_stages by (rewrite Hopts1; exact Hturb).
  rewrite HnS'. reflexivity.
Qed.

Lemma SSPIMEX_turbulence_order_witness :
  exists r : @obj float,
    useTurbulence turbulence_on = true /\
    useTurbulenceAdvection turbulence_on = false /\
    new_coupledSSPIMEX turbulence_on 10%float 3%float 2 = Ret r /\
    later_state r r /\
    turbulence_steps (trace (snd (run (advance sample_utility) r)))
    = [AdvancePsi; AdvanceTke; Postprocess; Preprocess;
       AdvancePsi; AdvanceTke; Postprocess; Preprocess].
Proof.
  destruct (new_coupledSSPIMEX turbulence_on 10%float 3%float 2)
    as [r|e] eqn:Hnew; [|discriminate Hnew].
  exists r.
  split; [reflexivity|]. split; [reflexivity|]. split; [reflexivity|].
  split; [apply later_state_refl|].
  exact (proj2 (SSPIMEX_turbulence_order sample_utility turbulence_on
                  10%float 3%float 2 r r eq_refl eq_refl Hnew
                  (later_state_refl r))).
Defined.

(** ** Calling [advance] before [initialize] *)

(** C7, at the failing input. [coupledSSPRKSingleMode.advance] on a freshly
    constructed recipe (every switch off, three stages) neither calls
    [initialize] nor raises: it hands the uninitialized sub-steppers to
    [solveStage] at every stage, returns normally, and leaves
    [_initialized] false.  The call is not [initialize] followed by
    [advance]. *)
Theorem SingleMode_advance_skips_initialize (utility : gset string)
        (dt dt_2d : float) :
  exists (r : obj) (w : world),
    new_coupledSSPRKSingleMode switches_off dt dt_2d 3 = Ret r /\
    run (advance utility) r = (Ret tt, w) /\
    _initialized (self w) = false /\ ready (self w) = [] /\
    (forall s, Initialize s ∉ trace w) /\
    trace w !! 0%nat = Some (SolveStage timeStepper_mom3d 0 false) /\
    trace w !! 1%nat = Some (SolveStage timeStepper2d 0 false) /\
    run (bindM initialize (fun _ => advance utility)) r
    <> run (advance utility) r.
Proof.
  eexists _, _. split; [reflexivity|].
  split; [vm_compute; reflexivity|].
  split; [reflexivity|]. split; [reflexivity|].
  split.
  { intros s Hin. simpl in Hin.
    repeat (apply elem_of_cons in Hin as [Hin|Hin]; [discriminate Hin|]).
    apply elem_of_nil in Hin. exact Hin. }
  split; [reflexivity|]. split; [reflexivity|].
  vm_compute. discriminate.
Qed.

(** ** [ForwardEuler.advance] *)

(** C9. In a module where [dt] is unbound, every call of
    [ForwardEuler.advance], for any time [t] and any forcing callback,
    raises [NameError] for [dt]: the name is neither a parameter nor a local
    variable of the method, and it is read by the first statement, before
    the forcing callback is invoked and before the lagged solution or any
    field is modified.  The stepper's state after the failed call is the
    state before it. *)
Theorem ForwardEuler_advance_raises_NameError
        {num} `{Arith num} (V : Type)
        (utility : gmap string (@ForwardEuler.pyval num))
        (solve : V -> gmap string V -> @ForwardEuler.pyval num -> V)
        (t : num) (update_forcings : ForwardEuler.callback V)
        (s : ForwardEuler.state V) :
  utility !! "dt" = None ->
  ForwardEuler.advance V utility solve t update_forcings s
  = (Raise (NameError "dt"), s).
Proof.
  intros Hdt. unfold ForwardEuler.advance, ForwardEuler.load_name.
  replace ((list_to_map (ForwardEuler.advance_locals t)
             : gmap string ForwardEuler.pyval) !! "dt")
    with (@None (@ForwardEuler.pyval num)) by (vm_compute; reflexivity).
  rewrite bool_decide_eq_false_2; [rewrite Hdt; reflexivity|].
  vm_compute. intros Hin. discriminate Hin.
Qed.

Lemma ForwardEuler_advance_raises_NameError_witness :
  (∅ : gmap string (@ForwardEuler.pyval float)) !! "dt" = None /\
  ForwardEuler.advance Z ∅ sample_solve 10%float sample_forcing sample_euler
  = (Raise (NameError "dt"), sample_euler).
Proof.
  split; [reflexivity|].
  apply (ForwardEuler_advance_raises_NameError Z ∅ sample_solve 10%float
           sample_forcing sample_euler).
  reflexivity.
Defined.

(** Were [dt] bound at module level, the same call would go through: the
    callback runs once at [t + self.dt], the solution is lagged and
    solved, the fields are shifted. *)
Example ForwardEuler_advance_with_dt_bound :
  let s' := snd (ForwardEuler.advance Z {[ "dt" := ForwardEuler.Num 3%float ]}
                   sample_solve 10%float sample_forcing sample_euler) in
  fst (ForwardEuler.advance Z {[ "dt" := ForwardEuler.Num 3%float ]}
         sample_solve 10%float sample_forcing sample_euler) = Ret tt /\
  ForwardEuler.dt_const Z s' = ForwardEuler.Num 3%float /\
  ForwardEuler.forcings Z s' = [12%float] /\
  ForwardEuler.solution_old Z s' = 5%Z /\
  ForwardEuler.solution Z s' = 5%Z /\
  ForwardEuler.fields_old Z s' !! "wind" = Some 7%Z.
Proof. vm_compute. repeat split; reflexivity. Qed.

(** ** Lax-Friedrichs stabilization of the horizontal advection term *)

(** The guard of line 142 already requires [uv_mag]; inside it one of the
    first two branches is always taken, so the [raise] of line 149 is never
    reached. *)
Lemma lax_friedrichs_interior_returns (F : Type)
      (lax_friedrichs_factor uv_mag uv_p1 : option F) :
  exists f,
    MomentumEquation.lax_friedrichs_interior F lax_friedrichs_factor
      uv_mag uv_p1 = Ret f.
Proof.
  unfold MomentumEquation.lax_friedrichs_interior.
  destruct lax_friedrichs_factor, uv_mag, uv_p1; simpl; eauto.
Qed.

(** [horizontal_advection] never raises the configuration error. *)
Lemma horizontal_advection_never_complains (F : Type)
      (eq : MomentumEquation.equation)
      (lax_friedrichs_factor uv_mag uv_p1 : option F) :
  MomentumEquation.horizontal_advection F eq lax_friedrichs_factor
    uv_mag uv_p1
  <> Raise (Exception "either uv_p1 or uv_mag must be given").
Proof.
  unfold MomentumEquation.horizontal_advection.
  destruct (MomentumEquation.nonlin eq); simpl; [|discriminate].
  destruct (MomentumEquation.horiz_advection_by_parts eq); [|discriminate].
  destruct (MomentumEquation.horizontal_dg eq); simpl; [|discriminate].
  destruct (lax_friedrichs_interior_returns F lax_friedrichs_factor
              uv_mag uv_p1) as [f ->]. simpl.
  destruct (mapM (MomentumEquation.boundary_terms F eq lax_friedrichs_factor)
                 (MomentumEquation.boundary_markers eq)) as [bs|e] eqn:Hbs;
    simpl; [discriminate|].
  intros Habs. injection Habs as ->.
  revert Hbs. generalize (MomentumEquation.boundary_markers eq).
  induction l as [|m l IH]; simpl; [discriminate|].
  unfold MomentumEquation.boundary_terms at 1.
  destruct (MomentumEquation.bnd_functions eq !! m) as [funcs|].
  - destruct (bool_decide ("flux" ∈ funcs)).
    + destruct (bool_decide (m ∈ MomentumEquation.boundary_len eq)); simpl;
        [|discriminate].
      destruct (mapM _ l); simpl; [discriminate|].
      intros Hl. apply IH. congruence.
    + simpl. destruct (mapM _ l); simpl; [discriminate|].
      intros Hl. apply IH. congruence.
  - simpl. destruct (mapM _ l); simpl; [discriminate|].
    intros Hl. apply IH. congruence.
Qed.

(** C8, at the failing input. With a Lax-Friedrichs factor supplied and no
    [uv_mag], the stabilization block of lines 142-151 contributes no term
    and raises nothing, whether or not [uv_p1] is given; so with neither
    field [horizontal_advection] returns normally, and the form it returns
    has no interior Lax-Friedrichs term: the stabilization is silently left
    out. *)
Theorem lax_friedrichs_without_fields_is_silent (F : Type)
        (lax_friedrichs_factor : F) (uv_p1 : option F) :
  MomentumEquation.lax_friedrichs_interior F (Some lax_friedrichs_factor)
    None uv_p1 = Ret [] /\
  MomentumEquation.horizontal_advection F sample_equation
    (Some lax_friedrichs_factor) None None
  = Ret [MomentumEquation.volume_advection;
         MomentumEquation.interior_upwind_flux;
         MomentumEquation.surface_flux].
Proof.
  split.
  - unfold MomentumEquation.lax_friedrichs_interior. simpl. reflexivity.
  - unfold MomentumEquation.horizontal_advection. simpl. reflexivity.
Qed.

Example lax_friedrichs_with_uv_mag (F : Type) (factor uv_mag : F) :
  MomentumEquation.horizontal_advection F sample_equation
    (Some factor) (Some uv_mag) None
  = Ret [MomentumEquation.volume_advection;
         MomentumEquation.interior_upwind_flux;
         MomentumEquation.interior_lax_friedrichs
           MomentumEquation.gamma_from_uv_mag;
         MomentumEquation.surface_flux].
Proof. reflexivity. Qed.

Example lax_friedrichs_with_uv_p1_only (F : Type) (factor uv_p1 : F) :
  MomentumEquation.horizontal_advection F sample_equation
    (Some factor) None (Some uv_p1)
  = Ret [MomentumEquation.volume_advection;
         MomentumEquation.interior_upwind_flux;
         MomentumEquation.surface_flux].
Proof. reflexivity. Qed.

(** ** Lazy initialization *)

Section AutoInitialize.
Context {num : Type} `{Arith num}.
Variable utility : gset string.

Lemma bindM_inv {A B} (c : @M num A) (k : A -> @M num B)
      (w : @world num) r w' :
  bindM c k w = (r, w') ->
  (exists a w1, c w = (Ret a, w1) /\ k a w1 = (r, w')) \/
  (exists e, c w = (Raise e, w') /\ r = Raise e).
Proof.
  unfold bindM. destruct (c w) as [[a|e] w1]; intros Hk.
  - left. eauto.
  - right. injection Hk as <- <-. eauto.
Qed.

Lemma keeps_cls_bind {A B} (c : @M num A) (k : A -> @M num B) :
  keeps_cls c -> (forall a, keeps_cls (k a)) -> keeps_cls (bindM c k).
Proof.
  intros Hc Hk w r w' Hrun.
  apply bindM_inv in Hrun as [(a & w1 & Hc1 & Hk1)|(e & Hc1 & _)].
  - rewrite (Hk a _ _ _ Hk1). exact (Hc _ _ _ Hc1).
  - exact (Hc _ _ _ Hc1).
Qed.

Lemma keeps_cls_ret {A} (a : A) : keeps_cls (ret a : @M num A).
Proof. intros w r w' Hrun. injection Hrun as <- <-. reflexivity. Qed.

Lemma keeps_cls_raise {A} (e : exn) : keeps_cls (raise e : @M num A).
Proof. intros w r w' Hrun. injection Hrun as <- <-. reflexivity. Qed.

Lemma keeps_cls_lift {A} (c : outcome A) : keeps_cls (lift c : @M num A).
Proof. intros w r w' Hrun. injection Hrun as <- <-. reflexivity. Qed.

Lemma keeps_cls_get : keeps_cls (get : @M num obj).
Proof. intros w r w' Hrun. injection Hrun as <- <-. reflexivity. Qed.

Lemma keeps_cls_emit (e : event) : keeps_cls (emit e : @M num unit).
Proof. intros w r w' Hrun. injection Hrun as <- <-. reflexivity. Qed.

Lemma keeps_cls_modify (f : @obj num -> @obj num) :
  (forall o, cls (f o) = cls o) -> keeps_cls (modify f).
Proof. intros Hf w r w' Hrun. injection Hrun as <- <-. simpl. apply Hf. Qed.

Lemma keeps_cls_when (b : bool) (c : @M num unit) :
  keeps_cls c -> keeps_cls (when b c).
Proof. destruct b; [auto|intros _; apply keeps_cls_ret]. Qed.

Lemma keeps_cls_for_each {A} (l : list A) (body : A -> @M num unit) :
  (forall a, keeps_cls (body a)) -> keeps_cls (for_each l body).
Proof.
  intros Hbody. induction l as [|a l IH]; simpl.
  - apply keeps_cls_ret.
  - apply keeps_cls_bind; auto.
Qed.

Lemma keeps_cls_stepper_initialize (s : stepper) :
  keeps_cls (stepper_initialize s : @M num unit).
Proof.
  unfold stepper_initialize, get_stepper.
  apply keeps_cls_bind; [|intros _; apply keeps_cls_bind].
  - apply keeps_cls_bind; [apply keeps_cls_get|].
    intros o. destruct (bool_decide _);
      [apply keeps_cls_ret|apply keeps_cls_raise].
  - apply keeps_cls_emit.
  - intros _. apply keeps_cls_modify. reflexivity.
Qed.

Lemma keeps_cls_initialize_steppers :
  keeps_cls (initialize_steppers : @M num unit).
Proof.
  unfold initialize_steppers.
  apply keeps_cls_bind; [apply keeps_cls_get|]. intros o.
  repeat (apply keeps_cls_bind;
          [first [apply keeps_cls_stepper_initialize
                 |apply keeps_cls_when, keeps_cls_stepper_initialize]
          |intros _]).
  apply keeps_cls_when, keeps_cls_stepper_initialize.
Qed.

(** [initialize], when it returns, has set [_initialized] and has kept the
    class. *)
Lemma initialize_sets_initialized (w w' : @world num) (u : unit) :
  initialize w = (Ret u, w') ->
  _initialized (self w') = true /\ cls (self w') = cls (self w).
Proof.
  destruct u. unfold initialize. intros Hrun.
  apply bindM_inv in Hrun as [(o & w1 & Hget & Hrun)|(e & _ & Habs)];
    [|discriminate].
  injection Hget as <- <-.
  assert (forall c : @M num unit,
             keeps_cls c ->
             bindM c (fun _ => modify (set_initialized true)) w = (Ret tt, w') ->
             _initialized (self w') = true /\ cls (self w') = cls (self w))
    as Hlast.
  { intros c Hc Hb.
    apply bindM_inv in Hb as [(a & w1 & Hc1 & Hm)|(e & _ & Habs)];
      [|discriminate].
    inversion Hm; subst. simpl. split; [reflexivity|exact (Hc _ _ _ Hc1)]. }
  assert (bindM initialize_subcycling (fun _ => ret tt) w = (Ret tt, w') ->
          _initialized (self w') = true /\ cls (self w') = cls (self w))
    as Hsub.
  { unfold initialize_subcycling. intros Hb.
    apply bindM_inv in Hb as [(a & w1 & Hb & Hr)|(e & _ & Habs)];
      [|discriminate].
    inversion Hr; subst.
    apply bindM_inv in Hb as [([] & w2 & H1 & Hb)|(e & _ & Habs)];
      [|discriminate].
    apply bindM_inv in Hb as [([] & w3 & H2 & Hb)|(e & _ & Habs)];
      [|discriminate].
    apply bindM_inv in Hb as [([] & w4 & H3 & Hb)|(e & _ & Habs)];
      [|discriminate].
    apply bindM_inv in Hb as [(tb & w5 & H4 & Hb)|(e & _ & Habs)];
      [|discriminate].
    apply bindM_inv in Hb as [([] & w6 & H5 & Hb)|(e & _ & Habs)];
      [|discriminate].
    inversion Hb; subst. simpl. split; [reflexivity|].
    assert (keeps_cls (for_each (t_dt_frac tb) (fun f =>
              bindM get (fun o =>
              bindM (lift (substep (solver_dt o) (solver_dt_2d o) f)) (fun p =>
              bindM (modify (fun o => set_M (M_ o ++ [fst p]) o)) (fun _ =>
              modify (fun o => set_dt_2d (dt_2d_ o ++ [snd p]) o)))))))
      as Hloop.
    { apply keeps_cls_for_each. intros f.
      apply keeps_cls_bind; [apply keeps_cls_get|]. intros o.
      apply keeps_cls_bind; [apply keeps_cls_lift|]. intros p.
      apply keeps_cls_bind; [apply keeps_cls_modify; reflexivity|].
      intros _. apply keeps_cls_modify; reflexivity. }
    rewrite (Hloop _ _ _ H5).
    assert (keeps_cls (get_tables : @M num tables)) as Htab.
    { unfold get_tables. apply keeps_cls_bind; [apply keeps_cls_get|].
      intros o. destruct (tabs o);
        [apply keeps_cls_ret|apply keeps_cls_raise]. }
    rewrite (Htab _ _ _ H4).
    inversion H3; subst. inversion H2; subst. simpl.
    exact (keeps_cls_initialize_steppers _ _ _ H1). }
  destruct (cls (self w)).
  - apply Hsub. unfold bindM. rewrite Hrun. reflexivity.
  - apply (Hlast initialize_steppers keeps_cls_initialize_steppers Hrun).
  - apply Hsub. unfold bindM. rewrite Hrun. reflexivity.
  - apply (Hlast initialize_steppers keeps_cls_initialize_steppers Hrun).
  - unfold initialize_coupledSSPRK in Hrun.
    apply bindM_inv in Hrun as [(a & w1 & _ & Hrun)|(e & _ & Habs)];
      [|discriminate].
    apply bindM_inv in Hrun as [(a' & w2 & _ & Hrun)|(e & _ & Habs)];
      discriminate.
Qed.

(** In the three recipes whose [advance] tests [self._initialized], a call
    of [advance] on an uninitialized object is [initialize] followed by
    [advance]. *)
Lemma advance_initializes_first (w : @world num) :
  tests_initialized (cls (self w)) = true ->
  _initialized (self w) = false ->
  advance utility w = bindM initialize (fun _ => advance utility) w.
Proof.
  intros Htests Hinit.
  assert (forall rest : @M num unit,
             bindM get (fun o =>
               bindM (when (negb (_initialized o)) initialize)
                     (fun _ => rest)) w
             = bindM initialize (fun _ => rest) w) as Hfirst.
  { intros rest. unfold bindM at 1. simpl. rewrite Hinit. reflexivity. }
  assert (forall rest : @M num unit,
             (forall w' u, initialize w = (Ret u, w') ->
                           advance utility w' = rest w') ->
             bindM initialize (fun _ => rest) w
             = bindM initialize (fun _ => advance utility) w) as Hthen.
  { intros rest Hrest. unfold bindM.
    destruct (initialize w) as [[u|e] w'] eqn:Hrun; [|reflexivity].
    symmetry. apply (Hrest w' u). reflexivity. }
  unfold advance at 1. unfold bindM at 1. simpl.
  destruct (cls (self w)) eqn:Hcls; try discriminate.
  - unfold advance_Sync. rewrite Hfirst. apply Hthen.
    intros w' u Hrun.
    destruct (initialize_sets_initialized _ _ _ Hrun) as [Hi Hc].
    unfold advance, advance_Sync. unfold bindM at 1. simpl.
    rewrite Hc, Hcls. unfold bindM at 1. simpl. rewrite Hi.
    reflexivity.
  - unfold advance_IMEX. rewrite Hfirst. apply Hthen.
    intros w' u Hrun.
    destruct (initialize_sets_initialized _ _ _ Hrun) as [Hi Hc].
    unfold advance, advance_IMEX. unfold bindM at 1. simpl.
    rewrite Hc, Hcls. unfold bindM at 1. simpl. rewrite Hi.
    reflexivity.
  - unfold advance_SemiImplicit. rewrite Hfirst. apply Hthen.
    intros w' u Hrun.
    destruct (initialize_sets_initialized _ _ _ Hrun) as [Hi Hc].
    unfold advance, advance_SemiImplicit. unfold bindM at 1. simpl.
    rewrite Hc, Hcls. unfold bindM at 1. simpl. rewrite Hi.
    reflexivity.
Qed.

End AutoInitialize.

(** ** Further properties *)

(** X1. When the vertical diffusion step and the turbulence update are not
    entered (flag false or option disabled), one invocation of the
    pipeline returns normally, leaves the object as it was, and performs,
    in this order: the elevation projection; if [doALEUpdate], the mesh
    update; if [do2DCoupling], the 2D-3D coupling of the class of [self];
    the vertical velocity; the ALE mesh velocity; bottom friction and
    parabolic viscosity; the baroclinic head; if [doStabParams], the
    stabilization parameters. *)
Theorem pipeline_order_without_raising_steps {num} `{Arith num}
        (utility : gset string) (o : @obj num) (fl : flags) :
  enters_vert_diffusion (opts o) fl = false ->
  enters_turbulence (opts o) fl = false ->
  run (_updateAllDependencies utility fl) o
  = (Ret tt, {| self := o; trace := pipeline_events (cls o) (opts o) fl |}).
Proof.
  intros Hvd Hturb. apply runs_run, runs_pipeline_completes; assumption.
Qed.

Lemma pipeline_order_without_raising_steps_witness :
  exists r : @obj float,
    new_coupledSSPRKSync switches_off 10%float 3%float = Ret r /\
    enters_vert_diffusion (opts r) (all_flags true) = false /\
    enters_turbulence (opts r) (all_flags true) = false /\
    run (_updateAllDependencies sample_utility (all_flags true)) r
    = (Ret tt,
       {| self := r;
          trace := pipeline_events (cls r) (opts r) (all_flags true) |}).
Proof.
  destruct (new_coupledSSPRKSync switches_off 10%float 3%float)
    as [r|e] eqn:Hnew; [|vm_compute in Hnew; discriminate].
  assert (opts r = switches_off) as Hopts
      by (eapply new_coupledSSPRKSync_well_formed; exact Hnew).
  exists r. split; [reflexivity|].
  assert (enters_vert_diffusion (opts r) (all_flags true) = false) as Hvd
      by (rewrite Hopts; reflexivity).
  assert (enters_turbulence (opts r) (all_flags true) = false) as Hturb
      by (rewrite Hopts; reflexivity).
  split; [exact Hvd|]. split; [exact Hturb|].
  exact (pipeline_order_without_raising_steps sample_utility r
           (all_flags true) Hvd Hturb).
Defined.

(** X2. In the three recipes whose [advance] tests [self._initialized]
    ([coupledSSPRKSync], [coupledSSPIMEX], [coupledSSPRKSemiImplicit]), a
    call of [advance] on an uninitialized object behaves as [initialize]
    followed by [advance], whatever [initialize] does. *)
Theorem advance_auto_initializes {num} `{Arith num} (utility : gset string)
        (w : @world num) :
  tests_initialized (cls (self w)) = true ->
  _initialized (self w) = false ->
  advance utility w = bindM initialize (fun _ => advance utility) w.
Proof. apply advance_initializes_first. Qed.

Lemma advance_auto_initializes_witness :
  exists r : @obj float,
    new_coupledSSPRKSync switches_off 10%float 3%float = Ret r /\
    tests_initialized (cls r) = true /\ _initialized r = false /\
    advance sample_utility {| self := r; trace := [] |}
    = bindM initialize (fun _ => advance sample_utility)
            {| self := r; trace := [] |}.
Proof.
  destruct (new_coupledSSPRKSync switches_off 10%float 3%float)
    as [r|e] eqn:Hnew; [|vm_compute in Hnew; discriminate].
  destruct (new_coupledSSPRKSync_well_formed _ _ _ _ Hnew)
    as (_ & _ & _ & _ & Hcls & Hinit & _).
  exists r. split; [reflexivity|].
  assert (tests_initialized (cls r) = true) as Ht
      by (rewrite Hcls; reflexivity).
  split; [exact Ht|]. split; [exact Hinit|].
  exact (advance_auto_initializes sample_utility
           {| self := r; trace := [] |} Ht Hinit).
Defined.

(** X3. Whatever the equation and the optional arguments,
    [horizontal_advection] returns a form, or raises [KeyError] on a flux
    boundary without a registered length; it never raises the
    configuration error "either uv_p1 or uv_mag must be given": the
    [raise] of line 149 is unreachable. *)
Theorem horizontal_advection_raise_is_unreachable (F : Type)
        (eq : MomentumEquation.equation)
        (lax_friedrichs_factor uv_mag uv_p1 : option F) :
  (exists f, MomentumEquation.horizontal_advection F eq
               lax_friedrichs_factor uv_mag uv_p1 = Ret f) \/
  MomentumEquation.horizontal_advection F eq lax_friedrichs_factor
    uv_mag uv_p1 = Raise KeyError.
Proof.
  unfold MomentumEquation.horizontal_advection.
  destruct (MomentumEquation.nonlin eq) eqn:Hnl; simpl; [|eauto].
  destruct (MomentumEquation.horiz_advection_by_parts eq); [|eauto].
  destruct (MomentumEquation.horizontal_dg eq); simpl; [|eauto].
  destruct (lax_friedrichs_interior_returns F lax_friedrichs_factor
              uv_mag uv_p1) as [f ->]. simpl.
  assert ((exists bs, mapM (MomentumEquation.boundary_terms F eq
                              lax_friedrichs_factor)
                           (MomentumEquation.boundary_markers eq) = Ret bs) \/
          mapM (MomentumEquation.boundary_terms F eq lax_friedrichs_factor)
               (MomentumEquation.boundary_markers eq) = Raise KeyError)
    as [[bs ->]| ->]; simpl; eauto.
  generalize (MomentumEquation.boundary_markers eq).
  induction l as [|m l IH]; simpl; [eauto|].
  unfold MomentumEquation.boundary_terms at 1 3.
  destruct (MomentumEquation.bnd_functions eq !! m) as [funcs|].
  - destruct (bool_decide ("flux" ∈ funcs)).
    + destruct (bool_decide (m ∈ MomentumEquation.boundary_len eq)); simpl;
        [|auto].
      destruct IH as [[bs ->]| ->]; simpl; eauto.
    + simpl. destruct IH as [[bs ->]| ->]; simpl; eauto.
  - simpl. destruct IH as [[bs ->]| ->]; simpl; eauto.
Qed.

(** * Further properties of the recipes *)

(** ** The stage loops of the 3-stage recipes *)

Lemma ssp_tables_lengths {num} `{Arith num} (tb : @tables num) :
  ssp_tables = Ret tb ->
  length (t_dt_frac tb) = 3%nat /\ length (t_start_frac tb) = 3%nat /\
  length (t_stage_w tb) = 3%nat.
Proof.
  unfold ssp_tables. intros Htb.
  apply bind_Ret_inv in Htb as (dtf & Hdtf & Htb).
  apply bind_Ret_inv in Htb as (stf & Hstf & Htb).
  apply bind_Ret_inv in Htb as (w & Hw & Htb).
  injection Htb as <-. simpl.
  unfold dt_frac in Hdtf.
  apply bind_Ret_inv in Hdtf as (a & _ & Hdtf).
  apply bind_Ret_inv in Hdtf as (b & _ & Hdtf). injection Hdtf as <-.
  unfold start_frac in Hstf.
  apply bind_Ret_inv in Hstf as (a' & _ & Hstf).
  apply bind_Ret_inv in Hstf as (b' & _ & Hstf). injection Hstf as <-.
  split; [reflexivity|]. split; [reflexivity|].
  unfold stage_w_of in Hw.
  apply bind_Ret_inv in Hw as (s0 & _ & Hw).
  apply bind_Ret_inv in Hw as (ws & Hws & Hw). injection Hw as <-.
  apply mapM_length in Hws. simpl in *. rewrite Hws. reflexivity.
Qed.

Section Loops.
Context {num : Type} `{Arith num}.
Implicit Types o : @obj num.

(** A loop whose iterations leave the object as it was, and of which only
    the last may raise. *)
Lemma runs_for_each_last {A} (l : list A) (a : A) (body : A -> M unit)
      (ev : A -> list event) (r : outcome unit) o :
  (forall b, b ∈ l -> runs (body b) o (Ret tt) o (ev b)) ->
  runs (body a) o r o (ev a) ->
  runs (for_each (l ++ [a]) body) o r o (concat (map ev (l ++ [a]))).
Proof.
  induction l as [|b l IH]; simpl; intros Hbody Hlast.
  - rewrite app_nil_r. destruct r as [[]|e].
    + eapply runs_final;
        [eapply runs_bind; [exact Hlast|apply runs_ret]|reflexivity|].
      apply app_nil_r.
    + apply runs_bind_raise, Hlast.
  - eapply runs_bind; [apply Hbody; left|].
    apply IH; [|exact Hlast]. intros c Hc. apply Hbody. right. exact Hc.
Qed.

Lemma concat_map_const {A B} (l : list A) (e : B) :
  concat (map (fun _ => [e]) l) = replicate (length l) e.
Proof. induction l as [|a l IH]; simpl; [|rewrite IH]; reflexivity. Qed.

(** The sub-cycles of the 2D mode: the first argument of each call reads
    the local name [t_rhs]. *)
Lemma runs_subcycles (utility : gset string) (n : nat) o :
  timeStepper2d ∈ steppers o ->
  runs (for_each (seq 0 n) (fun _ =>
          stepper_advance utility advance_Sync_locals "t_rhs"
            timeStepper2d))
       o (Ret tt) o (replicate n (Advance timeStepper2d
                                    (rdy o timeStepper2d))).
Proof.
  intros Hs.
  eapply runs_final.
  - apply (runs_for_each _ _
             (fun _ => [Advance timeStepper2d (rdy o timeStepper2d)])).
    intros i _. unfold stepper_advance, load_name, is_ready.
    eapply runs_final.
    + eapply runs_bind; [apply runs_get_stepper, Hs|].
      eapply runs_bind; [apply runs_lift|].
      eapply runs_bind; [run_step; apply runs_ret|]. apply runs_emit.
    + reflexivity.
    + reflexivity.
  - reflexivity.
  - rewrite concat_map_const, length_seq. reflexivity.
Qed.

(** The loop of [initialize] stops at the first stage whose arithmetic
    raises; what it appended to [self.M] and [self.dt_2d] stays. *)
Lemma runs_subcycle_loop_raise (fr : list num) (e : exn) o :
  mapM (substep (solver_dt o) (solver_dt_2d o)) fr = Raise e ->
  exists m d,
    runs (for_each fr (fun f =>
            bindM get (fun o =>
            bindM (lift (substep (solver_dt o) (solver_dt_2d o) f)) (fun p =>
            bindM (modify (fun o => set_M (M_ o ++ [fst p]) o)) (fun _ =>
            modify (fun o => set_dt_2d (dt_2d_ o ++ [snd p]) o))))))
         o (Raise e) (set_dt_2d d (set_M m o)) [].
Proof.
  revert o. induction fr as [|f fr IH]; simpl; intros o Hps; [discriminate|].
  destruct (substep (solver_dt o) (solver_dt_2d o) f) as [p|e'] eqn:Hp;
    simpl in Hps.
  - destruct (mapM (substep (solver_dt o) (solver_dt_2d o)) fr)
      as [ps|e'] eqn:Hrest; simpl in Hps; [discriminate|].
    injection Hps as ->.
    destruct (IH (set_dt_2d (dt_2d_ o ++ [snd p])
                    (set_M (M_ o ++ [fst p]) o)) Hrest) as (m & d & Hrun).
    exists m, d.
    eapply runs_final.
    + eapply runs_bind; [|exact Hrun].
      run_step. rewrite Hp. run_step.
      eapply runs_bind; [apply runs_modify; reflexivity|].
      apply runs_modify; reflexivity.
    + reflexivity.
    + reflexivity.
  - injection Hps as ->. exists (M_ o), (dt_2d_ o).
    eapply runs_final.
    + apply runs_bind_raise. run_step. rewrite Hp.
      apply runs_bind_raise, runs_lift.
    + destruct o; reflexivity.
    + reflexivity.
Qed.

(** [initialize] of the sub-cycling recipes, when the stage arithmetic
    raises: the sub-steppers have been initialized, [_initialized] is as
    it was. *)
Lemma runs_initialize_subcycling_raise o (tb : tables) (e : exn) :
  well_formed o -> tabs o = Some tb ->
  mapM (substep (solver_dt o) (solver_dt_2d o)) (t_dt_frac tb) = Raise e ->
  exists m d,
    runs initialize_subcycling o (Raise e)
         (set_dt_2d d
            (set_M m
               (set_ready (rev (steppers_to_initialize (opts o)) ++ ready o)
                          o)))
         (map Initialize (steppers_to_initialize (opts o))).
Proof.
  intros Hwf Htb Hps.
  destruct (runs_subcycle_loop_raise (t_dt_frac tb) e
              (set_dt_2d [] (set_M []
                 (set_ready (rev (steppers_to_initialize (opts o))
                               ++ ready o) o))) Hps)
    as (m & d & Hloop).
  exists m, d. unfold initialize_subcycling.
  eapply runs_final.
  - eapply runs_bind; [apply runs_initialize_steppers, Hwf|].
    eapply runs_bind; [apply runs_modify; reflexivity|].
    eapply runs_bind; [apply runs_modify; reflexivity|].
    eapply runs_bind.
    { unfold get_tables. run_step. simpl. rewrite Htb. apply runs_ret. }
    apply runs_bind_raise. exact Hloop.
  - reflexivity.
  - rewrite !app_nil_r. reflexivity.
Qed.

(** What a successful [initialize] leaves of a sub-cycling recipe. *)
Lemma initialize_subcycling_inv o (tb : tables) (w : world) :
  well_formed o -> tabs o = Some tb ->
  cls o = coupledSSPRKSync \/ cls o = coupledSSPRKSemiImplicit ->
  run initialize o = (Ret tt, w) ->
  exists ps,
    mapM (substep (solver_dt o) (solver_dt_2d o)) (t_dt_frac tb) = Ret ps /\
    w = {| self :=
             set_initialized true
               (set_dt_2d (map snd ps)
                  (set_M (map fst ps)
                     (set_ready (rev (steppers_to_initialize (opts o))
                                   ++ ready o) o)));
           trace := map Initialize (steppers_to_initialize (opts o)) |}.
Proof.
  intros Hwf Htb Hcls Hrun.
  destruct (mapM (substep (solver_dt o) (solver_dt_2d o)) (t_dt_frac tb))
    as [ps|e] eqn:Hps.
  - exists ps. split; [reflexivity|].
    pose proof (runs_run _ _ _ _ _
                  (runs_initialize_dispatch _ _ _ _ Hcls
                     (runs_initialize_subcycling o tb ps Hwf Htb Hps)))
      as Hrun'.
    rewrite Hrun in Hrun'. injection Hrun' as ->. reflexivity.
  - destruct (runs_initialize_subcycling_raise o tb e Hwf Htb Hps)
      as (m & d & Hraise).
    pose proof (runs_run _ _ _ _ _
                  (runs_initialize_dispatch _ _ _ _ Hcls Hraise)) as Hrun'.
    rewrite Hrun in Hrun'. discriminate Hrun'.
Qed.

End Loops.

Lemma index_lt {A} (l : list A) (k : nat) :
  (k < length l)%nat -> exists a, index l k = Ret a /\ l !! k = Some a.
Proof.
  intros Hk. apply lookup_lt_is_Some_2 in Hk as [a Ha].
  exists a. unfold index. rewrite Ha. auto.
Qed.

Section ThreeStage.
Context {num : Type} `{Arith num}.
Implicit Types o : @obj num.
Variable utility : gset string.
Hypothesis t_unbound : "t" ∉ utility.

Lemma well_formed_base o :
  well_formed o ->
  timeStepper2d ∈ steppers o /\ timeStepper_mom3d ∈ steppers o /\
  (solveSalt (opts o) = true -> timeStepper_salt3d ∈ steppers o).
Proof.
  unfold well_formed, steppers_to_initialize. intros Hwf.
  split; [apply Hwf; left|]. split; [apply Hwf; right; left|].
  intros Hsalt. apply Hwf. rewrite Hsalt. simpl. right. right. left.
Qed.

(** One stage of [coupledSSPRKSync.advance]. *)
Lemma runs_sync_stage (tb : @tables num) (k : nat) o :
  cls o = coupledSSPRKSync -> well_formed o ->
  (k < length (t_start_frac tb))%nat -> (k < length (t_stage_w tb))%nat ->
  (k < length (dt_2d_ o))%nat -> (k < length (M_ o))%nat ->
  runs (bindM get (fun o =>
        bindM (salt_stage k (useLimiterForTracers (opts o))) (fun _ =>
        bindM (solveStage timeStepper_mom3d k) (fun _ =>
        bindM (lift (index (t_start_frac tb) k)) (fun _ =>
        bindM (lift (index (dt_2d_ o) k)) (fun _ =>
        bindM (lift (index (t_stage_w tb) k)) (fun _ =>
        bindM (do_call sol2d_assign_blend) (fun _ =>
        bindM (lift (index (M_ o) k)) (fun m =>
        bindM (for_each (seq 0 (Z.to_nat m)) (fun _ =>
                 stepper_advance utility advance_Sync_locals "t_rhs"
                   timeStepper2d)) (fun _ =>
        _updateAllDependencies utility (all_flags (Nat.eqb k 2))))))))))))
       o (pipeline_outcome o (all_flags (Nat.eqb k 2))) o
       (stage_events o k).
Proof.
  intros Hcls Hwf Hsf Hsw Hd HM.
  destruct (well_formed_base o Hwf) as (H2d & Hmom & Hsalt).
  destruct (index_lt _ _ Hsf) as (a1 & Ha1 & _).
  destruct (index_lt _ _ Hsw) as (a2 & Ha2 & _).
  destruct (index_lt _ _ Hd) as (a3 & Ha3 & _).
  destruct (index_lt _ _ HM) as (m & Hm & Hm').
  unfold stage_events, stage_head, mode2d_events. rewrite Hcls, Hm'. simpl.
  eapply runs_final.
  - run_step.
    eapply runs_bind; [apply runs_salt_stage, Hsalt|].
    eapply runs_bind; [apply runs_solveStage, Hmom|].
    rewrite Ha1, Ha2, Ha3, Hm.
    run_step. run_step. run_step.
    eapply runs_bind; [apply runs_do_call|].
    run_step.
    eapply runs_bind; [apply runs_subcycles, H2d|].
    apply runs_updateAllDependencies, t_unbound.
  - reflexivity.
  - simpl. rewrite <- ?app_assoc. reflexivity.
Qed.

(** One stage of [coupledSSPRKSemiImplicit.advance]. *)
Lemma runs_semi_implicit_stage (k : nat) o :
  cls o = coupledSSPRKSemiImplicit -> well_formed o ->
  useTurbulenceAdvection (opts o) = false ->
  runs (bindM get (fun o =>
        bindM (salt_stage k (useLimiterForTracers (opts o))) (fun _ =>
        bindM (turbulence_advection_stage k
                 (useLimiterForTracers (opts o))) (fun _ =>
        bindM (solveStage timeStepper_mom3d k) (fun _ =>
        bindM (solveStage timeStepper2d k) (fun _ =>
        _updateAllDependencies utility (all_flags (Nat.eqb k 2))))))))
       o (pipeline_outcome o (all_flags (Nat.eqb k 2))) o
       (stage_events o k).
Proof.
  intros Hcls Hwf Hadv.
  destruct (well_formed_base o Hwf) as (H2d & Hmom & Hsalt).
  unfold stage_events, stage_head, mode2d_events. rewrite Hcls.
  eapply runs_final.
  - run_step.
    eapply runs_bind; [apply runs_salt_stage, Hsalt|].
    eapply runs_bind; [apply runs_turbulence_advection_off, Hadv|].
    eapply runs_bind; [apply runs_solveStage, Hmom|].
    eapply runs_bind; [apply runs_solveStage, H2d|].
    apply runs_updateAllDependencies, t_unbound.
  - reflexivity.
  - simpl. rewrite <- ?app_assoc. reflexivity.
Qed.

Lemma pipeline_outcome_not_last o (k : nat) :
  k ∈ [0; 1]%nat -> pipeline_outcome o (all_flags (Nat.eqb k 2)) = Ret tt.
Proof.
  intros Hk.
  repeat (apply elem_of_cons in Hk as [->|Hk]; [reflexivity|]).
  apply elem_of_nil in Hk. contradiction.
Qed.

(** [advance] on an initialized 3-stage recipe: stages 0 and 1 return,
    and the call ends as the pipeline of stage 2 does. *)
Lemma runs_three_stage_advance (tb : @tables num) o :
  cls o = coupledSSPRKSync \/
  (cls o = coupledSSPRKSemiImplicit /\
   useTurbulenceAdvection (opts o) = false) ->
  well_formed o -> _initialized o = true ->
  tabs o = Some tb -> ssp_tables = Ret tb ->
  length (dt_2d_ o) = 3%nat -> length (M_ o) = 3%nat ->
  runs (advance utility) o (pipeline_outcome o (all_flags true)) o
       (three_stage_trace o).
Proof.
  intros Hcls Hwf Hinit Htabs Htb Hd HM.
  destruct (ssp_tables_lengths tb Htb) as (Hdf & Hsf & Hsw).
  destruct (well_formed_base o Hwf) as (H2d & _ & _).
  assert (forall k, k ∈ [0; 1]%nat -> (k < 3)%nat) as Hlt.
  { intros k Hk.
    repeat (apply elem_of_cons in Hk as [->|Hk]; [lia|]).
    apply elem_of_nil in Hk. contradiction. }
  unfold advance, three_stage_trace, advance_head.
  eapply runs_final; [eapply runs_bind; [apply runs_get|]| |];
    try reflexivity.
  destruct Hcls as [Hcls|[Hcls Hadv]]; rewrite Hcls.
  - unfold advance_Sync.
    eapply runs_final.
    + run_step. rewrite Hinit. simpl. run_step.
      eapply runs_bind; [apply runs_get_stepper, H2d|].
      eapply runs_bind; [apply runs_do_call|].
      eapply runs_bind.
      { unfold get_tables. run_step. rewrite Htabs. apply runs_ret. }
      rewrite Hdf. change (seq 0 3) with ([0; 1] ++ [2])%nat.
      apply (runs_for_each_last _ _ _ (stage_events o)).
      * intros k Hk.
        rewrite <- (pipeline_outcome_not_last o k Hk).
        apply runs_sync_stage; try assumption;
          rewrite ?Hsf, ?Hsw, ?Hd, ?HM; apply Hlt, Hk.
      * apply (runs_sync_stage tb 2 o); try assumption;
          rewrite ?Hsf, ?Hsw, ?Hd, ?HM; lia.
    + reflexivity.
    + reflexivity.
  - unfold advance_SemiImplicit.
    eapply runs_final.
    + run_step. rewrite Hinit. simpl. run_step.
      eapply runs_bind; [apply runs_get_stepper, H2d|].
      eapply runs_bind.
      { unfold get_tables. run_step. rewrite Htabs. apply runs_ret. }
      rewrite Hdf. change (seq 0 3) with ([0; 1] ++ [2])%nat.
      apply (runs_for_each_last _ _ _ (stage_events o)).
      * intros k Hk.
        rewrite <- (pipeline_outcome_not_last o k Hk).
        apply runs_semi_implicit_stage; assumption.
      * apply (runs_semi_implicit_stage 2 o); assumption.
    + reflexivity.
    + reflexivity.
Qed.

End ThreeStage.

Lemma entries_replicate_Advance (n : nat) (s : stepper) (b : bool) :
  entries (replicate n (Advance s b)) = [].
Proof. induction n as [|n IH]; [reflexivity|exact IH]. Qed.

Lemma entries_pipeline_trace {num} (o : @obj num) (fl : flags) :
  entries (pipeline_trace o fl) = [fl].
Proof.
  unfold pipeline_trace.
  destruct (enters_vert_diffusion (opts o) fl);
    [|destruct (enters_turbulence (opts o) fl)].
  - unfold pipeline_head, elevation_events, moving_mesh_events.
    split_tests; reflexivity.
  - rewrite app_assoc, entries_app.
    unfold pipeline_head, pipeline_middle, elevation_events,
      moving_mesh_events, coupling_events, vertical_velocity_events.
    destruct (cls o); split_tests; reflexivity.
  - apply entries_pipeline_events.
Qed.

Lemma entries_stage_events {num} (o : @obj num) (k : nat) :
  entries (stage_events o k) = [all_flags (Nat.eqb k 2)].
Proof.
  unfold stage_events, stage_head, mode2d_events.
  rewrite !entries_app, entries_pipeline_trace, entries_salt_events.
  destruct (cls o); simpl; rewrite ?entries_replicate_Advance; reflexivity.
Qed.

Lemma entries_three_stage_trace {num} (o : @obj num) :
  entries (three_stage_trace o)
  = [all_flags false; all_flags false; all_flags true].
Proof.
  unfold three_stage_trace. simpl.
  rewrite !entries_app, !entries_stage_events. simpl.
  unfold advance_head. destruct (cls o); reflexivity.
Qed.

(** What a successful [initialize] leaves of a freshly constructed
    3-stage recipe. *)
Lemma three_stage_initialized {num} `{Arith num} (op : options)
      (dt dt_2d : num) (r : @obj num) (w : world) :
  three_stage_recipe op dt dt_2d r ->
  run initialize r = (Ret tt, w) ->
  (cls (self w) = coupledSSPRKSync \/
   (cls (self w) = coupledSSPRKSemiImplicit /\
    useTurbulenceAdvection (opts (self w)) = false)) /\
  well_formed (self w) /\ _initialized (self w) = true /\
  opts (self w) = op /\ steppers (self w) = steppers r /\
  (exists tb, tabs (self w) = Some tb /\ ssp_tables = Ret tb) /\
  length (dt_2d_ (self w)) = 3%nat /\ length (M_ (self w)) = 3%nat.
Proof.
  intros Hnew Hrun.
  assert (well_formed r /\ opts r = op /\
          (cls r = coupledSSPRKSync \/
           (cls r = coupledSSPRKSemiImplicit /\
            useTurbulenceAdvection op = false)) /\
          exists tb, ssp_tables = Ret tb /\ tabs r = Some tb)
    as (Hwf & Hopts & Hcls & tb & Htb & Htabs).
  { destruct Hnew as [Hnew|[Hnew Hadv]].
    - destruct (new_coupledSSPRKSync_well_formed _ _ _ _ Hnew)
        as (Hwf & Hopts & _ & _ & Hcls & _ & Htb). auto.
    - destruct (new_coupledSSPRKSemiImplicit_well_formed _ _ _ _ Hnew)
        as (Hwf & Hopts & _ & _ & Hcls & _ & Htb). auto 10. }
  assert (cls r = coupledSSPRKSync \/ cls r = coupledSSPRKSemiImplicit)
    as Hcls' by (destruct Hcls as [?|[? _]]; auto).
  destruct (initialize_subcycling_inv r tb w Hwf Htabs Hcls' Hrun)
    as (ps & Hps & ->).
  apply mapM_length in Hps.
  destruct (ssp_tables_lengths tb Htb) as (Hdf & _ & _).
  simpl. rewrite !length_map, Hps, Hdf, Hopts.
  split; [exact Hcls|]. split; [exact Hwf|]. eauto 10.
Qed.

(** X4. A call of [advance] on a [coupledSSPRKSync] or
    [coupledSSPRKSemiImplicit] recipe (the latter without turbulence
    advection), constructed and initialized, in a module where the name
    [t] is unbound: the stage loop runs stages 0, 1, 2; each stage solves
    salt (when enabled) and momentum, then the 2D mode (in
    [coupledSSPRKSync] the blend followed by exactly [M[k]] calls of the
    2D stepper, in [coupledSSPRKSemiImplicit] one stage solve), then
    enters the pipeline with every flag equal to [k == 2].  Stages 0 and 1
    return; the call ends as the pipeline of stage 2 does, that is, it
    raises when vertical diffusion or turbulence is enabled.  The object
    is left as it was. *)
Theorem three_stage_advance_outcome {num} `{Arith num}
        (utility : gset string) (op : options) (dt dt_2d : num)
        (r : @obj num) (w : world) :
  "t" ∉ utility ->
  three_stage_recipe op dt dt_2d r ->
  run initialize r = (Ret tt, w) ->
  run (advance utility) (self w)
  = (pipeline_outcome (self w) (all_flags true),
     {| self := self w; trace := three_stage_trace (self w) |}) /\
  entries (three_stage_trace (self w))
  = [all_flags false; all_flags false; all_flags true].
Proof.
  intros Ht Hnew Hrun.
  destruct (three_stage_initialized op dt dt_2d r w Hnew Hrun)
    as (Hcls & Hwf & Hinit & _ & _ & (tb & Htabs & Htb) & Hd & HM).
  split; [|apply entries_three_stage_trace].
  apply runs_run.
  exact (runs_three_stage_advance utility Ht tb (self w) Hcls Hwf Hinit
           Htabs Htb Hd HM).
Qed.

Lemma three_stage_advance_outcome_witness :
  exists (r : @obj float) (w : world),
    ("t" ∉ sample_utility) /\
    three_stage_recipe vert_diffusion_on 10%float 3%float r /\
    run initialize r = (Ret tt, w) /\
    run (advance sample_utility) (self w)
    = (pipeline_outcome (self w) (all_flags true),
       {| self := self w; trace := three_stage_trace (self w) |}) /\
    entries (three_stage_trace (self w))
    = [all_flags false; all_flags false; all_flags true].
Proof.
  destruct (new_coupledSSPRKSync vert_diffusion_on 10%float 3%float)
    as [r|e] eqn:Hnew; [|vm_compute in Hnew; discriminate].
  destruct (run initialize r) as [res w] eqn:Hrun.
  assert (res = Ret tt) as ->.
  { vm_compute in Hnew. injection Hnew as <-.
    vm_compute in Hrun. injection Hrun as <- _. reflexivity. }
  exists r, w.
  split; [exact t_not_in_sample_utility|].
  split; [left; exact Hnew|]. split; [exact Hrun|].
  exact (three_stage_advance_outcome sample_utility vert_diffusion_on
           10%float 3%float r w t_not_in_sample_utility
           (or_introl Hnew) Hrun).
Defined.

(** ** [coupledSSPRKSingleMode.advance] *)

Section SingleMode.
Context {num : Type} `{Arith num}.
Implicit Types o : @obj num.
Variable utility : gset string.
Hypothesis t_unbound : "t" ∉ utility.

(** A loop that stops at the first iteration that raises. *)
Lemma runs_for_each_stop {A} (l1 l2 : list A) (a : A) (body : A -> M unit)
      (ev : A -> list event) (e : exn) o :
  (forall b, b ∈ l1 -> runs (body b) o (Ret tt) o (ev b)) ->
  runs (body a) o (Raise e) o (ev a) ->
  runs (for_each (l1 ++ a :: l2) body) o (Raise e) o
       (concat (map ev (l1 ++ [a]))).
Proof.
  induction l1 as [|b l1 IH]; simpl; intros Hbody Hlast.
  - rewrite app_nil_r. apply runs_bind_raise, Hlast.
  - eapply runs_bind; [apply Hbody; left|].
    apply IH; [|exact Hlast]. intros c Hc. apply Hbody. right. exact Hc.
Qed.

Lemma runs_single_mode_stage (k : nat) o :
  well_formed o ->
  runs (bindM get (fun o =>
        bindM (salt_stage k (useLimiterForTracers (opts o))) (fun _ =>
        bindM (solveStage timeStepper_mom3d k) (fun _ =>
        bindM (solveStage timeStepper2d k) (fun _ =>
        _updateAllDependencies utility (single_mode_flags k))))))
       o (pipeline_outcome o (single_mode_flags k)) o
       (single_mode_stage_events o k).
Proof.
  intros Hwf.
  destruct (well_formed_base o Hwf) as (H2d & Hmom & Hsalt).
  unfold single_mode_stage_events.
  eapply runs_final.
  - run_step.
    eapply runs_bind; [apply runs_salt_stage, Hsalt|].
    eapply runs_bind; [apply runs_solveStage, Hmom|].
    eapply runs_bind; [apply runs_solveStage, H2d|].
    apply runs_updateAllDependencies, t_unbound.
  - reflexivity.
  - simpl. rewrite <- ?app_assoc. reflexivity.
Qed.

Lemma pipeline_outcome_single_mode o (k : nat) :
  k <> 2%nat -> pipeline_outcome o (single_mode_flags k) = Ret tt.
Proof.
  intros Hk. unfold pipeline_outcome, enters_vert_diffusion,
    enters_turbulence, single_mode_flags. simpl.
  apply Nat.eqb_neq in Hk. rewrite Hk. reflexivity.
Qed.

Lemma runs_advance_SingleMode o :
  cls o = coupledSSPRKSingleMode -> well_formed o ->
  runs (advance utility) o (single_mode_outcome o) o
       (concat (map (single_mode_stage_events o)
                    (seq 0 (single_mode_stages o)))).
Proof.
  intros Hcls Hwf.
  destruct (well_formed_base o Hwf) as (H2d & _ & _).
  unfold advance.
  eapply runs_final; [eapply runs_bind; [apply runs_get|]| |];
    try reflexivity.
  rewrite Hcls. unfold advance_SingleMode.
  eapply runs_final;
    [eapply runs_bind; [apply runs_get_stepper, H2d|]; run_step| |];
    try reflexivity.
  unfold single_mode_outcome, single_mode_stages.
  destruct (pipeline_outcome o (single_mode_flags 2)) as [[]|e] eqn:Hlast.
  - (* every stage returns *)
    replace (if (3 <=? nstages o)%nat then Ret tt else Ret tt)
      with (Ret tt : outcome unit) by (destruct (3 <=? nstages o)%nat; reflexivity).
    apply runs_for_each. intros k _.
    replace (Ret tt) with (pipeline_outcome o (single_mode_flags k)).
    + apply runs_single_mode_stage, Hwf.
    + destruct (decide (k = 2%nat)) as [->|Hk];
        [exact Hlast|apply pipeline_outcome_single_mode, Hk].
  - destruct (3 <=? nstages o)%nat eqn:Hn.
    + (* stage 2 raises *)
      apply Nat.leb_le in Hn.
      rewrite Nat.min_r by exact Hn.
      replace (nstages o) with (3 + (nstages o - 3))%nat by lia.
      rewrite seq_app.
      change (seq 0 3) with ([0; 1] ++ [2])%nat. rewrite <- app_assoc.
      apply runs_for_each_stop.
      * intros k Hk.
        replace (Ret tt) with (pipeline_outcome o (single_mode_flags k)).
        -- apply runs_single_mode_stage, Hwf.
        -- apply pipeline_outcome_single_mode. intros ->.
           repeat (apply elem_of_cons in Hk as [Hk|Hk]; [discriminate Hk|]).
           apply elem_of_nil in Hk. exact Hk.
      * rewrite <- Hlast. apply runs_single_mode_stage, Hwf.
    + (* stage 2 is not reached *)
      apply Nat.leb_gt in Hn.
      rewrite Nat.min_l by lia.
      apply runs_for_each. intros k Hk.
      replace (Ret tt) with (pipeline_outcome o (single_mode_flags k)).
      * apply runs_single_mode_stage, Hwf.
      * apply pipeline_outcome_single_mode.
        apply elem_of_seq in Hk. lia.
Qed.

End SingleMode.

Lemma entries_single_mode_stages {num} (o : @obj num) (ks : list nat) :
  entries (concat (map (single_mode_stage_events o) ks))
  = map single_mode_flags ks.
Proof.
  induction ks as [|k ks IH]; [reflexivity|]. simpl.
  rewrite entries_app, IH. unfold single_mode_stage_events.
  rewrite !entries_app, entries_pipeline_trace, entries_salt_events.
  reflexivity.
Qed.

(** X5. [coupledSSPRKSingleMode.advance] loops over the [nstages] stages
    of its 2D sub-stepper but takes stage index 2 for the last one
    ([lastStep = (k == 2)]): the pipeline is entered with
    [do2DCoupling] true at every stage and the other flags true at stage
    2 only.  With fewer than 3 stages the last-step updates (vertical
    diffusion, mesh update, stabilization parameters, turbulence) are
    never requested and the call returns; with 3 or more it ends as the
    pipeline of stage 2 does, and the later stages run only if that one
    returns. *)
Theorem single_mode_advance_outcome {num} `{Arith num}
        (utility : gset string) (o : @obj num) :
  "t" ∉ utility ->
  cls o = coupledSSPRKSingleMode -> well_formed o ->
  run (advance utility) o
  = (single_mode_outcome o,
     {| self := o;
        trace := concat (map (single_mode_stage_events o)
                             (seq 0 (single_mode_stages o))) |}) /\
  entries (concat (map (single_mode_stage_events o)
                       (seq 0 (single_mode_stages o))))
  = map single_mode_flags (seq 0 (single_mode_stages o)).
Proof.
  intros Ht Hcls Hwf. split; [|apply entries_single_mode_stages].
  apply runs_run, runs_advance_SingleMode; assumption.
Qed.

Lemma single_mode_advance_outcome_witness :
  exists r : @obj float,
    new_coupledSSPRKSingleMode vert_diffusion_on 10%float 3%float 2 = Ret r /\
    ("t" ∉ sample_utility) /\
    cls r = coupledSSPRKSingleMode /\ well_formed r /\
    single_mode_outcome r = Ret tt /\
    run (advance sample_utility) r
    = (single_mode_outcome r,
       {| self := r;
          trace := concat (map (single_mode_stage_events r)
                               (seq 0 (single_mode_stages r))) |}) /\
    entries (concat (map (single_mode_stage_events r)
                         (seq 0 (single_mode_stages r))))
    = map single_mode_flags (seq 0 (single_mode_stages r)).
Proof.
  eexists. split; [reflexivity|].
  assert (well_formed
            (new_obj coupledSSPRKSingleMode vert_diffusion_on 10%float
               3%float
               ([timeStepper2d; timeStepper_mom3d]
                  ++ optional (solveSalt vert_diffusion_on)
                       [timeStepper_salt3d]
                  ++ optional (solveVertDiffusion vert_diffusion_on)
                       [timeStepper_vmom3d]) None 0 2)) as Hwf
      by (intros s Hs; exact Hs).
  split; [exact t_not_in_sample_utility|].
  split; [reflexivity|]. split; [exact Hwf|]. split; [reflexivity|].
  exact (single_mode_advance_outcome sample_utility
           (new_obj coupledSSPRKSingleMode vert_diffusion_on 10%float
              3%float
              ([timeStepper2d; timeStepper_mom3d]
                 ++ optional (solveSalt vert_diffusion_on)
                      [timeStepper_salt3d]
                 ++ optional (solveVertDiffusion vert_diffusion_on)
                      [timeStepper_vmom3d]) None 0 2)
           t_not_in_sample_utility eq_refl Hwf).
Defined.

(** ** [coupledSSPRK] *)

Section CoupledSSPRK.
Context {num : Type} `{Arith num}.
Implicit Types o : @obj num.
Variable utility : gset string.

(** A call [self.<s>.advance(<x>, ...)] whose first argument is a local
    name. *)
Lemma runs_stepper_advance_local (locals : list string) (x : string)
      (s : stepper) o :
  x ∈ locals -> s ∈ steppers o ->
  runs (stepper_advance utility locals x s) o (Ret tt) o
       [Advance s (rdy o s)].
Proof.
  intros Hx Hs. unfold stepper_advance, load_name, resolve, is_ready.
  rewrite bool_decide_eq_true_2 by exact Hx.
  eapply runs_final.
  - eapply runs_bind; [apply runs_get_stepper, Hs|].
    eapply runs_bind; [apply runs_lift|].
    eapply runs_bind; [run_step; apply runs_ret|]. apply runs_emit.
  - reflexivity.
  - reflexivity.
Qed.

Lemma t_local_in_advance : "t" ∈ advance_locals.
Proof. unfold advance_locals. right. left. Qed.

Lemma runs_advance_coupledSSPRK o :
  cls o = coupledSSPRK -> well_formed o ->
  runs (advance utility) o (Ret tt) o (coupledSSPRK_trace o).
Proof.
  intros Hcls Hwf.
  destruct (well_formed_base o Hwf) as (H2d & Hmom & Hsalt).
  assert (solveVertDiffusion (opts o) = true ->
          timeStepper_vmom3d ∈ steppers o) as Hvd.
  { intros Hvd. apply Hwf. unfold steppers_to_initialize. rewrite Hvd.
    apply elem_of_app. right. apply elem_of_app. right. left. }
  unfold advance.
  eapply runs_final; [eapply runs_bind; [apply runs_get|]| |];
    try reflexivity.
  rewrite Hcls. unfold advance_coupledSSPRK, coupledSSPRK_trace.
  eapply runs_final.
  - run_step.
    eapply runs_bind;
      [apply runs_stepper_advance_local; [apply t_local_in_advance|exact H2d]|].
    eapply runs_bind; [apply runs_do_call|].
    eapply runs_bind; [apply runs_do_call|].
    eapply runs_bind; [apply runs_updateMovingMesh|].
    eapply runs_bind; [apply runs_updateBottomFriction|].
    eapply runs_bind; [apply runs_updateBaroclinicity|].
    eapply runs_bind;
      [apply runs_stepper_advance_local;
       [apply t_local_in_advance|exact Hmom]|].
    eapply (runs_bind _ _ _ tt o
              (advance_events o (solveVertDiffusion (opts o))
                 timeStepper_vmom3d)).
    { unfold advance_events.
      destruct (solveVertDiffusion (opts o)); [|apply runs_ret]. simpl.
      apply runs_stepper_advance_local;
        [apply t_local_in_advance|apply Hvd; reflexivity]. }
    eapply runs_bind; [apply runs_updateVerticalVelocity|].
    eapply runs_bind; [apply runs_updateMeshVelocity|].
    eapply (runs_bind _ _ _ tt o
              (advance_events o (solveSalt (opts o)) timeStepper_salt3d)).
    { unfold advance_events.
      destruct (solveSalt (opts o)); [|apply runs_ret]. simpl.
      apply runs_stepper_advance_local;
        [apply t_local_in_advance|apply Hsalt; reflexivity]. }
    eapply runs_final; [apply runs_update2DCoupling|reflexivity|].
    rewrite Hcls. reflexivity.
  - reflexivity.
  - simpl. rewrite <- ?app_assoc. reflexivity.
Qed.

End CoupledSSPRK.

Lemma entries_coupledSSPRK_trace {num} (o : @obj num) :
  entries (coupledSSPRK_trace o) = [].
Proof.
  unfold coupledSSPRK_trace, advance_events, moving_mesh_events,
    friction_events, baroclinic_events, vertical_velocity_events,
    mesh_velocity_events, coupling_events.
  split_tests; reflexivity.
Qed.

Lemma new_coupledSSPRK_well_formed {num} `{Arith num}
      (utility : gset string) (op : options) (dt dt_2d : num)
      (r : @obj num) :
  new_coupledSSPRK utility op dt dt_2d = Ret r ->
  cls r = coupledSSPRK /\ well_formed r /\ _initialized r = false /\
  opts r = op.
Proof.
  unfold new_coupledSSPRK. intros Hr.
  apply bind_Ret_inv in Hr as (u & _ & Hr). injection Hr as <-.
  split; [reflexivity|]. split; [|split; reflexivity].
  intros s Hs. exact Hs.
Qed.

(** X6. [coupledSSPRK.__init__] reads the unqualified name [SSPRK33]
    (every other use in the file is [timeIntegrator.SSPRK33]): unless the
    star-import binds it, the constructor raises [NameError] for every
    solver, before any sub-stepper is created. *)
Theorem coupledSSPRK_constructor_raises_NameError {num} `{Arith num}
        (utility : gset string) (op : options) (dt dt_2d : num) :
  "SSPRK33" ∉ utility ->
  new_coupledSSPRK utility op dt dt_2d = Raise (NameError "SSPRK33").
Proof.
  intros Hu. unfold new_coupledSSPRK, resolve.
  rewrite bool_decide_eq_false_2.
  - rewrite bool_decide_eq_false_2; [reflexivity|].
    rewrite not_elem_of_union. split; [|exact Hu].
    vm_compute. intros Hin. discriminate Hin.
  - intros Hin.
    repeat (apply elem_of_cons in Hin as [Hin|Hin]; [discriminate Hin|]).
    apply elem_of_nil in Hin. exact Hin.
Qed.

Lemma coupledSSPRK_constructor_raises_NameError_witness :
  ("SSPRK33" ∉ sample_utility) /\
  new_coupledSSPRK sample_utility switches_off 10%float 3%float
  = Raise (NameError "SSPRK33").
Proof.
  assert ("SSPRK33" ∉ sample_utility) as Hu
      by (vm_compute; intros Hin; discriminate Hin).
  split; [exact Hu|].
  exact (coupledSSPRK_constructor_raises_NameError sample_utility
           switches_off 10%float 3%float Hu).
Defined.

(** X7. On a [coupledSSPRK] object as constructed, initialized or not,
    [advance] returns normally and leaves the object as it was.  It
    advances the 2D stepper, copies the two elevations, updates mesh,
    bottom friction and baroclinic head, advances momentum and (when
    enabled) vertical diffusion, updates the vertical and mesh velocities,
    advances salt (when enabled) and ends with the 2D coupling of this
    class.  The time [t] is a parameter here, so the vertical diffusion
    step is performed; [_updateAllDependencies] is never entered, hence
    the stabilization parameters and the turbulence closure are never
    updated. *)
Theorem coupledSSPRK_advance_trace {num} `{Arith num}
        (utility : gset string) (op : options) (dt dt_2d : num)
        (r o : @obj num) :
  new_coupledSSPRK utility op dt dt_2d = Ret r ->
  later_state r o ->
  run (advance utility) o
  = (Ret tt, {| self := o; trace := coupledSSPRK_trace o |}) /\
  entries (coupledSSPRK_trace o) = [].
Proof.
  intros Hnew (b & rd & ->).
  destruct (new_coupledSSPRK_well_formed utility op dt dt_2d r Hnew)
    as (Hcls & Hwf & _ & _).
  split; [|apply entries_coupledSSPRK_trace].
  apply runs_run, runs_advance_coupledSSPRK; [exact Hcls|exact Hwf].
Qed.

Lemma coupledSSPRK_advance_trace_witness :
  exists r : @obj float,
    new_coupledSSPRK utility_with_SSPRK33 vert_diffusion_on 10%float 3%float
    = Ret r /\
    later_state r r /\
    run (advance utility_with_SSPRK33) r
    = (Ret tt, {| self := r; trace := coupledSSPRK_trace r |}) /\
    entries (coupledSSPRK_trace r) = [].
Proof.
  destruct (new_coupledSSPRK utility_with_SSPRK33 vert_diffusion_on
              10%float 3%float) as [r|e] eqn:Hnew;
    [|vm_compute in Hnew; discriminate].
  exists r. split; [reflexivity|].
  split; [apply later_state_refl|].
  exact (coupledSSPRK_advance_trace utility_with_SSPRK33 vert_diffusion_on
           10%float 3%float r r Hnew (later_state_refl r)).
Defined.

(** ** [initialize], called again *)

(** X8. [initialize] of the sub-cycling recipes starts from empty lists
    ([self.M = []], [self.dt_2d = []]): a second call after a successful
    one succeeds as well, computes the same sub-cycle counts and inner
    steps (the lists are not extended), and calls [initialize] once more
    on every sub-stepper. *)
Theorem initialize_again {num} `{Arith num} (op : options)
        (dt dt_2d : num) (r : @obj num) (w : world) :
  new_coupledSSPRKSync op dt dt_2d = Ret r \/
  new_coupledSSPRKSemiImplicit op dt dt_2d = Ret r ->
  run initialize r = (Ret tt, w) ->
  exists w',
    run initialize (self w) = (Ret tt, w') /\
    M_ (self w') = M_ (self w) /\ dt_2d_ (self w') = dt_2d_ (self w) /\
    _initialized (self w') = true /\
    ready (self w')
    = rev (steppers_to_initialize op) ++ ready (self w) /\
    trace w' = map Initialize (steppers_to_initialize op).
Proof.
  intros Hnew Hrun.
  assert (well_formed r /\ opts r = op /\
          (cls r = coupledSSPRKSync \/ cls r = coupledSSPRKSemiImplicit) /\
          exists tb, tabs r = Some tb)
    as (Hwf & Hopts & Hcls & tb & Htabs).
  { destruct Hnew as [Hnew|Hnew].
    - destruct (new_coupledSSPRKSync_well_formed _ _ _ _ Hnew)
        as (Hwf & Hopts & _ & _ & Hcls & _ & tb & _ & Htb). eauto 10.
    - destruct (new_coupledSSPRKSemiImplicit_well_formed _ _ _ _ Hnew)
        as (Hwf & Hopts & _ & _ & Hcls & _ & tb & _ & Htb). eauto 10. }
  destruct (initialize_subcycling_inv r tb w Hwf Htabs Hcls Hrun)
    as (ps & Hps & ->).
  simpl self.
  eexists. split.
  - apply runs_run, runs_initialize_dispatch; [exact Hcls|].
    apply (runs_initialize_subcycling _ tb ps); [exact Hwf|exact Htabs|].
    exact Hps.
  - simpl. rewrite Hopts. auto.
Qed.

Lemma initialize_again_witness :
  exists (r : @obj float) (w : world),
    (new_coupledSSPRKSync switches_off 10%float 3%float = Ret r \/
     new_coupledSSPRKSemiImplicit switches_off 10%float 3%float = Ret r) /\
    run initialize r = (Ret tt, w) /\
    exists w',
      run initialize (self w) = (Ret tt, w') /\
      M_ (self w') = M_ (self w) /\ dt_2d_ (self w') = dt_2d_ (self w) /\
      _initialized (self w') = true /\
      ready (self w')
      = rev (steppers_to_initialize switches_off) ++ ready (self w) /\
      trace w' = map Initialize (steppers_to_initialize switches_off).
Proof.
  destruct (new_coupledSSPRKSync switches_off 10%float 3%float)
    as [r|e] eqn:Hnew; [|vm_compute in Hnew; discriminate].
  destruct (run initialize r) as [res w] eqn:Hrun.
  assert (res = Ret tt) as ->.
  { vm_compute in Hnew. injection Hnew as <-.
    vm_compute in Hrun. injection Hrun as <- _. reflexivity. }
  exists r, w. split; [left; reflexivity|]. split; [exact Hrun|].
  exact (initialize_again switches_off 10%float 3%float r w
           (or_introl Hnew) Hrun).
Defined.

(** ** Which sub-steppers are ever initialized *)

Section Relates.
Context {num : Type} `{Arith num}.
Variable R : @obj num -> @obj num -> Prop.
Hypothesis R_refl : forall o, R o o.
Hypothesis R_trans : forall o1 o2 o3, R o1 o2 -> R o2 o3 -> R o1 o3.

Lemma relates_ret {A} (a : A) : relates R (ret a : @M num A).
Proof. intros w r w' Hc. injection Hc as _ <-. apply R_refl. Qed.

Lemma relates_raise {A} (e : exn) : relates R (raise e : @M num A).
Proof. intros w r w' Hc. injection Hc as _ <-. apply R_refl. Qed.

Lemma relates_lift {A} (c : outcome A) : relates R (lift c : @M num A).
Proof. intros w r w' Hc. injection Hc as _ <-. apply R_refl. Qed.

Lemma relates_get : relates R (get : @M num obj).
Proof. intros w r w' Hc. injection Hc as _ <-. apply R_refl. Qed.

Lemma relates_emit (e : event) : relates R (emit e : @M num unit).
Proof. intros w r w' Hc. injection Hc as _ <-. apply R_refl. Qed.

Lemma relates_modify (f : @obj num -> @obj num) :
  (forall o, R o (f o)) -> relates R (modify f).
Proof. intros Hf w r w' Hc. injection Hc as _ <-. apply Hf. Qed.

Lemma relates_bind {A B} (c : @M num A) (k : A -> @M num B) :
  relates R c -> (forall a, relates R (k a)) -> relates R (bindM c k).
Proof.
  intros Hc Hk w r w' Hrun. unfold bindM in Hrun.
  destruct (c w) as [[a|e] w1] eqn:Hcw.
  - eapply R_trans; [exact (Hc _ _ _ Hcw)|exact (Hk _ _ _ _ Hrun)].
  - injection Hrun as _ <-. exact (Hc _ _ _ Hcw).
Qed.

Lemma relates_when (b : bool) (c : @M num unit) :
  relates R c -> relates R (when b c).
Proof. destruct b; [auto|intros _; apply relates_ret]. Qed.

Lemma relates_for_each {A} (l : list A) (body : A -> @M num unit) :
  (forall a, relates R (body a)) -> relates R (for_each l body).
Proof.
  intros Hbody. induction l as [|a l IH]; simpl.
  - apply relates_ret.
  - apply relates_bind; [apply Hbody|intros _; exact IH].
Qed.

End Relates.

Section ReadyInvariant.
Context {num : Type} `{Arith num}.

Lemma ready_grows_within_refl (o : @obj num) : ready_grows_within o o.
Proof. unfold ready_grows_within. auto. Qed.

Lemma ready_grows_within_trans (o1 o2 o3 : @obj num) :
  ready_grows_within o1 o2 -> ready_grows_within o2 o3 ->
  ready_grows_within o1 o3.
Proof.
  intros (Hc1 & Ho1 & Hs1 & Hr1) (Hc2 & Ho2 & Hs2 & Hr2).
  unfold ready_grows_within.
  split; [congruence|]. split; [congruence|]. split; [congruence|].
  intros s Hs. destruct (Hr2 s Hs) as [Hs'|Hs']; auto.
Qed.

Lemma ready_grows_stepper_initialize (s : stepper) :
  s ∈ initialized_by_recipes ->
  relates ready_grows_within (stepper_initialize s : @M num unit).
Proof.
  intros Hs. unfold stepper_initialize, get_stepper.
  apply (relates_bind _ ready_grows_within_trans).
  - apply (relates_bind _ ready_grows_within_trans).
    + apply relates_get, ready_grows_within_refl.
    + intros o. destruct (bool_decide _).
      * apply relates_ret, ready_grows_within_refl.
      * apply relates_raise, ready_grows_within_refl.
  - intros _.
    apply (relates_bind _ ready_grows_within_trans).
    + apply relates_emit, ready_grows_within_refl.
    + intros _. apply relates_modify. intros o.
      unfold ready_grows_within. simpl.
      split; [reflexivity|]. split; [reflexivity|]. split; [reflexivity|].
      intros s' Hs'. apply elem_of_cons in Hs' as [->|Hs']; auto.
Qed.

End ReadyInvariant.

(** One step through the text of a method. *)
Ltac relates_step :=
  match goal with
  | |- relates _ (ret _) => apply relates_ret, ready_grows_within_refl
  | |- relates _ (raise _) => apply relates_raise, ready_grows_within_refl
  | |- relates _ (lift _) => apply relates_lift, ready_grows_within_refl
  | |- relates _ get => apply relates_get, ready_grows_within_refl
  | |- relates _ (emit _) => apply relates_emit, ready_grows_within_refl
  | |- relates _ (stepper_initialize _) =>
      apply ready_grows_stepper_initialize;
      unfold initialized_by_recipes;
      repeat first [left | right]
  | |- relates _ (modify _) =>
      apply relates_modify; intros ?; unfold ready_grows_within; simpl;
      auto 10
  | |- relates _ (when _ _) =>
      apply (relates_when _ ready_grows_within_refl)
  | |- relates _ (for_each _ _) =>
      apply (relates_for_each _ ready_grows_within_refl
               ready_grows_within_trans); intros ?
  | |- relates _ (bindM _ _) =>
      apply (relates_bind _ ready_grows_within_trans); [|intros ?]
  | |- relates _ (match ?x with _ => _ end) => destruct x
  | |- relates _ (let _ := _ in _) => cbv zeta
  end.

Section ReadyInvariantMethods.
Context {num : Type} `{Arith num}.
Variable utility : gset string.

Lemma ready_grows_initialize :
  relates ready_grows_within (initialize : @M num unit).
Proof.
  unfold initialize, initialize_subcycling, initialize_plain,
    initialize_coupledSSPRK, initialize_steppers, get_tables.
  repeat relates_step.
Qed.

Lemma ready_grows_updateAllDependencies (fl : flags) :
  relates ready_grows_within
          (_updateAllDependencies utility fl : @M num unit).
Proof.
  unfold _updateAllDependencies, _update3dElevation, _updateMovingMesh,
    _update2DCoupling, _updateVerticalVelocity, _updateTurbulence,
    _updateMeshVelocity, _updateBottomFriction, _updateBaroclinicity,
    _updateStabilizationParams, stepper_advance, get_stepper, load_name,
    is_ready, do_call, limiter_apply.
  repeat relates_step.
Qed.

End ReadyInvariantMethods.

Ltac relates_method :=
  match goal with
  | |- relates _ initialize => apply ready_grows_initialize
  | |- relates _ (_updateAllDependencies _ _) =>
      apply ready_grows_updateAllDependencies
  | _ => relates_step
  end.

Lemma ready_grows_advance {num} `{Arith num} (utility : gset string) :
  relates ready_grows_within (advance utility : @M num unit).
Proof.
  unfold advance, advance_Sync, advance_IMEX, advance_SemiImplicit,
    advance_SingleMode, advance_coupledSSPRK, salt_stage,
    turbulence_advection_stage, solveStage, get_tables,
    _updateMovingMesh, _update2DCoupling, _updateVerticalVelocity,
    _updateMeshVelocity, _updateBottomFriction, _updateBaroclinicity,
    stepper_advance, get_stepper, load_name, is_ready, do_call,
    limiter_apply.
  repeat relates_method.
Qed.

(** The attributes the pipeline reads stay what the constructor made
    them: [initialize] and [advance] lead from an object that has the
    class, the options and the sub-steppers of [r] to another one, however
    they end. *)
Lemma same_attributes_kept {num} `{Arith num} (utility : gset string)
      (r : @obj num) (w : @world num) :
  same_attributes r (self w) ->
  same_attributes r (self (snd (initialize w))) /\
  same_attributes r (self (snd (advance utility w))).
Proof.
  intros (Hcls & Hopts & Hsteppers). split.
  - destruct (initialize w) as [res w'] eqn:Hrun.
    destruct (ready_grows_initialize w res w' Hrun) as (Hc & Ho & Hs & _).
    simpl. unfold same_attributes. rewrite Hc, Ho, Hs. auto.
  - destruct (advance utility w) as [res w'] eqn:Hrun.
    destruct (ready_grows_advance utility w res w' Hrun)
      as (Hc & Ho & Hs & _).
    simpl. unfold same_attributes. rewrite Hc, Ho, Hs. auto.
Qed.

(** X9. Whatever the recipe, the state of the object and the way the
    call ends, [initialize] and [advance] leave the class, the options and
    the assigned sub-steppers as they were, and a sub-stepper is ready
    afterwards only if it was ready before or is one of the 2D, momentum,
    salt and vertical-diffusion sub-steppers: no method of the file ever
    calls [initialize] on the turbulence sub-steppers
    ([timeStepper_tke3d], [timeStepper_psi3d]) that [coupledSSPIMEX] and
    [coupledSSPRKSemiImplicit] create and advance. *)
Theorem turbulence_steppers_never_initialized {num} `{Arith num}
        (utility : gset string) (w : @world num) :
  ready_grows_within (self w) (self (snd (initialize w))) /\
  ready_grows_within (self w) (self (snd (advance utility w))) /\
  (timeStepper_tke3d ∉ initialized_by_recipes) /\
  (timeStepper_psi3d ∉ initialized_by_recipes).
Proof.
  split; [|split; [|split]].
  - destruct (initialize w) as [r w'] eqn:Hrun.
    exact (ready_grows_initialize w r w' Hrun).
  - destruct (advance utility w) as [r w'] eqn:Hrun.
    exact (ready_grows_advance utility w r w' Hrun).
  - intros Hin.
    repeat (apply elem_of_cons in Hin as [Hin|Hin]; [discriminate Hin|]).
    apply elem_of_nil in Hin. exact Hin.
  - intros Hin.
    repeat (apply elem_of_cons in Hin as [Hin|Hin]; [discriminate Hin|]).
    apply elem_of_nil in Hin. exact Hin.
Qed.

(** ** The sub-cycle count *)

Lemma Qdiv_le_mul (x a b : Q) :
  (0 < a)%Q -> ((x / a <= b)%Q <-> (x <= b * a)%Q).
Proof.
  intros Ha.
  assert (~ a == 0)%Q as Hnz
      by (intros E; rewrite E in Ha; exact (Qlt_irrefl _ Ha)).
  split; intros Hle.
  - assert (x == x / a * a)%Q as E by (field; exact Hnz).
    rewrite E. apply Qmult_le_compat_r; [exact Hle|].
    apply Qlt_le_weak, Ha.
  - apply Qle_shift_div_r; [exact Ha|exact Hle].
Qed.

Lemma Qdiv_le_swap (x a b : Q) :
  (0 < a)%Q -> (0 < b)%Q -> ((x / a <= b)%Q <-> (x / b <= a)%Q).
Proof.
  intros Ha Hb. rewrite (Qdiv_le_mul x a b Ha), (Qdiv_le_mul x b a Hb).
  rewrite (Qmult_comm a b). reflexivity.
Qed.

(** X10. In exact arithmetic, for a positive stage fraction, step and
    target, the count [M = int(ceil(f*dt/dt_2d))] that [initialize]
    computes is at least 1 and is the least number of equal inner steps
    that are no longer than the target: [f*dt/n <= dt_2d] exactly when
    [M <= n]. *)
Theorem substep_count_is_least (dt dt_2d f : Q) :
  (0 < dt)%Q -> (0 < dt_2d)%Q -> (0 < f)%Q ->
  exists M d,
    substep dt dt_2d f = Ret (M, d) /\ (1 <= M)%Z /\
    forall n : Z, (1 <= n)%Z ->
      ((f * dt / inject_Z n <= dt_2d)%Q <-> (M <= n)%Z).
Proof.
  intros Hdt Hdt2 Hf.
  destruct (substep_exact dt dt_2d f Hdt Hdt2 Hf) as (M & d & Hsub & He & _).
  exists M, d. split; [exact Hsub|].
  destruct He as ((r & Hr & HM) & _).
  assert (~ dt_2d == 0)%Q as Hnz
      by (intros E; rewrite E in Hdt2; exact (Qlt_irrefl _ Hdt2)).
  unfold div in Hr. simpl in Hr.
  destruct (Qeq_bool dt_2d 0); [discriminate|]. injection Hr as <-.
  simpl in HM. injection HM as <-.
  assert (0 < f * dt)%Q as Hfdt by (apply Qmult_lt_0_compat; assumption).
  assert (0 < f * dt / dt_2d)%Q as Hr.
  { apply Qlt_shift_div_l; [exact Hdt2|]. rewrite Qmult_0_l. exact Hfdt. }
  assert (1 <= Qceiling (f * dt / dt_2d))%Z as HM1.
  { pose proof (Qle_ceiling (f * dt / dt_2d)) as Hc.
    assert (0 < inject_Z (Qceiling (f * dt / dt_2d)))%Q as Hpos
        by (eapply Qlt_le_trans; eassumption).
    rewrite <- (Zlt_Qlt 0) in Hpos. lia. }
  split; [exact HM1|].
  intros n Hn.
  assert (0 < inject_Z n)%Q as Hnpos.
  { rewrite <- (Zlt_Qlt 0). lia. }
  rewrite (Qdiv_le_swap (f * dt) (inject_Z n) dt_2d Hnpos Hdt2).
  split; intros Hle.
  - apply Qceiling_resp_le in Hle. rewrite Qceiling_Z in Hle. exact Hle.
  - eapply Qle_trans; [apply Qle_ceiling|].
    rewrite <- Zle_Qle. exact Hle.
Qed.

Lemma substep_count_is_least_witness :
  (0 < 10)%Q /\ (0 < 3)%Q /\ (0 < 2 # 3)%Q /\
  exists M d,
    substep 10%Q 3%Q (2 # 3)%Q = Ret (M, d) /\ (1 <= M)%Z /\
    forall n : Z, (1 <= n)%Z ->
      (((2 # 3) * 10 / inject_Z n <= 3)%Q <-> (M <= n)%Z).
Proof.
  split; [reflexivity|]. split; [reflexivity|]. split; [reflexivity|].
  exact (substep_count_is_least 10%Q 3%Q (2 # 3)%Q eq_refl eq_refl eq_refl).
Defined.

(** ** A zero inner step *)

Lemma dt_frac_first {num} `{Arith num} (tb : @tables num) :
  ssp_tables = Ret tb -> exists fr, t_dt_frac tb = of_int 1 :: fr.
Proof.
  unfold ssp_tables. intros Htb.
  apply bind_Ret_inv in Htb as (dtf & Hdtf & Htb).
  apply bind_Ret_inv in Htb as (stf & _ & Htb).
  apply bind_Ret_inv in Htb as (w & _ & Htb).
  injection Htb as <-. simpl.
  unfold dt_frac in Hdtf.
  apply bind_Ret_inv in Hdtf as (a & _ & Hdtf).
  apply bind_Ret_inv in Hdtf as (b & _ & Hdtf). injection Hdtf as <-.
  eauto.
Qed.

(** X11. When [solver.dt_2d] is zero, [initialize] of the sub-cycling
    recipes raises [ZeroDivisionError] at the first stage, after it has
    initialized the sub-steppers and emptied [self.M] and [self.dt_2d];
    [_initialized] stays false, so [advance] on the fresh object runs
    [initialize] and ends the same way, before any stage. *)
Theorem initialize_raises_on_zero_inner_step {num} `{Arith num}
        (utility : gset string) (op : options) (dt dt_2d : num)
        (r : @obj num) :
  new_coupledSSPRKSync op dt dt_2d = Ret r \/
  new_coupledSSPRKSemiImplicit op dt dt_2d = Ret r ->
  is_zero dt_2d = true ->
  exists w,
    run initialize r = (Raise ZeroDivisionError, w) /\
    run (advance utility) r = (Raise ZeroDivisionError, w) /\
    _initialized (self w) = false /\
    M_ (self w) = [] /\ dt_2d_ (self w) = [] /\
    trace w = map Initialize (steppers_to_initialize op).
Proof.
  intros Hnew Hzero.
  assert (well_formed r /\ opts r = op /\ solver_dt_2d r = dt_2d /\
          (cls r = coupledSSPRKSync \/ cls r = coupledSSPRKSemiImplicit) /\
          _initialized r = false /\
          exists tb, ssp_tables = Ret tb /\ tabs r = Some tb)
    as (Hwf & Hopts & Hdt2 & Hcls & Hinit & tb & Htb & Htabs).
  { destruct Hnew as [Hnew|Hnew].
    - destruct (new_coupledSSPRKSync_well_formed _ _ _ _ Hnew)
        as (Hwf & Hopts & _ & Hdt2 & Hcls & Hinit & Htb). auto 10.
    - destruct (new_coupledSSPRKSemiImplicit_well_formed _ _ _ _ Hnew)
        as (Hwf & Hopts & _ & Hdt2 & Hcls & Hinit & Htb). auto 10. }
  destruct (dt_frac_first tb Htb) as (fr & Hfr).
  assert (runs initialize r (Raise ZeroDivisionError)
            (set_dt_2d [] (set_M []
               (set_ready (rev (steppers_to_initialize (opts r)) ++ ready r)
                          r)))
            (map Initialize (steppers_to_initialize (opts r)))) as Hrun.
  { apply runs_initialize_dispatch; [exact Hcls|].
    unfold initialize_subcycling.
    eapply runs_final.
    - eapply runs_bind; [apply runs_initialize_steppers, Hwf|].
      eapply runs_bind; [apply runs_modify; reflexivity|].
      eapply runs_bind; [apply runs_modify; reflexivity|].
      eapply runs_bind.
      { unfold get_tables. run_step. simpl. rewrite Htabs. apply runs_ret. }
      apply runs_bind_raise. rewrite Hfr. simpl.
      apply runs_bind_raise. run_step. simpl.
      unfold substep, div. rewrite Hdt2, Hzero. simpl.
      apply runs_bind_raise, runs_lift.
    - reflexivity.
    - rewrite !app_nil_r. reflexivity. }
  eexists. split; [exact (runs_run _ _ _ _ _ Hrun)|].
  split.
  - unfold run.
    rewrite advance_initializes_first;
      [|simpl; destruct Hcls as [-> | ->]; reflexivity|exact Hinit].
    unfold bindM. rewrite (Hrun []). reflexivity.
  - simpl. rewrite Hinit, Hopts. auto.
Qed.

Lemma initialize_raises_on_zero_inner_step_witness :
  exists r : @obj float,
    (new_coupledSSPRKSync switches_off 10%float 0%float = Ret r \/
     new_coupledSSPRKSemiImplicit switches_off 10%float 0%float = Ret r) /\
    is_zero 0%float = true /\
    exists w,
      run initialize r = (Raise ZeroDivisionError, w) /\
      run (advance sample_utility) r = (Raise ZeroDivisionError, w) /\
      _initialized (self w) = false /\
      M_ (self w) = [] /\ dt_2d_ (self w) = [] /\
      trace w = map Initialize (steppers_to_initialize switches_off).
Proof.
  destruct (new_coupledSSPRKSync switches_off 10%float 0%float)
    as [r|e] eqn:Hnew; [|vm_compute in Hnew; discriminate].
  exists r. split; [left; reflexivity|]. split; [reflexivity|].
  exact (initialize_raises_on_zero_inner_step sample_utility switches_off
           10%float 0%float r (or_introl Hnew) eq_refl).
Defined.

(** * The steppers of [thetis/timeintegrator.py] *)

(** ** Time levels in [CrankNicolson.advance] *)

(** One pass of the loop: it returns when every key has its field, and
    then every visited key holds the value of its field; otherwise it
    raises [KeyError]. *)
Lemma shift_keys_spec {V : Type} (ks : list string) :
  forall (flds fo : gmap string V) (r : outcome unit) (fo' : gmap string V),
    ForwardEuler.shift_keys V ks flds fo = (r, fo') ->
    (r = Ret tt /\
     (forall k, k ∈ ks -> is_Some (flds !! k)) /\
     forall k, fo' !! k = if bool_decide (k ∈ ks) then flds !! k
                          else fo !! k) \/
    (r = Raise KeyError /\ exists k, k ∈ ks /\ flds !! k = None).
Proof.
  induction ks as [|k0 ks IH]; intros flds fo r fo' Hrun; simpl in Hrun.
  - injection Hrun as <- <-. left. split; [reflexivity|]. split.
    + intros k Hk. inversion Hk.
    + intros k. rewrite bool_decide_eq_false_2; [reflexivity|].
      intros Hk. inversion Hk.
  - destruct (flds !! k0) as [v|] eqn:Hk0.
    + destruct (IH _ _ _ _ Hrun) as [(-> & Hall & Hlook)|(-> & k & Hk & Hnone)].
      * left. split; [reflexivity|]. split.
        -- intros k Hk. apply elem_of_cons in Hk as [->|Hk];
             [rewrite Hk0; eauto|apply Hall, Hk].
        -- intros k. rewrite Hlook.
           destruct (decide (k ∈ ks)) as [Hin|Hout].
           ++ rewrite !bool_decide_eq_true_2;
                [reflexivity|right; exact Hin|exact Hin].
           ++ rewrite (bool_decide_eq_false_2 _ Hout).
              destruct (decide (k = k0)) as [->|Hne].
              ** rewrite lookup_insert_eq, bool_decide_eq_true_2;
                   [symmetry; exact Hk0|left].
              ** rewrite lookup_insert_ne by (intros E; apply Hne; auto).
                 rewrite bool_decide_eq_false_2; [reflexivity|].
                 intros Hk. apply elem_of_cons in Hk as [E|Hk]; auto.
      * right. split; [reflexivity|]. exists k. split; [right; exact Hk|].
        exact Hnone.
    + injection Hrun as <- <-. right. split; [reflexivity|].
      exists k0. split; [left|exact Hk0].
Qed.

Lemma elem_of_keys {V : Type} (m : gmap string V) (k : string) :
  k ∈ (map_to_list m).*1 <-> is_Some (m !! k).
Proof.
  rewrite list_elem_of_fmap. split.
  - intros ([k' v] & -> & Hin). apply elem_of_map_to_list in Hin. eauto.
  - intros [v Hv]. exists (k, v). split; [reflexivity|].
    apply elem_of_map_to_list. exact Hv.
Qed.

(** The loop returns when every lagged field has its field. *)
Lemma shift_fields_returns {num} (V : Type)
      (s : @ForwardEuler.state num V) :
  dom (ForwardEuler.fields_old V s) ⊆ dom (ForwardEuler.fields V s) ->
  fst (ForwardEuler.shift_fields V s) = Ret tt.
Proof.
  intros Hdom. unfold ForwardEuler.shift_fields.
  destruct (ForwardEuler.shift_keys V _ _ _) as [r fo] eqn:Hrun. simpl.
  destruct (shift_keys_spec _ _ _ _ _ Hrun)
    as [(-> & _)|(_ & k & Hk & Hnone)]; [reflexivity|].
  exfalso. apply elem_of_keys, elem_of_dom in Hk.
  apply Hdom, elem_of_dom in Hk. rewrite Hnone in Hk.
  destruct Hk as [v Hv]. discriminate Hv.
Qed.

Lemma shift_fields_lookup {num} (V : Type)
      (s s' : @ForwardEuler.state num V) :
  ForwardEuler.shift_fields V s = (Ret tt, s') ->
  ForwardEuler.fields V s' = ForwardEuler.fields V s /\
  ForwardEuler.solution V s' = ForwardEuler.solution V s /\
  ForwardEuler.solution_old V s' = ForwardEuler.solution_old V s /\
  ForwardEuler.forcings V s' = ForwardEuler.forcings V s /\
  ForwardEuler.dt V s' = ForwardEuler.dt V s /\
  ForwardEuler.dt_const V s' = ForwardEuler.dt_const V s /\
  forall k,
    ForwardEuler.fields_old V s' !! k
    = match ForwardEuler.fields_old V s !! k with
      | Some _ => ForwardEuler.fields V s !! k
      | None => None
      end.
Proof.
  unfold ForwardEuler.shift_fields.
  destruct (ForwardEuler.shift_keys V _ _ _) as [r fo] eqn:Hrun.
  intros Hs. injection Hs as -> <-. simpl.
  repeat (split; [reflexivity|]).
  destruct (shift_keys_spec _ _ _ _ _ Hrun)
    as [(_ & _ & Hlook)|(Hr & _)]; [|discriminate Hr].
  intros k. rewrite Hlook.
  destruct (ForwardEuler.fields_old V s !! k) as [v|] eqn:Hk.
  - rewrite bool_decide_eq_true_2; [reflexivity|].
    apply elem_of_keys. rewrite Hk. eauto.
  - rewrite bool_decide_eq_false_2; [reflexivity|].
    intros Hin. apply elem_of_keys in Hin. rewrite Hk in Hin.
    destruct Hin as [v Hv]. discriminate Hv.
Qed.

(** X12. When every lagged field still has its field after the forcing
    callback, [CrankNicolson.advance] returns; the callback has been
    invoked once, at [t + self.dt], before anything else; the solve has
    started from the previous solution, which is also its lagged
    solution, and has read the new fields together with the lagged fields
    of the step before; afterwards [solution_old] holds the previous
    solution and every lagged field holds the value of its field. *)
Theorem CrankNicolson_advance_shifts_time_levels {num} `{Arith num}
        (V : Type)
        (solve : V -> V -> gmap string V -> gmap string V
                 -> @ForwardEuler.pyval num -> V)
        (t : num) (update_forcings : ForwardEuler.callback V)
        (s : ForwardEuler.state V) :
  dom (ForwardEuler.fields_old V s)
    ⊆ dom (ForwardEuler.fields V
             (ForwardEuler.call_forcings V update_forcings t s)) ->
  exists s',
    CrankNicolson.advance V solve t update_forcings s = (Ret tt, s') /\
    ForwardEuler.forcings V s'
    = ForwardEuler.forcings V s
        ++ match update_forcings with
           | Some _ => [add t (ForwardEuler.dt V s)]
           | None => []
           end /\
    ForwardEuler.solution_old V s' = ForwardEuler.solution V s /\
    ForwardEuler.solution V s'
    = solve (ForwardEuler.solution V s) (ForwardEuler.solution V s)
            (ForwardEuler.fields V s') (ForwardEuler.fields_old V s)
            (ForwardEuler.dt_const V s) /\
    forall k,
      ForwardEuler.fields_old V s' !! k
      = match ForwardEuler.fields_old V s !! k with
        | Some _ => ForwardEuler.fields V s' !! k
        | None => None
        end.
Proof.
  intros Hdom. unfold CrankNicolson.advance.
  set (s2 := ForwardEuler.call_forcings V update_forcings t s) in *.
  assert (ForwardEuler.solution V s2 = ForwardEuler.solution V s /\
          ForwardEuler.solution_old V s2 = ForwardEuler.solution_old V s /\
          ForwardEuler.fields_old V s2 = ForwardEuler.fields_old V s /\
          ForwardEuler.dt_const V s2 = ForwardEuler.dt_const V s /\
          ForwardEuler.forcings V s2
          = ForwardEuler.forcings V s
              ++ match update_forcings with
                 | Some _ => [add t (ForwardEuler.dt V s)]
                 | None => []
                 end) as (Hsol & Hold & Hfo & Hdtc & Hforc).
  { unfold s2, ForwardEuler.call_forcings.
    destruct update_forcings; simpl; rewrite ?app_nil_r; auto. }
  match goal with
  | |- exists s', ForwardEuler.shift_fields V ?s4 = _ /\ _ =>
      destruct (ForwardEuler.shift_fields V s4) as [r s'] eqn:Hshift
  end.
  assert (r = Ret tt) as ->.
  { change r with (fst (r, s')). rewrite <- Hshift.
    apply shift_fields_returns. simpl. rewrite Hfo. exact Hdom. }
  exists s'. split; [reflexivity|].
  apply shift_fields_lookup in Hshift
    as (Hf & Hs & Hso & Hfc & _ & _ & Hlook).
  simpl in *.
  rewrite Hfc, Hso, Hs, Hf, Hsol, Hfo, Hdtc.
  split; [exact Hforc|]. split; [reflexivity|]. split; [reflexivity|].
  intros k. rewrite Hlook, Hfo. reflexivity.
Qed.

Lemma CrankNicolson_advance_shifts_time_levels_witness :
  dom (ForwardEuler.fields_old Z sample_euler)
    ⊆ dom (ForwardEuler.fields Z
             (ForwardEuler.call_forcings Z sample_forcing 10%float
                sample_euler)) /\
  exists s',
    CrankNicolson.advance Z sample_implicit_solve 10%float sample_forcing
      sample_euler = (Ret tt, s') /\
    ForwardEuler.forcings Z s'
    = ForwardEuler.forcings Z sample_euler
        ++ [add 10%float (ForwardEuler.dt Z sample_euler)] /\
    ForwardEuler.solution_old Z s' = ForwardEuler.solution Z sample_euler /\
    ForwardEuler.solution Z s'
    = sample_implicit_solve (ForwardEuler.solution Z sample_euler)
        (ForwardEuler.solution Z sample_euler)
        (ForwardEuler.fields Z s') (ForwardEuler.fields_old Z sample_euler)
        (ForwardEuler.dt_const Z sample_euler) /\
    forall k,
      ForwardEuler.fields_old Z s' !! k
      = match ForwardEuler.fields_old Z sample_euler !! k with
        | Some _ => ForwardEuler.fields Z s' !! k
        | None => None
        end.
Proof.
  assert (dom (ForwardEuler.fields_old Z sample_euler)
            ⊆ dom (ForwardEuler.fields Z
                     (ForwardEuler.call_forcings Z sample_forcing 10%float
                        sample_euler))) as Hdom.
  { apply (bool_decide_unpack _). vm_compute. exact I. }
  split; [exact Hdom|].
  exact (CrankNicolson_advance_shifts_time_levels Z sample_implicit_solve
           10%float sample_forcing sample_euler Hdom).
Defined.

(** ** [set_dt] and the two explicit/implicit steppers *)

Lemma shift_fields_keeps {num} (V : Type) (s : @ForwardEuler.state num V) :
  let s' := snd (ForwardEuler.shift_fields V s) in
  ForwardEuler.dt V s' = ForwardEuler.dt V s /\
  ForwardEuler.dt_const V s' = ForwardEuler.dt_const V s /\
  ForwardEuler.solution V s' = ForwardEuler.solution V s /\
  ForwardEuler.forcings V s' = ForwardEuler.forcings V s.
Proof.
  unfold ForwardEuler.shift_fields.
  destruct (ForwardEuler.shift_keys V _ _ _) as [r fo]; simpl; auto.
Qed.

(** X13. [TimeIntegrator.set_dt] sets [self.dt] and the constant
    [self.dt_const] the forms read.  [CrankNicolson.advance] then solves
    with that constant.  [ForwardEuler.advance], in a module where the
    name [dt] is bound, first overwrites the constant with the
    module-level [dt]: its solve uses that value whatever [set_dt] was
    given, while the forcing callback is still invoked at
    [t + self.dt]. *)
Theorem ForwardEuler_advance_overrides_set_dt {num} `{Arith num}
        (V : Type) (utility : gmap string (@ForwardEuler.pyval num))
        (solve : V -> gmap string V -> @ForwardEuler.pyval num -> V)
        (implicit_solve : V -> V -> gmap string V -> gmap string V
                          -> @ForwardEuler.pyval num -> V)
        (t d : num) (v : @ForwardEuler.pyval num)
        (update_forcings : ForwardEuler.callback V)
        (s : ForwardEuler.state V) :
  utility !! "dt" = Some v ->
  let s0 := CrankNicolson.set_dt V d s in
  let fe := snd (ForwardEuler.advance V utility solve t update_forcings s0) in
  let cn := snd (CrankNicolson.advance V implicit_solve t update_forcings
                   s0) in
  ForwardEuler.dt_const V fe = v /\
  ForwardEuler.solution V fe
  = solve (ForwardEuler.solution V s) (ForwardEuler.fields_old V s) v /\
  ForwardEuler.dt_const V cn = ForwardEuler.Num d /\
  ForwardEuler.solution V cn
  = implicit_solve (ForwardEuler.solution V s) (ForwardEuler.solution V s)
      (ForwardEuler.fields V cn) (ForwardEuler.fields_old V s)
      (ForwardEuler.Num d) /\
  ForwardEuler.forcings V fe = ForwardEuler.forcings V cn /\
  ForwardEuler.forcings V cn
  = ForwardEuler.forcings V s
      ++ match update_forcings with Some _ => [add t d] | None => [] end.
Proof.
  intros Hdt s0 fe cn. subst fe cn.
  unfold ForwardEuler.advance, ForwardEuler.load_name, CrankNicolson.advance.
  replace ((list_to_map (ForwardEuler.advance_locals t)
             : gmap string ForwardEuler.pyval) !! "dt")
    with (@None (@ForwardEuler.pyval num)) by (vm_compute; reflexivity).
  rewrite bool_decide_eq_false_2
    by (vm_compute; intros Hin; discriminate Hin).
  rewrite Hdt.
  match goal with
  | |- context [snd (ForwardEuler.shift_fields V ?a)] =>
      destruct (shift_fields_keeps V a) as (_ & -> & -> & ->)
  end.
  match goal with
  | |- context [ForwardEuler.dt_const V
                  (snd (ForwardEuler.shift_fields V ?a))] =>
      destruct (shift_fields_keeps V a) as (_ & -> & -> & ->)
  end.
  assert (forall a : @ForwardEuler.state num V,
             ForwardEuler.fields V (snd (ForwardEuler.shift_fields V a))
             = ForwardEuler.fields V a) as Hfields.
  { intros a. unfold ForwardEuler.shift_fields.
    destruct (ForwardEuler.shift_keys V _ _ _) as [r fo]; reflexivity. }
  rewrite Hfields.
  unfold s0, ForwardEuler.call_forcings, CrankNicolson.set_dt.
  destruct update_forcings; simpl; rewrite ?app_nil_r; auto 10.
Qed.

Lemma ForwardEuler_advance_overrides_set_dt_witness :
  ({[ "dt" := ForwardEuler.Num 3%float ]}
     : gmap string (@ForwardEuler.pyval float)) !! "dt"
  = Some (ForwardEuler.Num 3%float) /\
  let s0 := CrankNicolson.set_dt Z 5%float sample_euler in
  let fe := snd (ForwardEuler.advance Z
                   {[ "dt" := ForwardEuler.Num 3%float ]} sample_solve
                   10%float sample_forcing s0) in
  let cn := snd (CrankNicolson.advance Z sample_implicit_solve 10%float
                   sample_forcing s0) in
  ForwardEuler.dt_const Z fe = ForwardEuler.Num 3%float /\
  ForwardEuler.solution Z fe
  = sample_solve (ForwardEuler.solution Z sample_euler)
      (ForwardEuler.fields_old Z sample_euler) (ForwardEuler.Num 3%float) /\
  ForwardEuler.dt_const Z cn = ForwardEuler.Num 5%float /\
  ForwardEuler.solution Z cn
  = sample_implicit_solve (ForwardEuler.solution Z sample_euler)
      (ForwardEuler.solution Z sample_euler)
      (ForwardEuler.fields Z cn) (ForwardEuler.fields_old Z sample_euler)
      (ForwardEuler.Num 5%float) /\
  ForwardEuler.forcings Z fe = ForwardEuler.forcings Z cn /\
  ForwardEuler.forcings Z cn
  = ForwardEuler.forcings Z sample_euler ++ [add 10%float 5%float].
Proof.
  split; [reflexivity|].
  exact (ForwardEuler_advance_overrides_set_dt Z
           {[ "dt" := ForwardEuler.Num 3%float ]} sample_solve
           sample_implicit_solve 10%float 5%float (ForwardEuler.Num 3%float)
           sample_forcing sample_euler eq_refl).
Defined.

(** ** [PressureProjectionPicard.advance] *)

Section Picard.
Context {num : Type} `{Arith num}.
Variables V U : Type.
Variable solve_mom : U -> V -> V -> gmap string V -> gmap string V
                     -> num -> U.
Variable solve : V -> U -> V -> V -> gmap string V -> gmap string V
                 -> num -> V.

Implicit Types s : @PressureProjectionPicard.state num V U.

(** What the loop has reached after [j] iterations, when
    [solution_lagged] is a function of its own. *)
Lemma picard_loop_separate s (l : V) (j : nat) :
  PressureProjectionPicard.lagged V U s = Some l ->
  (1 < PressureProjectionPicard.iterations V U s)%Z ->
  PressureProjectionPicard.solution_old V U s
  = PressureProjectionPicard.solution V U s ->
  let p := Nat.iter j
             (picard_step solve_mom solve
                (PressureProjectionPicard.solution V U s)
                (PressureProjectionPicard.fields V U s)
                (PressureProjectionPicard.fields_old V U s)
                (PressureProjectionPicard.dt_const V U s))
             (PressureProjectionPicard.solution V U s,
              PressureProjectionPicard.uv_star V U s) in
  exists l',
    Nat.iter j (PressureProjectionPicard.iteration V U solve_mom solve) s
    = PressureProjectionPicard.set_solution V U (fst p)
        (PressureProjectionPicard.set_uv_star V U (snd p)
           (PressureProjectionPicard.set_lagged V U (Some l') s)).
Proof.
  intros Hl Hits Hold. induction j as [|j IH]; intros p.
  - exists l. destruct s. simpl in *. subst. reflexivity.
  - destruct IH as (l' & IH). subst p. simpl Nat.iter. rewrite IH.
    eexists. unfold PressureProjectionPicard.iteration. simpl.
    apply Z.ltb_lt in Hits. rewrite Hits.
    unfold PressureProjectionPicard.assign_lagged,
      PressureProjectionPicard.solution_lagged, picard_step. simpl.
    rewrite Hold. reflexivity.
Qed.

(** The same when it is another name of [solution_old]: at most one
    iteration runs. *)
Lemma picard_loop_aliased s :
  PressureProjectionPicard.lagged V U s = None ->
  (PressureProjectionPicard.iterations V U s <= 1)%Z ->
  PressureProjectionPicard.solution_old V U s
  = PressureProjectionPicard.solution V U s ->
  let j := Z.to_nat (PressureProjectionPicard.iterations V U s) in
  let p := Nat.iter j
             (picard_step solve_mom solve
                (PressureProjectionPicard.solution V U s)
                (PressureProjectionPicard.fields V U s)
                (PressureProjectionPicard.fields_old V U s)
                (PressureProjectionPicard.dt_const V U s))
             (PressureProjectionPicard.solution V U s,
              PressureProjectionPicard.uv_star V U s) in
  Nat.iter j (PressureProjectionPicard.iteration V U solve_mom solve) s
  = PressureProjectionPicard.set_solution V U (fst p)
      (PressureProjectionPicard.set_uv_star V U (snd p) s).
Proof.
  intros Hl Hits Hold j p. subst p.
  assert (j = 0%nat \/ j = 1%nat) as [-> | ->] by (subst j; lia).
  - destruct s. reflexivity.
  - simpl Nat.iter. unfold PressureProjectionPicard.iteration.
    assert ((1 <? PressureProjectionPicard.iterations V U s)%Z = false)
      as -> by (apply Z.ltb_ge; exact Hits).
    unfold PressureProjectionPicard.solution_lagged, picard_step. simpl.
    rewrite Hl, Hold. reflexivity.
Qed.

End Picard.

Lemma new_lagged_as_constructed {num} (V U : Type) (its : Z) (dt0 : num)
      (sol fresh : V) (fresh_uv : U) (flds flds_old : gmap string V) :
  lagged_as_constructed
    (PressureProjectionPicard.new V U its dt0 sol fresh fresh_uv flds
       flds_old).
Proof.
  unfold lagged_as_constructed, PressureProjectionPicard.new. simpl.
  destruct (1 <? its)%Z eqn:Hits.
  - apply Z.ltb_lt in Hits. split; [discriminate|lia].
  - apply Z.ltb_ge in Hits. split; auto.
Qed.

(** X14. On a stepper whose [solution_lagged] is as the constructor
    makes it (another name of [solution_old] unless [iterations > 1]),
    [PressureProjectionPicard.advance] performs [iterations] Picard
    iterations (none when [iterations <= 0]) in each of which both solves
    read the current iterate as the lagged solution and the solution of
    the step before as the old one: with a single iteration the aliasing
    of the two functions provides what the assignment
    [solution_lagged.assign(solution)] provides otherwise.  This holds
    whether or not the final shift of the fields succeeds. *)
Theorem Picard_iterates_on_lagged_solution {num} `{Arith num} (V U : Type)
        (solve_mom : U -> V -> V -> gmap string V -> gmap string V
                     -> num -> U)
        (solve : V -> U -> V -> V -> gmap string V -> gmap string V
                 -> num -> V)
        (t : num) (updateForcings : PressureProjectionPicard.callback V)
        (s : @PressureProjectionPicard.state num V U) :
  lagged_as_constructed s ->
  let s1 := PressureProjectionPicard.call_forcings V U updateForcings t s in
  let p := Nat.iter (Z.to_nat (PressureProjectionPicard.iterations V U s))
             (picard_step solve_mom solve
                (PressureProjectionPicard.solution V U s)
                (PressureProjectionPicard.fields V U s1)
                (PressureProjectionPicard.fields_old V U s)
                (PressureProjectionPicard.dt_const V U s))
             (PressureProjectionPicard.solution V U s,
              PressureProjectionPicard.uv_star V U s) in
  let s' := snd (PressureProjectionPicard.advance V U solve_mom solve t
                   updateForcings s) in
  PressureProjectionPicard.solution V U s' = fst p /\
  PressureProjectionPicard.uv_star V U s' = snd p /\
  PressureProjectionPicard.solution_old V U s'
  = PressureProjectionPicard.solution V U s /\
  PressureProjectionPicard.iterations V U s'
  = PressureProjectionPicard.iterations V U s /\
  lagged_as_constructed s'.
Proof.
  intros Hcons s1 p s'. subst s'.
  unfold PressureProjectionPicard.advance. fold s1.
  set (s2 := PressureProjectionPicard.set_solution_old V U
               (PressureProjectionPicard.solution V U s1) s1).
  assert (PressureProjectionPicard.solution V U s2
          = PressureProjectionPicard.solution V U s /\
          PressureProjectionPicard.uv_star V U s2
          = PressureProjectionPicard.uv_star V U s /\
          PressureProjectionPicard.fields V U s2
          = PressureProjectionPicard.fields V U s1 /\
          PressureProjectionPicard.fields_old V U s2
          = PressureProjectionPicard.fields_old V U s /\
          PressureProjectionPicard.dt_const V U s2
          = PressureProjectionPicard.dt_const V U s /\
          PressureProjectionPicard.iterations V U s2
          = PressureProjectionPicard.iterations V U s /\
          PressureProjectionPicard.lagged V U s2
          = PressureProjectionPicard.lagged V U s /\
          PressureProjectionPicard.solution_old V U s2
          = PressureProjectionPicard.solution V U s2)
    as (Hsol & Huv & Hf & Hfo & Hdtc & Hits & Hlag & Hold).
  { unfold s2, s1, PressureProjectionPicard.call_forcings.
    destruct updateForcings; simpl; auto 10. }
  clearbody s2. unfold lagged_as_constructed.
  assert (forall a : @PressureProjectionPicard.state num V U,
             let a' := snd (PressureProjectionPicard.shift_fields V U a) in
             PressureProjectionPicard.solution V U a'
             = PressureProjectionPicard.solution V U a /\
             PressureProjectionPicard.uv_star V U a'
             = PressureProjectionPicard.uv_star V U a /\
             PressureProjectionPicard.solution_old V U a'
             = PressureProjectionPicard.solution_old V U a /\
             PressureProjectionPicard.iterations V U a'
             = PressureProjectionPicard.iterations V U a /\
             PressureProjectionPicard.lagged V U a'
             = PressureProjectionPicard.lagged V U a) as Hshift.
  { intros a. unfold PressureProjectionPicard.shift_fields.
    destruct (ForwardEuler.shift_keys V _ _ _) as [r fo]; simpl; auto. }
  match goal with
  | |- context [PressureProjectionPicard.shift_fields V U ?a] =>
      destruct (Hshift a) as (-> & -> & -> & -> & ->)
  end.
  clear Hshift.
  subst p. rewrite <- Hsol, <- Huv, <- Hf, <- Hfo, <- Hdtc, <- Hits.
  unfold lagged_as_constructed in Hcons. rewrite <- Hlag, <- Hits in Hcons.
  destruct (PressureProjectionPicard.lagged V U s2) as [l|] eqn:Hl2.
  - assert (1 < PressureProjectionPicard.iterations V U s2)%Z as Hgt.
    { destruct (Z.le_gt_cases (PressureProjectionPicard.iterations V U s2) 1)
        as [Hle|Hgt]; [|exact Hgt].
      apply Hcons in Hle. discriminate Hle. }
    destruct (picard_loop_separate V U solve_mom solve s2 l
                (Z.to_nat (PressureProjectionPicard.iterations V U s2))
                Hl2 Hgt Hold) as (l' & ->).
    simpl. rewrite Hold.
    split; [reflexivity|]. split; [reflexivity|]. split; [reflexivity|].
    split; [reflexivity|]. split; [discriminate|lia].
  - assert (PressureProjectionPicard.iterations V U s2 <= 1)%Z as Hle
        by (apply Hcons; reflexivity).
    rewrite (picard_loop_aliased V U solve_mom solve s2 Hl2 Hle Hold).
    simpl. rewrite Hold, Hl2.
    split; [reflexivity|]. split; [reflexivity|]. split; [reflexivity|].
    split; [reflexivity|]. split; auto.
Qed.

Lemma Picard_iterates_on_lagged_solution_witness :
  lagged_as_constructed sample_picard /\
  let s1 := PressureProjectionPicard.call_forcings Z Z
              sample_picard_callback 10%float sample_picard in
  let p := Nat.iter
             (Z.to_nat (PressureProjectionPicard.iterations Z Z
                          sample_picard))
             (picard_step sample_solve_mom sample_solve_wave
                (PressureProjectionPicard.solution Z Z sample_picard)
                (PressureProjectionPicard.fields Z Z s1)
                (PressureProjectionPicard.fields_old Z Z sample_picard)
                (PressureProjectionPicard.dt_const Z Z sample_picard))
             (PressureProjectionPicard.solution Z Z sample_picard,
              PressureProjectionPicard.uv_star Z Z sample_picard) in
  let s' := snd (PressureProjectionPicard.advance Z Z sample_solve_mom
                   sample_solve_wave 10%float sample_picard_callback
                   sample_picard) in
  PressureProjectionPicard.solution Z Z s' = fst p /\
  PressureProjectionPicard.uv_star Z Z s' = snd p /\
  PressureProjectionPicard.solution_old Z Z s'
  = PressureProjectionPicard.solution Z Z sample_picard /\
  PressureProjectionPicard.iterations Z Z s'
  = PressureProjectionPicard.iterations Z Z sample_picard /\
  lagged_as_constructed s'.
Proof.
  pose proof (new_lagged_as_constructed Z Z 1 2%float 5%Z 0%Z 0%Z
                {[ "wind" := 1%Z ]} {[ "wind" := 0%Z ]}) as Hcons.
  split; [exact Hcons|].
  exact (Picard_iterates_on_lagged_solution Z Z sample_solve_mom
           sample_solve_wave 10%float sample_picard_callback sample_picard
           Hcons).
Defined.

(** ** [SSPRK22ALE] *)

(** The right-hand side assembled by the two stage preparations, in exact
    arithmetic: half of the first-stage dual solution, half of the old
    one and half of the second tendency make the old dual solution plus
    the mean of the two tendencies. *)
Lemma ssprk22_rhs_exact (m k1 k2 : list Q) :
  length k1 = length m -> length k2 = length m ->
  Forall2 Qeq
    (TwoStage.vadd
       (TwoStage.vadd (TwoStage.vscale TwoStage.half (TwoStage.vadd m k1))
                      (TwoStage.vscale TwoStage.half m))
       (TwoStage.vscale TwoStage.half k2))
    (TwoStage.vadd m
       (TwoStage.vscale TwoStage.half (TwoStage.vadd k1 k2))).
Proof.
  revert k1 k2. induction m as [|x m IH]; intros [|y k1] [|z k2] H1 H2;
    simpl in *; try discriminate; [constructor|].
  constructor.
  - assert (TwoStage.half == 1 # 2)%Q as Hh by reflexivity.
    unfold mul, add. simpl. rewrite Hh. ring.
  - apply IH; congruence.
Qed.

(** X15. [SSPRK22ALE] in exact arithmetic, driven through the ALE
    protocol (prepare stage 1 on the geometry [g0] of the moment, solve
    it on [g1], prepare stage 2 there, solve it on [g2]): the first
    stage solves [M(g1) u1 = M(g0) u + k1], and the second stage solves
    [M(g2) u' = M(g0) u + (k1 + k2)/2], where [k1] is the tendency
    assembled on [g0] at [u] and [k2] the one assembled on [g1] at [u1],
    which is the scheme of the class documentation.  The forcing
    callback is invoked at the two stage times. *)
Theorem SSPRK22ALE_step_formula (V E G : Type)
        (assemble_mu : G -> V -> list Q)
        (assemble_l : G -> Q -> V -> E -> list Q)
        (lin_solve : G -> list Q -> V)
        (t : Q) (cb : @TwoStage.callback Q E) (g1 g2 : G)
        (s : @TwoStage.ssprk22 Q V E G) :
  TwoStage._nontrivial V E G s = true ->
  TwoStage.lin_solver V E G s = true ->
  let f0 := forced cb (add t (mul (of_int 0) (TwoStage.dt V E G s)))
              (TwoStage.fields V E G s) in
  let f1 := forced cb (add t (mul (of_int 1) (TwoStage.dt V E G s))) f0 in
  let m0 := assemble_mu (TwoStage.geometry V E G s)
              (TwoStage.solution V E G s) in
  let k1 := assemble_l (TwoStage.geometry V E G s)
              (TwoStage.dt_const V E G s) (TwoStage.solution V E G s) f0 in
  let u1 := lin_solve g1 (TwoStage.vadd m0 k1) in
  let k2 := assemble_l g1 (TwoStage.dt_const V E G s) u1 f1 in
  length k1 = length m0 -> length k2 = length m0 ->
  exists s',
    ale_step assemble_mu assemble_l lin_solve t cb g1 g2 s = (Ret tt, s') /\
    TwoStage.solution V E G s' = lin_solve g2 (TwoStage.mu V E G s') /\
    Forall2 Qeq (TwoStage.mu V E G s')
      (TwoStage.vadd m0 (TwoStage.vscale TwoStage.half
                           (TwoStage.vadd k1 k2))) /\
    TwoStage.mu_old V E G s' = m0 /\
    TwoStage.geometry V E G s' = g2 /\
    TwoStage.forcings V E G s'
    = TwoStage.forcings V E G s ++ stage_times cb t (TwoStage.dt V E G s).
Proof.
  intros Hnt Hls.
  destruct s as [dt0 dtc u f g q q0 k nt ls ts]. simpl in Hnt, Hls.
  subst nt ls. cbn zeta. intros Hk1 Hk2.
  pose proof (ssprk22_rhs_exact _ _ _ Hk1 Hk2) as Hrhs. simpl in Hrhs.
  unfold ale_step, TwoStage.prepare_stage, TwoStage.call_forcings,
    TwoStage.solve_stage, TwoStage.stage_one_solve,
    TwoStage.stage_two_solve, TwoStage.stage_solve,
    TwoStage.stage_one_prep, TwoStage.stage_two_prep.
  destruct cb as [h|]; simpl.
  - eexists. split; [reflexivity|]. simpl.
    split; [reflexivity|]. split; [exact Hrhs|].
    split; [reflexivity|]. split; [reflexivity|].
    rewrite <- app_assoc. reflexivity.
  - eexists. split; [reflexivity|]. simpl.
    split; [reflexivity|]. split; [exact Hrhs|].
    split; [reflexivity|]. split; [reflexivity|].
    rewrite app_nil_r. reflexivity.
Qed.

Lemma SSPRK22ALE_step_formula_witness :
  TwoStage._nontrivial Q Q Q sample_ssprk22 = true /\
  TwoStage.lin_solver Q Q Q sample_ssprk22 = true /\
  exists s',
    ale_step sample_assemble_mu sample_assemble_l sample_lin_solve 0%Q
      sample_ale_callback 2%Q 4%Q sample_ssprk22 = (Ret tt, s') /\
    TwoStage.solution Q Q Q s'
    = sample_lin_solve 4%Q (TwoStage.mu Q Q Q s') /\
    TwoStage.geometry Q Q Q s' = 4%Q.
Proof.
  split; [reflexivity|]. split; [reflexivity|].
  destruct (SSPRK22ALE_step_formula Q Q Q sample_assemble_mu
              sample_assemble_l sample_lin_solve 0%Q sample_ale_callback
              2%Q 4%Q sample_ssprk22 eq_refl eq_refl eq_refl eq_refl)
    as (s' & Hrun & Hsol & _ & _ & Hg & _).
  exists s'. split; [exact Hrun|]. split; [exact Hsol|exact Hg].
Defined.

(** [advance] is the protocol on a mesh that does not move. *)
Lemma set_geometry_same {num} (V E G : Type)
      (s : @TwoStage.ssprk22 num V E G) :
  TwoStage.set_geometry V E G (TwoStage.geometry V E G s) s = s.
Proof. destruct s. reflexivity. Qed.

Section SSPRK22.
Context {num : Type} `{Arith num}.
Variables V E G : Type.
Variable assemble_mu : G -> V -> list num.
Variable assemble_l : G -> num -> V -> E -> list num.
Variable lin_solve : G -> list num -> V.
Implicit Types s : @TwoStage.ssprk22 num V E G.

Lemma prepare_stage_keeps (i : Z) (t : num) (cb : TwoStage.callback E) s :
  let s' := snd (TwoStage.prepare_stage V E G assemble_mu assemble_l i t cb
                   s) in
  TwoStage.geometry V E G s' = TwoStage.geometry V E G s /\
  TwoStage.solution V E G s' = TwoStage.solution V E G s /\
  TwoStage._nontrivial V E G s' = TwoStage._nontrivial V E G s /\
  TwoStage.lin_solver V E G s' = TwoStage.lin_solver V E G s /\
  TwoStage.dt V E G s' = TwoStage.dt V E G s.
Proof.
  unfold TwoStage.prepare_stage, TwoStage.call_forcings,
    TwoStage.stage_one_prep, TwoStage.stage_two_prep.
  destruct cb as [h|]; [destruct (py_index TwoStage.c i)|];
    destruct (i =? 0)%Z, (TwoStage._nontrivial V E G s) eqn:Hnt;
    simpl; rewrite ?Hnt; auto.
Qed.

Lemma solve_stage_keeps (i : Z) s :
  let s' := snd (TwoStage.solve_stage V E G lin_solve i s) in
  TwoStage.geometry V E G s' = TwoStage.geometry V E G s.
Proof.
  unfold TwoStage.solve_stage, TwoStage.stage_one_solve,
    TwoStage.stage_two_solve, TwoStage.stage_solve.
  destruct (i =? 0)%Z, (TwoStage._nontrivial V E G s),
    (TwoStage.lin_solver V E G s); reflexivity.
Qed.

Lemma call_forcings_keeps (i : Z) (t : num) (cb : TwoStage.callback E) s :
  let s' := snd (TwoStage.call_forcings V E G cb i t s) in
  TwoStage._nontrivial V E G s' = TwoStage._nontrivial V E G s /\
  TwoStage.lin_solver V E G s' = TwoStage.lin_solver V E G s.
Proof.
  unfold TwoStage.call_forcings.
  destruct cb as [h|]; [destruct (py_index TwoStage.c i)|]; simpl; auto.
Qed.

Lemma call_forcings_returns (i : Z) (t : num) (cb : TwoStage.callback E) s :
  i = 0%Z \/ i = 1%Z ->
  fst (TwoStage.call_forcings V E G cb i t s) = Ret tt.
Proof.
  unfold TwoStage.call_forcings.
  intros [-> | ->]; destruct cb as [h|]; reflexivity.
Qed.

End SSPRK22.

(** X16. [SSPRK22ALE.advance] is the ALE protocol on a mesh that does
    not move: stage by stage, [prepare_stage] followed by [solve_stage]
    on the geometry the stepper was given, stopping at the first call
    that raises. *)
Theorem SSPRK22ALE_advance_is_protocol_on_fixed_mesh {num} `{Arith num}
        (V E G : Type) (assemble_mu : G -> V -> list num)
        (assemble_l : G -> num -> V -> E -> list num)
        (lin_solve : G -> list num -> V) (t : num)
        (cb : @TwoStage.callback num E) (s : @TwoStage.ssprk22 num V E G) :
  TwoStage.advance V E G assemble_mu assemble_l lin_solve t cb s
  = ale_step assemble_mu assemble_l lin_solve t cb
      (TwoStage.geometry V E G s) (TwoStage.geometry V E G s) s.
Proof.
  unfold TwoStage.advance, ale_step. simpl.
  change (Z.of_nat 0) with 0%Z. change (Z.of_nat 1) with 1%Z.
  pose proof (prepare_stage_keeps V E G assemble_mu assemble_l 0 t cb s) as Hp0.
  destruct (TwoStage.prepare_stage V E G assemble_mu assemble_l 0 t cb s)
    as [[[]|e] a]; [|reflexivity].
  simpl in Hp0. destruct Hp0 as (Hg0 & _).
  rewrite <- Hg0 at 1. rewrite set_geometry_same.
  pose proof (solve_stage_keeps V E G lin_solve 0 a) as Hs0.
  destruct (TwoStage.solve_stage V E G lin_solve 0 a) as [[[]|e] b];
    [|reflexivity].
  simpl in Hs0.
  pose proof (prepare_stage_keeps V E G assemble_mu assemble_l 1 t cb b) as Hp1.
  destruct (TwoStage.prepare_stage V E G assemble_mu assemble_l 1 t cb b)
    as [[[]|e] c]; [|reflexivity].
  simpl in Hp1. destruct Hp1 as (Hg1 & _).
  rewrite <- Hg0, <- Hs0, <- Hg1, set_geometry_same.
  destruct (TwoStage.solve_stage V E G lin_solve 1 c) as [[[]|e] d];
    reflexivity.
Qed.

(** X17. [SSPRK22ALE.advance] on a stepper on which [initialize] was
    never called.  For a trivial equation ([_nontrivial] false) the call
    returns; nothing is assembled or solved, yet the forcing callback has
    been invoked at both stage times.  Otherwise the call raises
    [AttributeError] for [lin_solver] in the solve of the first stage,
    after the callback was invoked once and the first stage was
    prepared. *)
Theorem SSPRK22ALE_advance_without_initialize {num} `{Arith num}
        (V E G : Type) (assemble_mu : G -> V -> list num)
        (assemble_l : G -> num -> V -> E -> list num)
        (lin_solve : G -> list num -> V) (t : num)
        (cb : @TwoStage.callback num E) (s : @TwoStage.ssprk22 num V E G) :
  TwoStage.lin_solver V E G s = false ->
  let s1 := snd (TwoStage.call_forcings V E G cb 0 t s) in
  TwoStage.advance V E G assemble_mu assemble_l lin_solve t cb s
  = if TwoStage._nontrivial V E G s
    then (Raise (AttributeError "lin_solver"),
          TwoStage.stage_one_prep V E G assemble_mu assemble_l s1)
    else (Ret tt, snd (TwoStage.call_forcings V E G cb 1 t s1)).
Proof.
  intros Hls s1.
  unfold TwoStage.advance. simpl.
  change (Z.of_nat 0) with 0%Z. change (Z.of_nat 1) with 1%Z.
  unfold TwoStage.prepare_stage at 1.
  pose proof (call_forcings_returns V E G 0 t cb s (or_introl eq_refl)) as Hr0.
  pose proof (call_forcings_keeps V E G 0 t cb s) as (Hnt0 & Hls0).
  fold s1 in Hnt0, Hls0. subst s1.
  destruct (TwoStage.call_forcings V E G cb 0 t s) as [r0 s1].
  simpl in Hr0, Hnt0, Hls0. subst r0. simpl.
  unfold TwoStage.solve_stage, TwoStage.stage_one_solve,
    TwoStage.stage_two_solve, TwoStage.stage_solve,
    TwoStage.stage_one_prep, TwoStage.stage_two_prep. simpl.
  destruct (TwoStage._nontrivial V E G s) eqn:Hnt; rewrite Hnt0.
  - simpl. rewrite Hnt0, Hls0, Hls. reflexivity.
  - rewrite Hnt0. unfold TwoStage.prepare_stage.
    pose proof (call_forcings_returns V E G 1 t cb s1 (or_intror eq_refl)) as Hr1.
    pose proof (call_forcings_keeps V E G 1 t cb s1) as (Hnt1 & _).
    destruct (TwoStage.call_forcings V E G cb 1 t s1) as [r1 s2].
    simpl in Hr1, Hnt1. subst r1. simpl.
    rewrite Hnt0 in Hnt1.
    unfold TwoStage.stage_two_prep. rewrite !Hnt1. reflexivity.
Qed.


Lemma SSPRK22ALE_advance_without_initialize_witness :
  TwoStage.lin_solver Q Q Q
    (TwoStage.set_lin_solver Q Q Q false sample_ssprk22) = false /\
  TwoStage.advance Q Q Q sample_assemble_mu sample_assemble_l
    sample_lin_solve 0%Q sample_ale_callback
    (TwoStage.set_lin_solver Q Q Q false sample_ssprk22)
  = (Raise (AttributeError "lin_solver"),
     TwoStage.stage_one_prep Q Q Q sample_assemble_mu sample_assemble_l
       (snd (TwoStage.call_forcings Q Q Q sample_ale_callback 0 0%Q
               (TwoStage.set_lin_solver Q Q Q false sample_ssprk22)))).
Proof.
  split; [reflexivity|].
  exact (SSPRK22ALE_advance_without_initialize Q Q Q sample_assemble_mu
           sample_assemble_l sample_lin_solve 0%Q sample_ale_callback
           (TwoStage.set_lin_solver Q Q Q false sample_ssprk22) eq_refl).
Defined.

(** ** [TwoStageTrapezoid] *)

(** X18. [TwoStageTrapezoid.advance] in closed form.  For a trivial
    equation nothing happens: the stepper is left as it was and the
    forcing callback is not invoked (unlike in [SSPRK22ALE.advance]).
    Otherwise the call returns; the callback has been invoked at the two
    stage times; the first stage solves from [solution_old] (what
    [solution] held at entry is not read), the second from the result of
    the first; afterwards [solution_old] holds the new solution. *)
Theorem TwoStageTrapezoid_advance_closed_form {num} `{Arith num}
        (V E : Type) (solver_0 : num -> V -> E -> V)
        (solver_1 : num -> V -> V -> E -> V) (t : num)
        (cb : @TwoStage.callback num E) (s : @TwoStage.trapezoid num V E) :
  let f0 := forced cb (add t (mul (of_int 0) (TwoStage.z_dt V E s)))
              (TwoStage.z_fields V E s) in
  let f1 := forced cb (add t (mul (of_int 1) (TwoStage.z_dt V E s))) f0 in
  let u1 := solver_0 (TwoStage.z_dt_const V E s)
              (TwoStage.z_solution_old V E s) f0 in
  let u2 := solver_1 (TwoStage.z_dt_const V E s) u1
              (TwoStage.z_solution_old V E s) f1 in
  TwoStage.z_advance V E solver_0 solver_1 t cb s
  = (Ret tt,
     if TwoStage.z_nontrivial V E s
     then TwoStage.z_set_forcing V E f1
            (TwoStage.z_forcings V E s
               ++ stage_times cb t (TwoStage.z_dt V E s))
            (TwoStage.z_set_solution_old V E u2
               (TwoStage.z_set_solution V E u2 s))
     else s).
Proof.
  destruct s as [dt0 dtc u uo f nt ts]. cbn zeta.
  unfold TwoStage.z_advance, TwoStage.z_solve_stage,
    TwoStage.z_call_forcings, forced, stage_times.
  destruct nt; [|reflexivity].
  destruct cb as [h|]; simpl.
  - rewrite <- app_assoc. reflexivity.
  - rewrite app_nil_r. reflexivity.
Qed.

(** ** Stage indices *)

Lemma py_index_out_of_range {A} (l : list A) (i : Z) :
  (i < - Z.of_nat (length l) \/ Z.of_nat (length l) <= i)%Z ->
  py_index l i = Raise IndexError.
Proof.
  intros Hi. unfold py_index, index.
  destruct (0 <=? i)%Z eqn:H0.
  - apply Z.leb_le in H0.
    rewrite lookup_ge_None_2; [reflexivity|lia].
  - apply Z.leb_gt in H0.
    rewrite (proj2 (Z.leb_gt _ _)); [reflexivity|lia].
Qed.

(** X19. The stage methods take the stage index as it comes.  With an
    index outside -2..1, [SSPRK22ALE.prepare_stage] raises [IndexError]
    (from [self.c[i_stage]]) when a forcing callback is given, before
    anything is changed, and otherwise prepares the second stage without
    complaint; [TwoStageTrapezoid.solve_stage] with a callback raises as
    well unless the equation is trivial.  Index -1 is stage 1. *)
Theorem stage_index_out_of_range {num} `{Arith num} (V E G : Type)
        (assemble_mu : G -> V -> list num)
        (assemble_l : G -> num -> V -> E -> list num)
        (solver_0 : num -> V -> E -> V)
        (solver_1 : num -> V -> V -> E -> V)
        (i : Z) (t : num) (h : num -> E -> E)
        (cb : @TwoStage.callback num E)
        (s : @TwoStage.ssprk22 num V E G)
        (z : @TwoStage.trapezoid num V E) :
  (i < -2 \/ 1 < i)%Z ->
  TwoStage.prepare_stage V E G assemble_mu assemble_l i t (Some h) s
  = (Raise IndexError, s) /\
  TwoStage.prepare_stage V E G assemble_mu assemble_l i t None s
  = (Ret tt, TwoStage.stage_two_prep V E G assemble_l s) /\
  TwoStage.z_solve_stage V E solver_0 solver_1 i t (Some h) z
  = (if TwoStage.z_nontrivial V E z then Raise IndexError else Ret tt, z) /\
  TwoStage.prepare_stage V E G assemble_mu assemble_l (-1) t cb s
  = TwoStage.prepare_stage V E G assemble_mu assemble_l 1 t cb s.
Proof.
  intros Hi.
  assert (py_index TwoStage.c i = Raise IndexError) as Hc
      by (apply py_index_out_of_range; simpl; lia).
  assert ((i =? 0)%Z = false) as Hz by (apply Z.eqb_neq; lia).
  unfold TwoStage.prepare_stage, TwoStage.z_solve_stage,
    TwoStage.call_forcings, TwoStage.z_call_forcings.
  rewrite Hc, Hz.
  split; [reflexivity|]. split; [reflexivity|].
  split; [destruct (TwoStage.z_nontrivial V E z); reflexivity|].
  destruct cb; reflexivity.
Qed.

Lemma stage_index_out_of_range_witness :
  (2 < -2 \/ 1 < 2)%Z /\
  TwoStage.prepare_stage Q Q Q sample_assemble_mu sample_assemble_l 2 0%Q
    (Some (fun time f => (f + time)%Q)) sample_ssprk22
  = (Raise IndexError, sample_ssprk22).
Proof.
  assert (2 < -2 \/ 1 < 2)%Z as Hi by (right; reflexivity).
  split; [exact Hi|].
  exact (proj1 (stage_index_out_of_range Q Q Q sample_assemble_mu
                  sample_assemble_l (fun dtc u f => u)
                  (fun dtc u uo f => u) 2 0%Q (fun time f => (f + time)%Q)
                  None sample_ssprk22
                  {| TwoStage.z_dt := 1%Q; TwoStage.z_dt_const := 1%Q;
                     TwoStage.z_solution := 0%Q;
                     TwoStage.z_solution_old := 0%Q;
                     TwoStage.z_fields := 0%Q;
                     TwoStage.z_nontrivial := true;
                     TwoStage.z_forcings := [] |} Hi)).
Defined.

(** * The right-hand side of the momentum equation *)

Section MomentumRhsProofs.
Variable F : Type.
Implicit Types eq : MomentumRhs.equation.
Implicit Types a : MomentumRhs.arguments F.

Lemma horizontal_advection_linear (e : MomentumEquation.equation)
      (lf uv_mag uv_p1 : option F) :
  MomentumEquation.nonlin e = false ->
  MomentumEquation.horizontal_advection F e lf uv_mag uv_p1 = Ret [].
Proof.
  intros Hnl. unfold MomentumEquation.horizontal_advection.
  rewrite Hnl. reflexivity.
Qed.

Lemma eta_boundary_markers_app (l1 l2 : list MomentumRhs.term) :
  eta_boundary_markers (l1 ++ l2)
  = eta_boundary_markers l1 ++ eta_boundary_markers l2.
Proof. apply omap_app. Qed.

Lemma elev_boundary_markers_app (l1 l2 : list MomentumRhs.term) :
  elev_boundary_markers (l1 ++ l2)
  = elev_boundary_markers l1 ++ elev_boundary_markers l2.
Proof. apply omap_app. Qed.

Lemma eta_boundary_markers_when_given (x : option F)
      (l : list MomentumRhs.term) :
  eta_boundary_markers l = [] ->
  eta_boundary_markers (MomentumRhs.when_given F x l) = [].
Proof. intros Hl. destruct x; simpl; auto. Qed.

Lemma elev_boundary_markers_when_given (x : option F)
      (l : list MomentumRhs.term) :
  elev_boundary_markers l = [] ->
  elev_boundary_markers (MomentumRhs.when_given F x l) = [].
Proof. intros Hl. destruct x; simpl; auto. Qed.

Lemma eta_boundary_markers_advection (h : list MomentumEquation.term) :
  eta_boundary_markers (map MomentumRhs.advection h) = [].
Proof. induction h as [|t h IH]; [reflexivity|exact IH]. Qed.

(** The elevation boundary terms of [pressure_grad]: one for every marker
    without a prescribed elevation. *)
Lemma eta_boundary_markers_pressure eq (bh : option F) (ms : list Z) :
  eta_boundary_markers
    (map MomentumRhs.pressure
       (concat (map (MomentumRhs.pressure_boundary F eq bh) ms)))
  = filter (fun m => negb (elevation_prescribed (MomentumRhs.momentum eq) m))
           ms.
Proof.
  induction ms as [|m ms IH]; [reflexivity|].
  simpl. rewrite map_app, eta_boundary_markers_app, IH.
  unfold MomentumRhs.pressure_boundary, elevation_prescribed.
  rewrite filter_cons.
  destruct (MomentumEquation.bnd_functions (MomentumRhs.momentum eq) !! m)
    as [fs|]; [destruct (bool_decide ("elev" ∈ fs))|];
    destruct bh; simpl; reflexivity.
Qed.

(** The prescribed-elevation terms of the boundary loop of [rhs]: one for
    every marker with a prescribed elevation. *)
Lemma elev_boundary_markers_conditions eq (ms : list Z) :
  elev_boundary_markers
    (concat (map (MomentumRhs.boundary_conditions eq) ms))
  = filter (fun m => elevation_prescribed (MomentumRhs.momentum eq) m) ms.
Proof.
  induction ms as [|m ms IH]; [reflexivity|].
  simpl. rewrite elev_boundary_markers_app, IH.
  unfold MomentumRhs.boundary_conditions, elevation_prescribed.
  rewrite filter_cons.
  destruct (MomentumEquation.bnd_functions (MomentumRhs.momentum eq) !! m)
    as [fs|]; [|reflexivity].
  destruct (bool_decide ("elev" ∈ fs)), (bool_decide ("un" ∈ fs)),
    (bool_decide ("symm" ∈ fs)),
    (MomentumEquation.nonlin (MomentumRhs.momentum eq)); reflexivity.
Qed.

Lemma elev_boundary_markers_vertical eq a :
  elev_boundary_markers (snd (MomentumRhs.vertical_advection_terms F eq a))
  = [].
Proof.
  unfold MomentumRhs.vertical_advection_terms.
  destruct (MomentumRhs.w F a), (MomentumRhs.vertical_dg eq),
    (MomentumRhs.lax_friedrichs_factor F a); reflexivity.
Qed.

Lemma eta_boundary_markers_vertical eq a :
  eta_boundary_markers (fst (MomentumRhs.vertical_advection_terms F eq a))
  = [].
Proof.
  unfold MomentumRhs.vertical_advection_terms.
  destruct (MomentumRhs.w F a); reflexivity.
Qed.

End MomentumRhsProofs.

(** X20. [MomentumEquation.rhs] raises exactly when its call of
    [horizontal_advection] does, and then with the same exception:
    nothing else in the method raises, and for the linear equation, where
    [horizontal_advection] is not called, [rhs] always returns. *)
Theorem rhs_raises_as_horizontal_advection (F : Type)
        (eq : MomentumRhs.equation) (a : MomentumRhs.arguments F)
        (e : exn) :
  MomentumRhs.rhs F eq a = Raise e
  <-> MomentumEquation.horizontal_advection F (MomentumRhs.momentum eq)
        (MomentumRhs.lax_friedrichs_factor F a) (MomentumRhs.uv_mag F a)
        (MomentumRhs.uv_p1 F a) = Raise e.
Proof.
  unfold MomentumRhs.rhs.
  destruct (MomentumEquation.nonlin (MomentumRhs.momentum eq)) eqn:Hnl.
  - destruct (MomentumEquation.horizontal_advection F
                (MomentumRhs.momentum eq)
                (MomentumRhs.lax_friedrichs_factor F a)
                (MomentumRhs.uv_mag F a) (MomentumRhs.uv_p1 F a))
      as [h|e'] eqn:Hadv; simpl.
    + split; discriminate.
    + split; intros Hr; injection Hr as ->; reflexivity.
  - rewrite (horizontal_advection_linear F _ _ _ _ Hnl). simpl.
    split; discriminate.
Qed.

(** X21. In the form [rhs] returns, the open boundaries are shared
    between two terms.  The boundary loop of [rhs] adds the
    prescribed-elevation term for exactly the markers whose boundary
    functions hold ['elev'], in the order of [boundary_markers].  When the
    pressure gradient is integrated by parts, [pressure_grad] adds its own
    elevation boundary term for exactly the other markers, so every open
    boundary gets one of the two and none gets both; when it is not,
    [pressure_grad] adds no boundary term at all while the
    prescribed-elevation terms stay. *)
Theorem elevation_boundary_terms_partition (F : Type)
        (eq : MomentumRhs.equation) (a : MomentumRhs.arguments F)
        (f g : list MomentumRhs.term) :
  MomentumRhs.rhs F eq a = Ret (f, g) ->
  eta_boundary_markers f
  = (if MomentumRhs.grad_eta_by_parts eq
     then filter (fun m => negb (elevation_prescribed
                                   (MomentumRhs.momentum eq) m))
                 (MomentumEquation.boundary_markers (MomentumRhs.momentum eq))
     else []) /\
  elev_boundary_markers g
  = filter (fun m => elevation_prescribed (MomentumRhs.momentum eq) m)
           (MomentumEquation.boundary_markers (MomentumRhs.momentum eq)).
Proof.
  unfold MomentumRhs.rhs. intros Hrhs.
  apply bind_Ret_inv in Hrhs as ([fa ga] & Hadv & Hrhs).
  injection Hrhs as <- <-.
  assert (eta_boundary_markers fa = [] /\ elev_boundary_markers ga = [])
    as (Hfa & Hga).
  { destruct (MomentumEquation.nonlin (MomentumRhs.momentum eq)).
    - apply bind_Ret_inv in Hadv as (h & _ & Hadv).
      injection Hadv as <- <-.
      rewrite eta_boundary_markers_app, eta_boundary_markers_advection,
        eta_boundary_markers_vertical, elev_boundary_markers_vertical.
      auto.
    - injection Hadv as <- <-. auto. }
  simpl fst. simpl snd.
  rewrite !eta_boundary_markers_app, !elev_boundary_markers_app, Hfa, Hga.
  rewrite !eta_boundary_markers_when_given, !elev_boundary_markers_when_given,
    elev_boundary_markers_conditions;
    try reflexivity;
    try (destruct (MomentumEquation.horizontal_dg _); reflexivity);
    try (destruct (MomentumRhs.vertical_dg _); reflexivity).
  rewrite !app_nil_r. split; [|reflexivity].
  unfold MomentumRhs.pressure_grad.
  destruct (MomentumRhs.grad_eta_by_parts eq); [|reflexivity].
  rewrite map_app, eta_boundary_markers_app, eta_boundary_markers_pressure.
  reflexivity.
Qed.

Lemma elevation_boundary_terms_partition_witness :
  exists f g,
    MomentumRhs.rhs Z sample_open_equation no_arguments = Ret (f, g) /\
    eta_boundary_markers f = [2; 3]%Z /\
    elev_boundary_markers g = [1]%Z.
Proof.
  destruct (MomentumRhs.rhs Z sample_open_equation no_arguments)
    as [[f g]|e] eqn:Hrhs; [|vm_compute in Hrhs; discriminate].
  exists f, g. split; [reflexivity|].
  destruct (elevation_boundary_terms_partition Z sample_open_equation
              no_arguments f g Hrhs) as (Hf & Hg).
  split; [rewrite Hf|rewrite Hg]; reflexivity.
Defined.

(** X22. For the linear equation ([nonlin] false), [rhs] returns, and the
    form does not depend on the vertical velocity, the mesh velocity, the
    Lax-Friedrichs factor or the two velocity fields that scale it: no
    advection term, horizontal or vertical, is added. *)
Theorem linear_rhs_ignores_advection_arguments (F : Type)
        (eq : MomentumRhs.equation) (a : MomentumRhs.arguments F) :
  MomentumEquation.nonlin (MomentumRhs.momentum eq) = false ->
  (exists f g, MomentumRhs.rhs F eq a = Ret (f, g)) /\
  MomentumRhs.rhs F eq a
  = MomentumRhs.rhs F eq (without_advection_arguments a).
Proof.
  intros Hnl. unfold MomentumRhs.rhs. rewrite Hnl. simpl.
  split; [eauto|reflexivity].
Qed.

Lemma linear_rhs_ignores_advection_arguments_witness :
  MomentumEquation.nonlin
    (MomentumRhs.momentum
       {| MomentumRhs.momentum :=
            {| MomentumEquation.nonlin := false;
               MomentumEquation.horiz_advection_by_parts := true;
               MomentumEquation.horizontal_dg := true;
               MomentumEquation.boundary_markers := [1]%Z;
               MomentumEquation.boundary_len := ∅;
               MomentumEquation.bnd_functions := {[ 1%Z := {[ "un" ]} ]} |};
          MomentumRhs.grad_eta_by_parts := true;
          MomentumRhs.vertical_dg := true |}) = false /\
  MomentumRhs.rhs Z
    {| MomentumRhs.momentum :=
         {| MomentumEquation.nonlin := false;
            MomentumEquation.horiz_advection_by_parts := true;
            MomentumEquation.horizontal_dg := true;
            MomentumEquation.boundary_markers := [1]%Z;
            MomentumEquation.boundary_len := ∅;
            MomentumEquation.bnd_functions := {[ 1%Z := {[ "un" ]} ]} |};
       MomentumRhs.grad_eta_by_parts := true;
       MomentumRhs.vertical_dg := true |}
    no_arguments
  = Ret ([MomentumRhs.pressure MomentumRhs.head_divergence;
          MomentumRhs.pressure MomentumRhs.head_interior_jump;
          MomentumRhs.pressure MomentumRhs.head_bottom_surface;
          MomentumRhs.pressure (MomentumRhs.eta_boundary 1)], []).
Proof.
  split; [reflexivity|].
  destruct (linear_rhs_ignores_advection_arguments Z
              {| MomentumRhs.momentum :=
                   {| MomentumEquation.nonlin := false;
                      MomentumEquation.horiz_advection_by_parts := true;
                      MomentumEquation.horizontal_dg := true;
                      MomentumEquation.boundary_markers := [1]%Z;
                      MomentumEquation.boundary_len := ∅;
                      MomentumEquation.bnd_functions :=
                        {[ 1%Z := {[ "un" ]} ]} |};
                 MomentumRhs.grad_eta_by_parts := true;
                 MomentumRhs.vertical_dg := true |}
              no_arguments eq_refl) as (_ & ->).
  vm_compute. reflexivity.
Defined.

(** ** [initialize] followed by [advance] *)

(** X23. Once [initialize] was called, [SSPRK22ALE.advance] returns
    normally, whatever the stepper held before; and
    [TwoStageTrapezoid.advance] of a nontrivial equation starts both
    stages from the initial solution and leaves
    [solver_1(solver_0(init))] in [solution] and in [solution_old]. *)
Theorem advance_after_initialize {num} `{Arith num} (V E G : Type)
        (assemble_mu : G -> V -> list num)
        (assemble_l : G -> num -> V -> E -> list num)
        (lin_solve : G -> list num -> V)
        (solver_0 : num -> V -> E -> V)
        (solver_1 : num -> V -> V -> E -> V)
        (t : num) (cb : @TwoStage.callback num E) (init : V)
        (s : @TwoStage.ssprk22 num V E G)
        (z : @TwoStage.trapezoid num V E) :
  fst (TwoStage.advance V E G assemble_mu assemble_l lin_solve t cb
         (TwoStage.initialize V E G init s)) = Ret tt /\
  (TwoStage.z_nontrivial V E z = true ->
   let f0 := forced cb (add t (mul (of_int 0) (TwoStage.z_dt V E z)))
               (TwoStage.z_fields V E z) in
   let f1 := forced cb (add t (mul (of_int 1) (TwoStage.z_dt V E z))) f0 in
   let u := solver_1 (TwoStage.z_dt_const V E z)
              (solver_0 (TwoStage.z_dt_const V E z) init f0) init f1 in
   let z' := snd (TwoStage.z_advance V E solver_0 solver_1 t cb
                    (TwoStage.z_initialize V E init z)) in
   TwoStage.z_solution V E z' = u /\ TwoStage.z_solution_old V E z' = u).
Proof.
  split.
  - destruct s as [dt0 dtc u f g q q0 k nt ls ts].
    unfold TwoStage.advance, TwoStage.initialize, TwoStage.prepare_stage,
      TwoStage.call_forcings, TwoStage.solve_stage,
      TwoStage.stage_one_solve, TwoStage.stage_two_solve,
      TwoStage.stage_solve, TwoStage.stage_one_prep,
      TwoStage.stage_two_prep.
    destruct nt, cb as [h|]; reflexivity.
  - intros Hnt. destruct z as [dt0 dtc u uo f nt ts]. simpl in Hnt.
    subst nt. cbn zeta.
    unfold TwoStage.z_advance, TwoStage.z_initialize,
      TwoStage.z_solve_stage, TwoStage.z_call_forcings, forced.
    destruct cb as [h|]; simpl; auto.
Qed.

(** ** The inner step against its target, in the two arithmetics *)


(** ** [LeapFrogAM3] *)

(** X25. [LeapFrogAM3], once initialized and for a nontrivial equation,
    driven through the ALE protocol (prediction and evaluation of the
    right-hand side on the geometry [g] of the moment, correction on the
    new geometry [g']): the call returns; the prediction is solved with
    the mass matrix as it was last assembled, the correction with the mass
    matrix reassembled on [g'] and right-hand side
    [l(u_half) + M(g) u], both assembled on [g]; afterwards
    [solution_old] holds the previous solution and the mass matrix is
    that of [g'].  [advance] is this protocol on a mesh that does not
    move, after the forcing callback was invoked once at [t + dt]. *)
Theorem LeapFrogAM3_step_formula {num} `{Arith num} (V E G : Type)
        (assemble_mass : G -> V -> list num)
        (assemble_prediction : G -> num -> V -> V -> E -> list num)
        (assemble_l : G -> num -> V -> E -> list num)
        (mass_solve : G -> list num -> V)
        (t : num) (cb : @TwoStage.callback num E) (gm g' : G)
        (s : @LeapFrogAM3.state num V E G) :
  LeapFrogAM3._nontrivial V E G s = true ->
  LeapFrogAM3.mass_matrix V E G s = Some gm ->
  let g := LeapFrogAM3.geometry V E G s in
  let u := LeapFrogAM3.solution V E G s in
  let dtc := LeapFrogAM3.dt_const V E G s in
  let f := forced cb (add t (LeapFrogAM3.dt V E G s))
             (LeapFrogAM3.fields V E G s) in
  let u_half := mass_solve gm
                  (assemble_prediction g dtc u
                     (LeapFrogAM3.solution_old V E G s) f) in
  (exists s',
      leapfrog_ale_step assemble_mass assemble_prediction assemble_l
        mass_solve t cb g' s = (Ret tt, s') /\
      LeapFrogAM3.solution V E G s'
      = mass_solve g' (TwoStage.vadd (assemble_l g dtc u_half f)
                                     (assemble_mass g u)) /\
      LeapFrogAM3.solution_old V E G s' = u /\
      LeapFrogAM3.mass_matrix V E G s' = Some g' /\
      LeapFrogAM3.forcings V E G s'
      = LeapFrogAM3.forcings V E G s
          ++ match cb with
             | Some _ => [add t (LeapFrogAM3.dt V E G s)]
             | None => []
             end) /\
  LeapFrogAM3.advance V E G assemble_mass assemble_prediction assemble_l
    mass_solve t cb s
  = leapfrog_ale_step assemble_mass assemble_prediction assemble_l
      mass_solve t cb g s.
Proof.
  intros Hnt Hmm.
  destruct s as [dt0 dtc u uo mo r mm dg f g nt ts]. simpl in Hnt, Hmm.
  subst nt mm. cbn zeta.
  unfold LeapFrogAM3.advance, leapfrog_ale_step, leapfrog_forced,
    LeapFrogAM3.predict, LeapFrogAM3.eval_rhs, LeapFrogAM3.correct,
    LeapFrogAM3._solve_system, forced.
  destruct cb as [h|]; simpl.
  - split; [|reflexivity].
    eexists. split; [reflexivity|]. simpl. auto.
  - split; [|reflexivity].
    eexists. split; [reflexivity|]. simpl. rewrite app_nil_r. auto.
Qed.

Lemma LeapFrogAM3_step_formula_witness :
  LeapFrogAM3._nontrivial Q Q Q sample_leapfrog = true /\
  LeapFrogAM3.mass_matrix Q Q Q sample_leapfrog = Some 1%Q /\
  exists s',
    leapfrog_ale_step sample_assemble_mu sample_assemble_prediction
      sample_assemble_l sample_lin_solve 0%Q sample_ale_callback 2%Q
      sample_leapfrog = (Ret tt, s') /\
    LeapFrogAM3.solution_old Q Q Q s' = 3%Q /\
    LeapFrogAM3.mass_matrix Q Q Q s' = Some 2%Q.
Proof.
  split; [reflexivity|]. split; [reflexivity|].
  destruct (LeapFrogAM3_step_formula Q Q Q sample_assemble_mu
              sample_assemble_prediction sample_assemble_l
              sample_lin_solve 0%Q sample_ale_callback 1%Q 2%Q
              sample_leapfrog eq_refl eq_refl)
    as ((s' & Hrun & _ & Hold & Hmm & _) & _).
  exists s'. split; [exact Hrun|]. split; [exact Hold|exact Hmm].
Defined.

(** X26. [LeapFrogAM3.advance] on a stepper on which [initialize] was
    never called.  For a trivial equation nothing happens and the forcing
    callback is not invoked.  Otherwise, after the callback and the
    assembly of the prediction, the first solve raises [AttributeError]:
    for [mass_matrix] in a fully discontinuous space, for [lin_solver]
    otherwise; the solution has not been changed, but [solution_old]
    already holds it. *)
Theorem LeapFrogAM3_advance_without_initialize {num} `{Arith num}
        (V E G : Type)
        (assemble_mass : G -> V -> list num)
        (assemble_prediction : G -> num -> V -> V -> E -> list num)
        (assemble_l : G -> num -> V -> E -> list num)
        (mass_solve : G -> list num -> V)
        (t : num) (cb : @TwoStage.callback num E)
        (s : @LeapFrogAM3.state num V E G) :
  LeapFrogAM3.mass_matrix V E G s = None ->
  let r := LeapFrogAM3.advance V E G assemble_mass assemble_prediction
             assemble_l mass_solve t cb s in
  if LeapFrogAM3._nontrivial V E G s
  then fst r = Raise (AttributeError (if LeapFrogAM3.fs_is_dg V E G s
                                      then "mass_matrix" else "lin_solver"))
       /\ LeapFrogAM3.solution V E G (snd r) = LeapFrogAM3.solution V E G s
       /\ LeapFrogAM3.solution_old V E G (snd r)
          = LeapFrogAM3.solution V E G s
       /\ LeapFrogAM3.forcings V E G (snd r)
          = LeapFrogAM3.forcings V E G (leapfrog_forced cb t s)
  else r = (Ret tt, s).
Proof.
  intros Hmm.
  destruct s as [dt0 dtc u uo mo r mm dg f g nt ts]. simpl in Hmm.
  subst mm. cbn zeta.
  unfold LeapFrogAM3.advance, leapfrog_forced, LeapFrogAM3.predict,
    LeapFrogAM3._solve_system.
  destruct nt; [|reflexivity].
  destruct cb as [h|]; simpl; auto.
Qed.

Lemma LeapFrogAM3_advance_without_initialize_witness :
  LeapFrogAM3.mass_matrix Q Q Q
    sample_leapfrog_constructed = None /\
  fst (LeapFrogAM3.advance Q Q Q sample_assemble_mu
         sample_assemble_prediction sample_assemble_l sample_lin_solve
         0%Q sample_ale_callback
         sample_leapfrog_constructed)
  = Raise (AttributeError "mass_matrix").
Proof.
  split; [reflexivity|].
  exact (proj1 (LeapFrogAM3_advance_without_initialize Q Q Q
                  sample_assemble_mu sample_assemble_prediction
                  sample_assemble_l sample_lin_solve 0%Q
                  sample_ale_callback sample_leapfrog_constructed eq_refl)).
Defined.

(** ** Turbulence advection in [coupledSSPRKSemiImplicit] *)

(** What a successful [initialize] leaves of a freshly constructed
    [coupledSSPRKSemiImplicit] recipe. *)
Lemma semi_implicit_initialized {num} `{Arith num} (op : options)
      (dt dt_2d : num) (r : @obj num) (w : world) :
  new_coupledSSPRKSemiImplicit op dt dt_2d = Ret r ->
  run initialize r = (Ret tt, w) ->
  cls (self w) = coupledSSPRKSemiImplicit /\
  well_formed (self w) /\ _initialized (self w) = true /\
  opts (self w) = op /\ steppers (self w) = steppers r /\
  exists tb, tabs (self w) = Some tb /\ length (t_dt_frac tb) = 3%nat.
Proof.
  intros Hnew Hrun.
  destruct (new_coupledSSPRKSemiImplicit_well_formed _ _ _ _ Hnew)
    as (Hwf & Hopts & _ & _ & Hcls & _ & tb & Htb & Htabs).
  destruct (initialize_subcycling_inv r tb w Hwf Htabs (or_intror Hcls) Hrun)
    as (ps & Hps & ->).
  destruct (ssp_tables_lengths tb Htb) as (Hdf & _ & _).
  simpl. split; [exact Hcls|]. split; [exact Hwf|]. eauto 10.
Qed.

Lemma runs_semi_implicit_advection {num} `{Arith num}
      (utility : gset string) (tb : @tables num) (o : @obj num) :
  cls o = coupledSSPRKSemiImplicit -> well_formed o ->
  _initialized o = true -> tabs o = Some tb ->
  length (t_dt_frac tb) = 3%nat ->
  useTurbulenceAdvection (opts o) = true ->
  timeStepper_tkeAdvEq ∉ steppers o ->
  runs (advance utility) o (Raise (AttributeError "timeStepper_tkeAdvEq")) o
       (salt_events o 0 (useLimiterForTracers (opts o))).
Proof.
  intros Hcls Hwf Hinit Htabs Hdf Hadv Hmiss.
  destruct (well_formed_base o Hwf) as (H2d & _ & Hsalt).
  unfold advance.
  eapply runs_final; [eapply runs_bind; [apply runs_get|]| |];
    try reflexivity.
  rewrite Hcls. unfold advance_SemiImplicit.
  eapply runs_final.
  - run_step. rewrite Hinit. simpl. run_step.
    eapply runs_bind; [apply runs_get_stepper, H2d|].
    eapply runs_bind.
    { unfold get_tables. run_step. rewrite Htabs. apply runs_ret. }
    rewrite Hdf. change (seq 0 3) with (0 :: [1; 2])%nat.
    apply runs_for_each_raise.
    run_step.
    eapply runs_bind; [apply runs_salt_stage, Hsalt|].
    apply runs_bind_raise.
    apply runs_turbulence_advection_missing; [exact Hadv|exact Hmiss].
  - reflexivity.
  - simpl. rewrite app_nil_r. reflexivity.
Qed.

(** X27. [coupledSSPRKSemiImplicit.advance] with
    [useTurbulenceAdvection] on: the constructor assigns no
    [timeStepper_tkeAdvEq], so on the constructed and initialized recipe
    the call raises [AttributeError] for that attribute in stage 0, after
    the salt stage and before the momentum solve; no later stage runs and
    the pipeline is never entered. *)
Theorem SemiImplicit_turbulence_advection_raises {num} `{Arith num}
        (utility : gset string) (op : options) (dt dt_2d : num)
        (r : @obj num) (w : world) :
  new_coupledSSPRKSemiImplicit op dt dt_2d = Ret r ->
  useTurbulenceAdvection op = true ->
  run initialize r = (Ret tt, w) ->
  run (advance utility) (self w)
  = (Raise (AttributeError "timeStepper_tkeAdvEq"),
     {| self := self w;
        trace := salt_events (self w) 0 (useLimiterForTracers op) |}) /\
  entries (salt_events (self w) 0 (useLimiterForTracers op)) = [].
Proof.
  intros Hnew Hadv Hrun.
  assert (timeStepper_tkeAdvEq ∉ steppers r) as Hmiss.
  { unfold new_coupledSSPRKSemiImplicit in Hnew.
    apply bind_Ret_inv in Hnew as (tb' & _ & Hnew). injection Hnew as <-.
    simpl. unfold optional. intros Hin.
    destruct (solveSalt op), (solveVertDiffusion op), (useTurbulence op);
      simpl in Hin;
      repeat (apply elem_of_cons in Hin as [Hin|Hin]; [discriminate Hin|]);
      apply elem_of_nil in Hin; exact Hin. }
  destruct (semi_implicit_initialized op dt dt_2d r w Hnew Hrun)
    as (Hcls & Hwf & Hinit & Hopts & Hst & tb & Htabs & Hdf).
  split; [|apply entries_salt_events].
  rewrite <- Hopts. apply runs_run.
  apply (runs_semi_implicit_advection utility tb); try assumption.
  - rewrite Hopts. exact Hadv.
  - rewrite Hst. exact Hmiss.
Qed.

Lemma SemiImplicit_turbulence_advection_raises_witness :
  exists (r : @obj float) (w : world),
    new_coupledSSPRKSemiImplicit
      {| useALEMovingMesh := false; useBottomFriction := false;
         useParabolicViscosity := false; baroclinic := false;
         useTurbulence := true; useTurbulenceAdvection := true;
         useLimiterForTracers := false; solveSalt := false;
         solveVertDiffusion := false; smagorinskyFactor_given := false;
         saltJumpDiffFactor_given := false |} 10%float 3%float = Ret r /\
    run initialize r = (Ret tt, w) /\
    run (advance sample_utility) (self w)
    = (Raise (AttributeError "timeStepper_tkeAdvEq"),
       {| self := self w; trace := [] |}).
Proof.
  destruct (new_coupledSSPRKSemiImplicit
              {| useALEMovingMesh := false; useBottomFriction := false;
                 useParabolicViscosity := false; baroclinic := false;
                 useTurbulence := true; useTurbulenceAdvection := true;
                 useLimiterForTracers := false; solveSalt := false;
                 solveVertDiffusion := false;
                 smagorinskyFactor_given := false;
                 saltJumpDiffFactor_given := false |} 10%float 3%float)
    as [r|e] eqn:Hnew; [|vm_compute in Hnew; discriminate].
  destruct (run initialize r) as [res w] eqn:Hrun.
  assert (res = Ret tt) as ->.
  { vm_compute in Hnew. injection Hnew as <-.
    vm_compute in Hrun. injection Hrun as <- _. reflexivity. }
  exists r, w. split; [reflexivity|]. split; [exact Hrun|].
  destruct (SemiImplicit_turbulence_advection_raises sample_utility _
              10%float 3%float r w Hnew eq_refl Hrun) as (Hadv & _).
  rewrite Hadv. unfold salt_events.
  assert (solveSalt (opts (self w)) = false) as ->; [|reflexivity].
  vm_compute in Hnew. injection Hnew as <-.
  vm_compute in Hrun. injection Hrun as <-. reflexivity.
Defined.
